(** * Enclose solver: a shallow embedding of [solver.hpp] and its properties

    The development follows the source file top to bottom: the
    [DynamicBitset] of 64-bit words, the [FlowTemplate] with its bounded
    augmenting-path search, and [solve] with its three local closures
    ([bfs_reachable], [min_separator], [dfs]).  The rendering flood fill of
    the drivers ([print_ans], [buildSolvedGrid]) is embedded as well, since
    the enclosure property is stated with it.

    Conventions of the embedding.
    - Indices into containers (cell indices, node and edge ids, word
      indices) are [nat].  Grid coordinates, the budget [k], capacities and
      flows are [Z].
    - A 64-bit word is a [Z] in [0, 2^64); the unsigned operations of the
      bitset that can leave this range are reduced modulo [2^64].
    - [k + 1] and [k_rem + 1] are the only [int] additions of [solve] whose
      operands are not bounded by a container size or by a capacity; they
      are written with [int_wrap], the two's-complement result.
    - A read outside a [vector] or [string] of the input grid is the
      outcome [OutOfRange]; a loop that exhausts its iteration budget is
      the outcome [OutOfFuel].  The containers [solve] builds itself are
      read with a default value outside their range. *)

From Stdlib Require Import ZArith List Ascii String Lia Bool Permutation Sorting.Sorted.
From stdpp Require Import base list gmap strings sorting.

Local Open Scope Z_scope.
Local Open Scope list_scope.

(** ** Outcomes of a call *)

Inductive outcome (A : Type) : Type :=
| Returned (a : A)
| Thrown (what : string)
| OutOfRange
| OutOfFuel.

Arguments Returned {A} a.
Arguments Thrown {A} what.
Arguments OutOfRange {A}.
Arguments OutOfFuel {A}.

Definition obind {A B : Type} (m : outcome A) (f : A -> outcome B) : outcome B :=
  match m with
  | Returned a => f a
  | Thrown s => Thrown s
  | OutOfRange => OutOfRange
  | OutOfFuel => OutOfFuel
  end.

#[global] Instance outcome_bind : MBind outcome := fun _ _ f m => obind m f.
#[global] Instance outcome_ret : MRet outcome := fun _ a => Returned a.

Definition of_option {A : Type} (o : option A) : outcome A :=
  match o with Some a => Returned a | None => OutOfFuel end.

(** ** Machine integers *)

Definition INT_MIN : Z := - 2 ^ 31.
Definition INT_MAX : Z := 2 ^ 31 - 1.

Definition int_range (x : Z) : Prop := INT_MIN <= x <= INT_MAX.

(** Two's-complement reduction of a mathematical result to [int]. *)
Definition int_wrap (x : Z) : Z := (x + 2 ^ 31) mod 2 ^ 32 - 2 ^ 31.

Definition mask64 : Z := Z.ones 64.
Definition wrap64 (x : Z) : Z := x mod 2 ^ 64.

(** [~x] on a [uint64_t]. *)
Definition not64 (x : Z) : Z := Z.lxor x mask64.

(** Reads of the containers [solve] builds itself; outside the container
    they give [0] resp. [false]. *)
Definition getZ (l : list Z) (i : nat) : Z := default 0 (l !! i).
Definition getB (l : list bool) (i : nat) : bool := default false (l !! i).

(** [__builtin_popcountll] and [__builtin_ctzll]. *)
Definition popcount64 (x : Z) : nat :=
  length (filter (fun b => Z.testbit x (Z.of_nat b) = true) (seq 0 64)).

Definition ctz64 (x : Z) : nat :=
  match filter (fun b => Z.testbit x (Z.of_nat b) = true) (seq 0 64) with
  | b :: _ => b
  | [] => 64%nat
  end.

(** ** DynamicBitset *)

Record DynamicBitset : Type := mkBitset { nbits : nat; w : list Z }.

Definition word_of (i : nat) : nat := Nat.shiftr i 6.
Definition bit_of (i : nat) : Z := Z.of_nat (Nat.land i 63).

Module Bitset.

(** The default-constructed bitset. *)
Definition empty_bitset : DynamicBitset := mkBitset 0 [].

Definition init (n : nat) : DynamicBitset :=
  mkBitset n (replicate ((n + 63) / 64) 0).

Definition set (b : DynamicBitset) (i : nat) : DynamicBitset :=
  mkBitset (nbits b)
    (alter (fun x => Z.lor x (Z.shiftl 1 (bit_of i))) (word_of i) (w b)).

Definition reset (b : DynamicBitset) (i : nat) : DynamicBitset :=
  mkBitset (nbits b)
    (alter (fun x => Z.land x (not64 (Z.shiftl 1 (bit_of i)))) (word_of i) (w b)).

Definition test (b : DynamicBitset) (i : nat) : bool :=
  negb (Z.land (Z.shiftr (getZ (w b) (word_of i)) (bit_of i)) 1 =? 0).

Definition empty (b : DynamicBitset) : bool :=
  forallb (fun x => x =? 0) (w b).

Definition popcount (b : DynamicBitset) : nat :=
  fold_left (fun s x => (s + popcount64 x)%nat) (w b) 0%nat.

Definition or_with (b other : DynamicBitset) : DynamicBitset :=
  mkBitset (nbits b) (imap (fun i x => Z.lor x (getZ (w other) i)) (w b)).

Definition union (b other : DynamicBitset) : DynamicBitset := or_with b other.

Definition inter (b other : DynamicBitset) : DynamicBitset :=
  mkBitset (nbits b) (imap (fun i x => Z.land x (getZ (w other) i)) (w b)).

Definition intersects (b other : DynamicBitset) : bool :=
  existsb (fun x => negb (x =? 0))
    (imap (fun i x => Z.land x (getZ (w other) i)) (w b)).

Definition subset_of (b sup : DynamicBitset) : bool :=
  forallb (fun x => x =? 0)
    (imap (fun i x => Z.land x (not64 (getZ (w sup) i))) (w b)).

(** The inner [while (x)] loop of [for_each_set_bit]: one bit is cleared
    per round, so 64 rounds exhaust any word. *)
Fixpoint word_bits (rounds : nat) (nb wi : nat) (x : Z) : list nat :=
  match rounds with
  | O => []
  | S rounds' =>
      if x =? 0 then []
      else
        let lsb := Z.land x (wrap64 (not64 x + 1)) in
        let b := ctz64 x in
        let idx := (wi * 64 + b)%nat in
        (if (idx <? nb)%nat then [idx] else [])
          ++ word_bits rounds' nb wi (wrap64 (x - lsb))
  end.

(** The indices [for_each_set_bit] calls [f] with, in call order. *)
Definition set_bits (b : DynamicBitset) : list nat :=
  concat (imap (fun wi x => word_bits 64 (nbits b) wi x) (w b)).

Definition for_each_set_bit {S : Type} (b : DynamicBitset)
    (f : S -> nat -> S) (s : S) : S :=
  fold_left f (set_bits b) s.

(** [first_set_bit]; [None] stands for the result [-1]. *)
Fixpoint first_from (nb wi : nat) (ws : list Z) : option nat :=
  match ws with
  | [] => None
  | x :: ws' =>
      if x =? 0 then first_from nb (S wi) ws'
      else
        let idx := (wi * 64 + ctz64 x)%nat in
        if (idx <? nb)%nat then Some idx else first_from nb (S wi) ws'
  end.

Definition first_set_bit (b : DynamicBitset) : option nat :=
  first_from (nbits b) 0 (w b).

(** [operator==]. *)
Definition eqb (a b : DynamicBitset) : bool :=
  (nbits a =? nbits b)%nat && bool_decide (w a = w b).

End Bitset.

(** ** FlowTemplate *)

(** An entry of the [parent] array of [maxflow_limit]: [-1], [-2], or the
    id of the edge the node was discovered by. *)
Inductive parent_mark : Type :=
| Unseen
| Root
| Via (e : nat).

#[global] Instance parent_mark_inhabited : Inhabited parent_mark := populate Unseen.

Definition is_unseen (p : parent_mark) : bool :=
  match p with Unseen => true | _ => false end.

Module Flow.

Record FlowTemplate : Type := mkFlow {
  n : nat;
  adj : list (list nat);
  in_adj : list (list nat);
  to : list nat;
  frm : list nat;
  rev : list nat;
  base_cap : list Z
}.

Definition create (n_ : nat) : FlowTemplate :=
  mkFlow n_ (replicate n_ []) (replicate n_ []) [] [] [] [].

Definition push_at (i x : nat) (l : list (list nat)) : list (list nat) :=
  alter (fun es => es ++ [x]) i l.

Definition add_edge (ft : FlowTemplate) (u v : nat) (c : Z) : FlowTemplate * nat :=
  let idx := length (to ft) in
  (mkFlow (n ft)
     (push_at v (S idx) (push_at u idx (adj ft)))
     (push_at u (S idx) (push_at v idx (in_adj ft)))
     (to ft ++ [v; u])
     (frm ft ++ [u; v])
     (rev ft ++ [S idx; idx])
     (base_cap ft ++ [c; 0]),
   idx).

(** The [for (int e : adj[u])] loop of the breadth-first search; reaching
    [t] clears the queue and leaves the loop. *)
Fixpoint scan_edges (ft : FlowTemplate) (cap : list Z) (t : nat)
    (es : list nat) (parent : list parent_mark) (q : list nat)
    : list parent_mark * list nat :=
  match es with
  | [] => (parent, q)
  | e :: es' =>
      if getZ cap e <=? 0 then scan_edges ft cap t es' parent q
      else
        let v := to ft !!! e in
        if is_unseen (parent !!! v) then
          let parent' := <[v := Via e]> parent in
          if (v =? t)%nat then (parent', [])
          else scan_edges ft cap t es' parent' (q ++ [v])
        else scan_edges ft cap t es' parent q
  end.

(** [while (!q.empty() && parent[t] == -1)]. *)
Fixpoint bfs_loop (fuel : nat) (ft : FlowTemplate) (cap : list Z) (t : nat)
    (parent : list parent_mark) (q : list nat) : outcome (list parent_mark) :=
  match q with
  | [] => Returned parent
  | u :: q' =>
      if is_unseen (parent !!! t) then
        match fuel with
        | O => OutOfFuel
        | S fuel' =>
            let '(parent', q'') := scan_edges ft cap t (adj ft !!! u) parent q' in
            bfs_loop fuel' ft cap t parent' q''
        end
      else Returned parent
  end.

(** [while (v != s)]: push one unit back along the parent edges. *)
Fixpoint augment (fuel : nat) (ft : FlowTemplate) (s : nat)
    (parent : list parent_mark) (cap : list Z) (v : nat) : outcome (list Z) :=
  if (v =? s)%nat then Returned cap
  else
    match fuel with
    | O => OutOfFuel
    | S fuel' =>
        match parent !!! v with
        | Via e =>
            let cap1 := <[e := getZ cap e - 1]> cap in
            let cap2 := <[rev ft !!! e := getZ cap1 (rev ft !!! e) + 1]> cap1 in
            augment fuel' ft s parent cap2 (frm ft !!! e)
        | _ => OutOfRange
        end
    end.

(** [while (flow < limit)]. *)
Fixpoint flow_loop (rounds : nat) (ft : FlowTemplate) (s t : nat) (limit : Z)
    (cap : list Z) (flow : Z) : outcome (Z * list Z) :=
  if flow <? limit then
    match rounds with
    | O => OutOfFuel
    | S rounds' =>
        let parent0 := <[s := Root]> (replicate (n ft) Unseen) in
        parent ← bfs_loop (n ft) ft cap t parent0 [s];
        if is_unseen (parent !!! t) then Returned (flow, cap)
        else
          cap' ← augment (n ft) ft s parent cap t;
          flow_loop rounds' ft s t limit cap' (flow + 1)
    end
  else Returned (flow, cap).

(** [maxflow_limit]: the flow pushed, and the capacity vector as the
    call leaves it. *)
Definition maxflow_limit (ft : FlowTemplate) (s t : nat) (cap : list Z)
    (limit : Z) : outcome (Z * list Z) :=
  flow_loop (Z.to_nat limit) ft s t limit cap 0.

End Flow.

(** ** The input grid *)

Definition grid : Type := list string.

(** [grid[r][c]] on a [const vector<string>&]: reading the position one
    past the end of a row yields the null character; any other position
    outside the grid is a read out of range. *)
Definition grid_at (g : grid) (r c : Z) : outcome ascii :=
  if (r <? 0) || (c <? 0) then OutOfRange
  else
    match g !! Z.to_nat r with
    | None => OutOfRange
    | Some row =>
        match String.get (Z.to_nat c) row with
        | Some ch => Returned ch
        | None =>
            if (Z.to_nat c =? String.length row)%nat then Returned "000"%char
            else OutOfRange
        end
    end.

Definition is_open_cell (ch : ascii) : bool :=
  Ascii.eqb ch "."%char || Ascii.eqb ch "H"%char.

(** The message of the [std::runtime_error] thrown when no ['H'] is found. *)
Definition horse_missing : string := "grid に 'H' が見つかりません".

(** ** SolveResult and the search state *)

Record SolveResult : Type := mkResult {
  best_area : nat;
  walls : list (Z * Z)
}.

Record State : Type := mkState {
  deleted : DynamicBitset;
  forced : DynamicBitset;
  k_rem : Z
}.

Definition State_eqb (a b : State) : bool :=
  (k_rem a =? k_rem b)
  && Bitset.eqb (deleted a) (deleted b)
  && Bitset.eqb (forced a) (forced b).

(** ** solve, phase 1: locating the horse *)

Fixpoint find_in_row (g : grid) (r : Z) (cs : list Z) : outcome (option Z) :=
  match cs with
  | [] => Returned None
  | c :: cs' =>
      ch ← grid_at g r c;
      if Ascii.eqb ch "H"%char then Returned (Some c) else find_in_row g r cs'
  end.

Fixpoint find_in_rows (g : grid) (C : Z) (rs : list Z) : outcome (option (Z * Z)) :=
  match rs with
  | [] => Returned None
  | r :: rs' =>
      oc ← find_in_row g r (seqZ 0 C);
      match oc with
      | Some c => Returned (Some (r, c))
      | None => find_in_rows g C rs'
      end
  end.

Definition find_horse (g : grid) (R C : Z) : outcome (option (Z * Z)) :=
  find_in_rows g C (seqZ 0 R).

(** ** solve, phase 2: dense indices by breadth-first search *)

Definition to_int64 (x : Z) : Z := (x + 2 ^ 63) mod 2 ^ 64 - 2 ^ 63.

(** The [key] closure: [(long long) r << 32] xor [(unsigned long long) c],
    returned as [long long]. *)
Definition key (r c : Z) : Z :=
  to_int64 (Z.lxor (wrap64 (Z.shiftl r 32)) (wrap64 c)).

Definition dirs : list (Z * Z) := [(1, 0); (-1, 0); (0, 1); (0, -1)].

Record index_state : Type := mkIndex {
  idx_of : gmap Z nat;
  coords : list (Z * Z);
  queue : list (Z * Z)
}.

Fixpoint visit_dirs (g : grid) (R C r c : Z) (ds : list (Z * Z))
    (st : index_state) : outcome index_state :=
  match ds with
  | [] => Returned st
  | (dr, dc) :: ds' =>
      let nr := r + dr in
      let nc := c + dc in
      if (nr <? 0) || (R <=? nr) || (nc <? 0) || (C <=? nc)
      then visit_dirs g R C r c ds' st
      else
        ch ← grid_at g nr nc;
        if negb (is_open_cell ch) then visit_dirs g R C r c ds' st
        else
          let kk := key nr nc in
          match idx_of st !! kk with
          | Some _ => visit_dirs g R C r c ds' st
          | None =>
              visit_dirs g R C r c ds'
                (mkIndex (<[kk := length (coords st)]> (idx_of st))
                   (coords st ++ [(nr, nc)])
                   (queue st ++ [(nr, nc)]))
          end
  end.

Fixpoint index_loop (fuel : nat) (g : grid) (R C : Z) (st : index_state)
    : outcome index_state :=
  match queue st with
  | [] => Returned st
  | (r, c) :: q' =>
      match fuel with
      | O => OutOfFuel
      | S fuel' =>
          st' ← visit_dirs g R C r c dirs (mkIndex (idx_of st) (coords st) q');
          index_loop fuel' g R C st'
      end
  end.

Definition index_cells (g : grid) (R C hr hc : Z) : outcome index_state :=
  index_loop (Z.to_nat (R * C)) g R C
    (mkIndex {[ key hr hc := 0%nat ]} [(hr, hc)] [(hr, hc)]).

(** ** solve, phase 3: adjacency, wallable flags and the boundary set *)

Fixpoint neighbours (idx : gmap Z nat) (r c : Z) (ds : list (Z * Z)) : list nat :=
  match ds with
  | [] => []
  | (dr, dc) :: ds' =>
      match idx !! key (r + dr) (c + dc) with
      | Some j => j :: neighbours idx r c ds'
      | None => neighbours idx r c ds'
      end
  end.

Definition on_boundary (R C r c : Z) : bool :=
  (r =? 0) || (r =? R - 1) || (c =? 0) || (c =? C - 1).

Record cell_tables : Type := mkTables {
  adj : list (list nat);
  wallable : list bool;
  boundary : DynamicBitset
}.

Fixpoint scan_cells (g : grid) (R C : Z) (idx : gmap Z nat) (i : nat)
    (cs : list (Z * Z)) (tb : cell_tables) : outcome cell_tables :=
  match cs with
  | [] => Returned tb
  | (r, c) :: cs' =>
      let boundary' :=
        if on_boundary R C r c then Bitset.set (boundary tb) i else boundary tb in
      ch ← grid_at g r c;
      let wallable' := <[i := Ascii.eqb ch "."%char]> (wallable tb) in
      let adj' := <[i := neighbours idx r c dirs]> (adj tb) in
      scan_cells g R C idx (S i) cs' (mkTables adj' wallable' boundary')
  end.

Definition build_tables (g : grid) (R C : Z) (ix : index_state) : outcome cell_tables :=
  let N := length (coords ix) in
  scan_cells g R C (idx_of ix) 0 (coords ix)
    (mkTables (replicate N []) (replicate N false) (Bitset.init N)).

(** ** solve, phase 4: the flow network

    The locals of [solve] that its closures capture by reference. *)
Record env : Type := mkEnv {
  N : nat;
  cell_coords : list (Z * Z);
  tables : cell_tables;
  INF : Z;
  node_count : nat;
  SRC : nat;
  SNK : nat;
  flow : Flow.FlowTemplate;
  cell_edge_idx : list nat;
  src_edge_idx : list nat
}.

Definition horse_idx : nat := 0.

Definition add_cell_edges (n_cells : nat) (wl : list bool) (inf : Z)
    (ft : Flow.FlowTemplate) : Flow.FlowTemplate * list nat :=
  fold_left
    (fun '(ft, ids) i =>
       let cap_cell :=
         if (i =? horse_idx)%nat || negb (getB wl i) then inf else 1 in
       let '(ft', e) := Flow.add_edge ft (2 * i) (2 * i + 1) cap_cell in
       (ft', <[i := e]> ids))
    (seq 0 n_cells) (ft, replicate n_cells 0%nat).

Definition add_adj_edges (n_cells : nat) (ad : list (list nat)) (inf : Z)
    (ft : Flow.FlowTemplate) : Flow.FlowTemplate :=
  fold_left
    (fun ft i =>
       fold_left (fun ft j => fst (Flow.add_edge ft (2 * i + 1) (2 * j) inf))
         (ad !!! i) ft)
    (seq 0 n_cells) ft.

Definition add_sink_edges (n_cells : nat) (bd : DynamicBitset) (inf : Z)
    (snk : nat) (ft : Flow.FlowTemplate) : Flow.FlowTemplate :=
  fold_left
    (fun ft i =>
       if Bitset.test bd i then fst (Flow.add_edge ft (2 * i + 1) snk inf) else ft)
    (seq 0 n_cells) ft.

Definition add_src_edges (n_cells : nat) (inf : Z) (src : nat)
    (ft : Flow.FlowTemplate) : Flow.FlowTemplate * list nat :=
  fold_left
    (fun '(ft, ids) i =>
       let cap_src := if (i =? horse_idx)%nat then inf else 0 in
       let '(ft', e) := Flow.add_edge ft src (2 * i + 1) cap_src in
       (ft', <[i := e]> ids))
    (seq 0 n_cells) (ft, replicate n_cells 0%nat).

Definition build_env (k : Z) (cs : list (Z * Z)) (tb : cell_tables) : env :=
  let n_cells := length cs in
  let inf := int_wrap (k + 1) in
  let nodes := (2 * n_cells + 2)%nat in
  let src := (2 * n_cells)%nat in
  let snk := (2 * n_cells + 1)%nat in
  let '(ft1, cell_ids) :=
    add_cell_edges n_cells (wallable tb) inf (Flow.create nodes) in
  let ft2 := add_adj_edges n_cells (adj tb) inf ft1 in
  let ft3 := add_sink_edges n_cells (boundary tb) inf snk ft2 in
  let '(ft4, src_ids) := add_src_edges n_cells inf src ft3 in
  mkEnv n_cells cs tb inf nodes src snk ft4 cell_ids src_ids.

(** ** The closures of solve *)

Section Closures.

Variable E : env.

(** *** bfs_reachable *)

Fixpoint visit_adj (blocked : DynamicBitset) (vs : list nat)
    (vis : DynamicBitset) (dq : list nat) : DynamicBitset * list nat :=
  match vs with
  | [] => (vis, dq)
  | v :: vs' =>
      if Bitset.test blocked v then visit_adj blocked vs' vis dq
      else if Bitset.test vis v then visit_adj blocked vs' vis dq
      else visit_adj blocked vs' (Bitset.set vis v) (dq ++ [v])
  end.

Fixpoint reach_loop (fuel : nat) (blocked vis : DynamicBitset) (dq : list nat)
    : outcome DynamicBitset :=
  match dq with
  | [] => Returned vis
  | u :: dq' =>
      match fuel with
      | O => OutOfFuel
      | S fuel' =>
          let '(vis', dq'') := visit_adj blocked (adj (tables E) !!! u) vis dq' in
          reach_loop fuel' blocked vis' dq''
      end
  end.

(** The three out-parameters [vis_out], [area_out], [escapes_out]. *)
Definition bfs_reachable (blocked : DynamicBitset)
    : outcome (DynamicBitset * nat * bool) :=
  let vis0 := Bitset.init (N E) in
  if Bitset.test blocked horse_idx then Returned (vis0, 0%nat, true)
  else
    vis ← reach_loop (N E) blocked (Bitset.set vis0 horse_idx) [horse_idx];
    Returned (vis, Bitset.popcount vis, Bitset.intersects vis (boundary (tables E))).

(** *** min_separator *)

Definition patch_deleted (deleted : DynamicBitset) (cap : list Z) : list Z :=
  Bitset.for_each_set_bit deleted
    (fun cap i => <[cell_edge_idx E !!! i := 0]> cap) cap.

Definition patch_forced (deleted forced : DynamicBitset) (cap : list Z)
    : list Z * bool :=
  Bitset.for_each_set_bit forced
    (fun '(cap, ok) i =>
       if Bitset.test deleted i then (cap, false)
       else
         (<[src_edge_idx E !!! i := INF E]>
            (<[cell_edge_idx E !!! i := INF E]> cap), ok))
    (cap, true).

Fixpoint scan_in_edges (cap : list Z) (es : list nat) (can : list bool)
    (dq : list nat) : list bool * list nat :=
  match es with
  | [] => (can, dq)
  | e :: es' =>
      let u := Flow.frm (flow E) !!! e in
      if (0 <? getZ cap e) && negb (getB can u)
      then scan_in_edges cap es' (<[u := true]> can) (dq ++ [u])
      else scan_in_edges cap es' can dq
  end.

Fixpoint residual_loop (fuel : nat) (cap : list Z) (can : list bool)
    (dq : list nat) : outcome (list bool) :=
  match dq with
  | [] => Returned can
  | v :: dq' =>
      match fuel with
      | O => OutOfFuel
      | S fuel' =>
          let '(can', dq'') :=
            scan_in_edges cap (Flow.in_adj (flow E) !!! v) can dq' in
          residual_loop fuel' cap can' dq''
      end
  end.

Definition residual_reachable (cap : list Z) : outcome (list bool) :=
  residual_loop (node_count E) cap
    (<[SNK E := true]> (replicate (node_count E) false)) [SNK E].

Definition extract_sep (deleted forced : DynamicBitset) (can : list bool)
    : DynamicBitset :=
  fold_left
    (fun sep i =>
       if negb (getB (wallable (tables E)) i) then sep
       else if Bitset.test deleted i || Bitset.test forced i then sep
       else if negb (getB can (2 * i)) && getB can (2 * i + 1)
            then Bitset.set sep i else sep)
    (seq 0 (N E)) (Bitset.init (N E)).

(** [None] is the result [false]; [Some sep] is [true] with [sep_out]. *)
Definition min_separator (deleted forced : DynamicBitset) (k_rem : Z)
    : outcome (option DynamicBitset) :=
  let cap := patch_deleted deleted (Flow.base_cap (flow E)) in
  let '(cap, ok) := patch_forced deleted forced cap in
  if negb ok then Returned None
  else
    '(f, cap) ← Flow.maxflow_limit (flow E) (SRC E) (SNK E) cap (int_wrap (k_rem + 1));
    if k_rem <? f then Returned None
    else
      can ← residual_reachable cap;
      Returned (Some (extract_sep deleted forced can)).

(** *** dfs

    The variables of [solve] that [dfs] updates through its captures. *)
Record search : Type := mkSearch {
  visited_states : list State;
  cur_best_area : nat;
  best_walls : DynamicBitset
}.

Fixpoint dfs (depth : nat) (deleted forced : DynamicBitset) (k_rem : Z)
    (s : search) : outcome search :=
  match depth with
  | O => OutOfFuel
  | S depth' =>
      let st := mkState deleted forced k_rem in
      if existsb (State_eqb st) (visited_states s) then Returned s
      else
        let s := mkSearch (st :: visited_states s) (cur_best_area s) (best_walls s) in
        '(vis_now, ub_area, _) ← bfs_reachable deleted;
        if (ub_area <=? cur_best_area s)%nat then Returned s
        else if negb (Bitset.subset_of forced vis_now) then Returned s
        else
          osep ← min_separator deleted forced k_rem;
          match osep with
          | None => Returned s
          | Some sep =>
              let cand_walls := Bitset.union deleted sep in
              '(_, area2, escapes2) ← bfs_reachable cand_walls;
              let s :=
                if negb escapes2 && (cur_best_area s <? area2)%nat
                then mkSearch (visited_states s) area2 cand_walls
                else s in
              if (k_rem =? 0) || Bitset.empty sep then Returned s
              else
                match Bitset.first_set_bit sep with
                | None => Returned s
                | Some v =>
                    s1 ← dfs depth' deleted (Bitset.set forced v) k_rem s;
                    dfs depth' (Bitset.set deleted v) forced (k_rem - 1) s1
                end
          end
  end.

End Closures.

Arguments mkSearch visited_states cur_best_area best_walls : assert.

(** ** solve *)

Definition pair_le (a b : Z * Z) : Prop :=
  a.1 < b.1 \/ (a.1 = b.1 /\ a.2 <= b.2).

#[global] Instance pair_le_dec (a b : Z * Z) : Decision (pair_le a b).
Proof. unfold pair_le. apply _. Defined.

(** The first half of [solve]: the dimensions, the horse, the index space
    and the cell tables. *)
Definition graph_of (g : grid) : outcome (index_state * cell_tables) :=
  match g !! 0%nat with
  | None => OutOfRange
  | Some row0 =>
      let R := Z.of_nat (length g) in
      let C := Z.of_nat (String.length row0) in
      oh ← find_horse g R C;
      match oh with
      | None => Thrown horse_missing
      | Some (hr, hc) =>
          ix ← index_cells g R C hr hc;
          tb ← build_tables g R C ix;
          Returned (ix, tb)
      end
  end.

(** The calls [dfs(empty_deleted, start_forced, k)] of [solve]. *)
Definition search_from_root (E : env) (k : Z) : outcome search :=
  dfs E (S (N E)) (Bitset.init (N E)) (Bitset.set (Bitset.init (N E)) horse_idx) k
    (mkSearch [] 0%nat (Bitset.init (N E))).

(** The wall list read off [best_walls], before sorting. *)
Definition walls_of (cs : list (Z * Z)) (bw : DynamicBitset) : list (Z * Z) :=
  Bitset.for_each_set_bit bw (fun ws i => ws ++ [cs !!! i]) [].

Definition solve (k : Z) (g : grid) : outcome SolveResult :=
  '(ix, tb) ← graph_of g;
  if Bitset.test (boundary tb) horse_idx then Returned (mkResult 0 [])
  else
    let E := build_env k (coords ix) tb in
    s ← search_from_root E k;
    Returned (mkResult (cur_best_area s) (merge_sort pair_le (walls_of (coords ix) (best_walls s)))).

(** ** The rendering flood fill of the drivers

    [print_ans] and [buildSolvedGrid] overlay the walls as ['X'];
    [buildSolvedGrid] then floods from the horse over the 4-neighbours,
    blocked by ['#'] and ['X']. *)

Definition set_char (row : string) (c : nat) (ch : ascii) : string :=
  string_of_list_ascii (<[c := ch]> (list_ascii_of_string row)).

Definition overlay (g : grid) (ws : list (Z * Z)) : grid :=
  fold_left
    (fun g '(r, c) => alter (fun row => set_char row (Z.to_nat c) "X"%char) (Z.to_nat r) g)
    ws g.

Definition visited_at (visited : list (list bool)) (r c : Z) : bool :=
  getB (visited !!! Z.to_nat r) (Z.to_nat c).

Definition mark_visited (visited : list (list bool)) (r c : Z) : list (list bool) :=
  alter (fun row => <[Z.to_nat c := true]> row) (Z.to_nat r) visited.

Fixpoint flood_dirs (g : grid) (R C r c : Z) (ds : list (Z * Z))
    (visited : list (list bool)) (q : list (Z * Z))
    : outcome (list (list bool) * list (Z * Z)) :=
  match ds with
  | [] => Returned (visited, q)
  | (dr, dc) :: ds' =>
      let nr := r + dr in
      let nc := c + dc in
      if (nr <? 0) || (R <=? nr) || (nc <? 0) || (C <=? nc)
      then flood_dirs g R C r c ds' visited q
      else if visited_at visited nr nc then flood_dirs g R C r c ds' visited q
      else
        ch ← grid_at g nr nc;
        if Ascii.eqb ch "#"%char || Ascii.eqb ch "X"%char
        then flood_dirs g R C r c ds' visited q
        else flood_dirs g R C r c ds' (mark_visited visited nr nc) (q ++ [(nr, nc)])
  end.

Fixpoint flood_loop (fuel : nat) (g : grid) (R C : Z)
    (visited : list (list bool)) (q : list (Z * Z)) : outcome (list (list bool)) :=
  match q with
  | [] => Returned visited
  | (r, c) :: q' =>
      match fuel with
      | O => OutOfFuel
      | S fuel' =>
          '(visited', q'') ← flood_dirs g R C r c dirs visited q';
          flood_loop fuel' g R C visited' q''
      end
  end.

(** The [visited] matrix of [buildSolvedGrid] on the grid [g] (walls
    already overlaid). *)
Definition flood_fill (g : grid) : outcome (list (list bool)) :=
  match g !! 0%nat with
  | None => OutOfRange
  | Some row0 =>
      let R := Z.of_nat (length g) in
      let C := Z.of_nat (String.length row0) in
      let visited0 := replicate (length g) (replicate (String.length row0) false) in
      oh ← find_horse g R C;
      match oh with
      | None => Returned visited0
      | Some (hr, hc) =>
          flood_loop (Z.to_nat (R * C)) g R C (mark_visited visited0 hr hc) [(hr, hc)]
      end
  end.

(** The flood of the solved grid reaches a cell of the outermost row or
    column. *)
Definition flood_escapes (g : grid) (visited : list (list bool)) : bool :=
  match g !! 0%nat with
  | None => false
  | Some row0 =>
      let R := Z.of_nat (length g) in
      let C := Z.of_nat (String.length row0) in
      existsb
        (fun r => existsb (fun c => visited_at visited r c && on_boundary R C r c) (seqZ 0 C))
        (seqZ 0 R)
  end.

(** ** Well-formed inputs *)

Definition valid_char (ch : ascii) : bool :=
  Ascii.eqb ch "."%char || Ascii.eqb ch "#"%char || Ascii.eqb ch "H"%char.

Definition count_char (ch : ascii) (g : grid) : nat :=
  length (filter (fun x => x = ch) (concat (map list_ascii_of_string g))).

(** A syntactically valid grid: at least one row, all rows of the length
    of the first, every character one of ['.'], ['#'], ['H'], exactly one
    ['H'], and dimensions that fit the [int] variables [R] and [C]. *)
Definition valid_grid (g : grid) : bool :=
  match g with
  | [] => false
  | row0 :: _ =>
      (Z.of_nat (length g) <=? INT_MAX)
      && (Z.of_nat (String.length row0) <=? INT_MAX)
      && forallb (fun row => (String.length row =? String.length row0)%nat) g
      && forallb (fun row => forallb valid_char (list_ascii_of_string row)) g
      && (count_char "H"%char g =? 1)%nat
  end.

(** ** The properties of a result, as the specification words them *)


(** The number of cells the flood of the solved grid reaches. *)
Definition flooded_cells (visited : list (list bool)) : nat :=
  length (filter (fun b => b = true) (concat visited)).

(** [ws] is a placement of at most [k] walls on ['.'] cells. *)
Definition placement (k : Z) (g : grid) (ws : list (Z * Z)) : Prop :=
  NoDup ws /\ Z.of_nat (length ws) <= k
  /\ Forall (fun '(r, c) => grid_at g r c = Returned "."%char) ws.

(** [ws] encloses exactly [a] cells. *)
Definition encloses_area (g : grid) (ws : list (Z * Z)) (a : nat) : Prop :=
  exists visited,
    flood_fill (overlay g ws) = Returned visited
    /\ flood_escapes (overlay g ws) visited = false
    /\ flooded_cells visited = a.


(** ** The input and output of the drivers

    [parseGrid] of the WebAssembly driver, which is also the reading loop
    of [main] in the command-line driver: [std::getline] cuts the input at
    each newline (the last line needs none), one trailing carriage return
    is removed, and a line that is empty by then is dropped. *)

Definition newline : ascii := "010"%char.
Definition carriage_return : ascii := "013"%char.

(** [if (!line.empty() && line.back() == '\r') line.pop_back();] *)
Definition strip_cr (line : list ascii) : list ascii :=
  match last line with
  | Some c => if Ascii.eqb c carriage_return then removelast line else line
  | None => line
  end.

(** The body of the [while] loop. *)
Definition push_line (grid : list string) (line : list ascii) : list string :=
  match strip_cr line with
  | [] => grid
  | line' => grid ++ [string_of_list_ascii line']
  end.

(** The loop over the characters still to be read; [line] holds the
    characters extracted since the last newline.  At the end of the input
    [std::getline] fails when it has extracted nothing. *)
Fixpoint getlines (s : list ascii) (line : list ascii) (grid : list string)
    : list string :=
  match s with
  | [] =>
      match line with
      | [] => grid
      | _ => push_line grid line
      end
  | c :: s' =>
      if Ascii.eqb c newline then getlines s' [] (push_line grid line)
      else getlines s' (line ++ [c]) grid
  end.

Definition parseGrid (gridStr : string) : grid :=
  getlines (list_ascii_of_string gridStr) [] [].

(** [for (const auto& row : g) result += row + "\n";], the way
    [buildSolvedGrid] and [print_ans] write a grid out. *)
Definition unlines (g : grid) : string :=
  string_of_list_ascii
    (concat (map (fun row => list_ascii_of_string row ++ [newline]) g)).
(** ** Concrete runs *)

Definition open3 : grid := ["..."; ".H."; "..."]%string.
Definition ragged3 : grid := ["..."; ".H."; "...."]%string.

(** The grid as [solve] reads it: the first [C] characters of every row,
    [C] being the length of the first row. *)
Definition crop (g : grid) : grid :=
  map (String.substring 0 (String.length (default ""%string (g !! 0%nat)))) g.
Definition walled3 : grid := ["#####"; "#.H.#"; "#####"]%string.

(** The environment [solve 4 open3] builds for its closures. *)
Definition open3_env : env :=
  match graph_of open3 with
  | Returned (ix, tb) => build_env 4 (coords ix) tb
  | _ => build_env 4 [] (mkTables [] [] (Bitset.init 0))
  end.

(** ** Auxiliary notions of the proofs *)

Definition is_word (x : Z) : Prop := 0 <= x < 2 ^ 64.

(** The set bit positions of a word, ascending. *)
Definition bits_of (x : Z) : list nat :=
  filter (fun b => Z.testbit x (Z.of_nat b) = true) (seq 0 64).

(** A bitset over the index space [0, n): the word vector has the length
    [init] gives it, every entry is a 64-bit word, and no bit at or
    beyond [n] is set. *)
Definition wf_bitset (n : nat) (b : DynamicBitset) : Prop :=
  nbits b = n
  /\ length (w b) = ((n + 63) / 64)%nat
  /\ Forall is_word (w b)
  /\ forall i, Bitset.test b i = true -> (i < n)%nat.

(** The number of indices in a bitset, as [for_each_set_bit] counts them. *)
Definition card (b : DynamicBitset) : nat := length (Bitset.set_bits b).

(** ** The index space *)

Definition in_bounds (R C : Z) (p : Z * Z) : Prop :=
  0 <= p.1 < R /\ 0 <= p.2 < C.

Definition open_at (g : grid) (p : Z * Z) : Prop :=
  exists ch, grid_at g p.1 p.2 = Returned ch /\ is_open_cell ch = true.

(** Every position within [R] x [C] can be read. *)
Definition readable (g : grid) (R C : Z) : Prop :=
  forall p, in_bounds R C p -> exists ch, grid_at g p.1 p.2 = Returned ch.

Definition step_of (p d : Z * Z) : Z * Z := (p.1 + d.1, p.2 + d.2).

(** What the indexing loop maintains: the horse is cell 0, every indexed
    cell is an open cell of the grid, and [idx_of] is the inverse of
    [coords] through [key]. *)
Record index_inv (g : grid) (R C : Z) (h : Z * Z) (st : index_state) : Prop := {
  ii_head : coords st !! 0%nat = Some h;
  ii_bounds : forall i p, coords st !! i = Some p -> in_bounds R C p;
  ii_open : forall i p, coords st !! i = Some p -> open_at g p;
  ii_idx : forall i p, coords st !! i = Some p -> idx_of st !! key p.1 p.2 = Some i;
  ii_key : forall kk i, idx_of st !! kk = Some i ->
             exists p, coords st !! i = Some p /\ key p.1 p.2 = kk;
  ii_queue : forall p, p ∈ queue st -> p ∈ coords st
}.

(** All open neighbours of [p] within the grid are indexed. *)
Definition expanded (g : grid) (R C : Z) (cs : list (Z * Z)) (p : Z * Z) : Prop :=
  forall d, d ∈ dirs -> in_bounds R C (step_of p d) -> open_at g (step_of p d) ->
            step_of p d ∈ cs.

Definition closure_inv (g : grid) (R C : Z) (st : index_state) : Prop :=
  forall p, p ∈ coords st -> p ∈ queue st \/ expanded g R C (coords st) p.

(** What the table loop records for the cell [p] of index [j]. *)
Definition cell_facts (g : grid) (R C : Z) (idx : gmap Z nat) (tb : cell_tables)
    (j : nat) (p : Z * Z) : Prop :=
  adj tb !! j = Some (neighbours idx p.1 p.2 dirs)
  /\ (exists ch, grid_at g p.1 p.2 = Returned ch
                 /\ wallable tb !! j = Some (Ascii.eqb ch "."%char))
  /\ Bitset.test (boundary tb) j = on_boundary R C p.1 p.2.

Record tables_ok (g : grid) (R C : Z) (idx : gmap Z nat) (cs : list (Z * Z))
    (tb : cell_tables) : Prop := {
  tk_adj : length (adj tb) = length cs;
  tk_wallable : length (wallable tb) = length cs;
  tk_boundary : wf_bitset (length cs) (boundary tb);
  tk_facts : forall j p, cs !! j = Some p -> cell_facts g R C idx tb j p
}.

(** ** Search states *)

(** The cell tables as [dfs] relies on them: [n] cells, the horse (cell 0)
    not wallable. *)
Definition wallable_at (E : env) (i : nat) : bool := getB (wallable (tables E)) i.

(** A search state over the index space of [E]. *)
Record state_ok (E : env) (d f : DynamicBitset) : Prop := {
  so_deleted : wf_bitset (N E) d;
  so_forced : wf_bitset (N E) f;
  so_horse_forced : Bitset.test f horse_idx = true;
  so_horse_kept : Bitset.test d horse_idx = false;
  so_wallable : forall i, Bitset.test d i = true -> wallable_at E i = true;
  so_disjoint : forall i, Bitset.test d i = true -> Bitset.test f i = false
}.

(** The state [st] lies below the call [dfs(d, f, k)] in the recursion:
    more cells are deleted or forced, at most [N] in all, and the budget
    left is non-negative and went down by the number of cells deleted
    since. *)
Definition deeper (E : env) (d f : DynamicBitset) (k : Z) (st : State) : Prop :=
  (card d <= card (deleted st))%nat /\ (card f <= card (forced st))%nat
  /\ (card d + card f < card (deleted st) + card (forced st) <= N E)%nat
  /\ k_rem st = k - (Z.of_nat (card (deleted st)) - Z.of_nat (card d))
  /\ 0 <= k_rem st.

(** What [dfs] keeps true of [best_walls]. *)
Definition walls_ok (E : env) (s : search) : Prop :=
  wf_bitset (N E) (best_walls s)
  /\ forall i, Bitset.test (best_walls s) i = true -> wallable_at E i = true.

(** ** Dimensions *)

Definition rows (g : grid) : Z := Z.of_nat (length g).
Definition cols (g : grid) : Z := Z.of_nat (String.length (default ""%string (g !! 0%nat))).

(** The cell of index [i] is a ['.'] of the input grid. *)
Definition cell_is_dot (g : grid) (cs : list (Z * Z)) (i : nat) : Prop :=
  exists p, cs !! i = Some p /\ grid_at g p.1 p.2 = Returned "."%char.

(** ** bfs_reachable *)

Definition adj_ok (E : env) : Prop :=
  forall u v, v ∈ adj (tables E) !!! u -> (v < N E)%nat.

(** [vis] is closed under the unblocked adjacency, except at the cells
    still queued. *)
Definition reach_closed (E : env) (blocked vis : DynamicBitset) (dq : list nat) : Prop :=
  forall u, Bitset.test vis u = true -> u ∈ dq \/
    forall v, v ∈ adj (tables E) !!! u -> Bitset.test blocked v = false ->
              Bitset.test vis v = true.

(** [v] is reached from the horse along unblocked cells. *)
Inductive reaches (E : env) (blocked : DynamicBitset) : nat -> Prop :=
| reaches_horse : reaches E blocked horse_idx
| reaches_step u v :
    reaches E blocked u -> v ∈ adj (tables E) !!! u ->
    Bitset.test blocked v = false -> reaches E blocked v.

(** ** Flow templates *)

(** A template as [add_edge] builds it: the four edge vectors have one
    entry per edge, every endpoint is a node, [rev] pairs each edge with
    its twin, and the two adjacency tables list the edges by tail and by
    head. *)
Record flow_wf (ft : Flow.FlowTemplate) : Prop := {
  fw_frm : length (Flow.frm ft) = length (Flow.to ft);
  fw_rev : length (Flow.rev ft) = length (Flow.to ft);
  fw_cap : length (Flow.base_cap ft) = length (Flow.to ft);
  fw_adj_len : length (Flow.adj ft) = Flow.n ft;
  fw_in_len : length (Flow.in_adj ft) = Flow.n ft;
  fw_to_node : forall e v, Flow.to ft !! e = Some v -> (v < Flow.n ft)%nat;
  fw_frm_node : forall e u, Flow.frm ft !! e = Some u -> (u < Flow.n ft)%nat;
  fw_twin : forall e r, Flow.rev ft !! e = Some r ->
              r <> e /\ Flow.rev ft !! r = Some e
              /\ Flow.to ft !! r = Flow.frm ft !! e
              /\ Flow.frm ft !! r = Flow.to ft !! e;
  fw_adj : forall u e, e ∈ Flow.adj ft !!! u <-> Flow.frm ft !! e = Some u;
  fw_in_adj : forall v e, e ∈ Flow.in_adj ft !!! v <-> Flow.to ft !! e = Some v;
  fw_adj_nodup : forall u, NoDup (Flow.adj ft !!! u);
  fw_in_nodup : forall v, NoDup (Flow.in_adj ft !!! v)
}.

(** ** The breadth-first search of maxflow_limit *)

#[global] Instance parent_mark_eq : EqDecision parent_mark.
Proof. solve_decision. Defined.

Definition unseen (parent : list parent_mark) : nat :=
  length (filter (fun p => p = Unseen) parent).

Definition discovered (parent : list parent_mark) : nat :=
  length (filter (fun p => p <> Unseen) parent).

(** [v] is linked to [s] by [d] parent edges. *)
Inductive rooted (ft : Flow.FlowTemplate) (s : nat) (parent : list parent_mark)
  : nat -> nat -> Prop :=
| rooted_source : rooted ft s parent s 0
| rooted_via v e u d :
    v <> s -> parent !! v = Some (Via e) -> Flow.frm ft !! e = Some u ->
    rooted ft s parent u d -> rooted ft s parent v (S d).

Record bfs_inv (ft : Flow.FlowTemplate) (cap : list Z) (s : nat)
    (parent : list parent_mark) : Prop := {
  bi_len : length parent = Flow.n ft;
  bi_root : parent !! s = Some Root;
  bi_via : forall v e, parent !! v = Some (Via e) ->
             Flow.to ft !! e = Some v /\ 0 < getZ cap e;
  bi_rooted : forall v p, parent !! v = Some p -> p <> Unseen ->
                exists d, rooted ft s parent v d /\ (d < discovered parent)%nat
}.

(** Two capacity vectors that agree on the sum over every edge and its
    twin, as pushing flow along a path leaves them. *)
Definition same_pairs (ft : Flow.FlowTemplate) (cap cap' : list Z) : Prop :=
  length cap' = length cap
  /\ forall e r, Flow.rev ft !! e = Some r ->
       getZ cap' e + getZ cap' r = getZ cap e + getZ cap r.

Definition nonneg_caps (cap : list Z) : Prop := forall e, 0 <= getZ cap e.

(** The capacities of every edge and its reverse add up to an [int]: with
    them non-negative, the [cap[e] -= 1] and [cap[rev[e]] += 1] of an
    augmentation stay in the [int] range. *)
Definition caps_fit (ft : Flow.FlowTemplate) (cap : list Z) : Prop :=
  forall e r, Flow.rev ft !! e = Some r -> getZ cap e + getZ cap r <= INT_MAX.

(** ** The environment of the closures *)

Record env_ok (E : env) : Prop := {
  eo_cells : (0 < N E)%nat;
  eo_adj : adj_ok E;
  eo_flow : flow_wf (flow E);
  eo_n : Flow.n (flow E) = node_count E;
  eo_nodes : node_count E = (2 * N E + 2)%nat;
  eo_src : SRC E = (2 * N E)%nat;
  eo_snk : SNK E = (2 * N E + 1)%nat
}.

(** The cells neither walled nor forced in a search state. *)
Definition free_cells (E : env) (d f : DynamicBitset) : nat :=
  length (filter (fun i => Bitset.test d i = false /\ Bitset.test f i = false)
            (seq 0 (N E))).

Definition count_false (can : list bool) : nat :=
  length (filter (fun b => b = false) can).

(** The cell at [p] is read and is not the horse. *)
Definition not_horse (g : grid) (r c : Z) : Prop :=
  exists ch, grid_at g r c = Returned ch /\ ch <> "H"%char.

(** All rows have the length of the first one. *)
Definition rectangular (g : grid) : bool :=
  match g with
  | [] => false
  | row0 :: _ => forallb (fun row => (String.length row =? String.length row0)%nat) g
  end.

(** What [dfs] keeps true of the recorded best: nothing recorded yet, or a
    wall set whose flood fill is enclosed and has the recorded area. *)
Definition best_ok (E : env) (s : search) : Prop :=
  cur_best_area s = 0%nat
  \/ exists vis, bfs_reachable E (best_walls s) = Returned (vis, cur_best_area s, false).

(** ** Cells of a grid, by natural-number position *)

Definition cell (g : grid) (r c : nat) : option ascii :=
  match g !! r with
  | Some row => list_ascii_of_string row !! c
  | None => None
  end.

(** ** The visited matrix of the rendering flood fill *)

Definition matrix_shape (R C : Z) (visited : list (list bool)) : Prop :=
  length visited = Z.to_nat R
  /\ Forall (fun row => length row = Z.to_nat C) visited.

Definition unvisited (visited : list (list bool)) : nat :=
  count_false (concat visited).

(** What the flood loop maintains: the matrix keeps its shape, every
    marked cell has the property [P], and the queued cells are marked. *)
Definition flood_inv (R C : Z) (P : Z * Z -> Prop) (visited : list (list bool))
    (q : list (Z * Z)) : Prop :=
  matrix_shape R C visited
  /\ (forall p, in_bounds R C p -> visited_at visited p.1 p.2 = true -> P p)
  /\ (forall p, p ∈ q -> in_bounds R C p /\ visited_at visited p.1 p.2 = true).

(** The flood may step from [p] in direction [d]: the target lies in the
    grid and is neither ['#'] nor ['X']. *)
Definition flood_open (g : grid) (R C : Z) (p d : Z * Z) : Prop :=
  in_bounds R C (step_of p d)
  /\ exists ch, grid_at g (step_of p d).1 (step_of p d).2 = Returned ch
                /\ ch <> "#"%char /\ ch <> "X"%char.

(** Every marked cell is still queued, or all its open neighbours are
    marked. *)
Definition flood_closed (g : grid) (R C : Z) (visited : list (list bool))
    (q : list (Z * Z)) : Prop :=
  forall p, in_bounds R C p -> visited_at visited p.1 p.2 = true ->
    p ∈ q \/ forall d, d ∈ dirs -> flood_open g R C p d ->
                visited_at visited (step_of p d).1 (step_of p d).2 = true.

(** The cells of [g] linked to the start [h] by steps onto cells that are
    neither ['#'] nor ['X']. *)
Inductive flood_path (g : grid) (R C : Z) (h : Z * Z) : Z * Z -> Prop :=
| flood_start : flood_path g R C h h
| flood_next p d ch :
    flood_path g R C h p -> d ∈ dirs -> in_bounds R C (step_of p d) ->
    grid_at g (step_of p d).1 (step_of p d).2 = Returned ch ->
    ch <> "#"%char -> ch <> "X"%char ->
    flood_path g R C h (step_of p d).

(** The marked positions of a visited matrix, row by row. *)
Fixpoint marked_row (r c : nat) (row : list bool) : list (nat * nat) :=
  match row with
  | [] => []
  | b :: rest => (if b then [(r, c)] else []) ++ marked_row r (S c) rest
  end.

Fixpoint marked_from (r : nat) (visited : list (list bool)) : list (nat * nat) :=
  match visited with
  | [] => []
  | row :: rest => marked_row r 0 row ++ marked_from (S r) rest
  end.

(** The cells linked to [h] by steps onto open cells of the grid. *)
Inductive connected (g : grid) (R C : Z) (h : Z * Z) : Z * Z -> Prop :=
| connected_start : connected g R C h h
| connected_step p d :
    connected g R C h p -> d ∈ dirs -> in_bounds R C (step_of p d) ->
    open_at g (step_of p d) -> connected g R C h (step_of p d).

(** ** Rows as [parseGrid] handles them *)

(** A row that is not empty and holds no newline. *)
Definition line_row (row : string) : bool :=
  negb (String.eqb row ""%string)
  && forallb (fun c => negb (Ascii.eqb c newline)) (list_ascii_of_string row).

(** A [line_row] that does not end in a carriage return. *)
Definition plain_row (row : string) : bool :=
  line_row row
  && match last (list_ascii_of_string row) with
     | Some c => negb (Ascii.eqb c carriage_return)
     | None => true
     end.

(** ** Flow along the edges *)

Definition sum_over {A} (g : A -> Z) (l : list A) : Z :=
  foldr (fun x acc => g x + acc) 0 l.

(** The flow on edge [e] when the capacities went from [c0] to [c]. *)
Definition flow_on (c0 c : list Z) (e : nat) : Z := getZ c0 e - getZ c e.

(** The flow leaving node [u], over the edges and reverse edges of its
    adjacency list. *)
Definition excess (ft : Flow.FlowTemplate) (c0 c : list Z) (u : nat) : Z :=
  sum_over (flow_on c0 c) (Flow.adj ft !!! u).

Definition indicator (P : Prop) `{Decision P} : Z := if decide P then 1 else 0.

(** Every marked node is still queued, or the tails of its incoming
    edges with capacity left are marked. *)
Definition residual_closed (E : env) (cap : list Z) (can : list bool)
    (dq : list nat) : Prop :=
  forall v, getB can v = true -> v ∈ dq \/
    forall e, e ∈ Flow.in_adj (flow E) !!! v -> 0 < getZ cap e ->
              getB can (Flow.frm (flow E) !!! e) = true.

(** ** Augmenting paths *)

(** Node [v] has been discovered by the breadth-first search. *)
Definition seen (parent : list parent_mark) (v : nat) : bool :=
  negb (is_unseen (parent !!! v)).

(** Every discovered node is still queued, or the heads of its edges with
    capacity left are discovered. *)
Definition bfs_closed (ft : Flow.FlowTemplate) (cap : list Z)
    (parent : list parent_mark) (q : list nat) : Prop :=
  forall u, seen parent u = true -> u ∈ q \/
    forall e, e ∈ Flow.adj ft !!! u -> 0 < getZ cap e ->
              seen parent (Flow.to ft !!! e) = true.

(** A path along edges that have capacity left. *)
Inductive residual_path (ft : Flow.FlowTemplate) (cap : list Z) : nat -> nat -> Prop :=
| residual_here u : residual_path ft cap u u
| residual_edge u e v w :
    Flow.frm ft !! e = Some u -> Flow.to ft !! e = Some v -> 0 < getZ cap e ->
    residual_path ft cap v w -> residual_path ft cap u w.

(** * Properties of the 64-bit words *)

Arguments word_of : simpl never.
Arguments bit_of : simpl never.

Lemma word_of_div i : word_of i = (i / 64)%nat.
Proof. unfold word_of. rewrite Nat.shiftr_div_pow2. reflexivity. Qed.

Lemma bit_of_mod i : bit_of i = Z.of_nat (i mod 64).
Proof.
  unfold bit_of. f_equal.
  change 63%nat with (Nat.ones 6). rewrite Nat.land_ones. reflexivity.
Qed.

Lemma bit_of_range i : 0 <= bit_of i < 64.
Proof.
  rewrite bit_of_mod. pose proof (Nat.mod_upper_bound i 64). lia.
Qed.

Lemma index_split i : i = (word_of i * 64 + Z.to_nat (bit_of i))%nat.
Proof.
  rewrite word_of_div, bit_of_mod, Nat2Z.id.
  pose proof (Nat.div_mod_eq i 64). lia.
Qed.

Lemma index_join wi b :
  (b < 64)%nat ->
  word_of (wi * 64 + b) = wi /\ bit_of (wi * 64 + b) = Z.of_nat b.
Proof.
  intros Hb. rewrite word_of_div, bit_of_mod. split.
  - rewrite Nat.div_add_l by lia. rewrite Nat.div_small by lia. lia.
  - f_equal. rewrite Nat.add_comm, Nat.Div0.mod_add. apply Nat.mod_small. lia.
Qed.

Lemma is_word_high x j : is_word x -> 64 <= j -> Z.testbit x j = false.
Proof.
  intros [H0 H1] Hj.
  destruct (Z.eq_dec x 0) as [->|Hx]; [apply Z.bits_0|].
  apply Z.bits_above_log2; [lia|].
  assert (Z.log2 x < 64); [|lia].
  apply Z.log2_lt_pow2; lia.
Qed.

Lemma is_word_of_bits x :
  0 <= x -> (forall j, 64 <= j -> Z.testbit x j = false) -> is_word x.
Proof.
  intros H0 Hh. split; [assumption|].
  destruct (Z.eq_dec x 0) as [->|Hx]; [lia|].
  apply Z.log2_lt_pow2; [lia|].
  destruct (Z_lt_le_dec (Z.log2 x) 64) as [|Hge]; [assumption|].
  specialize (Hh (Z.log2 x) Hge).
  rewrite Z.bit_log2 in Hh by lia. discriminate.
Qed.

Lemma is_word_0 : is_word 0.
Proof. unfold is_word. lia. Qed.

Lemma is_word_lor x y : is_word x -> is_word y -> is_word (Z.lor x y).
Proof.
  intros Hx Hy. apply is_word_of_bits.
  - apply Z.lor_nonneg. unfold is_word in *. lia.
  - intros j Hj. rewrite Z.lor_spec, !is_word_high by assumption. reflexivity.
Qed.

Lemma is_word_land x y : is_word x -> is_word (Z.land x y).
Proof.
  intros Hx. apply is_word_of_bits.
  - apply Z.land_nonneg. unfold is_word in *. lia.
  - intros j Hj. rewrite Z.land_spec, is_word_high by assumption. reflexivity.
Qed.

Lemma is_word_bit p : 0 <= p < 64 -> is_word (Z.shiftl 1 p).
Proof.
  intros Hp. rewrite Z.shiftl_1_l. split; [apply Z.pow_nonneg; lia|].
  apply Z.pow_lt_mono_r; lia.
Qed.

Lemma testbit_single p q : 0 <= p -> Z.testbit (Z.shiftl 1 p) q = (p =? q).
Proof.
  intros Hp. rewrite Z.shiftl_1_l. rewrite Z.pow2_bits_eqb by assumption.
  reflexivity.
Qed.

Lemma test_shift_and x p :
  0 <= p -> negb (Z.land (Z.shiftr x p) 1 =? 0) = Z.testbit x p.
Proof.
  intros Hp.
  change 1 with (Z.ones 1). rewrite Z.land_ones by lia.
  change (2 ^ 1) with 2. rewrite <- Z.bit0_mod.
  rewrite Z.shiftr_spec by lia. rewrite Z.add_0_l.
  destruct (Z.testbit x p); reflexivity.
Qed.

Lemma not64_spec x j :
  0 <= j -> Z.testbit (not64 x) j = xorb (Z.testbit x j) (j <? 64).
Proof.
  intros Hj. unfold not64, mask64. rewrite Z.lxor_spec.
  rewrite Z.testbit_ones by lia.
  replace (0 <=? j) with true by (symmetry; apply Z.leb_le; lia).
  reflexivity.
Qed.

Lemma word_eq_0 x :
  is_word x -> (forall b, (b < 64)%nat -> Z.testbit x (Z.of_nat b) = false) -> x = 0.
Proof.
  intros Hx Hb. apply Z.bits_inj'. intros j Hj. rewrite Z.bits_0.
  destruct (Z_lt_le_dec j 64) as [Hlt|Hge].
  - specialize (Hb (Z.to_nat j)). rewrite Z2Nat.id in Hb by lia. apply Hb. lia.
  - apply is_word_high; assumption.
Qed.

Lemma elem_of_bits_of x b :
  b ∈ bits_of x <-> (b < 64)%nat /\ Z.testbit x (Z.of_nat b) = true.
Proof.
  unfold bits_of. rewrite list_elem_of_filter, elem_of_seq. intuition lia.
Qed.

Lemma bits_of_nil x : is_word x -> bits_of x = [] -> x = 0.
Proof.
  intros Hx Hn. apply word_eq_0; [assumption|].
  intros b Hb. destruct (Z.testbit x (Z.of_nat b)) eqn:Ht; [|reflexivity].
  assert (b ∈ bits_of x) as Hin by (apply elem_of_bits_of; auto).
  rewrite Hn in Hin. inversion Hin.
Qed.

Lemma word_ne_0 x :
  is_word x -> x <> 0 ->
  exists b, (b < 64)%nat /\ Z.testbit x (Z.of_nat b) = true.
Proof.
  intros Hx Hne. destruct (bits_of x) as [|b rest] eqn:Hb.
  - exfalso. apply Hne, bits_of_nil; assumption.
  - exists b. apply elem_of_bits_of. rewrite Hb. left.
Qed.

Lemma bits_of_0 : bits_of 0 = [].
Proof. reflexivity. Qed.

Lemma NoDup_bits_of x : NoDup (bits_of x).
Proof. apply NoDup_filter, NoDup_seq. Qed.

(** ** The lowest set bit *)

Lemma ctz64_head x b rest : bits_of x = b :: rest -> ctz64 x = b.
Proof. unfold ctz64, bits_of. intros ->. reflexivity. Qed.

Lemma bits_of_head x b rest :
  bits_of x = b :: rest ->
  (b < 64)%nat /\ Z.testbit x (Z.of_nat b) = true
  /\ forall j, (j < b)%nat -> Z.testbit x (Z.of_nat j) = false.
Proof.
  intros Hb.
  assert (b ∈ bits_of x) as Hin by (rewrite Hb; left).
  apply elem_of_bits_of in Hin as [Hlt Hset]. split; [assumption|]. split; [assumption|].
  intros j Hj. destruct (Z.testbit x (Z.of_nat j)) eqn:Ht; [|reflexivity]. exfalso.
  unfold bits_of in Hb.
  assert (seq 0 64 = seq 0 j ++ j :: seq (S j) (63 - j)) as Hsplit.
  { replace 64%nat with (j + S (63 - j))%nat at 1 by lia.
    rewrite seq_app. simpl. reflexivity. }
  rewrite Hsplit, filter_app, filter_cons_True in Hb by assumption.
  assert (b ∈ filter (fun b0 => Z.testbit x (Z.of_nat b0) = true) (seq 0 j)
          \/ b = j) as [Hin|Heq].
  { destruct (filter _ (seq 0 j)) as [|y l] eqn:Hf.
    - right. simpl in Hb. congruence.
    - left. simpl in Hb. injection Hb as -> _. left. }
  - apply list_elem_of_filter in Hin as [_ Hin]. apply elem_of_seq in Hin. lia.
  - lia.
Qed.

Lemma land_complement a p :
  0 <= p -> 0 <= a < 2 ^ p -> Z.land a (2 ^ p - 1 - a) = 0.
Proof.
  intros Hp Ha.
  assert (Z.ldiff a (Z.ones p) = 0) as Hd.
  { apply Z.bits_inj'. intros j Hj. rewrite Z.ldiff_spec, Z.bits_0.
    rewrite Z.testbit_ones by lia.
    destruct (Z_lt_le_dec j p).
    - replace (0 <=? j) with true by (symmetry; apply Z.leb_le; lia).
      replace (j <? p) with true by (symmetry; apply Z.ltb_lt; lia).
      simpl. apply andb_false_r.
    - replace (Z.testbit a j) with false; [reflexivity|].
      symmetry. destruct (Z.eq_dec a 0) as [->|]; [apply Z.bits_0|].
      apply Z.bits_above_log2; [lia|].
      assert (Z.log2 a < p) by (apply Z.log2_lt_pow2; lia). lia. }
  replace (2 ^ p - 1 - a) with (Z.ones p - a) by (rewrite Z.ones_equiv; lia).
  rewrite (Z.sub_nocarry_ldiff _ _ Hd).
  apply Z.bits_inj'. intros j Hj.
  rewrite Z.land_spec, Z.ldiff_spec, Z.bits_0.
  destruct (Z.testbit a j); simpl; [apply andb_false_r | reflexivity].
Qed.

Lemma lowest_bit_isolated x b :
  is_word x -> (b < 64)%nat -> Z.testbit x (Z.of_nat b) = true ->
  (forall j, (j < b)%nat -> Z.testbit x (Z.of_nat j) = false) ->
  Z.land x (wrap64 (not64 x + 1)) = 2 ^ Z.of_nat b.
Proof.
  intros Hx Hb Hset Hlow.
  set (p := Z.of_nat b).
  assert (0 <= p < 64) as Hp by (unfold p; lia).
  (* x = 2^p * (2m + 1) *)
  assert (x mod 2 ^ p = 0) as Hmod.
  { rewrite <- Z.land_ones by lia. apply Z.bits_inj'. intros j Hj.
    rewrite Z.land_spec, Z.bits_0, Z.testbit_ones by lia.
    destruct (Z_lt_le_dec j p).
    - specialize (Hlow (Z.to_nat j)). rewrite Z2Nat.id in Hlow by lia.
      rewrite Hlow by lia. reflexivity.
    - replace (j <? p) with false by (symmetry; apply Z.ltb_ge; lia).
      rewrite andb_false_r. apply andb_false_r. }
  set (y := x / 2 ^ p).
  assert (x = 2 ^ p * y) as Hxy.
  { unfold y. pose proof (Z.div_mod x (2 ^ p)) as Hdm.
    assert (2 ^ p <> 0) by (apply Z.pow_nonzero; lia). specialize (Hdm H). lia. }
  assert (Z.odd y = true) as Hodd.
  { rewrite <- Z.bit0_odd. unfold y. rewrite <- Z.shiftr_div_pow2 by lia.
    rewrite Z.shiftr_spec by lia. rewrite Z.add_0_l. exact Hset. }
  set (m := y / 2).
  assert (y = 2 * m + 1) as Hy.
  { unfold m. pose proof (Z.div_mod y 2 ltac:(lia)) as Hdm.
    rewrite Zmod_odd, Hodd in Hdm. lia. }
  assert (0 < 2 ^ p) as Hpp by (apply Z.pow_pos_nonneg; lia).
  assert (2 ^ 64 = 2 ^ p * (2 * 2 ^ (63 - p))) as H64.
  { rewrite <- Z.pow_succ_r by lia. rewrite <- Z.pow_add_r by lia.
    f_equal. lia. }
  assert (0 < 2 ^ (63 - p)) as Hq by (apply Z.pow_pos_nonneg; lia).
  destruct Hx as [Hx0 Hx1].
  assert (0 <= m < 2 ^ (63 - p)) as Hm.
  { split; [nia|]. rewrite H64, Hxy, Hy in Hx1. nia. }
  assert (not64 x + 1 = 2 ^ 64 - x) as Hnot.
  { unfold not64, mask64.
    assert (Z.ldiff x (Z.ones 64) = 0) as Hd.
    { apply Z.bits_inj'. intros j Hj. rewrite Z.ldiff_spec, Z.bits_0.
      rewrite Z.testbit_ones by lia.
      destruct (Z_lt_le_dec j 64).
      - replace (0 <=? j) with true by (symmetry; apply Z.leb_le; lia).
        replace (j <? 64) with true by (symmetry; apply Z.ltb_lt; lia).
        simpl. apply andb_false_r.
      - rewrite is_word_high; [reflexivity| split; lia | lia]. }
    rewrite Z.lxor_comm.
    assert (Z.lxor (Z.ones 64) x = Z.ones 64 - x) as ->.
    { rewrite (Z.sub_nocarry_ldiff _ _ Hd).
      apply Z.bits_inj'. intros j Hj. rewrite Z.lxor_spec, Z.ldiff_spec.
      destruct (Z.testbit (Z.ones 64) j) eqn:H1, (Z.testbit x j) eqn:H2;
        try reflexivity.
      exfalso. rewrite Z.testbit_ones in H1 by lia.
      destruct (Z_lt_le_dec j 64).
      + replace (0 <=? j) with true in H1 by (symmetry; apply Z.leb_le; lia).
        replace (j <? 64) with true in H1 by (symmetry; apply Z.ltb_lt; lia).
        discriminate.
      + rewrite is_word_high in H2; [discriminate| split; lia | lia]. }
    rewrite Z.ones_equiv. lia. }
  rewrite Hnot. unfold wrap64.
  rewrite Z.mod_small by nia.
  replace (2 ^ 64 - x) with (2 ^ p * (2 * (2 ^ (63 - p) - 1 - m) + 1))
    by (rewrite H64, Hxy, Hy; ring).
  rewrite Hxy, Hy.
  rewrite !(Z.mul_comm (2 ^ p)), <- !Z.shiftl_mul_pow2 by lia.
  rewrite <- Z.shiftl_land.
  assert (Z.land (2 * m + 1) (2 * (2 ^ (63 - p) - 1 - m) + 1) = 1) as ->.
  { apply Z.bits_inj'. intros j Hj.
    rewrite Z.land_spec.
    destruct (Z.eq_dec j 0) as [->|Hj0].
    - rewrite !Z.testbit_odd_0. reflexivity.
    - replace j with (Z.succ (j - 1)) by lia.
      rewrite !Z.testbit_odd_succ by lia.
      rewrite <- Z.land_spec, land_complement by lia.
      rewrite Z.bits_0. symmetry.
      change 1 with (2 * 0 + 1). rewrite Z.testbit_odd_succ by lia.
      apply Z.bits_0. }
  rewrite Z.shiftl_1_l. reflexivity.
Qed.

Lemma clear_lowest x b rest :
  is_word x -> bits_of x = b :: rest ->
  let x' := wrap64 (x - Z.land x (wrap64 (not64 x + 1))) in
  is_word x' /\ bits_of x' = rest.
Proof.
  intros Hx Hb x'.
  destruct (bits_of_head _ _ _ Hb) as (Hlt & Hset & Hlow).
  assert (x' = Z.ldiff x (2 ^ Z.of_nat b)) as Hx'.
  { unfold x'. rewrite (lowest_bit_isolated x b) by assumption.
    assert (Z.ldiff (2 ^ Z.of_nat b) x = 0) as Hd.
    { apply Z.bits_inj'. intros j Hj. rewrite Z.ldiff_spec, Z.bits_0.
      rewrite Z.pow2_bits_eqb by lia.
      destruct (Z.eqb_spec (Z.of_nat b) j) as [<-|]; [|reflexivity].
      rewrite Hset. reflexivity. }
    rewrite (Z.sub_nocarry_ldiff _ _ Hd).
    unfold wrap64. apply Z.mod_small.
    assert (is_word (Z.ldiff x (2 ^ Z.of_nat b))) as Hw; [|exact Hw].
    apply is_word_of_bits.
    - apply Z.ldiff_nonneg. left. unfold is_word in Hx. lia.
    - intros j Hj. rewrite Z.ldiff_spec, is_word_high by assumption. reflexivity. }
  assert (forall j, 0 <= j ->
            Z.testbit x' j = Z.testbit x j && negb (Z.of_nat b =? j)) as Hbits.
  { intros j Hj. rewrite Hx', Z.ldiff_spec, Z.pow2_bits_eqb by lia. reflexivity. }
  split.
  - apply is_word_of_bits.
    + rewrite Hx'. apply Z.ldiff_nonneg. left. unfold is_word in Hx. lia.
    + intros j Hj. rewrite Hbits by lia. rewrite is_word_high by assumption.
      reflexivity.
  - unfold bits_of in *.
    rewrite (list_filter_iff _
               (fun j => j <> b /\ Z.testbit x (Z.of_nat j) = true)).
    2:{ intros j. rewrite Hbits by lia.
        destruct (Z.eqb_spec (Z.of_nat b) (Z.of_nat j)) as [Heq|Hne].
        - apply Nat2Z.inj in Heq. subst j. rewrite andb_false_r. split; [discriminate|].
          intros [Hne _]. congruence.
        - rewrite andb_true_r. split; [intros ?; split; [lia|assumption]|tauto]. }
    rewrite <- list_filter_filter, Hb.
    rewrite filter_cons_False by tauto.
    assert (NoDup (b :: rest)) as Hnd.
    { rewrite <- Hb. apply NoDup_filter, NoDup_seq. }
    apply NoDup_cons in Hnd as [Hnin _].
    clear -Hnin. induction rest as [|y rest IH]; [reflexivity|].
    rewrite filter_cons_True.
    + f_equal. apply IH. intros Hin. apply Hnin. right. exact Hin.
    + intros ->. apply Hnin. left.
Qed.

Lemma word_bits_spec rounds nb wi x :
  is_word x -> (length (bits_of x) <= rounds)%nat ->
  Bitset.word_bits rounds nb wi x
  = filter (fun i => (i < nb)%nat) (map (fun b => (wi * 64 + b)%nat) (bits_of x)).
Proof.
  revert x. induction rounds as [|rounds IH]; intros x Hx Hlen.
  - destruct (bits_of x); [reflexivity | simpl in Hlen; lia].
  - cbn [Bitset.word_bits].
    destruct (Z.eqb_spec x 0) as [->|Hx0]; [reflexivity|].
    destruct (bits_of x) as [|b rest] eqn:Hb.
    { exfalso. apply Hx0. apply bits_of_nil; assumption. }
    destruct (clear_lowest x b rest Hx Hb) as [Hw Hrest].
    rewrite IH by (try assumption; rewrite Hrest; simpl in Hlen; lia).
    rewrite Hrest, (ctz64_head _ _ _ Hb). cbn [map].
    destruct (Nat.ltb_spec (wi * 64 + b) nb).
    + rewrite filter_cons_True by assumption. reflexivity.
    + rewrite filter_cons_False by lia. reflexivity.
Qed.

Arguments Bitset.word_bits : simpl never.

Lemma length_bits_of x : (length (bits_of x) <= 64)%nat.
Proof.
  unfold bits_of. etransitivity; [apply length_filter|]. rewrite length_seq. lia.
Qed.

Lemma elem_of_word_bits nb wi x i :
  is_word x ->
  i ∈ Bitset.word_bits 64 nb wi x
  <-> (i < nb)%nat /\ word_of i = wi /\ Z.testbit x (bit_of i) = true.
Proof.
  intros Hx. rewrite word_bits_spec by (try assumption; apply length_bits_of).
  rewrite list_elem_of_filter, list_elem_of_fmap. split.
  - intros (Hlt & b & -> & Hb). apply elem_of_bits_of in Hb as [Hb Hset].
    destruct (index_join wi b Hb) as [-> ->]. auto.
  - intros (Hlt & Hwi & Hset). split; [assumption|].
    exists (Z.to_nat (bit_of i)). split.
    + rewrite <- Hwi. apply index_split.
    + apply elem_of_bits_of. pose proof (bit_of_range i).
      rewrite Z2Nat.id by lia. split; [lia|assumption].
Qed.

Lemma NoDup_word_bits nb wi x : is_word x -> NoDup (Bitset.word_bits 64 nb wi x).
Proof.
  intros Hx. rewrite word_bits_spec by (try assumption; apply length_bits_of).
  apply NoDup_filter. apply NoDup_fmap_2; [|apply NoDup_bits_of].
  intros a b. lia.
Qed.

(** ** The bitset operations, bit by bit *)

Lemma test_testbit b i :
  Bitset.test b i = Z.testbit (getZ (w b) (word_of i)) (bit_of i).
Proof.
  unfold Bitset.test. apply test_shift_and. pose proof (bit_of_range i). lia.
Qed.

Lemma test_out_of_words b i :
  (length (w b) <= word_of i)%nat -> Bitset.test b i = false.
Proof.
  intros Hlen. rewrite test_testbit. unfold getZ.
  rewrite (lookup_ge_None_2 _ _ Hlen). apply Z.bits_0.
Qed.

Lemma words_cover n i : (i < n)%nat -> (word_of i < (n + 63) / 64)%nat.
Proof.
  intros Hi. rewrite word_of_div.
  apply Nat.Div0.div_lt_upper_bound.
  pose proof (Nat.div_mod_eq (n + 63) 64) as Hd.
  pose proof (Nat.mod_upper_bound (n + 63) 64). lia.
Qed.

Lemma getZ_alter_eq f l i :
  (i < length l)%nat -> getZ (alter f i l) i = f (getZ l i).
Proof.
  intros Hi. unfold getZ. rewrite list_lookup_alter_eq.
  destruct (lookup_lt_is_Some_2 l i Hi) as [x ->]. reflexivity.
Qed.

Lemma getZ_alter_ne f l i j : i <> j -> getZ (alter f i l) j = getZ l j.
Proof. intros Hi. unfold getZ. rewrite list_lookup_alter_ne by assumption. reflexivity. Qed.

Lemma getZ_replicate n i : getZ (replicate n 0) i = 0.
Proof.
  unfold getZ. destruct (replicate n 0 !! i) as [x|] eqn:Hl; [|reflexivity].
  apply lookup_replicate in Hl as [-> _]. reflexivity.
Qed.

Lemma getZ_word l i : Forall is_word l -> is_word (getZ l i).
Proof.
  intros Hw. unfold getZ. destruct (l !! i) as [x|] eqn:Hl; [|apply is_word_0].
  cbn. eapply Forall_lookup_1; eauto.
Qed.

Lemma test_init n i : Bitset.test (Bitset.init n) i = false.
Proof. rewrite test_testbit. cbn. rewrite getZ_replicate. apply Z.bits_0. Qed.

Lemma wf_init n : wf_bitset n (Bitset.init n).
Proof.
  unfold wf_bitset. split; [reflexivity|].
  split; [apply length_replicate|]. split.
  - apply Forall_replicate, is_word_0.
  - intros i. rewrite test_init. discriminate.
Qed.

Lemma test_set n b i j :
  wf_bitset n b -> (i < n)%nat ->
  Bitset.test (Bitset.set b i) j = bool_decide (i = j) || Bitset.test b j.
Proof.
  intros (Hn & Hlen & Hw & Hclean) Hi.
  rewrite !test_testbit. cbn [w Bitset.set].
  pose proof (words_cover n i Hi) as Hwi. rewrite <- Hlen in Hwi.
  pose proof (bit_of_range i) as Hbi. pose proof (bit_of_range j) as Hbj.
  destruct (decide (word_of i = word_of j)) as [Heq|Hne].
  - rewrite <- Heq. rewrite getZ_alter_eq by assumption.
    rewrite Z.lor_spec, testbit_single by lia.
    rewrite orb_comm. f_equal.
    case_bool_decide as Hij.
    + subst j. apply Z.eqb_refl.
    + apply Z.eqb_neq. intros Hb. apply Hij.
      rewrite (index_split i), (index_split j). congruence.
  - rewrite getZ_alter_ne by assumption.
    case_bool_decide as Hij; [congruence|]. reflexivity.
Qed.

Lemma wf_set n b i : wf_bitset n b -> (i < n)%nat -> wf_bitset n (Bitset.set b i).
Proof.
  intros Hwf Hi. pose proof Hwf as (Hn & Hlen & Hw & Hclean).
  split; [exact Hn|]. split; [cbn; rewrite length_alter; exact Hlen|]. split.
  - cbn. apply Forall_alter; [assumption|].
    intros x _ Hx. apply is_word_lor; [exact Hx|].
    apply is_word_bit, bit_of_range.
  - intros j. rewrite (test_set n) by assumption.
    case_bool_decide; [subst; auto|]. cbn. apply Hclean.
Qed.

Lemma nbits_set b i : nbits (Bitset.set b i) = nbits b.
Proof. reflexivity. Qed.

Lemma getZ_imap (f : nat -> Z -> Z) l j :
  getZ (imap f l) j = match l !! j with Some x => f j x | None => 0 end.
Proof. unfold getZ. rewrite list_lookup_imap. destruct (l !! j); reflexivity. Qed.

Lemma getZ_lookup l j x : l !! j = Some x -> getZ l j = x.
Proof. unfold getZ. intros ->. reflexivity. Qed.

Lemma getZ_ge l j : (length l <= j)%nat -> getZ l j = 0.
Proof. intros H. unfold getZ. rewrite (lookup_ge_None_2 _ _ H). reflexivity. Qed.

Lemma test_lt_words b i : Bitset.test b i = true -> (word_of i < length (w b))%nat.
Proof.
  intros Ht. destruct (Nat.lt_ge_cases (word_of i) (length (w b))); [assumption|].
  rewrite test_out_of_words in Ht by assumption. discriminate.
Qed.

Lemma test_union n a b i :
  wf_bitset n a -> wf_bitset n b ->
  Bitset.test (Bitset.union a b) i = Bitset.test a i || Bitset.test b i.
Proof.
  intros (_ & Hla & _ & _) (_ & Hlb & _ & _).
  rewrite !test_testbit. unfold Bitset.union, Bitset.or_with. cbn [w].
  rewrite getZ_imap.
  destruct (w a !! word_of i) as [x|] eqn:Hl.
  - rewrite Z.lor_spec, (getZ_lookup _ _ _ Hl). reflexivity.
  - apply lookup_ge_None in Hl.
    rewrite !getZ_ge by lia. rewrite Z.bits_0. reflexivity.
Qed.

Lemma wf_union n a b :
  wf_bitset n a -> wf_bitset n b -> wf_bitset n (Bitset.union a b).
Proof.
  intros Ha Hb. pose proof Ha as (Hn & Hla & Hwa & Hca).
  pose proof Hb as (_ & Hlb & Hwb & Hcb).
  split; [exact Hn|]. split; [cbn; rewrite length_imap; exact Hla|]. split.
  - cbn. apply Forall_lookup_2. intros j y Hy.
    apply list_lookup_imap_Some in Hy as (x & Hx & ->).
    apply is_word_lor.
    + exact (Forall_lookup_1 _ _ _ _ Hwa Hx).
    + apply getZ_word. assumption.
  - intros i. rewrite (test_union n) by assumption.
    intros [H|H]%orb_true_iff; auto.
Qed.

Lemma elem_of_set_bits n b i :
  wf_bitset n b -> i ∈ Bitset.set_bits b <-> Bitset.test b i = true.
Proof.
  intros (Hn & Hlen & Hw & Hclean). unfold Bitset.set_bits.
  rewrite list_elem_of_In, in_concat. split.
  - intros (l & Hl & Hi). apply list_elem_of_In, elem_of_lookup_imap in Hl.
    destruct Hl as (wi & x & -> & Hx). apply list_elem_of_In in Hi.
    apply elem_of_word_bits in Hi as (_ & Hwi & Hset).
    2:{ eapply Forall_lookup_1; eauto. }
    rewrite test_testbit, Hwi, (getZ_lookup _ _ _ Hx). exact Hset.
  - intros Ht. pose proof (test_lt_words _ _ Ht) as Hlt.
    destruct (lookup_lt_is_Some_2 _ _ Hlt) as [x Hx].
    exists (Bitset.word_bits 64 (nbits b) (word_of i) x). split.
    + apply list_elem_of_In.
      apply (elem_of_lookup_imap_2 (fun wi x => Bitset.word_bits 64 (nbits b) wi x)).
      exact Hx.
    + apply list_elem_of_In, elem_of_word_bits.
      * eapply Forall_lookup_1; eauto.
      * rewrite Hn. split; [auto|]. split; [reflexivity|].
        rewrite test_testbit, (getZ_lookup _ _ _ Hx) in Ht. exact Ht.
Qed.

Lemma NoDup_blocks (F : nat -> Z -> list nat) ws off :
  (forall wi x i, x ∈ ws -> i ∈ F wi x -> word_of i = wi) ->
  (forall wi x, x ∈ ws -> NoDup (F wi x)) ->
  NoDup (concat (imap (fun wi x => F (off + wi)%nat x) ws)).
Proof.
  revert off. induction ws as [|x ws IH]; intros off Hword Hnd; [constructor|].
  rewrite imap_cons. cbn [concat]. apply NoDup_app. split; [|split].
  - apply Hnd. left.
  - intros i Hi Hin. apply Hword in Hi; [|left].
    apply list_elem_of_In, in_concat in Hin as (l & Hl & Hil).
    apply list_elem_of_In, elem_of_lookup_imap in Hl as (wi & y & -> & Hy).
    apply list_elem_of_In in Hil. unfold compose in Hil.
    apply Hword in Hil; [lia|]. right. eapply list_elem_of_lookup_2; eauto.
  - rewrite (imap_ext _ (fun wi y => F (S off + wi)%nat y)).
    + apply IH.
      * intros wi y i Hy. apply Hword. right. exact Hy.
      * intros wi y Hy. apply Hnd. right. exact Hy.
    + intros j y _. unfold compose.
      replace (off + S j)%nat with (S off + j)%nat by lia. reflexivity.
Qed.

Lemma NoDup_set_bits n b : wf_bitset n b -> NoDup (Bitset.set_bits b).
Proof.
  intros (_ & _ & Hw & _).
  apply (NoDup_blocks (fun wi x => Bitset.word_bits 64 (nbits b) wi x) (w b) 0).
  - intros wi x i Hx Hi. apply elem_of_word_bits in Hi as (_ & Hwi & _); [exact Hwi|].
    eapply Forall_forall in Hw; eauto.
  - intros wi x Hx. apply NoDup_word_bits. eapply Forall_forall in Hw; eauto.
Qed.

Lemma set_bits_lt n b i : wf_bitset n b -> i ∈ Bitset.set_bits b -> (i < n)%nat.
Proof.
  intros Hwf Hi. apply (elem_of_set_bits n) in Hi; [|assumption].
  destruct Hwf as (_ & _ & _ & Hc). auto.
Qed.

(** [card] counts the indices with a set bit. *)
Lemma card_filter n b :
  wf_bitset n b ->
  card b = length (filter (fun i => Bitset.test b i = true) (seq 0 n)).
Proof.
  intros Hwf. unfold card. apply Permutation_length.
  apply NoDup_Permutation.
  - eapply NoDup_set_bits; eauto.
  - apply NoDup_filter, NoDup_seq.
  - intros i. rewrite (elem_of_set_bits n) by assumption.
    rewrite list_elem_of_filter, elem_of_seq.
    destruct Hwf as (_ & _ & _ & Hc). split; [|tauto].
    intros Ht. split; [assumption|]. specialize (Hc i Ht). lia.
Qed.

Lemma card_set n b v :
  wf_bitset n b -> (v < n)%nat -> Bitset.test b v = false ->
  card (Bitset.set b v) = S (card b).
Proof.
  intros Hwf Hv Ht. unfold card.
  change (S (length (Bitset.set_bits b))) with (length (v :: Bitset.set_bits b)).
  apply Permutation_length, NoDup_Permutation.
  - eapply NoDup_set_bits, wf_set; eauto.
  - constructor; [|eapply NoDup_set_bits; eauto].
    rewrite (elem_of_set_bits n) by assumption. congruence.
  - intros i. rewrite elem_of_cons, !(elem_of_set_bits n) by auto using wf_set.
    rewrite (test_set n) by assumption.
    case_bool_decide; cbn; intuition congruence.
Qed.

Lemma card_le n b : wf_bitset n b -> (card b <= n)%nat.
Proof.
  intros Hwf. rewrite (card_filter n) by assumption.
  etransitivity; [apply length_filter|]. rewrite length_seq. lia.
Qed.

Lemma card_init n : card (Bitset.init n) = 0%nat.
Proof.
  rewrite (card_filter n) by apply wf_init.
  induction (seq 0 n) as [|i l IH]; [reflexivity|].
  rewrite filter_cons_False; [exact IH|]. rewrite test_init. discriminate.
Qed.

Lemma word_bit_index wi p :
  0 <= p < 64 ->
  word_of (wi * 64 + Z.to_nat p) = wi /\ bit_of (wi * 64 + Z.to_nat p) = p.
Proof.
  intros Hp. destruct (index_join wi (Z.to_nat p)) as [H1 H2]; [lia|].
  split; [exact H1|]. rewrite H2. lia.
Qed.

Lemma subset_of_spec n b sup :
  wf_bitset n b -> wf_bitset n sup ->
  Bitset.subset_of b sup = true
  <-> forall i, Bitset.test b i = true -> Bitset.test sup i = true.
Proof.
  intros (_ & Hlb & Hwb & _) (_ & Hls & Hws & _).
  unfold Bitset.subset_of. rewrite forallb_forall. split.
  - intros Hall i Hi. pose proof (test_lt_words _ _ Hi) as Hlt.
    destruct (lookup_lt_is_Some_2 _ _ Hlt) as [x Hx].
    rewrite test_testbit, (getZ_lookup _ _ _ Hx) in Hi.
    specialize (Hall (Z.land x (not64 (getZ (w sup) (word_of i))))).
    rewrite Z.eqb_eq in Hall.
    assert (Z.land x (not64 (getZ (w sup) (word_of i))) = 0) as H0.
    { apply Hall, list_elem_of_In.
      apply (elem_of_lookup_imap_2
               (fun i x => Z.land x (not64 (getZ (w sup) i)))). exact Hx. }
    pose proof (bit_of_range i) as Hr.
    apply (f_equal (fun z => Z.testbit z (bit_of i))) in H0.
    rewrite Z.land_spec, not64_spec, Z.bits_0, Hi in H0 by lia.
    rewrite test_testbit.
    replace (bit_of i <? 64) with true in H0 by (symmetry; apply Z.ltb_lt; lia).
    destruct (Z.testbit (getZ (w sup) (word_of i)) (bit_of i)); [reflexivity|discriminate].
  - intros Hsub y Hy.
    apply list_elem_of_In, elem_of_lookup_imap in Hy as (wi & x & -> & Hx).
    apply Z.eqb_eq. apply Z.bits_inj'. intros p Hp.
    rewrite Z.land_spec, Z.bits_0.
    destruct (Z.testbit x p) eqn:Hxp; [|reflexivity].
    destruct (Z_lt_le_dec p 64) as [Hlt|Hge].
    2:{ rewrite is_word_high in Hxp; [discriminate| |assumption].
        exact (Forall_lookup_1 _ _ _ _ Hwb Hx). }
    destruct (word_bit_index wi p ltac:(lia)) as [Hwo Hbo].
    specialize (Hsub (wi * 64 + Z.to_nat p)%nat).
    rewrite !test_testbit, Hwo, Hbo, (getZ_lookup _ _ _ Hx) in Hsub.
    rewrite not64_spec, (Hsub Hxp) by lia.
    replace (p <? 64) with true by (symmetry; apply Z.ltb_lt; lia).
    reflexivity.
Qed.

Lemma intersects_spec n a b :
  wf_bitset n a ->
  Bitset.intersects a b = true
  <-> exists i, Bitset.test a i = true /\ Bitset.test b i = true.
Proof.
  intros (_ & _ & Hwa & _).
  unfold Bitset.intersects. rewrite existsb_exists. split.
  - intros (y & Hy & Hne).
    apply list_elem_of_In, elem_of_lookup_imap in Hy as (wi & x & -> & Hx).
    apply negb_true_iff, Z.eqb_neq in Hne.
    pose proof (Forall_lookup_1 _ _ _ _ Hwa Hx) as Hwx.
    destruct (word_ne_0 _ (is_word_land x (getZ (w b) wi) Hwx) Hne) as (p & Hp & Hbit).
    rewrite Z.land_spec in Hbit. apply andb_true_iff in Hbit as [Hxp Hyp].
    destruct (index_join wi p Hp) as [Hwo Hbo].
    exists (wi * 64 + p)%nat.
    rewrite !test_testbit, Hwo, Hbo, (getZ_lookup _ _ _ Hx). auto.
  - intros (i & Ha & Hb).
    pose proof (test_lt_words _ _ Ha) as Hlt.
    destruct (lookup_lt_is_Some_2 _ _ Hlt) as [x Hx].
    exists (Z.land x (getZ (w b) (word_of i))). split.
    + apply list_elem_of_In.
      apply (elem_of_lookup_imap_2 (fun i x => Z.land x (getZ (w b) i))). exact Hx.
    + apply negb_true_iff, Z.eqb_neq. intros H0.
      apply (f_equal (fun z => Z.testbit z (bit_of i))) in H0.
      rewrite Z.land_spec, Z.bits_0 in H0.
      rewrite test_testbit, (getZ_lookup _ _ _ Hx) in Ha.
      rewrite test_testbit in Hb. rewrite Ha, Hb in H0. discriminate.
Qed.

Lemma empty_spec n b :
  wf_bitset n b ->
  Bitset.empty b = true <-> forall i, Bitset.test b i = false.
Proof.
  intros (_ & _ & Hw & _). unfold Bitset.empty. rewrite forallb_forall. split.
  - intros Hall i. rewrite test_testbit. unfold getZ.
    destruct (w b !! word_of i) as [x|] eqn:Hx; cbn; [|apply Z.bits_0].
    rewrite (proj1 (Z.eqb_eq x 0)); [apply Z.bits_0|].
    apply Hall, list_elem_of_In. eapply list_elem_of_lookup_2; eauto.
  - intros Hall x Hx. apply Z.eqb_eq.
    apply list_elem_of_In, list_elem_of_lookup in Hx as [wi Hx].
    apply word_eq_0; [exact (Forall_lookup_1 _ _ _ _ Hw Hx)|].
    intros p Hp. destruct (index_join wi p Hp) as [Hwo Hbo].
    specialize (Hall (wi * 64 + p)%nat).
    rewrite test_testbit, Hwo, Hbo, (getZ_lookup _ _ _ Hx) in Hall. exact Hall.
Qed.

Lemma first_from_spec nb ws off v :
  Forall is_word ws ->
  Bitset.first_from nb off ws = Some v ->
  (v < nb)%nat /\ exists wi x, ws !! wi = Some x /\ word_of v = (off + wi)%nat
                               /\ Z.testbit x (bit_of v) = true.
Proof.
  revert off. induction ws as [|x ws IH]; intros off Hw Hf; [discriminate|].
  apply Forall_cons in Hw as [Hx Hw]. cbn [Bitset.first_from] in Hf.
  assert (Bitset.first_from nb (S off) ws = Some v ->
          (v < nb)%nat /\ exists wi y, (x :: ws) !! wi = Some y
             /\ word_of v = (off + wi)%nat /\ Z.testbit y (bit_of v) = true) as Hrec.
  { intros Hf'. destruct (IH _ Hw Hf') as (Hlt & wi & y & Hy & Hwo & Hb).
    split; [assumption|]. exists (S wi), y. split; [exact Hy|]. split; [lia|assumption]. }
  destruct (Z.eqb_spec x 0) as [->|Hx0]; [auto|].
  destruct (Nat.ltb_spec (off * 64 + ctz64 x) nb) as [Hlt|]; [|auto].
  injection Hf as <-. split; [assumption|].
  destruct (bits_of x) as [|b rest] eqn:Hb.
  { exfalso. apply Hx0, bits_of_nil; assumption. }
  rewrite (ctz64_head _ _ _ Hb).
  destruct (bits_of_head _ _ _ Hb) as (Hb64 & Hset & _).
  destruct (index_join off b Hb64) as [Hwo Hbo].
  exists 0%nat, x. split; [reflexivity|]. split; [lia|]. rewrite Hbo. exact Hset.
Qed.

Lemma first_set_bit_spec n b v :
  wf_bitset n b -> Bitset.first_set_bit b = Some v ->
  (v < n)%nat /\ Bitset.test b v = true.
Proof.
  intros (Hn & _ & Hw & _) Hf. unfold Bitset.first_set_bit in Hf.
  destruct (first_from_spec _ _ _ _ Hw Hf) as (Hlt & wi & x & Hx & Hwo & Hb).
  split; [lia|]. rewrite test_testbit, Hwo. cbn. rewrite (getZ_lookup _ _ _ Hx).
  exact Hb.
Qed.


Lemma popcount64_0 : popcount64 0 = 0%nat.
Proof. vm_compute. reflexivity. Qed.

Lemma popcount_init n : Bitset.popcount (Bitset.init n) = 0%nat.
Proof.
  unfold Bitset.popcount, Bitset.init. cbn [w].
  generalize ((n + 63) / 64)%nat. intros m.
  induction m as [|m IH]; [reflexivity|].
  cbn [replicate fold_left]. rewrite popcount64_0. exact IH.
Qed.

Lemma test_reset n b i j :
  wf_bitset n b -> (i < n)%nat ->
  Bitset.test (Bitset.reset b i) j = negb (bool_decide (i = j)) && Bitset.test b j.
Proof.
  intros (Hn & Hlen & Hw & Hclean) Hi.
  rewrite !test_testbit. cbn [w Bitset.reset].
  pose proof (words_cover n i Hi) as Hwi. rewrite <- Hlen in Hwi.
  pose proof (bit_of_range i) as Hbi. pose proof (bit_of_range j) as Hbj.
  destruct (decide (word_of i = word_of j)) as [Heq|Hne].
  - rewrite <- Heq. rewrite getZ_alter_eq by assumption.
    rewrite Z.land_spec, not64_spec, testbit_single by lia.
    replace (bit_of j <? 64) with true by (symmetry; apply Z.ltb_lt; lia).
    rewrite andb_comm. f_equal.
    case_bool_decide as Hij.
    + subst j. rewrite Z.eqb_refl. reflexivity.
    + replace (bit_of i =? bit_of j) with false; [reflexivity|].
      symmetry. apply Z.eqb_neq. intros Hb. apply Hij.
      rewrite (index_split i), (index_split j). congruence.
  - rewrite getZ_alter_ne by assumption.
    case_bool_decide as Hij; [congruence|]. reflexivity.
Qed.

Lemma wf_reset n b i : wf_bitset n b -> (i < n)%nat -> wf_bitset n (Bitset.reset b i).
Proof.
  intros Hwf Hi. pose proof Hwf as (Hn & Hlen & Hw & Hclean).
  split; [exact Hn|]. split; [cbn; rewrite length_alter; exact Hlen|]. split.
  - cbn. apply Forall_alter; [assumption|].
    intros x _ Hx. apply is_word_land. exact Hx.
  - intros j. rewrite (test_reset n) by assumption.
    intros [_ H]%andb_true_iff. auto.
Qed.

Lemma test_inter n a b i :
  wf_bitset n a -> wf_bitset n b ->
  Bitset.test (Bitset.inter a b) i = Bitset.test a i && Bitset.test b i.
Proof.
  intros (_ & Hla & _ & _) (_ & Hlb & _ & _).
  rewrite !test_testbit. unfold Bitset.inter. cbn [w].
  rewrite getZ_imap.
  destruct (w a !! word_of i) as [x|] eqn:Hl.
  - rewrite Z.land_spec, (getZ_lookup _ _ _ Hl). reflexivity.
  - apply lookup_ge_None in Hl.
    rewrite !getZ_ge by lia. rewrite Z.bits_0. reflexivity.
Qed.

Lemma wf_inter n a b :
  wf_bitset n a -> wf_bitset n b -> wf_bitset n (Bitset.inter a b).
Proof.
  intros Ha Hb. pose proof Ha as (Hn & Hla & Hwa & Hca).
  split; [exact Hn|]. split; [cbn; rewrite length_imap; exact Hla|]. split.
  - cbn. apply Forall_lookup_2. intros j y Hy.
    apply list_lookup_imap_Some in Hy as (x & Hx & ->).
    apply is_word_land. exact (Forall_lookup_1 _ _ _ _ Hwa Hx).
  - intros i. rewrite (test_inter n) by assumption.
    intros [H _]%andb_true_iff. auto.
Qed.

(** ** popcount *)

Lemma filter_all {A} (P : A -> Prop) `{forall x, Decision (P x)} (l : list A) :
  Forall P l -> filter P l = l.
Proof.
  induction 1 as [|x l Hx Hl IH]; [reflexivity|].
  rewrite filter_cons_True by assumption. f_equal. exact IH.
Qed.

Lemma length_blocks (F : nat -> Z -> list nat) (G : Z -> nat) ws :
  forall off acc,
  (forall wi x, ws !! wi = Some x -> length (F (off + wi)%nat x) = G x) ->
  fold_left (fun s x => (s + G x)%nat) ws acc
  = (acc + length (concat (imap (fun wi x => F (off + wi)%nat x) ws)))%nat.
Proof.
  induction ws as [|x ws IH]; intros off acc HF; cbn [fold_left].
  - cbn. lia.
  - rewrite imap_cons. cbn [concat]. rewrite length_app.
    rewrite (imap_ext _ (fun wi y => F (S off + wi)%nat y)).
    2:{ intros j y _. unfold compose.
        replace (off + S j)%nat with (S off + j)%nat by lia. reflexivity. }
    rewrite (IH (S off)).
    + rewrite (HF 0%nat x eq_refl). lia.
    + intros wi y Hy. replace (S off + wi)%nat with (off + S wi)%nat by lia.
      apply HF. exact Hy.
Qed.

Lemma popcount_card n b : wf_bitset n b -> Bitset.popcount b = card b.
Proof.
  intros (Hn & Hlen & Hw & Hclean). unfold Bitset.popcount, card, Bitset.set_bits.
  rewrite (length_blocks (fun wi x => Bitset.word_bits 64 (nbits b) wi x)
             popcount64 (w b) 0 0); [reflexivity|].
  intros wi x Hx. cbn [Nat.add].
  pose proof (Forall_lookup_1 _ _ _ _ Hw Hx) as Hwx.
  rewrite word_bits_spec by (try assumption; apply length_bits_of).
  unfold popcount64. fold (bits_of x).
  rewrite <- (length_map (fun b0 => (wi * 64 + b0)%nat) (bits_of x)).
  f_equal. apply filter_all. apply Forall_forall. intros i Hi.
  apply list_elem_of_fmap in Hi as (p & -> & Hp).
  apply elem_of_bits_of in Hp as [Hp Hset].
  rewrite Hn. apply Hclean.
  destruct (index_join wi p Hp) as [Hwo Hbo].
  rewrite test_testbit, Hwo, Hbo, (getZ_lookup _ _ _ Hx). exact Hset.
Qed.

(** ** The order of for_each_set_bit *)

Lemma StronglySorted_filter_lt (P : nat -> Prop) `{forall x, Decision (P x)} l :
  StronglySorted lt l -> StronglySorted lt (filter P l).
Proof.
  induction 1 as [|x l Hl IH Hx]; [constructor|].
  destruct (decide (P x)).
  - rewrite filter_cons_True by assumption. constructor; [exact IH|].
    apply Forall_forall. intros y Hy. apply list_elem_of_filter in Hy as [_ Hy].
    eapply Forall_forall in Hx; eauto.
  - rewrite filter_cons_False by assumption. exact IH.
Qed.

Lemma StronglySorted_seq a n : StronglySorted lt (seq a n).
Proof.
  revert a. induction n as [|n IH]; intros a; cbn; constructor; [apply IH|].
  apply Forall_forall. intros y Hy. apply elem_of_seq in Hy. lia.
Qed.

Lemma StronglySorted_shift k l :
  StronglySorted lt l -> StronglySorted lt (map (fun b => (k + b)%nat) l).
Proof.
  induction 1 as [|x l Hl IH Hx]; cbn; constructor; [exact IH|].
  apply Forall_forall. intros y Hy. apply list_elem_of_fmap in Hy as (z & -> & Hz).
  eapply Forall_forall in Hx; eauto. lia.
Qed.

Lemma StronglySorted_word_bits nb wi x :
  is_word x -> StronglySorted lt (Bitset.word_bits 64 nb wi x).
Proof.
  intros Hx. rewrite word_bits_spec by (try assumption; apply length_bits_of).
  apply StronglySorted_filter_lt, StronglySorted_shift.
  unfold bits_of. apply StronglySorted_filter_lt, StronglySorted_seq.
Qed.

Lemma word_of_lt i j : (word_of i < word_of j)%nat -> (i < j)%nat.
Proof.
  rewrite !word_of_div. intros H.
  destruct (Nat.lt_ge_cases i j) as [|Hge]; [assumption|].
  pose proof (Nat.Div0.div_le_mono j i 64 Hge). lia.
Qed.

Lemma StronglySorted_blocks (F : nat -> Z -> list nat) ws off :
  (forall wi x i, x ∈ ws -> i ∈ F wi x -> word_of i = wi) ->
  (forall wi x, x ∈ ws -> StronglySorted lt (F wi x)) ->
  StronglySorted lt (concat (imap (fun wi x => F (off + wi)%nat x) ws)).
Proof.
  revert off. induction ws as [|x ws IH]; intros off Hword Hs; [constructor|].
  rewrite imap_cons. cbn [concat]. apply StronglySorted_app_2.
  - intros i j Hi Hj. apply Hword in Hi; [|left].
    apply list_elem_of_In, in_concat in Hj as (l & Hl & Hjl).
    apply list_elem_of_In, elem_of_lookup_imap in Hl as (wi & y & -> & Hy).
    apply list_elem_of_In in Hjl. unfold compose in Hjl.
    apply Hword in Hjl; [|right; eapply list_elem_of_lookup_2; eauto].
    apply word_of_lt. lia.
  - apply Hs. left.
  - rewrite (imap_ext _ (fun wi y => F (S off + wi)%nat y)).
    + apply IH.
      * intros wi y i Hy. apply Hword. right. exact Hy.
      * intros wi y Hy. apply Hs. right. exact Hy.
    + intros j y _. unfold compose.
      replace (off + S j)%nat with (S off + j)%nat by lia. reflexivity.
Qed.

Lemma StronglySorted_set_bits n b :
  wf_bitset n b -> StronglySorted lt (Bitset.set_bits b).
Proof.
  intros (_ & _ & Hw & _).
  apply (StronglySorted_blocks (fun wi x => Bitset.word_bits 64 (nbits b) wi x) (w b) 0).
  - intros wi x i Hx Hi. apply elem_of_word_bits in Hi as (_ & Hwi & _); [exact Hwi|].
    eapply Forall_forall in Hw; eauto.
  - intros wi x Hx. apply StronglySorted_word_bits. eapply Forall_forall in Hw; eauto.
Qed.

Lemma set_bits_filter n b :
  wf_bitset n b ->
  Bitset.set_bits b = filter (fun i => Bitset.test b i = true) (seq 0 n).
Proof.
  intros Hwf. apply (StronglySorted_unique_strong lt).
  - intros x1 x2 _ _ H1 H2. lia.
  - eapply StronglySorted_set_bits; eauto.
  - apply StronglySorted_filter_lt, StronglySorted_seq.
  - apply NoDup_Permutation.
    + eapply NoDup_set_bits; eauto.
    + apply NoDup_filter, NoDup_seq.
    + intros i. rewrite (elem_of_set_bits n) by assumption.
      rewrite list_elem_of_filter, elem_of_seq.
      destruct Hwf as (_ & _ & _ & Hc). split; [|tauto].
      intros Ht. split; [assumption|]. specialize (Hc i Ht). lia.
Qed.

(** ** first_set_bit *)

Lemma first_from_None nb ws off :
  Forall is_word ws ->
  Bitset.first_from nb off ws = None ->
  forall wi x p, ws !! wi = Some x -> (p < 64)%nat ->
    Z.testbit x (Z.of_nat p) = true -> (nb <= (off + wi) * 64 + p)%nat.
Proof.
  revert off. induction ws as [|x ws IH]; intros off Hw Hf wi y p Hy Hp Hset.
  { inversion Hy. }
  apply Forall_cons in Hw as [Hx Hw]. cbn [Bitset.first_from] in Hf.
  assert (Bitset.first_from nb (S off) ws = None ->
          forall wi', ws !! wi' = Some y -> (nb <= (off + S wi') * 64 + p)%nat) as Hrec.
  { intros Hf' wi' Hy'.
    pose proof (IH (S off) Hw Hf' wi' y p Hy' Hp Hset). lia. }
  destruct wi as [|wi].
  - injection Hy as ->. rewrite Nat.add_0_r.
    destruct (Z.eqb_spec y 0) as [->|Hy0]; [rewrite Z.bits_0 in Hset; discriminate|].
    destruct (bits_of y) as [|b rest] eqn:Hb.
    { exfalso. apply Hy0, bits_of_nil; assumption. }
    rewrite (ctz64_head _ _ _ Hb) in Hf.
    destruct (bits_of_head _ _ _ Hb) as (Hb64 & Hbset & Hlow).
    destruct (Nat.ltb_spec (off * 64 + b) nb) as [Hlt|Hge]; [discriminate|].
    destruct (Nat.lt_ge_cases p b) as [Hpb|Hpb]; [|lia].
    rewrite (Hlow p Hpb) in Hset. discriminate.
  - cbn in Hy. apply Hrec; [|exact Hy].
    destruct (Z.eqb_spec x 0); [exact Hf|].
    destruct (_ <? _)%nat; [discriminate|exact Hf].
Qed.

Lemma first_from_least nb ws off v :
  Forall is_word ws ->
  Bitset.first_from nb off ws = Some v ->
  forall wi x p, ws !! wi = Some x -> (p < 64)%nat ->
    Z.testbit x (Z.of_nat p) = true -> ((off + wi) * 64 + p < nb)%nat ->
    (v <= (off + wi) * 64 + p)%nat.
Proof.
  revert off. induction ws as [|x ws IH]; intros off Hw Hf wi y p Hy Hp Hset Hlt.
  { inversion Hy. }
  apply Forall_cons in Hw as [Hx Hw]. cbn [Bitset.first_from] in Hf.
  assert (Bitset.first_from nb (S off) ws = Some v ->
          forall wi', ws !! wi' = Some y -> ((off + S wi') * 64 + p < nb)%nat ->
                      (v <= (off + S wi') * 64 + p)%nat) as Hrec.
  { intros Hf' wi' Hy' Hlt'.
    replace (off + S wi')%nat with (S off + wi')%nat in * by lia.
    apply (IH (S off) Hw Hf' wi' y p Hy' Hp Hset Hlt'). }
  destruct wi as [|wi].
  - injection Hy as ->. rewrite Nat.add_0_r in *.
    destruct (Z.eqb_spec y 0) as [->|Hy0]; [rewrite Z.bits_0 in Hset; discriminate|].
    destruct (bits_of y) as [|b rest] eqn:Hb.
    { exfalso. apply Hy0, bits_of_nil; assumption. }
    rewrite (ctz64_head _ _ _ Hb) in Hf.
    destruct (bits_of_head _ _ _ Hb) as (Hb64 & Hbset & Hlow).
    destruct (Nat.lt_ge_cases p b) as [Hpb|Hpb].
    { rewrite (Hlow p Hpb) in Hset. discriminate. }
    destruct (Nat.ltb_spec (off * 64 + b) nb) as [Hlt'|Hge]; [|lia].
    injection Hf as <-. lia.
  - cbn in Hy.
    destruct (Z.eqb_spec x 0) as [->|Hx0]; [apply Hrec; assumption|].
    destruct (Nat.ltb_spec (off * 64 + ctz64 x) nb) as [Hlt'|Hge]; [|apply Hrec; assumption].
    injection Hf as <-.
    destruct (bits_of x) as [|b rest] eqn:Hb.
    { exfalso. apply Hx0, bits_of_nil; assumption. }
    rewrite (ctz64_head _ _ _ Hb).
    destruct (bits_of_head _ _ _ Hb) as (Hb64 & _ & _). lia.
Qed.

Lemma test_word_bit b i x :
  w b !! word_of i = Some x -> Bitset.test b i = Z.testbit x (bit_of i).
Proof. intros Hx. rewrite test_testbit, (getZ_lookup _ _ _ Hx). reflexivity. Qed.

Lemma first_set_bit_least n b v i :
  wf_bitset n b -> Bitset.first_set_bit b = Some v ->
  Bitset.test b i = true -> (v <= i)%nat.
Proof.
  intros (Hn & Hlen & Hw & Hclean) Hf Hi. unfold Bitset.first_set_bit in Hf.
  pose proof (test_lt_words _ _ Hi) as Hlt.
  destruct (lookup_lt_is_Some_2 _ _ Hlt) as [x Hx].
  pose proof (bit_of_range i) as Hr.
  pose proof (first_from_least _ _ _ _ Hw Hf (word_of i) x (Z.to_nat (bit_of i)) Hx) as Hl.
  rewrite Z2Nat.id in Hl by lia. cbn [Nat.add] in Hl.
  rewrite <- (index_split i) in Hl. apply Hl; [lia| |].
  - rewrite <- (test_word_bit b i x Hx). exact Hi.
  - rewrite Hn. apply Hclean. exact Hi.
Qed.

Lemma first_set_bit_None n b :
  wf_bitset n b -> Bitset.first_set_bit b = None ->
  forall i, Bitset.test b i = false.
Proof.
  intros (Hn & Hlen & Hw & Hclean) Hf i. unfold Bitset.first_set_bit in Hf.
  destruct (Bitset.test b i) eqn:Hi; [|reflexivity]. exfalso.
  pose proof (test_lt_words _ _ Hi) as Hlt.
  destruct (lookup_lt_is_Some_2 _ _ Hlt) as [x Hx].
  pose proof (bit_of_range i) as Hr.
  pose proof (first_from_None _ _ _ Hw Hf (word_of i) x (Z.to_nat (bit_of i)) Hx) as Hl.
  rewrite Z2Nat.id in Hl by lia. cbn [Nat.add] in Hl.
  rewrite <- (index_split i) in Hl.
  pose proof (Hclean i Hi).
  assert (nbits b <= i)%nat; [|lia].
  apply Hl; [lia|]. rewrite <- (test_word_bit b i x Hx). exact Hi.
Qed.

(** ** operator== *)

Lemma word_ext x y :
  is_word x -> is_word y ->
  (forall p, (p < 64)%nat -> Z.testbit x (Z.of_nat p) = Z.testbit y (Z.of_nat p)) ->
  x = y.
Proof.
  intros Hx Hy Hb. apply Z.bits_inj'. intros j Hj.
  destruct (Z_lt_le_dec j 64) as [Hlt|Hge].
  - specialize (Hb (Z.to_nat j)). rewrite Z2Nat.id in Hb by lia. apply Hb. lia.
  - rewrite !is_word_high by assumption. reflexivity.
Qed.

Lemma bitset_eqb_spec n a b :
  wf_bitset n a -> wf_bitset n b ->
  Bitset.eqb a b = true <-> forall i, Bitset.test a i = Bitset.test b i.
Proof.
  intros (Hna & Hla & Hwa & _) (Hnb & Hlb & Hwb & _).
  unfold Bitset.eqb. rewrite andb_true_iff, Nat.eqb_eq, bool_decide_eq_true. split.
  - intros [_ Hw] i. rewrite !test_testbit, Hw. reflexivity.
  - intros Hbits. split; [congruence|].
    apply list_eq_same_length with (length (w a)); [congruence|reflexivity|].
    intros wi x y Hwi Hx Hy.
    apply word_ext.
    + exact (Forall_lookup_1 _ _ _ _ Hwa Hx).
    + exact (Forall_lookup_1 _ _ _ _ Hwb Hy).
    + intros p Hp. destruct (index_join wi p Hp) as [Hwo Hbo].
      specialize (Hbits (wi * 64 + p)%nat).
      rewrite !test_testbit, Hwo, Hbo, (getZ_lookup _ _ _ Hx),
        (getZ_lookup _ _ _ Hy) in Hbits. exact Hbits.
Qed.

(** * The first half of solve: horse, index space, cell tables *)

Lemma bind_Returned {A B} (m : outcome A) (f : A -> outcome B) b :
  (m ≫= f) = Returned b -> exists a, m = Returned a /\ f a = Returned b.
Proof.
  unfold mbind, outcome_bind, obind. destruct m; try discriminate. eauto.
Qed.

Lemma bind_Returned_l {A B} (m : outcome A) (f : A -> outcome B) a :
  m = Returned a -> (m ≫= f) = f a.
Proof. intros ->. reflexivity. Qed.

Ltac obind H :=
  let a := fresh "a" in
  let Ha := fresh "Ha" in
  apply bind_Returned in H as (a & Ha & H).

Lemma grid_at_row g r c ch :
  grid_at g r c = Returned ch -> 0 <= r < Z.of_nat (length g) /\ 0 <= c.
Proof.
  unfold grid_at. destruct (Z.ltb_spec r 0), (Z.ltb_spec c 0); cbn; try discriminate.
  destruct (g !! Z.to_nat r) eqn:Hr; [|discriminate].
  apply lookup_lt_Some in Hr. intros _. lia.
Qed.

(** ** find_horse *)

Lemma find_in_row_Some g r cs c :
  find_in_row g r cs = Returned (Some c) ->
  c ∈ cs /\ grid_at g r c = Returned "H"%char.
Proof.
  induction cs as [|c0 cs IH]; cbn; [discriminate|].
  intros H. obind H.
  destruct (Ascii.eqb_spec a "H"%char) as [->|].
  - injection H as <-. split; [left|assumption].
  - destruct (IH H). split; [right|]; assumption.
Qed.

Lemma find_in_rows_Some g C rs hr hc :
  find_in_rows g C rs = Returned (Some (hr, hc)) ->
  hr ∈ rs /\ 0 <= hc < C /\ grid_at g hr hc = Returned "H"%char.
Proof.
  induction rs as [|r rs IH]; cbn; [discriminate|].
  intros H. obind H. destruct a as [c|].
  - injection H as <- <-. apply find_in_row_Some in Ha as [Hin Hat].
    apply elem_of_seqZ in Hin. split; [left|]. split; [lia|assumption].
  - destruct (IH H) as (? & ? & ?). split; [right|]; auto.
Qed.

Lemma find_horse_Some g R C hr hc :
  find_horse g R C = Returned (Some (hr, hc)) ->
  in_bounds R C (hr, hc) /\ grid_at g hr hc = Returned "H"%char.
Proof.
  intros H. apply find_in_rows_Some in H as (Hin & Hc & Hat).
  apply elem_of_seqZ in Hin. split; [split; cbn; lia|assumption].
Qed.

(** ** The key of a cell *)

Lemma key_in_range r c :
  0 <= r <= INT_MAX -> 0 <= c <= INT_MAX -> key r c = r * 2 ^ 32 + c.
Proof.
  unfold INT_MAX. intros Hr Hc. unfold key, wrap64, to_int64.
  rewrite Z.shiftl_mul_pow2 by lia.
  rewrite (Z.mod_small (r * 2 ^ 32)) by lia.
  rewrite (Z.mod_small c) by lia.
  assert (Z.land (r * 2 ^ 32) c = 0) as Hl.
  { apply Z.bits_inj'. intros j Hj. rewrite Z.land_spec, Z.bits_0.
    destruct (Z_lt_le_dec j 32).
    - rewrite Z.mul_pow2_bits_low by lia. reflexivity.
    - replace (Z.testbit c j) with false; [apply andb_false_r|].
      symmetry. destruct (Z.eq_dec c 0) as [->|]; [apply Z.bits_0|].
      apply Z.bits_above_log2; [lia|].
      assert (Z.log2 c < 32) by (apply Z.log2_lt_pow2; lia). lia. }
  rewrite <- (Z.add_nocarry_lxor _ _ Hl).
  rewrite Z.mod_small by lia. lia.
Qed.

Lemma key_inj R C p q :
  R <= INT_MAX -> C <= INT_MAX -> in_bounds R C p -> in_bounds R C q ->
  key p.1 p.2 = key q.1 q.2 -> p = q.
Proof.
  unfold INT_MAX. intros HR HC [Hp1 Hp2] [Hq1 Hq2].
  rewrite !key_in_range by (unfold INT_MAX; lia).
  intros Hk. destruct p as [p1 p2], q as [q1 q2]. cbn in *.
  assert (p1 = q1) by lia. subst. f_equal. lia.
Qed.

(** ** The indexing loop *)

Lemma index_inv_NoDup g R C h st : index_inv g R C h st -> NoDup (coords st).
Proof.
  intros Hinv. apply NoDup_alt. intros i j p Hi Hj.
  apply (ii_idx _ _ _ _ _ Hinv) in Hi, Hj. congruence.
Qed.

Lemma index_inv_lt g R C h st kk i :
  index_inv g R C h st -> idx_of st !! kk = Some i -> (i < length (coords st))%nat.
Proof.
  intros Hinv Hk. destruct (ii_key _ _ _ _ _ Hinv _ _ Hk) as (p & Hp & _).
  eapply lookup_lt_Some; eauto.
Qed.

Lemma index_inv_push g R C h st p :
  index_inv g R C h st -> in_bounds R C p -> open_at g p ->
  idx_of st !! key p.1 p.2 = None ->
  index_inv g R C h
    (mkIndex (<[key p.1 p.2 := length (coords st)]> (idx_of st))
       (coords st ++ [p]) (queue st ++ [p])).
Proof.
  intros Hinv Hb Ho Hnone. constructor; cbn.
  - rewrite lookup_app_l; [apply (ii_head _ _ _ _ _ Hinv)|].
    eapply lookup_lt_Some, (ii_head _ _ _ _ _ Hinv).
  - intros i q Hq. apply lookup_snoc_Some in Hq as [[_ Hq]|[_ <-]]; [|assumption].
    eapply ii_bounds; eauto.
  - intros i q Hq. apply lookup_snoc_Some in Hq as [[_ Hq]|[_ <-]]; [|assumption].
    eapply ii_open; eauto.
  - intros i q Hq. apply lookup_snoc_Some in Hq as [[_ Hq]|[-> <-]].
    + pose proof (ii_idx _ _ _ _ _ Hinv _ _ Hq) as Hk.
      rewrite lookup_insert_ne; [assumption|]. congruence.
    + apply lookup_insert_eq.
  - intros kk i Hk. destruct (decide (key p.1 p.2 = kk)) as [<-|Hne].
    + rewrite lookup_insert_eq in Hk. injection Hk as <-.
      exists p. split; [|reflexivity]. apply list_lookup_middle. reflexivity.
    + rewrite lookup_insert_ne in Hk by assumption.
      destruct (ii_key _ _ _ _ _ Hinv _ _ Hk) as (q & Hq & Hkq).
      exists q. split; [|assumption]. apply lookup_app_l_Some. assumption.
  - intros q Hq. apply elem_of_app in Hq as [Hq|Hq]; apply elem_of_app; [left|right; assumption].
    eapply ii_queue; eauto.
Qed.

Lemma index_inv_queue g R C h i cs q q' :
  index_inv g R C h (mkIndex i cs q) -> (forall p, p ∈ q' -> p ∈ q) ->
  index_inv g R C h (mkIndex i cs q').
Proof.
  intros [H1 H2 H3 H4 H5 H6] Hsub. constructor; cbn in *; auto.
Qed.

Lemma visit_dirs_spec g R C r c ds st st' h :
  R <= INT_MAX -> C <= INT_MAX ->
  visit_dirs g R C r c ds st = Returned st' ->
  index_inv g R C h st ->
  index_inv g R C h st'
  /\ idx_of st ⊆ idx_of st'
  /\ (exists new, coords st' = coords st ++ new /\ queue st' = queue st ++ new)
  /\ (forall d, d ∈ ds -> in_bounds R C (step_of (r, c) d) ->
        open_at g (step_of (r, c) d) -> step_of (r, c) d ∈ coords st').
Proof.
  intros HR HC. revert st. induction ds as [|[dr dc] ds IH]; intros st Hv Hinv.
  - cbn in Hv. injection Hv as <-. split; [assumption|]. split; [reflexivity|].
    split; [exists []; rewrite !app_nil_r; auto|].
    intros d Hd. inversion Hd.
  - cbn [visit_dirs] in Hv.
    assert (forall st1,
      visit_dirs g R C r c ds st1 = Returned st' ->
      index_inv g R C h st1 -> idx_of st ⊆ idx_of st1 ->
      (exists new, coords st1 = coords st ++ new /\ queue st1 = queue st ++ new) ->
      (in_bounds R C (r + dr, c + dc) -> open_at g (r + dr, c + dc) ->
         (r + dr, c + dc) ∈ coords st1) ->
      index_inv g R C h st'
      /\ idx_of st ⊆ idx_of st'
      /\ (exists new, coords st' = coords st ++ new /\ queue st' = queue st ++ new)
      /\ (forall d, d ∈ (dr, dc) :: ds -> in_bounds R C (step_of (r, c) d) ->
            open_at g (step_of (r, c) d) -> step_of (r, c) d ∈ coords st')) as Hk.
    { intros st1 Hv1 Hinv1 Hsub1 (new1 & Hc1 & Hq1) Hhere.
      destruct (IH _ Hv1 Hinv1) as (Hinv' & Hsub' & (new & Hc & Hq) & Hcl).
      split; [assumption|]. split; [etransitivity; eassumption|]. split.
      - exists (new1 ++ new). rewrite Hc, Hq, Hc1, Hq1, !app_assoc. auto.
      - intros d Hd Hb Ho. apply elem_of_cons in Hd as [->|Hd]; [|auto].
        unfold step_of in *. cbn in *.
        rewrite Hc. apply elem_of_app. left. auto. }
    destruct ((r + dr <? 0) || (R <=? r + dr) || (c + dc <? 0) || (C <=? c + dc)) eqn:Hout.
    { apply (Hk st Hv Hinv); [reflexivity|exists []; rewrite !app_nil_r; auto|].
      intros [Hb1 Hb2]. cbn in *. exfalso.
      rewrite !orb_true_iff, !Z.ltb_lt, !Z.leb_le in Hout. lia. }
    rewrite !orb_false_iff, !Z.ltb_ge, !Z.leb_gt in Hout.
    obind Hv.
    destruct (is_open_cell a) eqn:Hopen; cbn [negb] in Hv.
    2:{ apply (Hk st Hv Hinv); [reflexivity|exists []; rewrite !app_nil_r; auto|].
        intros _ (ch & Hch & Ho). cbn in Hch. congruence. }
    assert (in_bounds R C (r + dr, c + dc)) as Hb by (split; cbn; lia).
    assert (open_at g (r + dr, c + dc)) as Ho by (exists a; auto).
    destruct (idx_of st !! key (r + dr) (c + dc)) as [j|] eqn:Hj.
    + apply (Hk st Hv Hinv); [reflexivity|exists []; rewrite !app_nil_r; auto|].
      intros _ _.
      destruct (ii_key _ _ _ _ _ Hinv _ _ Hj) as (q & Hq & Hkq).
      assert (q = (r + dr, c + dc)) as <-.
      { apply (key_inj R C); [assumption|assumption| |exact Hb|exact Hkq].
        exact (ii_bounds _ _ _ _ _ Hinv _ _ Hq). }
      eapply list_elem_of_lookup_2; eauto.
    + apply (Hk _ Hv).
      * apply (index_inv_push _ _ _ _ st (r + dr, c + dc)); assumption.
      * cbn. apply insert_subseteq. assumption.
      * cbn. exists [(r + dr, c + dc)]. auto.
      * intros _ _. cbn. apply elem_of_app. right. left.
Qed.

Lemma visit_dirs_total g R C r c ds st :
  readable g R C -> exists st', visit_dirs g R C r c ds st = Returned st'.
Proof.
  intros Hread. revert st. induction ds as [|[dr dc] ds IH]; intros st.
  - eexists. reflexivity.
  - cbn [visit_dirs].
    destruct ((r + dr <? 0) || (R <=? r + dr) || (c + dc <? 0) || (C <=? c + dc)) eqn:Hout;
      [apply IH|].
    rewrite !orb_false_iff, !Z.ltb_ge, !Z.leb_gt in Hout.
    destruct (Hread (r + dr, c + dc)) as [ch Hch]; [split; cbn; lia|].
    cbn in Hch. rewrite (bind_Returned_l _ _ _ Hch).
    destruct (negb (is_open_cell ch)); [apply IH|].
    destruct (idx_of st !! key (r + dr) (c + dc)); apply IH.
Qed.

Lemma expanded_mono g R C cs cs' p :
  expanded g R C cs p -> (forall q, q ∈ cs -> q ∈ cs') -> expanded g R C cs' p.
Proof. unfold expanded. eauto. Qed.

Lemma index_loop_spec fuel g R C h st st' :
  R <= INT_MAX -> C <= INT_MAX ->
  index_loop fuel g R C st = Returned st' ->
  index_inv g R C h st -> closure_inv g R C st ->
  index_inv g R C h st' /\ closure_inv g R C st' /\ queue st' = []
  /\ idx_of st ⊆ idx_of st'.
Proof.
  intros HR HC. revert st. induction fuel as [|fuel IH]; intros st Hl Hinv Hcl.
  - cbn in Hl. destruct (queue st) as [|[r c] q'] eqn:Hq; [|discriminate].
    injection Hl as <-. auto.
  - cbn [index_loop] in Hl. destruct (queue st) as [|[r c] q'] eqn:Hq.
    { injection Hl as <-. auto. }
    obind Hl. rename a into st1.
    assert (index_inv g R C h (mkIndex (idx_of st) (coords st) q')) as Hinv0.
    { destruct st as [i cs q]. cbn in *. subst q.
      eapply index_inv_queue; [exact Hinv|]. intros p Hp. right. exact Hp. }
    destruct (visit_dirs_spec _ _ _ _ _ _ _ _ h HR HC Ha Hinv0)
      as (Hinv1 & Hsub1 & (new & Hc1 & Hq1) & Hexp).
    cbn in Hc1, Hq1, Hsub1.
    destruct (IH _ Hl Hinv1) as (Hinv' & Hcl' & Hq' & Hsub').
    + intros p Hp. rewrite Hc1 in Hp. apply elem_of_app in Hp as [Hp|Hp].
      * destruct (Hcl p Hp) as [Hin|He].
        -- rewrite Hq in Hin. apply elem_of_cons in Hin as [->|Hin].
           ++ right. exact Hexp.
           ++ left. rewrite Hq1. apply elem_of_app. auto.
        -- right. eapply expanded_mono; [exact He|].
           intros q Hq0. rewrite Hc1. apply elem_of_app. auto.
      * left. rewrite Hq1. apply elem_of_app. auto.
    + split; [assumption|]. split; [assumption|]. split; [assumption|].
      etransitivity; eassumption.
Qed.

Lemma cells_pigeonhole R C (l : list (Z * Z)) :
  NoDup l -> (forall p, p ∈ l -> in_bounds R C p) ->
  (length l <= Z.to_nat (R * C))%nat.
Proof.
  intros Hnd Hb.
  destruct (Z_le_gt_dec R 0) as [HR0|HRpos].
  { destruct l as [|p l]; [cbn; lia|]. destruct (Hb p) as [? ?]; [left|]. lia. }
  destruct (Z_le_gt_dec C 0) as [HC0|HCpos].
  { destruct l as [|p l]; [cbn; lia|]. destruct (Hb p) as [? ?]; [left|]. lia. }
  set (all := list_prod (seqZ 0 R) (seqZ 0 C)).
  assert (length all = Z.to_nat (R * C)) as <-.
  { unfold all. rewrite length_prod, !length_seqZ. lia. }
  apply submseteq_length, NoDup_submseteq; [assumption|].
  intros [r c] Hp. destruct (Hb _ Hp) as [H1 H2]. cbn in *.
  apply list_elem_of_In, in_prod; apply list_elem_of_In, elem_of_seqZ; lia.
Qed.

Lemma index_loop_total fuel g R C h st :
  R <= INT_MAX -> C <= INT_MAX -> readable g R C ->
  index_inv g R C h st ->
  (Z.to_nat (R * C) - length (coords st) + length (queue st) <= fuel)%nat ->
  exists st', index_loop fuel g R C st = Returned st'.
Proof.
  intros HR HC Hread. revert st. induction fuel as [|fuel IH]; intros st Hinv Hfuel.
  - destruct (queue st) as [|[r c] q'] eqn:Hq; cbn; rewrite Hq; [eauto|].
    cbn in Hfuel. lia.
  - cbn [index_loop]. destruct (queue st) as [|[r c] q'] eqn:Hq; [eauto|].
    destruct (visit_dirs_total g R C r c dirs (mkIndex (idx_of st) (coords st) q') Hread)
      as [st1 Hst1].
    rewrite (bind_Returned_l _ _ _ Hst1).
    assert (index_inv g R C h (mkIndex (idx_of st) (coords st) q')) as Hinv0.
    { destruct st as [i cs q]. cbn in *. subst q.
      eapply index_inv_queue; [exact Hinv|]. intros p Hp. right. exact Hp. }
    destruct (visit_dirs_spec _ _ _ _ _ _ _ _ h HR HC Hst1 Hinv0)
      as (Hinv1 & _ & (new & Hc1 & Hq1) & _).
    cbn in Hc1, Hq1.
    apply (IH _ Hinv1).
    pose proof (cells_pigeonhole R C (coords st1) (index_inv_NoDup _ _ _ _ _ Hinv1)) as Hp.
    assert (length (coords st1) <= Z.to_nat (R * C))%nat as Hle.
    { apply Hp. intros p Hin. apply list_elem_of_lookup in Hin as [i Hi].
      eapply ii_bounds; eauto. }
    rewrite Hc1, Hq1, !length_app in *. cbn in Hfuel. lia.
Qed.

(** ** The table loop *)

Lemma scan_cells_spec g R C idx n cs :
  forall pre tb tb',
  scan_cells g R C idx (length pre) cs tb = Returned tb' ->
  n = length (pre ++ cs) ->
  length (adj tb) = n -> length (wallable tb) = n -> wf_bitset n (boundary tb) ->
  (forall j p, pre !! j = Some p -> cell_facts g R C idx tb j p) ->
  (forall j, (length pre <= j)%nat -> Bitset.test (boundary tb) j = false) ->
  tables_ok g R C idx (pre ++ cs) tb'.
Proof.
  induction cs as [|[r c] cs IH]; intros pre tb tb' Hs Hn Hla Hlw Hwf Hfacts Hrest.
  - cbn in Hs. injection Hs as <-. rewrite app_nil_r in *.
    constructor; try congruence. assumption.
  - cbn [scan_cells] in Hs. obind Hs. rename a into ch.
    rewrite length_app in Hn. cbn in Hn.
    assert (length pre < n)%nat as Hi by lia.
    replace (pre ++ (r, c) :: cs) with ((pre ++ [(r, c)]) ++ cs)
      by (rewrite <- app_assoc; reflexivity).
    replace (S (length pre)) with (length (pre ++ [(r, c)])) in Hs
      by (rewrite length_app; cbn; lia).
    set (bd' := if on_boundary R C r c then Bitset.set (boundary tb) (length pre)
                else boundary tb) in *.
    assert (wf_bitset n bd') as Hwf'.
    { unfold bd'. destruct (on_boundary R C r c); [apply wf_set|]; assumption. }
    assert (forall j, Bitset.test bd' j
              = (bool_decide (length pre = j) && on_boundary R C r c)
                || Bitset.test (boundary tb) j) as Hbd.
    { intros j. unfold bd'. destruct (on_boundary R C r c).
      - rewrite (test_set n) by assumption. rewrite andb_true_r. reflexivity.
      - rewrite andb_false_r. reflexivity. }
    eapply IH; [exact Hs| | | | | |]; cbn [adj wallable boundary].
    + rewrite !length_app. cbn. lia.
    + rewrite length_insert. assumption.
    + rewrite length_insert. assumption.
    + assumption.
    + intros j p Hp. apply lookup_snoc_Some in Hp as [[Hj Hp]|[-> <-]].
      * destruct (Hfacts _ _ Hp) as (Ha1 & (ch' & Hch' & Hw') & Hb').
        split; [|split]; cbn [adj wallable boundary].
        -- rewrite list_lookup_insert_ne by lia. assumption.
        -- exists ch'. split; [assumption|]. rewrite list_lookup_insert_ne by lia.
           assumption.
        -- rewrite Hbd. case_bool_decide; [lia|]. cbn. assumption.
      * split; [|split]; cbn [adj wallable boundary fst snd].
        -- apply list_lookup_insert_eq. lia.
        -- exists ch. split; [assumption|]. apply list_lookup_insert_eq. lia.
        -- rewrite Hbd, Hrest by lia. rewrite bool_decide_eq_true_2 by reflexivity.
           cbn. apply orb_false_r.
    + intros j Hj. rewrite length_app in Hj. cbn in Hj.
      rewrite Hbd, Hrest by lia. case_bool_decide; [lia|]. reflexivity.
Qed.

Lemma scan_cells_total g R C idx cs :
  readable g R C -> (forall p, p ∈ cs -> in_bounds R C p) ->
  forall i tb, exists tb', scan_cells g R C idx i cs tb = Returned tb'.
Proof.
  intros Hread. induction cs as [|[r c] cs IH]; intros Hb i tb.
  - eexists. reflexivity.
  - cbn [scan_cells]. destruct (Hread (r, c)) as [ch Hch]; [apply Hb; left|].
    cbn in Hch. rewrite (bind_Returned_l _ _ _ Hch). apply IH.
    intros p Hp. apply Hb. right. exact Hp.
Qed.

Lemma build_tables_spec g R C ix tb :
  build_tables g R C ix = Returned tb ->
  tables_ok g R C (idx_of ix) (coords ix) tb.
Proof.
  intros Hb. unfold build_tables in Hb.
  apply (scan_cells_spec g R C (idx_of ix) (length (coords ix)) (coords ix) [] _ _ Hb);
    cbn [adj wallable boundary].
  - reflexivity.
  - apply length_replicate.
  - apply length_replicate.
  - apply wf_init.
  - intros j p Hp. inversion Hp.
  - intros j _. apply test_init.
Qed.

(** ** Valid grids *)

Lemma string_get_lookup s n : String.get n s = list_ascii_of_string s !! n.
Proof.
  revert n. induction s as [|a s IH]; intros [|n]; cbn; auto.
Qed.

Lemma length_list_ascii s : length (list_ascii_of_string s) = String.length s.
Proof. induction s; cbn; auto. Qed.

Lemma grid_at_lookup g r c row ch :
  0 <= r -> 0 <= c ->
  g !! Z.to_nat r = Some row -> list_ascii_of_string row !! Z.to_nat c = Some ch ->
  grid_at g r c = Returned ch.
Proof.
  intros Hr Hc Hrow Hch. unfold grid_at.
  destruct (Z.ltb_spec r 0); [lia|]. destruct (Z.ltb_spec c 0); [lia|]. cbn.
  rewrite Hrow, string_get_lookup, Hch. reflexivity.
Qed.

Lemma grid_at_inv g r c ch :
  grid_at g r c = Returned ch ->
  0 <= r /\ 0 <= c /\ exists row, g !! Z.to_nat r = Some row
    /\ (list_ascii_of_string row !! Z.to_nat c = Some ch
        \/ (Z.to_nat c = String.length row /\ ch = "000"%char)).
Proof.
  unfold grid_at.
  destruct (Z.ltb_spec r 0); [discriminate|]. destruct (Z.ltb_spec c 0); [discriminate|].
  cbn. destruct (g !! Z.to_nat r) as [row|]; [|discriminate].
  rewrite string_get_lookup.
  destruct (list_ascii_of_string row !! Z.to_nat c) as [ch'|] eqn:Hc.
  - intros [= <-]. eauto 10.
  - destruct (Nat.eqb_spec (Z.to_nat c) (String.length row)); [|discriminate].
    intros [= <-]. eauto 10.
Qed.

Lemma valid_grid_inv g :
  valid_grid g = true ->
  exists row0, g !! 0%nat = Some row0
    /\ rows g <= INT_MAX /\ cols g <= INT_MAX
    /\ Forall (fun row => String.length row = String.length row0) g
    /\ Forall (fun row => Forall (fun ch => valid_char ch = true)
                            (list_ascii_of_string row)) g
    /\ count_char "H"%char g = 1%nat.
Proof.
  unfold valid_grid. destruct g as [|row0 g']; [discriminate|].
  rewrite !andb_true_iff. intros ((((H1 & H2) & H3) & H4) & H5).
  exists row0. split; [reflexivity|].
  apply Z.leb_le in H1, H2. apply Nat.eqb_eq in H5.
  split; [exact H1|]. split; [exact H2|]. split; [|split; [|exact H5]].
  - apply Forall_forall. intros row Hrow.
    rewrite forallb_forall in H3. apply Nat.eqb_eq, H3, list_elem_of_In, Hrow.
  - apply Forall_forall. intros row Hrow. apply Forall_forall. intros ch Hch.
    rewrite forallb_forall in H4.
    specialize (H4 row (proj1 (list_elem_of_In _ _) Hrow)).
    rewrite forallb_forall in H4. apply H4, list_elem_of_In, Hch.
Qed.

Lemma valid_grid_readable g :
  valid_grid g = true -> readable g (rows g) (cols g).
Proof.
  intros Hv. destruct (valid_grid_inv g Hv) as (row0 & H0 & _ & _ & Hlen & _).
  intros [r c] [Hr Hc]. unfold rows, cols in *. rewrite H0 in Hc.
  simpl in Hr, Hc. cbn [fst snd].
  destruct (lookup_lt_is_Some_2 g (Z.to_nat r)) as [row Hrow]; [lia|].
  assert (String.length row = String.length row0) as Hl.
  { apply (Forall_lookup_1 _ _ _ _ Hlen Hrow). }
  destruct (lookup_lt_is_Some_2 (list_ascii_of_string row) (Z.to_nat c)) as [ch Hch].
  { rewrite length_list_ascii. lia. }
  exists ch. apply (grid_at_lookup g r c row ch); auto; lia.
Qed.

Lemma valid_grid_chars g r c ch :
  valid_grid g = true -> in_bounds (rows g) (cols g) (r, c) ->
  grid_at g r c = Returned ch -> valid_char ch = true.
Proof.
  intros Hv [Hr Hc] Hat.
  destruct (valid_grid_inv g Hv) as (row0 & H0 & _ & _ & Hlen & Hch & _).
  unfold rows, cols in *. rewrite H0 in Hc. simpl in Hr, Hc.
  destruct (grid_at_inv _ _ _ _ Hat) as (_ & _ & row & Hrow & [Hl|[Hl _]]).
  - pose proof (Forall_lookup_1 _ _ _ _ Hch Hrow) as Hrc.
    apply (Forall_lookup_1 _ _ _ _ Hrc Hl).
  - pose proof (Forall_lookup_1 _ _ _ _ Hlen Hrow) as Hrl. cbn beta in Hrl. lia.
Qed.

Lemma open3_valid : valid_grid open3 = true.
Proof. reflexivity. Qed.

(** ** graph_of *)

Lemma index_inv_init g R C h :
  in_bounds R C h -> grid_at g h.1 h.2 = Returned "H"%char ->
  index_inv g R C h (mkIndex {[ key h.1 h.2 := 0%nat ]} [h] [h]).
Proof.
  intros Hb Hh. constructor; cbn.
  - reflexivity.
  - intros [|i] p Hp; [|inversion Hp]. injection Hp as <-. exact Hb.
  - intros [|i] p Hp; [|inversion Hp]. injection Hp as <-. exists "H"%char. auto.
  - intros [|i] p Hp; [|inversion Hp]. injection Hp as <-. apply lookup_singleton_eq.
  - intros kk i Hk. apply lookup_singleton_Some in Hk as [<- <-]. eauto.
  - auto.
Qed.

Lemma closure_inv_init g R C h idx :
  closure_inv g R C (mkIndex idx [h] [h]).
Proof. intros p Hp. left. exact Hp. Qed.

Lemma graph_of_spec g ix tb :
  valid_grid g = true -> graph_of g = Returned (ix, tb) ->
  exists h,
    find_horse g (rows g) (cols g) = Returned (Some h)
    /\ index_inv g (rows g) (cols g) h ix
    /\ (forall p, p ∈ coords ix -> expanded g (rows g) (cols g) (coords ix) p)
    /\ tables_ok g (rows g) (cols g) (idx_of ix) (coords ix) tb.
Proof.
  intros Hv Hg.
  destruct (valid_grid_inv g Hv) as (row0 & H0 & HR & HC & _).
  unfold graph_of in Hg. unfold rows, cols in *. rewrite H0 in *.
  cbn [from_option id] in *.
  obind Hg. destruct a as [[hr hc]|]; [|discriminate].
  obind Hg. rename a into ix'. obind Hg. injection Hg as <- <-.
  exists (hr, hc). split; [assumption|].
  destruct (find_horse_Some _ _ _ _ _ Ha) as [Hb Hh].
  unfold index_cells in Ha0.
  destruct (index_loop_spec _ _ _ _ (hr, hc) _ _ HR HC Ha0) as (Hinv & Hcl & Hq & _).
  { apply (index_inv_init g _ _ (hr, hc)); assumption. }
  { apply closure_inv_init. }
  split; [exact Hinv|]. split.
  - intros p Hp. destruct (Hcl p Hp) as [Hin|He]; [|exact He].
    rewrite Hq in Hin. inversion Hin.
  - apply build_tables_spec. assumption.
Qed.

Lemma horse_cell_facts g R C h ix tb :
  index_inv g R C h ix -> tables_ok g R C (idx_of ix) (coords ix) tb ->
  grid_at g h.1 h.2 = Returned "H"%char ->
  (0 < length (coords ix))%nat /\ getB (wallable tb) horse_idx = false.
Proof.
  intros Hinv Htb Hh. pose proof (ii_head _ _ _ _ _ Hinv) as H0.
  split; [eapply lookup_lt_Some; eauto|].
  destruct (tk_facts _ _ _ _ _ _ Htb _ _ H0) as (_ & (ch & Hch & Hw) & _).
  unfold getB, horse_idx. rewrite Hw. cbn.
  rewrite Hh in Hch. injection Hch as <-. reflexivity.
Qed.

Lemma wallable_is_dot g R C idx cs tb i :
  tables_ok g R C idx cs tb -> getB (wallable tb) i = true -> cell_is_dot g cs i.
Proof.
  intros Htb Hw. unfold getB in Hw.
  destruct (wallable tb !! i) as [b|] eqn:Hl; [|discriminate]. cbn in Hw. subst b.
  pose proof (lookup_lt_Some _ _ _ Hl) as Hlt.
  rewrite (tk_wallable _ _ _ _ _ _ Htb) in Hlt.
  destruct (lookup_lt_is_Some_2 _ _ Hlt) as [p Hp].
  destruct (tk_facts _ _ _ _ _ _ Htb _ _ Hp) as (_ & (ch & Hch & Hw) & _).
  exists p. split; [exact Hp|]. rewrite Hl in Hw. injection Hw as Hw.
  symmetry in Hw. apply Ascii.eqb_eq in Hw. subst ch. exact Hch.
Qed.

(** ** find_horse scans in row-major order *)

Lemma find_in_row_first g r cs c :
  find_in_row g r cs = Returned (Some c) ->
  exists pre post, cs = pre ++ c :: post /\ Forall (not_horse g r) pre.
Proof.
  induction cs as [|c0 cs IH]; cbn; [discriminate|].
  intros H. obind H.
  destruct (Ascii.eqb_spec a "H"%char) as [->|Hne].
  - injection H as <-. exists [], cs. split; [reflexivity|constructor].
  - destruct (IH H) as (pre & post & -> & Hpre).
    exists (c0 :: pre), post. split; [reflexivity|].
    constructor; [|assumption]. exists a. auto.
Qed.

Lemma find_in_row_None g r cs :
  find_in_row g r cs = Returned None -> Forall (not_horse g r) cs.
Proof.
  induction cs as [|c0 cs IH]; cbn; [constructor|].
  intros H. obind H.
  destruct (Ascii.eqb_spec a "H"%char) as [->|Hne]; [discriminate|].
  constructor; [exists a; auto|auto].
Qed.

Lemma seqZ_split_before n (pre post : list Z) x :
  seqZ 0 n = pre ++ x :: post -> forall y, 0 <= y < x -> y ∈ pre.
Proof.
  intros Hs y Hy.
  assert (x = Z.of_nat (length pre)) as Hx.
  { assert (seqZ 0 n !! length pre = Some x) as Hl
      by (rewrite Hs; apply list_lookup_middle; reflexivity).
    apply lookup_seqZ in Hl. lia. }
  assert (seqZ 0 n !! Z.to_nat y = Some y) as Hl.
  { apply lookup_seqZ. split; [lia|].
    assert (length (seqZ 0 n) = length (pre ++ x :: post)) as Hlen by congruence.
    rewrite length_seqZ, length_app in Hlen. cbn in Hlen. lia. }
  rewrite Hs, lookup_app_l in Hl by lia.
  eapply list_elem_of_lookup_2; eauto.
Qed.

Lemma find_in_rows_first g C rs hr hc :
  find_in_rows g C rs = Returned (Some (hr, hc)) ->
  exists pre post, rs = pre ++ hr :: post
    /\ Forall (fun r => forall c, 0 <= c < C -> not_horse g r c) pre
    /\ forall c, 0 <= c < hc -> not_horse g hr c.
Proof.
  induction rs as [|r rs IH]; cbn; [discriminate|].
  intros H. obind H. destruct a as [c|].
  - injection H as <- <-. exists [], rs. split; [reflexivity|]. split; [constructor|].
    destruct (find_in_row_first _ _ _ _ Ha) as (pre & post & Hs & Hpre).
    intros c' Hc'. apply (Forall_forall (not_horse g r) pre); [assumption|].
    eapply seqZ_split_before; eauto.
  - destruct (IH H) as (pre & post & -> & Hpre & Hrow).
    exists (r :: pre), post. split; [reflexivity|]. split; [|assumption].
    constructor; [|assumption].
    intros c Hc. apply (Forall_forall (not_horse g r) (seqZ 0 C)).
    + apply find_in_row_None. assumption.
    + apply elem_of_seqZ. lia.
Qed.

Lemma find_in_rows_None g C rs :
  find_in_rows g C rs = Returned None ->
  Forall (fun r => forall c, 0 <= c < C -> not_horse g r c) rs.
Proof.
  induction rs as [|r rs IH]; cbn; [constructor|].
  intros H. obind H. destruct a as [c|]; [discriminate|].
  constructor; [|auto].
  intros c Hc. apply (Forall_forall (not_horse g r) (seqZ 0 C)).
  - apply find_in_row_None. assumption.
  - apply elem_of_seqZ. lia.
Qed.

Lemma find_in_row_total g r cs :
  (forall c, c ∈ cs -> exists ch, grid_at g r c = Returned ch) ->
  exists o, find_in_row g r cs = Returned o.
Proof.
  induction cs as [|c cs IH]; intros Hread; cbn; [eauto|].
  destruct (Hread c ltac:(left)) as [ch Hch].
  rewrite (bind_Returned_l _ _ _ Hch).
  destruct (Ascii.eqb ch "H"%char); [eauto|].
  apply IH. intros c' Hc'. apply Hread. right. assumption.
Qed.

Lemma find_horse_total g R C :
  readable g R C -> exists o, find_horse g R C = Returned o.
Proof.
  intros Hread. unfold find_horse.
  assert (forall rs, (forall r, r ∈ rs -> 0 <= r < R) ->
                     exists o, find_in_rows g C rs = Returned o) as Hgen.
  { induction rs as [|r rs IH]; intros Hrs; cbn; [eauto|].
    destruct (find_in_row_total g r (seqZ 0 C)) as [o Ho].
    { intros c Hc. apply elem_of_seqZ in Hc.
      apply (Hread (r, c)). split; cbn; [apply Hrs; left|lia]. }
    rewrite (bind_Returned_l _ _ _ Ho). destruct o; [eauto|].
    apply IH. intros r' Hr'. apply Hrs. right. assumption. }
  apply Hgen. intros r Hr. apply elem_of_seqZ in Hr. lia.
Qed.

Lemma find_horse_None g R C :
  find_horse g R C = Returned None ->
  forall r c, in_bounds R C (r, c) -> not_horse g r c.
Proof.
  intros H r c [Hr Hc]. cbn in Hr, Hc.
  apply find_in_rows_None in H.
  apply (Forall_forall _ _) with (x := r) in H; [auto|].
  apply elem_of_seqZ. lia.
Qed.

Lemma find_horse_first g R C hr hc :
  find_horse g R C = Returned (Some (hr, hc)) ->
  forall r c, in_bounds R C (r, c) -> r < hr \/ (r = hr /\ c < hc) ->
              not_horse g r c.
Proof.
  intros H r c [Hr Hc] Hbefore. cbn in Hr, Hc.
  destruct (find_in_rows_first _ _ _ _ _ H) as (pre & post & Hs & Hpre & Hrow).
  destruct Hbefore as [Hlt|[-> Hlt]].
  - apply (Forall_forall _ _) with (x := r) in Hpre; [auto|].
    eapply seqZ_split_before; eauto. lia.
  - apply Hrow. lia.
Qed.

(** A valid grid holds its horse. *)
Lemma valid_grid_horse g :
  valid_grid g = true ->
  exists r c, in_bounds (rows g) (cols g) (r, c)
              /\ grid_at g r c = Returned "H"%char.
Proof.
  intros Hv. destruct (valid_grid_inv g Hv) as (row0 & H0 & _ & _ & Hlen & _ & Hcount).
  unfold count_char in Hcount.
  destruct (filter _ _) as [|ch l] eqn:Hf; [discriminate|].
  assert (ch ∈ filter (fun x => x = "H"%char) (concat (map list_ascii_of_string g)))
    as Hin by (rewrite Hf; left).
  apply list_elem_of_filter in Hin as [-> Hin].
  apply list_elem_of_In, in_concat in Hin as (l' & Hl' & Hin).
  apply list_elem_of_In, list_elem_of_fmap in Hl' as (row & -> & Hrow).
  apply list_elem_of_lookup in Hrow as [r Hr].
  apply list_elem_of_In, list_elem_of_lookup in Hin as [c Hc].
  exists (Z.of_nat r), (Z.of_nat c). split.
  - pose proof (lookup_lt_Some _ _ _ Hr). pose proof (lookup_lt_Some _ _ _ Hc) as Hcl.
    rewrite length_list_ascii in Hcl.
    pose proof (Forall_lookup_1 _ _ _ _ Hlen Hr) as Hrl. cbn beta in Hrl.
    unfold rows, cols. rewrite H0. split; cbn; lia.
  - apply (grid_at_lookup g _ _ row); try lia; rewrite Nat2Z.id; assumption.
Qed.

Lemma graph_of_total g :
  valid_grid g = true -> exists ix tb, graph_of g = Returned (ix, tb).
Proof.
  intros Hv. pose proof (valid_grid_readable g Hv) as Hread.
  destruct (valid_grid_inv g Hv) as (row0 & H0 & HR & HC & _).
  unfold graph_of. unfold rows, cols in *. rewrite H0 in *. cbn [from_option id] in *.
  destruct (find_horse_total _ _ _ Hread) as [[[hr hc]|] Hfh];
    rewrite (bind_Returned_l _ _ _ Hfh).
  2:{ exfalso. destruct (valid_grid_horse g Hv) as (r & c & Hb & Hh).
      unfold rows, cols in Hb. rewrite H0 in Hb.
      destruct (find_horse_None _ _ _ Hfh r c Hb) as (ch & Hch & Hne). congruence. }
  destruct (find_horse_Some _ _ _ _ _ Hfh) as [Hb Hh].
  pose proof (index_inv_init g _ _ (hr, hc) Hb Hh) as Hinv0.
  destruct (index_loop_total (Z.to_nat (Z.of_nat (length g) * Z.of_nat (String.length row0)))
              g _ _ (hr, hc) _ HR HC Hread Hinv0) as [ix Hix].
  { cbn [coords queue length]. destruct Hb as [Hb1 Hb2]. cbn [fst snd] in Hb1, Hb2.
    assert (1 <= Z.of_nat (length g) * Z.of_nat (String.length row0)) by nia. lia. }
  unfold index_cells. rewrite (bind_Returned_l _ _ _ Hix).
  destruct (index_loop_spec _ _ _ _ (hr, hc) _ _ HR HC Hix Hinv0) as (Hinv & _).
  { apply closure_inv_init. }
  destruct (scan_cells_total g (Z.of_nat (length g)) (Z.of_nat (String.length row0))
              (idx_of ix) (coords ix) Hread) with (i := 0%nat)
    (tb := mkTables (replicate (length (coords ix)) [])
             (replicate (length (coords ix)) false)
             (Bitset.init (length (coords ix)))) as [tb Htb].
  { intros p Hp. apply list_elem_of_lookup in Hp as [i Hi].
    exact (ii_bounds _ _ _ _ _ Hinv _ _ Hi). }
  unfold build_tables. rewrite (bind_Returned_l _ _ _ Htb). eauto.
Qed.

(** * The search *)

Lemma build_env_fields k cs tb :
  let E := build_env k cs tb in
  N E = length cs /\ cell_coords E = cs /\ tables E = tb
  /\ INF E = int_wrap (k + 1)
  /\ node_count E = (2 * length cs + 2)%nat
  /\ SRC E = (2 * length cs)%nat /\ SNK E = (2 * length cs + 1)%nat.
Proof.
  unfold build_env.
  destruct (add_cell_edges _ _ _ _) as [ft1 cell_ids].
  destruct (add_src_edges _ _ _ _) as [ft4 src_ids].
  cbn. repeat split; reflexivity.
Qed.

Section Search.

Variable E : env.

Lemma extract_sep_spec d f can :
  let sep := extract_sep E d f can in
  wf_bitset (N E) sep
  /\ forall i, Bitset.test sep i = true ->
       (i < N E)%nat /\ wallable_at E i = true
       /\ Bitset.test d i = false /\ Bitset.test f i = false
       /\ getB can (2 * i) = false /\ getB can (2 * i + 1) = true.
Proof.
  unfold extract_sep.
  assert (forall l sep0,
    (forall i, i ∈ l -> (i < N E)%nat) ->
    wf_bitset (N E) sep0 ->
    (forall i, Bitset.test sep0 i = true ->
       (i < N E)%nat /\ wallable_at E i = true
       /\ Bitset.test d i = false /\ Bitset.test f i = false
       /\ getB can (2 * i) = false /\ getB can (2 * i + 1) = true) ->
    let sep := fold_left
      (fun sep i =>
         if negb (getB (wallable (tables E)) i) then sep
         else if Bitset.test d i || Bitset.test f i then sep
         else if negb (getB can (2 * i)) && getB can (2 * i + 1)
              then Bitset.set sep i else sep) l sep0 in
    wf_bitset (N E) sep
    /\ forall i, Bitset.test sep i = true ->
         (i < N E)%nat /\ wallable_at E i = true
         /\ Bitset.test d i = false /\ Bitset.test f i = false
         /\ getB can (2 * i) = false /\ getB can (2 * i + 1) = true) as Hgen.
  { induction l as [|j l IH]; intros sep0 Hl Hwf Hbits; cbn [fold_left].
    - auto.
    - apply IH.
      + intros i Hi. apply Hl. right. exact Hi.
      + destruct (negb (getB (wallable (tables E)) j)); [assumption|].
        destruct (Bitset.test d j || Bitset.test f j); [assumption|].
        destruct (negb (getB can (2 * j)) && getB can (2 * j + 1)); [|assumption].
        apply wf_set; [assumption|]. apply Hl. left.
      + intros i.
        destruct (getB (wallable (tables E)) j) eqn:Hw; cbn [negb]; [|apply Hbits].
        destruct (Bitset.test d j || Bitset.test f j) eqn:Hdf; [apply Hbits|].
        destruct (negb (getB can (2 * j)) && getB can (2 * j + 1)) eqn:Hc;
          [|apply Hbits].
        rewrite (test_set (N E)) by (try assumption; apply Hl; left).
        case_bool_decide as Hij; cbn [orb]; [|apply Hbits].
        subst i. intros _. apply orb_false_iff in Hdf as [Hd Hf].
        apply andb_true_iff in Hc as [Hc1 Hc2]. apply negb_true_iff in Hc1.
        split; [apply Hl; left|]. unfold wallable_at. auto. }
  apply Hgen.
  - intros i Hi. apply elem_of_seq in Hi. lia.
  - apply wf_init.
  - intros i. rewrite test_init. discriminate.
Qed.

Lemma min_separator_Some d f k sep :
  min_separator E d f k = Returned (Some sep) ->
  exists can, sep = extract_sep E d f can.
Proof.
  unfold min_separator.
  destruct (patch_forced E d f _) as [cap ok].
  destruct ok; cbn [negb]; [|discriminate].
  intros H. obind H. destruct a as [fl cap'].
  destruct (k <? fl); [discriminate|].
  obind H. injection H as <-. eauto.
Qed.

Lemma separator_bit d f k sep v :
  min_separator E d f k = Returned (Some sep) ->
  Bitset.first_set_bit sep = Some v ->
  wf_bitset (N E) sep
  /\ (v < N E)%nat /\ wallable_at E v = true
  /\ Bitset.test d v = false /\ Bitset.test f v = false.
Proof.
  intros Hm Hv. apply min_separator_Some in Hm as [can ->].
  destruct (extract_sep_spec d f can) as [Hwf Hbits].
  destruct (first_set_bit_spec _ _ _ Hwf Hv) as [_ Ht].
  destruct (Hbits _ Ht) as (? & ? & ? & ? & _). auto.
Qed.

Hypothesis horse_cell : (0 < N E)%nat.

Lemma state_ok_root :
  state_ok E (Bitset.init (N E)) (Bitset.set (Bitset.init (N E)) horse_idx).
Proof.
  constructor.
  - apply wf_init.
  - apply wf_set; [apply wf_init|exact horse_cell].
  - rewrite (test_set (N E) _ _ _ (wf_init (N E)) horse_cell).
    rewrite bool_decide_eq_true_2 by reflexivity. reflexivity.
  - apply test_init.
  - intros i. rewrite test_init. discriminate.
  - intros i. rewrite test_init. discriminate.
Qed.

Lemma state_ok_force d f k sep v :
  state_ok E d f ->
  min_separator E d f k = Returned (Some sep) ->
  Bitset.first_set_bit sep = Some v ->
  state_ok E d (Bitset.set f v).
Proof.
  intros [Hd Hf Hhf Hhd Hw Hdis] Hm Hv.
  destruct (separator_bit _ _ _ _ _ Hm Hv) as (_ & Hlt & Hwv & Hdv & Hfv).
  constructor; try assumption.
  - apply wf_set; assumption.
  - rewrite (test_set (N E)) by assumption. rewrite Hhf. apply orb_true_r.
  - intros i Hi. rewrite (test_set (N E)) by assumption.
    case_bool_decide; [subst; congruence|]. cbn. auto.
Qed.

Lemma state_ok_delete d f k sep v :
  state_ok E d f ->
  min_separator E d f k = Returned (Some sep) ->
  Bitset.first_set_bit sep = Some v ->
  state_ok E (Bitset.set d v) f.
Proof.
  intros [Hd Hf Hhf Hhd Hw Hdis] Hm Hv.
  destruct (separator_bit _ _ _ _ _ Hm Hv) as (_ & Hlt & Hwv & Hdv & Hfv).
  constructor; try assumption.
  - apply wf_set; assumption.
  - rewrite (test_set (N E)) by assumption. rewrite Hhd.
    case_bool_decide; [|reflexivity]. subst v. congruence.
  - intros i. rewrite (test_set (N E)) by assumption.
    case_bool_decide; [subst; auto|]. cbn. auto.
  - intros i. rewrite (test_set (N E)) by assumption.
    case_bool_decide; [subst; auto|]. cbn. auto.
Qed.

(** [dfs] enters every state it is called with in [visited_states] before
    anything else, and a state it finds there is a state of an earlier
    call: the states recorded when the search ends are the states of all
    the calls.  Each of them is a well-formed search state. *)
Lemma dfs_visited_ok depth :
  forall d f k s s',
  dfs E depth d f k s = Returned s' ->
  state_ok E d f ->
  (forall st, st ∈ visited_states s -> state_ok E (deleted st) (forced st)) ->
  forall st, st ∈ visited_states s' -> state_ok E (deleted st) (forced st).
Proof.
  induction depth as [|depth IH]; intros d f k s s' Hd Hst Hs; [discriminate|].
  cbn [dfs] in Hd.
  destruct (existsb _ _); [injection Hd as <-; assumption|].
  cbn [visited_states cur_best_area best_walls] in Hd.
  assert (forall st, st ∈ mkState d f k :: visited_states s ->
                     state_ok E (deleted st) (forced st)) as Hs0.
  { intros st [->|Hin]%elem_of_cons; [exact Hst|apply Hs, Hin]. }
  obind Hd. destruct a as [[vis_now ub_area] esc].
  destruct (ub_area <=? cur_best_area s)%nat; [injection Hd as <-; exact Hs0|].
  destruct (negb (Bitset.subset_of f vis_now)); [injection Hd as <-; exact Hs0|].
  obind Hd. destruct a as [sep|]; [|injection Hd as <-; exact Hs0].
  rename Ha0 into Hm.
  obind Hd. destruct a as [[vis2 area2] escapes2].
  set (s1 := if negb escapes2 && (cur_best_area s <? area2)%nat
             then mkSearch _ area2 (Bitset.union d sep)
             else mkSearch _ (cur_best_area s) (best_walls s)) in Hd.
  assert (forall st, st ∈ visited_states s1 ->
                     state_ok E (deleted st) (forced st)) as Hs1.
  { unfold s1. destruct (negb escapes2 && (cur_best_area s <? area2)%nat); exact Hs0. }
  destruct ((k =? 0) || Bitset.empty sep); [injection Hd as <-; exact Hs1|].
  destruct (Bitset.first_set_bit sep) as [v|] eqn:Hv; [|injection Hd as <-; exact Hs1].
  obind Hd.
  eapply IH; [exact Hd| |].
  - eapply state_ok_delete; eauto.
  - eapply IH; [exact Ha1| |exact Hs1]. eapply state_ok_force; eauto.
Qed.

(** The record is complete: a call keeps what is recorded, and its own
    state is recorded when it returns, by itself or by the earlier call
    the look-up found. *)
Lemma dfs_records_call depth :
  forall d f k s s',
  dfs E depth d f k s = Returned s' ->
  (forall st, st ∈ visited_states s -> st ∈ visited_states s')
  /\ (mkState d f k ∈ visited_states s'
      \/ existsb (State_eqb (mkState d f k)) (visited_states s) = true).
Proof.
  induction depth as [|depth IH]; intros d f k s s' Hd; [discriminate|].
  cbn [dfs] in Hd.
  destruct (existsb _ _) eqn:Hseen; [injection Hd as <-; auto|].
  cbn [visited_states cur_best_area best_walls] in Hd.
  assert (forall s0, (forall st, st ∈ mkState d f k :: visited_states s ->
                                 st ∈ visited_states s0) ->
            (forall st, st ∈ visited_states s -> st ∈ visited_states s0)
            /\ (mkState d f k ∈ visited_states s0 \/ false = true)) as Hfin.
  { intros s0 H0. split; [intros st Hin; apply H0; right; exact Hin|].
    left. apply H0. left. }
  obind Hd. destruct a as [[vis_now ub_area] esc].
  destruct (ub_area <=? cur_best_area s)%nat; [injection Hd as <-; apply Hfin; auto|].
  destruct (negb (Bitset.subset_of f vis_now)); [injection Hd as <-; apply Hfin; auto|].
  obind Hd. destruct a as [sep|]; [|injection Hd as <-; apply Hfin; auto].
  obind Hd. destruct a as [[vis2 area2] escapes2].
  set (s1 := if negb escapes2 && (cur_best_area s <? area2)%nat
             then mkSearch _ area2 (Bitset.union d sep)
             else mkSearch _ (cur_best_area s) (best_walls s)) in Hd.
  assert (visited_states s1 = mkState d f k :: visited_states s) as Hs1.
  { unfold s1. destruct (negb escapes2 && (cur_best_area s <? area2)%nat); reflexivity. }
  destruct ((k =? 0) || Bitset.empty sep);
    [injection Hd as <-; apply Hfin; rewrite Hs1; auto|].
  destruct (Bitset.first_set_bit sep) as [v|];
    [|injection Hd as <-; apply Hfin; rewrite Hs1; auto].
  obind Hd.
  destruct (IH _ _ _ _ _ Ha2) as [Hm1 _]. destruct (IH _ _ _ _ _ Hd) as [Hm2 _].
  apply Hfin. intros st Hin. apply Hm2, Hm1. rewrite Hs1. exact Hin.
Qed.

(** [dfs] only ever stores wallable cells in [best_walls]. *)
Lemma dfs_walls_ok depth :
  forall d f k s s',
  dfs E depth d f k s = Returned s' ->
  state_ok E d f -> walls_ok E s -> walls_ok E s'.
Proof.
  induction depth as [|depth IH]; intros d f k s s' Hd Hst Hs; [discriminate|].
  cbn [dfs] in Hd.
  destruct (existsb _ _); [injection Hd as <-; assumption|].
  cbn [visited_states cur_best_area best_walls] in Hd.
  obind Hd. destruct a as [[vis_now ub_area] esc].
  destruct (ub_area <=? cur_best_area s)%nat; [injection Hd as <-; exact Hs|].
  destruct (negb (Bitset.subset_of f vis_now)); [injection Hd as <-; exact Hs|].
  obind Hd. destruct a as [sep|]; [|injection Hd as <-; exact Hs].
  rename Ha0 into Hm.
  obind Hd. destruct a as [[vis2 area2] escapes2].
  set (s1 := if negb escapes2 && (cur_best_area s <? area2)%nat
             then mkSearch _ area2 (Bitset.union d sep)
             else mkSearch _ (cur_best_area s) (best_walls s)) in Hd.
  assert (walls_ok E s1) as Hs1.
  { unfold s1. destruct (negb escapes2 && (cur_best_area s <? area2)%nat); [|exact Hs].
    destruct (min_separator_Some _ _ _ _ Hm) as [can ->].
    destruct (extract_sep_spec d f can) as [Hwf Hbits].
    split; cbn.
    - apply wf_union; [apply Hst|exact Hwf].
    - intros i. rewrite (test_union (N E)) by (try apply Hst; exact Hwf).
      intros [Hi|Hi]%orb_true_iff.
      + apply (so_wallable _ _ _ Hst). exact Hi.
      + apply Hbits. exact Hi. }
  destruct ((k =? 0) || Bitset.empty sep); [injection Hd as <-; exact Hs1|].
  destruct (Bitset.first_set_bit sep) as [v|] eqn:Hv; [|injection Hd as <-; exact Hs1].
  obind Hd.
  eapply IH; [exact Hd| |].
  - eapply state_ok_delete; eauto.
  - eapply IH; [exact Ha1| |exact Hs1]. eapply state_ok_force; eauto.
Qed.

End Search.

Section Reachable.

Variable E : env.
Hypothesis Hadj : adj_ok E.

Lemma visit_adj_spec blocked vs :
  forall vis dq vis' dq',
  visit_adj blocked vs vis dq = (vis', dq') ->
  wf_bitset (N E) vis -> (forall v, v ∈ vs -> (v < N E)%nat) ->
  wf_bitset (N E) vis'
  /\ exists new,
       dq' = dq ++ new
       /\ card vis' = (card vis + length new)%nat
       /\ (forall x, Bitset.test vis' x = true <-> Bitset.test vis x = true \/ x ∈ new)
       /\ (forall x, x ∈ new -> x ∈ vs /\ Bitset.test blocked x = false)
       /\ (forall v, v ∈ vs -> Bitset.test blocked v = false -> Bitset.test vis' v = true).
Proof.
  induction vs as [|v vs IH]; intros vis dq vis' dq' Hv Hwf Hlt; cbn [visit_adj] in Hv.
  - injection Hv as <- <-. split; [assumption|]. exists []. rewrite app_nil_r.
    split; [reflexivity|]. split; [cbn; lia|]. split; [|split].
    + intros x. split; [auto|]. intros [H|H]; [assumption|inversion H].
    + intros x H. inversion H.
    + intros v H. inversion H.
  - assert (forall v', v' ∈ vs -> (v' < N E)%nat) as Hlt' by (intros; apply Hlt; right; assumption).
    destruct (Bitset.test blocked v) eqn:Hb.
    { destruct (IH _ _ _ _ Hv Hwf Hlt') as (Hwf' & new & Hdq & Hcard & Hbits & Hnew & Hcl).
      split; [assumption|]. exists new. repeat split; try assumption.
      - apply Hbits.
      - apply Hbits.
      - right. apply Hnew. assumption.
      - apply Hnew. assumption.
      - intros v' Hv' Hb'. apply elem_of_cons in Hv' as [->|Hv']; [congruence|]. auto. }
    destruct (Bitset.test vis v) eqn:Ht.
    { destruct (IH _ _ _ _ Hv Hwf Hlt') as (Hwf' & new & Hdq & Hcard & Hbits & Hnew & Hcl).
      split; [assumption|]. exists new. repeat split; try assumption.
      - apply Hbits.
      - apply Hbits.
      - right. apply Hnew. assumption.
      - apply Hnew. assumption.
      - intros v' Hv' Hb'. apply elem_of_cons in Hv' as [->|Hv']; [|auto].
        apply Hbits. left. assumption. }
    assert (v < N E)%nat as Hvlt by (apply Hlt; left).
    destruct (IH _ _ _ _ Hv (wf_set _ _ _ Hwf Hvlt) Hlt')
      as (Hwf' & new & Hdq & Hcard & Hbits & Hnew & Hcl).
    split; [assumption|]. exists (v :: new).
    split; [rewrite Hdq, <- app_assoc; reflexivity|].
    split; [rewrite Hcard, (card_set (N E)) by assumption; cbn; lia|].
    split; [|split].
    + intros x. rewrite Hbits, (test_set (N E)), elem_of_cons by assumption.
      case_bool_decide; cbn; intuition congruence.
    + intros x Hx. apply elem_of_cons in Hx as [->|Hx].
      * split; [left|assumption].
      * destruct (Hnew x Hx). split; [right|]; assumption.
    + intros v' Hv' Hb'. apply elem_of_cons in Hv' as [->|Hv']; [|auto].
      apply Hbits. left. rewrite (test_set (N E)) by assumption.
      rewrite bool_decide_eq_true_2 by reflexivity. reflexivity.
Qed.

Lemma reach_loop_spec blocked fuel :
  forall vis dq vis',
  reach_loop E fuel blocked vis dq = Returned vis' ->
  wf_bitset (N E) vis ->
  reach_closed E blocked vis dq ->
  (forall x, x ∈ dq -> Bitset.test vis x = true) ->
  (forall x, Bitset.test vis x = true -> reaches E blocked x) ->
  wf_bitset (N E) vis'
  /\ reach_closed E blocked vis' []
  /\ (forall x, Bitset.test vis x = true -> Bitset.test vis' x = true)
  /\ (forall x, Bitset.test vis' x = true -> reaches E blocked x).
Proof.
  induction fuel as [|fuel IH]; intros vis dq vis' Hl Hwf Hcl Hq Hsound.
  - destruct dq; [|discriminate]. injection Hl as <-. auto.
  - cbn [reach_loop] in Hl. destruct dq as [|u dq]; [injection Hl as <-; auto|].
    destruct (visit_adj blocked (adj (tables E) !!! u) vis dq) as [vis1 dq1] eqn:Hv.
    destruct (visit_adj_spec _ _ _ _ _ _ Hv Hwf (Hadj u))
      as (Hwf1 & new & Hdq & _ & Hbits & Hnew & Hcl1).
    destruct (IH _ _ _ Hl Hwf1) as (Hwf' & Hcl' & Hmono & Hsound').
    + intros x Hx. apply Hbits in Hx as [Hx|Hx].
      * destruct (Hcl x Hx) as [Hin|Hdone].
        -- apply elem_of_cons in Hin as [->|Hin].
           ++ right. exact Hcl1.
           ++ left. rewrite Hdq. apply elem_of_app. auto.
        -- right. intros v Hv' Hb. apply Hbits. left. auto.
      * left. rewrite Hdq. apply elem_of_app. auto.
    + intros x Hx. rewrite Hdq in Hx. apply Hbits.
      apply elem_of_app in Hx as [Hx|Hx]; [left|right; assumption].
      apply Hq. right. assumption.
    + intros x Hx. apply Hbits in Hx as [Hx|Hx]; [auto|].
      destruct (Hnew x Hx) as [Hin Hb].
      apply (reaches_step E blocked u x); [|assumption|assumption].
      apply Hsound, Hq. left.
    + split; [assumption|]. split; [assumption|]. split; [|assumption].
      intros x Hx. apply Hmono, Hbits. auto.
Qed.

Lemma reach_loop_total blocked fuel :
  forall vis dq,
  wf_bitset (N E) vis ->
  (N E - card vis + length dq <= fuel)%nat ->
  exists vis', reach_loop E fuel blocked vis dq = Returned vis'.
Proof.
  induction fuel as [|fuel IH]; intros vis dq Hwf Hfuel.
  - destruct dq; [eexists; reflexivity|cbn in Hfuel; lia].
  - cbn [reach_loop]. destruct dq as [|u dq]; [eexists; reflexivity|].
    destruct (visit_adj blocked (adj (tables E) !!! u) vis dq) as [vis1 dq1] eqn:Hv.
    destruct (visit_adj_spec _ _ _ _ _ _ Hv Hwf (Hadj u))
      as (Hwf1 & new & Hdq & Hcard & _).
    apply IH; [assumption|].
    pose proof (card_le _ _ Hwf1). rewrite Hdq, length_app. cbn in Hfuel. lia.
Qed.

Hypothesis horse_cell : (0 < N E)%nat.

Lemma bfs_reachable_spec blocked vis area esc :
  bfs_reachable E blocked = Returned (vis, area, esc) ->
  wf_bitset (N E) vis
  /\ area = Bitset.popcount vis
  /\ if Bitset.test blocked horse_idx
     then vis = Bitset.init (N E) /\ esc = true
     else (forall x, Bitset.test vis x = true <-> reaches E blocked x)
          /\ esc = Bitset.intersects vis (boundary (tables E)).
Proof.
  unfold bfs_reachable. destruct (Bitset.test blocked horse_idx) eqn:Hb.
  - intros [= <- <- <-]. split; [apply wf_init|]. split; [|auto].
    symmetry. apply popcount_init.
  - intros H. obind H. injection H as <- <- <-.
    pose proof (wf_init (N E)) as Hwf0.
    pose proof (wf_set _ _ _ Hwf0 horse_cell) as Hwf1.
    assert (forall x, Bitset.test (Bitset.set (Bitset.init (N E)) horse_idx) x = true
                      <-> x = horse_idx) as Hinit.
    { intros x. rewrite (test_set (N E)), test_init by assumption.
      case_bool_decide; cbn; intuition congruence. }
    destruct (reach_loop_spec _ _ _ _ _ Ha Hwf1) as (Hwf' & Hcl & Hmono & Hsound).
    + intros u Hu. left. apply Hinit in Hu. subst. left.
    + intros x Hx. apply list_elem_of_singleton in Hx. subst. apply Hinit. reflexivity.
    + intros x Hx. apply Hinit in Hx. subst. constructor.
    + split; [assumption|]. split; [reflexivity|]. split; [|reflexivity].
      intros x. split; [apply Hsound|].
      induction 1 as [|u v _ IHu Hv Hbv].
      * apply Hmono, Hinit. reflexivity.
      * destruct (Hcl u IHu) as [Hin|Hdone]; [inversion Hin|]. auto.
Qed.

Lemma bfs_reachable_total blocked :
  exists r, bfs_reachable E blocked = Returned r.
Proof.
  unfold bfs_reachable. destruct (Bitset.test blocked horse_idx); [eexists; reflexivity|].
  pose proof (wf_init (N E)) as Hwf0.
  pose proof (wf_set _ _ _ Hwf0 horse_cell) as Hwf1.
  destruct (reach_loop_total blocked (N E) (Bitset.set (Bitset.init (N E)) horse_idx)
              [horse_idx] Hwf1) as [vis Hvis].
  - rewrite (card_set (N E)) by (auto using test_init).
    rewrite card_init. cbn. lia.
  - rewrite (bind_Returned_l _ _ _ Hvis). eexists. reflexivity.
Qed.

End Reachable.

(** * The flow template *)

Lemma elem_of_push_at i y (l : list (list nat)) j x :
  x ∈ Flow.push_at i y l !!! j
  <-> x ∈ l !!! j \/ (i = j /\ (i < length l)%nat /\ x = y).
Proof.
  unfold Flow.push_at. destruct (decide (i = j)) as [<-|Hne].
  - destruct (Nat.lt_ge_cases i (length l)) as [Hlt|Hge].
    + rewrite list_lookup_total_alter_eq by assumption.
      rewrite elem_of_app, list_elem_of_singleton. intuition.
    + rewrite !list_lookup_total_alt, list_lookup_alter_eq.
      rewrite (lookup_ge_None_2 _ _ Hge). cbn. intuition lia.
  - rewrite list_lookup_total_alter_ne by assumption. intuition congruence.
Qed.

Lemma NoDup_push_at i y (l : list (list nat)) j :
  NoDup (l !!! j) -> y ∉ l !!! j -> NoDup (Flow.push_at i y l !!! j).
Proof.
  intros Hnd Hy. unfold Flow.push_at. destruct (decide (i = j)) as [<-|Hne].
  - destruct (Nat.lt_ge_cases i (length l)) as [Hlt|Hge].
    + rewrite list_lookup_total_alter_eq by assumption.
      apply NoDup_app. split; [assumption|]. split; [|apply NoDup_singleton].
      intros x Hx Hx'. apply list_elem_of_singleton in Hx'. subst. auto.
    + rewrite !list_lookup_total_alt, list_lookup_alter_eq.
      rewrite (lookup_ge_None_2 _ _ Hge). cbn. constructor.
  - rewrite list_lookup_total_alter_ne by assumption. assumption.
Qed.

Lemma flow_create_wf n : flow_wf (Flow.create n).
Proof.
  constructor; cbn; try reflexivity; try apply length_replicate.
  - intros e v H. inversion H.
  - intros e u H. inversion H.
  - intros e r H. inversion H.
  - intros u e. rewrite list_lookup_total_alt.
    destruct (replicate n [] !! u) as [l|] eqn:Hl; cbn.
    + apply lookup_replicate in Hl as [-> _]. split; intros H; inversion H.
    + split; intros H; inversion H.
  - intros u e. rewrite list_lookup_total_alt.
    destruct (replicate n [] !! u) as [l|] eqn:Hl; cbn.
    + apply lookup_replicate in Hl as [-> _]. split; intros H; inversion H.
    + split; intros H; inversion H.
  - intros u. rewrite list_lookup_total_alt.
    destruct (replicate n [] !! u) as [l|] eqn:Hl; cbn; [|constructor].
    apply lookup_replicate in Hl as [-> _]. constructor.
  - intros u. rewrite list_lookup_total_alt.
    destruct (replicate n [] !! u) as [l|] eqn:Hl; cbn; [|constructor].
    apply lookup_replicate in Hl as [-> _]. constructor.
Qed.

Lemma lookup_app_two {A} (l : list A) (a b : A) e x :
  (l ++ [a; b]) !! e = Some x
  <-> l !! e = Some x \/ (e = length l /\ x = a) \/ (e = S (length l) /\ x = b).
Proof.
  destruct (Nat.lt_ge_cases e (length l)) as [Hlt|Hge].
  - rewrite lookup_app_l by assumption. split; [auto|].
    intros [H|[[-> _]|[-> _]]]; [assumption|lia|lia].
  - rewrite lookup_app_r by assumption.
    rewrite (lookup_ge_None_2 l e Hge).
    destruct (e - length l)%nat as [|[|k]] eqn:Hk; cbn.
    + split.
      * intros [= <-]. right. left. split; [lia|reflexivity].
      * intros [H|[[_ ->]|[-> _]]]; [discriminate|reflexivity|lia].
    + split.
      * intros [= <-]. right. right. split; [lia|reflexivity].
      * intros [H|[[-> _]|[_ ->]]]; [discriminate|lia|reflexivity].
    + split; [discriminate|].
      intros [H|[[-> _]|[-> _]]]; [discriminate|lia|lia].
Qed.

Lemma add_edge_fields ft u v c :
  let r := Flow.add_edge ft u v c in
  r.2 = length (Flow.to ft)
  /\ Flow.n r.1 = Flow.n ft
  /\ Flow.to r.1 = Flow.to ft ++ [v; u]
  /\ Flow.frm r.1 = Flow.frm ft ++ [u; v]
  /\ Flow.rev r.1 = Flow.rev ft ++ [S (length (Flow.to ft)); length (Flow.to ft)]
  /\ Flow.base_cap r.1 = Flow.base_cap ft ++ [c; 0].
Proof. cbn. repeat split; reflexivity. Qed.

Lemma add_edge_wf ft u v c :
  flow_wf ft -> (u < Flow.n ft)%nat -> (v < Flow.n ft)%nat ->
  flow_wf (Flow.add_edge ft u v c).1.
Proof.
  intros [H1 H2 H3 H4 H5 H6 H7 H8 H9 H10 H11 H12] Hu Hv.
  set (m := length (Flow.to ft)).
  assert (forall e x, Flow.to ft !! e = Some x -> (e < m)%nat) as Hto_lt.
  { intros e x H. eapply lookup_lt_Some; eauto. }
  assert (forall e x, Flow.frm ft !! e = Some x -> (e < m)%nat) as Hfrm_lt.
  { intros e x H. apply lookup_lt_Some in H. lia. }
  assert (forall e x, Flow.rev ft !! e = Some x -> (e < m)%nat) as Hrev_lt.
  { intros e x H. apply lookup_lt_Some in H. lia. }
  constructor; cbn [Flow.add_edge fst Flow.n Flow.adj Flow.in_adj Flow.to
                      Flow.frm Flow.rev Flow.base_cap].
  - rewrite !length_app. cbn. lia.
  - rewrite !length_app. cbn. lia.
  - rewrite !length_app. cbn. lia.
  - unfold Flow.push_at. rewrite !length_alter. assumption.
  - unfold Flow.push_at. rewrite !length_alter. assumption.
  - intros e x Hx. apply lookup_app_two in Hx as [Hx|[[_ ->]|[_ ->]]]; eauto.
  - intros e x Hx. apply lookup_app_two in Hx as [Hx|[[_ ->]|[_ ->]]]; eauto.
  - intros e r Hr. fold m in Hr. fold m.
    apply lookup_app_two in Hr as [Hr|[[He ->]|[He ->]]].
    + destruct (H8 e r Hr) as (Hne & Hrr & Htr & Hfr).
      pose proof (Hrev_lt _ _ Hr). pose proof (Hrev_lt _ _ Hrr).
      split; [assumption|].
      rewrite !lookup_app_l by lia. auto.
    + rewrite H2 in He. fold m in He. subst e. split; [lia|].
      rewrite !(lookup_app_r _ _ (S m)) by lia.
      rewrite !(lookup_app_r _ _ m) by lia.
      rewrite H1, H2. fold m.
      replace (S m - m)%nat with 1%nat by lia. rewrite Nat.sub_diag.
      cbn. auto.
    + rewrite H2 in He. fold m in He. subst e. split; [lia|].
      rewrite !(lookup_app_r _ _ (S m)) by lia.
      rewrite !(lookup_app_r _ _ m) by lia.
      rewrite H1, H2. fold m.
      replace (S m - m)%nat with 1%nat by lia. rewrite Nat.sub_diag.
      cbn. auto.
  - intros x e. fold m. rewrite !elem_of_push_at, H9, lookup_app_two, H1.
    fold m. unfold Flow.push_at. rewrite length_alter, H4.
    split.
    + intros [[H|(-> & _ & ->)]|(-> & _ & ->)]; auto.
    + intros [H|[[-> ->]|[-> ->]]]; auto 10.
  - intros x e. fold m. rewrite !elem_of_push_at, H10, lookup_app_two.
    fold m. unfold Flow.push_at. rewrite length_alter, H5.
    split.
    + intros [[H|(-> & _ & ->)]|(-> & _ & ->)]; auto.
    + intros [H|[[-> ->]|[-> ->]]]; auto 10.
  - intros x. fold m. apply NoDup_push_at; [apply NoDup_push_at; [apply H11|]|].
    + rewrite H9. intros H. apply Hfrm_lt in H. lia.
    + rewrite elem_of_push_at, H9. intros [H|(_ & _ & H)]; [|lia].
      apply Hfrm_lt in H. lia.
  - intros x. fold m. apply NoDup_push_at; [apply NoDup_push_at; [apply H12|]|].
    + rewrite H10. intros H. apply Hto_lt in H. lia.
    + rewrite elem_of_push_at, H10. intros [H|(_ & _ & H)]; [|lia].
      apply Hto_lt in H. lia.
Qed.

(** ** maxflow_limit: the breadth-first search *)

Lemma is_unseen_spec p : is_unseen p = true <-> p = Unseen.
Proof. destruct p; cbn; split; congruence. Qed.

Lemma filter_insert_count {A} (P : A -> Prop) `{forall x, Decision (P x)}
    (l : list A) i x y :
  l !! i = Some x ->
  (length (filter P (<[i := y]> l)) + (if decide (P x) then 1 else 0)
   = length (filter P l) + (if decide (P y) then 1 else 0))%nat.
Proof.
  intros Hx. pose proof (lookup_lt_Some _ _ _ Hx) as Hlt.
  rewrite insert_take_drop by assumption.
  rewrite <- (take_drop_middle l i x Hx) at 3.
  rewrite !filter_app, !length_app, !filter_cons.
  destruct (decide (P x)), (decide (P y)); cbn; lia.
Qed.

Lemma unseen_discover parent v e :
  parent !! v = Some Unseen ->
  unseen (<[v := Via e]> parent) = (unseen parent - 1)%nat
  /\ (0 < unseen parent)%nat
  /\ discovered (<[v := Via e]> parent) = S (discovered parent).
Proof.
  intros Hv. unfold unseen, discovered.
  pose proof (filter_insert_count (fun p => p = Unseen) parent v Unseen (Via e) Hv) as H1.
  pose proof (filter_insert_count (fun p => p <> Unseen) parent v Unseen (Via e) Hv) as H2.
  destruct (decide (Unseen = Unseen)); [|congruence].
  destruct (decide (Via e = Unseen)); [congruence|].
  destruct (decide (Unseen <> Unseen)); [congruence|].
  destruct (decide (Via e <> Unseen)) as [_|Hn]; [|exfalso; apply Hn; discriminate].
  lia.
Qed.

Lemma unseen_discovered parent :
  (unseen parent + discovered parent)%nat = length parent.
Proof.
  unfold unseen, discovered. induction parent as [|p l IH]; [reflexivity|].
  destruct (decide (p = Unseen)) as [Hp|Hp].
  - rewrite filter_cons_True, filter_cons_False by (try assumption; congruence).
    rewrite !length_cons. lia.
  - rewrite filter_cons_False, filter_cons_True by assumption.
    rewrite !length_cons. lia.
Qed.

Section FlowSearch.

Variable ft : Flow.FlowTemplate.
Hypothesis Hwf : flow_wf ft.
Variable cap : list Z.
Variables s t : nat.

Lemma rooted_mono parent parent' v d :
  (forall x p, parent !! x = Some p -> p <> Unseen -> parent' !! x = Some p) ->
  rooted ft s parent v d -> rooted ft s parent' v d.
Proof.
  intros Hmono. induction 1 as [|v e u d Hvs Hv He _ IH]; [constructor|].
  econstructor; [exact Hvs| |exact He|exact IH].
  apply Hmono; [assumption|discriminate].
Qed.

Lemma bfs_inv_discover parent u d v e :
  bfs_inv ft cap s parent ->
  rooted ft s parent u d -> (d < discovered parent)%nat ->
  Flow.frm ft !! e = Some u -> Flow.to ft !! e = Some v -> 0 < getZ cap e ->
  parent !! v = Some Unseen ->
  bfs_inv ft cap s (<[v := Via e]> parent).
Proof.
  intros [Hlen Hroot Hvia Hrooted] Hu Hd Hfrm Hto Hcap Hv.
  pose proof (lookup_lt_Some _ _ _ Hv) as Hvlt.
  assert (v <> s) as Hvs by congruence.
  assert (forall x p, parent !! x = Some p -> p <> Unseen ->
                      <[v := Via e]> parent !! x = Some p) as Hmono.
  { intros x p Hx Hp. rewrite list_lookup_insert_ne; [assumption|]. congruence. }
  destruct (unseen_discover parent v e Hv) as (_ & _ & Hdisc).
  constructor.
  - rewrite length_insert. assumption.
  - rewrite list_lookup_insert_ne by congruence. assumption.
  - intros x e' Hx. destruct (decide (v = x)) as [<-|Hne].
    + rewrite list_lookup_insert_eq in Hx by assumption. injection Hx as <-. auto.
    + rewrite list_lookup_insert_ne in Hx by assumption. auto.
  - intros x p Hx Hp. rewrite Hdisc. destruct (decide (v = x)) as [<-|Hne].
    + exists (S d). split; [|lia].
      econstructor; [exact Hvs| |exact Hfrm|].
      * apply list_lookup_insert_eq. assumption.
      * eapply rooted_mono; eauto.
    + rewrite list_lookup_insert_ne in Hx by assumption.
      destruct (Hrooted x p Hx Hp) as (d' & Hr & Hd').
      exists d'. split; [|lia]. eapply rooted_mono; eauto.
Qed.

Lemma scan_edges_spec u d es :
  forall parent q parent' q',
  Flow.scan_edges ft cap t es parent q = (parent', q') ->
  bfs_inv ft cap s parent ->
  rooted ft s parent u d -> (d < discovered parent)%nat ->
  (forall e, e ∈ es -> Flow.frm ft !! e = Some u) ->
  (forall x, x ∈ q -> exists p, parent !! x = Some p /\ p <> Unseen) ->
  bfs_inv ft cap s parent'
  /\ (forall x p, parent !! x = Some p -> p <> Unseen -> parent' !! x = Some p)
  /\ (forall x, x ∈ q' -> exists p, parent' !! x = Some p /\ p <> Unseen)
  /\ (unseen parent' + length q' <= unseen parent + length q)%nat.
Proof.
  induction es as [|e es IH]; intros parent q parent' q' Hs Hinv Hu Hd Hes Hq;
    cbn [Flow.scan_edges] in Hs.
  - injection Hs as <- <-. auto.
  - assert (forall e', e' ∈ es -> Flow.frm ft !! e' = Some u) as Hes'
      by (intros; apply Hes; right; assumption).
    destruct (getZ cap e <=? 0) eqn:Hc; [eapply IH; eauto|].
    apply Z.leb_gt in Hc.
    pose proof (Hes e ltac:(left)) as Hfrm.
    assert (exists v, Flow.to ft !! e = Some v) as [v Hto].
    { apply lookup_lt_is_Some. apply lookup_lt_Some in Hfrm.
      rewrite (fw_frm _ Hwf) in Hfrm. assumption. }
    rewrite (list_lookup_total_correct _ _ _ Hto) in Hs.
    pose proof (fw_to_node _ Hwf _ _ Hto) as Hvn.
    rewrite <- (bi_len _ _ _ _ Hinv) in Hvn.
    destruct (lookup_lt_is_Some_2 _ _ Hvn) as [pv Hpv].
    rewrite (list_lookup_total_correct _ _ _ Hpv) in Hs.
    destruct (is_unseen pv) eqn:Hun; [|eapply IH; eauto].
    apply is_unseen_spec in Hun. subst pv.
    pose proof (bfs_inv_discover _ _ _ _ _ Hinv Hu Hd Hfrm Hto Hc Hpv) as Hinv'.
    destruct (unseen_discover parent v e Hpv) as (Hun & Hpos & Hdisc).
    assert (forall x p, parent !! x = Some p -> p <> Unseen ->
                        <[v := Via e]> parent !! x = Some p) as Hmono.
    { intros x p Hx Hp. rewrite list_lookup_insert_ne; [assumption|]. congruence. }
    destruct (v =? t)%nat.
    + injection Hs as <- <-. split; [assumption|]. split; [assumption|].
      split; [intros x Hx; inversion Hx|]. cbn. lia.
    + destruct (IH _ _ _ _ Hs Hinv') as (Hinv'' & Hmono' & Hq' & Hmeas); try assumption.
      * eapply rooted_mono; eauto.
      * lia.
      * intros x Hx. apply elem_of_app in Hx as [Hx|Hx].
        -- destruct (Hq x Hx) as (p & Hp & Hpu). exists p. split; [|assumption]. auto.
        -- apply list_elem_of_singleton in Hx. subst x. exists (Via e).
           split; [|discriminate]. apply list_lookup_insert_eq. assumption.
      * split; [assumption|]. split; [auto|]. split; [assumption|].
        rewrite length_app in Hmeas. cbn in Hmeas. lia.
Qed.

Lemma bfs_loop_spec fuel :
  forall parent q parent',
  Flow.bfs_loop fuel ft cap t parent q = Returned parent' ->
  bfs_inv ft cap s parent ->
  (forall x, x ∈ q -> exists p, parent !! x = Some p /\ p <> Unseen) ->
  bfs_inv ft cap s parent'.
Proof.
  induction fuel as [|fuel IH]; intros parent q parent' Hl Hinv Hq.
  - destruct q; cbn in Hl; [congruence|].
    destruct (is_unseen _); [discriminate|congruence].
  - cbn [Flow.bfs_loop] in Hl. destruct q as [|u q]; [congruence|].
    destruct (is_unseen (parent !!! t)); [|congruence].
    destruct (Flow.scan_edges _ _ _ _ _ _) as [parent1 q1] eqn:Hs.
    destruct (Hq u ltac:(left)) as (pu & Hpu & Hpun).
    destruct (bi_rooted _ _ _ _ Hinv u pu Hpu Hpun) as (d & Hr & Hd).
    destruct (scan_edges_spec u d _ _ _ _ _ Hs Hinv Hr Hd) as (Hinv1 & _ & Hq1 & _).
    + intros e He. apply (fw_adj _ Hwf). assumption.
    + intros x Hx. apply Hq. right. assumption.
    + eapply IH; eauto.
Qed.

Lemma bfs_loop_total fuel :
  forall parent q,
  bfs_inv ft cap s parent ->
  (forall x, x ∈ q -> exists p, parent !! x = Some p /\ p <> Unseen) ->
  (unseen parent + length q <= fuel)%nat ->
  exists parent', Flow.bfs_loop fuel ft cap t parent q = Returned parent'.
Proof.
  induction fuel as [|fuel IH]; intros parent q Hinv Hq Hfuel.
  - destruct q; [eexists; reflexivity|cbn in Hfuel; lia].
  - cbn [Flow.bfs_loop]. destruct q as [|u q]; [eexists; reflexivity|].
    destruct (is_unseen (parent !!! t)); [|eexists; reflexivity].
    destruct (Flow.scan_edges _ _ _ _ _ _) as [parent1 q1] eqn:Hs.
    destruct (Hq u ltac:(left)) as (pu & Hpu & Hpun).
    destruct (bi_rooted _ _ _ _ Hinv u pu Hpu Hpun) as (d & Hr & Hd).
    destruct (scan_edges_spec u d _ _ _ _ _ Hs Hinv Hr Hd) as (Hinv1 & _ & Hq1 & Hm).
    + intros e He. apply (fw_adj _ Hwf). assumption.
    + intros x Hx. apply Hq. right. assumption.
    + apply IH; try assumption. cbn in Hfuel. lia.
Qed.

Hypothesis Hs : (s < Flow.n ft)%nat.

Lemma bfs_inv_start :
  bfs_inv ft cap s (<[s := Root]> (replicate (Flow.n ft) Unseen))
  /\ unseen (<[s := Root]> (replicate (Flow.n ft) Unseen)) = (Flow.n ft - 1)%nat.
Proof.
  set (p0 := replicate (Flow.n ft) Unseen).
  assert (p0 !! s = Some Unseen) as Hs0 by (apply lookup_replicate_2; assumption).
  assert (forall x p, <[s := Root]> p0 !! x = Some p -> p <> Unseen -> x = s /\ p = Root)
    as Honly.
  { intros x p Hx Hp. destruct (decide (s = x)) as [<-|Hne].
    - rewrite list_lookup_insert_eq in Hx by (unfold p0; rewrite length_replicate; lia).
      split; congruence.
    - rewrite list_lookup_insert_ne in Hx by assumption.
      apply lookup_replicate in Hx as [-> _]. congruence. }
  assert (<[s := Root]> p0 !! s = Some Root) as Hroot.
  { apply list_lookup_insert_eq. unfold p0. rewrite length_replicate. lia. }
  assert (unseen (<[s := Root]> p0) = (Flow.n ft - 1)%nat
          /\ (0 < discovered (<[s := Root]> p0))%nat) as [Hun Hdisc].
  { unfold unseen, discovered.
    pose proof (filter_insert_count (fun p => p = Unseen) p0 s Unseen Root Hs0) as H1.
    pose proof (filter_insert_count (fun p => p <> Unseen) p0 s Unseen Root Hs0) as H2.
    destruct (decide (Unseen = Unseen)); [|congruence].
    destruct (decide (Root = Unseen)); [congruence|].
    destruct (decide (Unseen <> Unseen)); [congruence|].
    destruct (decide (Root <> Unseen)) as [_|Hn]; [|exfalso; apply Hn; discriminate].
    assert (length (filter (fun p => p = Unseen) p0) = Flow.n ft) as H3.
    { unfold p0. rewrite filter_all; [apply length_replicate|].
      apply Forall_replicate. reflexivity. }
    lia. }
  split; [|exact Hun]. constructor.
  - rewrite length_insert. apply length_replicate.
  - exact Hroot.
  - intros v e Hv. destruct (Honly v (Via e) Hv) as [_ ?]; [discriminate|congruence].
  - intros v p Hv Hp. destruct (Honly v p Hv Hp) as [-> ->].
    exists 0%nat. split; [constructor|assumption].
Qed.

End FlowSearch.

(** ** maxflow_limit: pushing a unit along the parent edges *)

Lemma getZ_insert l i x j :
  getZ (<[i := x]> l) j = if decide (i = j /\ (i < length l)%nat) then x else getZ l j.
Proof.
  unfold getZ. destruct (decide (i = j)) as [<-|Hne].
  - destruct (Nat.lt_ge_cases i (length l)) as [Hlt|Hge].
    + rewrite list_lookup_insert_eq by assumption.
      rewrite decide_True by auto. reflexivity.
    + rewrite list_insert_ge by assumption.
      rewrite decide_False by lia. reflexivity.
  - rewrite list_lookup_insert_ne by assumption.
    rewrite decide_False by tauto. reflexivity.
Qed.

Lemma rooted_depth_unique ft s parent v d1 d2 :
  rooted ft s parent v d1 -> rooted ft s parent v d2 -> d1 = d2.
Proof.
  intros H1. revert d2. induction H1 as [|v e u d Hvs Hv He _ IH]; intros d2 H2.
  - inversion H2; subst; [reflexivity|congruence].
  - inversion H2 as [|v' e' u' d' Hvs' Hv' He' Hr']; subst; [congruence|].
    f_equal. apply IH. congruence.
Qed.

Section FlowAugment.

Variable ft : Flow.FlowTemplate.
Hypothesis Hwf : flow_wf ft.
Variables s t : nat.
Hypothesis Hs : (s < Flow.n ft)%nat.
Hypothesis Ht : (t < Flow.n ft)%nat.

Lemma same_pairs_refl cap : same_pairs ft cap cap.
Proof. split; [reflexivity|auto]. Qed.

Lemma same_pairs_trans c1 c2 c3 :
  same_pairs ft c1 c2 -> same_pairs ft c2 c3 -> same_pairs ft c1 c3.
Proof.
  intros [H1 H2] [H3 H4]. split; [congruence|].
  intros e r Hr. rewrite (H4 e r Hr). auto.
Qed.

Lemma augment_spec parent :
  (forall x e, parent !! x = Some (Via e) -> Flow.to ft !! e = Some x) ->
  forall v d, rooted ft s parent v d ->
  forall fuel cap, (d <= fuel)%nat ->
  length cap = length (Flow.to ft) ->
  (forall x e dx, rooted ft s parent x dx -> (dx <= d)%nat ->
     parent !! x = Some (Via e) -> 0 < getZ cap e) ->
  exists cap',
    Flow.augment fuel ft s parent cap v = Returned cap'
    /\ same_pairs ft cap cap'
    /\ (nonneg_caps cap -> nonneg_caps cap').
Proof.
  intros Hvia v d Hr. induction Hr as [|v e u d Hvs Hv He Hru IH];
    intros fuel cap Hfuel Hlen Hpos.
  - exists cap. split; [|split; [apply same_pairs_refl|auto]].
    destruct fuel; cbn; rewrite Nat.eqb_refl; reflexivity.
  - destruct fuel as [|fuel]; [lia|]. cbn [Flow.augment].
    destruct (Nat.eqb_spec v s) as [|_]; [congruence|].
    rewrite (list_lookup_total_correct _ _ _ Hv).
    rewrite (list_lookup_total_correct _ _ _ He).
    pose proof (Hvia _ _ Hv) as Hto.
    assert (e < length (Flow.to ft))%nat as Helt by (eapply lookup_lt_Some; eauto).
    destruct (lookup_lt_is_Some_2 (Flow.rev ft) e) as [r Hrev];
      [rewrite (fw_rev _ Hwf); assumption|].
    rewrite (list_lookup_total_correct _ _ _ Hrev).
    destruct (fw_twin _ Hwf _ _ Hrev) as (Hre & Hrr & Htr & Hfr).
    assert (r < length (Flow.to ft))%nat as Hrlt.
    { apply lookup_lt_Some in Hrr. rewrite (fw_rev _ Hwf) in Hrr. assumption. }
    set (cap1 := <[e := getZ cap e - 1]> cap).
    set (cap2 := <[r := getZ cap1 r + 1]> cap1).
    assert (forall x, getZ cap2 x
              = if decide (x = r) then getZ cap r + 1
                else if decide (x = e) then getZ cap e - 1 else getZ cap x) as Hget.
    { intros x. unfold cap2, cap1. rewrite !getZ_insert, !length_insert.
      destruct (decide (x = r)) as [->|Hxr].
      - rewrite decide_True by (split; [reflexivity|lia]).
        rewrite decide_False by (intros [? _]; congruence). reflexivity.
      - rewrite decide_False by (intros [? _]; congruence).
        destruct (decide (x = e)) as [->|Hxe].
        + rewrite decide_True by (split; [reflexivity|lia]). reflexivity.
        + rewrite decide_False by (intros [? _]; congruence). reflexivity. }
    assert (0 < getZ cap e) as Hce.
    { eapply (Hpos v e (S d)); [|lia|exact Hv].
      econstructor; eauto. }
    destruct (IH fuel cap2) as (cap' & Haug & Hsame & Hnn).
    + lia.
    + unfold cap2, cap1. rewrite !length_insert. assumption.
    + intros x ex dx Hrx Hdx Hx. rewrite Hget.
      assert (ex <> e) as Hne.
      { intros ->. pose proof (Hvia _ _ Hx) as Hto'.
        assert (x = v) by congruence. subst x.
        assert (rooted ft s parent v (S d)) as Hrv by (econstructor; eauto).
        pose proof (rooted_depth_unique _ _ _ _ _ _ Hrx Hrv). lia. }
      pose proof (Hpos x ex dx Hrx ltac:(lia) Hx) as Hp.
      destruct (decide (ex = r)) as [Heq|]; [rewrite Heq in Hp; lia|].
      rewrite decide_False by assumption. assumption.
    + exists cap'. split; [exact Haug|]. split.
      * eapply same_pairs_trans; [|exact Hsame].
        split; [unfold cap2, cap1; rewrite !length_insert; reflexivity|].
        intros x rx Hx. rewrite !Hget.
        destruct (fw_twin _ Hwf _ _ Hx) as (Hrxx & Hrrx & _ & _).
        destruct (decide (x = r)) as [->|Hxr].
        -- assert (rx = e) by congruence. subst rx.
           rewrite decide_False by congruence. rewrite decide_True by reflexivity. lia.
        -- destruct (decide (x = e)) as [->|Hxe].
           ++ assert (rx = r) by congruence. subst rx.
              rewrite decide_True by reflexivity. lia.
           ++ rewrite decide_False by (intros ->; congruence).
              rewrite decide_False by (intros ->; congruence). reflexivity.
      * intros Hn. apply Hnn. intros x. rewrite Hget.
        pose proof (Hn r). pose proof (Hn x).
        destruct (decide (x = r)); [lia|].
        destruct (decide (x = e)) as [->|]; lia.
Qed.

Lemma flow_loop_spec limit rounds :
  forall cap flow,
  (limit - flow <= Z.of_nat rounds) ->
  length cap = length (Flow.to ft) ->
  exists f cap',
    Flow.flow_loop rounds ft s t limit cap flow = Returned (f, cap')
    /\ flow <= f /\ (f <= limit \/ f = flow)
    /\ same_pairs ft cap cap'
    /\ (nonneg_caps cap -> nonneg_caps cap').
Proof.
  induction rounds as [|rounds IH]; intros cap flow Hr Hlen.
  - exists flow, cap. cbn. destruct (Z.ltb_spec flow limit); [lia|].
    split; [reflexivity|]. split; [lia|]. split; [auto|].
    split; [apply same_pairs_refl|auto].
  - cbn [Flow.flow_loop]. destruct (Z.ltb_spec flow limit) as [Hlt|Hge].
    2:{ exists flow, cap. split; [reflexivity|]. split; [lia|]. split; [auto|].
        split; [apply same_pairs_refl|auto]. }
    destruct (bfs_inv_start ft cap s Hs) as [Hinv0 Hun0].
    destruct (bfs_loop_total ft Hwf cap s t (Flow.n ft) _ [s] Hinv0) as [parent Hbfs].
    { intros x Hx. apply list_elem_of_singleton in Hx. subst.
      exists Root. split; [apply (bi_root _ _ _ _ Hinv0)|discriminate]. }
    { rewrite Hun0. cbn. lia. }
    rewrite (bind_Returned_l _ _ _ Hbfs).
    assert (bfs_inv ft cap s parent) as Hinv.
    { eapply bfs_loop_spec; eauto.
      intros x Hx. apply list_elem_of_singleton in Hx. subst.
      exists Root. split; [apply (bi_root _ _ _ _ Hinv0)|discriminate]. }
    destruct (lookup_lt_is_Some_2 parent t) as [pt Hpt];
      [rewrite (bi_len _ _ _ _ Hinv); assumption|].
    rewrite (list_lookup_total_correct _ _ _ Hpt).
    destruct (is_unseen pt) eqn:Hun.
    { exists flow, cap. split; [reflexivity|]. split; [lia|]. split; [auto|].
      split; [apply same_pairs_refl|auto]. }
    assert (pt <> Unseen) as Hptn by (intros ->; discriminate).
    destruct (bi_rooted _ _ _ _ Hinv t pt Hpt Hptn) as (d & Hrt & Hd).
    assert (d <= Flow.n ft)%nat as Hdn.
    { pose proof (unseen_discovered parent). rewrite (bi_len _ _ _ _ Hinv) in *. lia. }
    destruct (augment_spec parent) with (v := t) (d := d) (fuel := Flow.n ft) (cap := cap)
      as (cap1 & Haug & Hsame1 & Hnn1); try assumption.
    { intros x e Hx. apply (bi_via _ _ _ _ Hinv). assumption. }
    { intros x e dx _ _ Hx. apply (bi_via _ _ _ _ Hinv x e). assumption. }
    rewrite (bind_Returned_l _ _ _ Haug).
    destruct (IH cap1 (flow + 1)) as (f & cap' & Hloop & Hf1 & Hf2 & Hsame & Hnn).
    + lia.
    + destruct Hsame1 as [Hl _]. congruence.
    + exists f, cap'. split; [exact Hloop|]. split; [lia|]. split; [left; lia|].
      split; [eapply same_pairs_trans; eauto|auto].
Qed.

Lemma maxflow_limit_spec cap limit :
  length cap = length (Flow.to ft) ->
  exists f cap',
    Flow.maxflow_limit ft s t cap limit = Returned (f, cap')
    /\ 0 <= f /\ (f <= limit \/ f = 0)
    /\ same_pairs ft cap cap'
    /\ (nonneg_caps cap -> nonneg_caps cap').
Proof.
  intros Hlen. unfold Flow.maxflow_limit.
  apply flow_loop_spec; [lia|assumption].
Qed.

End FlowAugment.

(** ** The network of solve *)

Lemma add_edge_keeps nodes ft u v c :
  flow_wf ft /\ Flow.n ft = nodes -> (u < nodes)%nat -> (v < nodes)%nat ->
  flow_wf (Flow.add_edge ft u v c).1 /\ Flow.n (Flow.add_edge ft u v c).1 = nodes.
Proof.
  intros [Hwf Hn] Hu Hv. split; [|exact Hn].
  apply add_edge_wf; [assumption|lia|lia].
Qed.

Lemma fold_left_keeps {A B} (P : A -> Prop) (f : A -> B -> A) (l : list B) a :
  P a -> (forall a x, x ∈ l -> P a -> P (f a x)) -> P (fold_left f l a).
Proof.
  revert a. induction l as [|x l IH]; intros a Ha Hf; [exact Ha|].
  cbn. apply IH.
  - apply Hf; [left|assumption].
  - intros a' y Hy. apply Hf. right. assumption.
Qed.

Lemma build_env_flow k cs tb :
  (forall u v, v ∈ adj tb !!! u -> (v < length cs)%nat) ->
  let E := build_env k cs tb in
  flow_wf (flow E) /\ Flow.n (flow E) = (2 * length cs + 2)%nat.
Proof.
  intros Hadj. unfold build_env.
  set (nodes := (2 * length cs + 2)%nat).
  set (P := fun ft => flow_wf ft /\ Flow.n ft = nodes).
  assert (P (Flow.create nodes)) as H0 by (split; [apply flow_create_wf|reflexivity]).
  assert (P (add_cell_edges (length cs) (wallable tb) (int_wrap (k + 1))
               (Flow.create nodes)).1) as H1.
  { unfold add_cell_edges.
    apply (fold_left_keeps (fun st : Flow.FlowTemplate * list nat => P st.1)); [exact H0|].
    intros [ft ids] i Hi Hft. apply elem_of_seq in Hi. cbn [fst] in *.
    apply add_edge_keeps; [assumption| |]; unfold nodes; lia. }
  destruct (add_cell_edges _ _ _ _) as [ft1 cell_ids]. cbn [fst] in H1.
  assert (P (add_adj_edges (length cs) (adj tb) (int_wrap (k + 1)) ft1)) as H2.
  { unfold add_adj_edges. apply (fold_left_keeps P); [exact H1|].
    intros ft i Hi Hft. apply elem_of_seq in Hi.
    apply (fold_left_keeps P); [exact Hft|].
    intros ft' j Hj Hft'. specialize (Hadj _ _ Hj).
    apply add_edge_keeps; [assumption| |]; unfold nodes; lia. }
  assert (P (add_sink_edges (length cs) (boundary tb) (int_wrap (k + 1))
               (2 * length cs + 1) (add_adj_edges (length cs) (adj tb)
                                      (int_wrap (k + 1)) ft1))) as H3.
  { unfold add_sink_edges. apply (fold_left_keeps P); [exact H2|].
    intros ft i Hi Hft. apply elem_of_seq in Hi.
    destruct (Bitset.test (boundary tb) i); [|assumption].
    apply add_edge_keeps; [assumption| |]; unfold nodes; lia. }
  assert (P (add_src_edges (length cs) (int_wrap (k + 1)) (2 * length cs)
               (add_sink_edges (length cs) (boundary tb) (int_wrap (k + 1))
                  (2 * length cs + 1)
                  (add_adj_edges (length cs) (adj tb) (int_wrap (k + 1)) ft1))).1) as H4.
  { unfold add_src_edges.
    apply (fold_left_keeps (fun st : Flow.FlowTemplate * list nat => P st.1)); [exact H3|].
    intros [ft ids] i Hi Hft. apply elem_of_seq in Hi. cbn [fst] in *.
    apply add_edge_keeps; [assumption| |]; unfold nodes; lia. }
  destruct (add_src_edges _ _ _ _) as [ft4 src_ids]. cbn [fst] in H4.
  cbn. exact H4.
Qed.

Lemma neighbours_idx idx r c ds v :
  v ∈ neighbours idx r c ds -> exists kk, idx !! kk = Some v.
Proof.
  induction ds as [|[dr dc] ds IH]; cbn [neighbours].
  - intros H. apply elem_of_nil in H. contradiction.
  - destruct (idx !! key (r + dr) (c + dc)) as [j|] eqn:Hj; [|exact IH].
    intros [->|Hin]%elem_of_cons; [eauto|auto].
Qed.

Lemma tables_adj_lt g R C h ix tb u v :
  index_inv g R C h ix -> tables_ok g R C (idx_of ix) (coords ix) tb ->
  v ∈ adj tb !!! u -> (v < length (coords ix))%nat.
Proof.
  intros Hinv Htb Hv. rewrite list_lookup_total_alt in Hv.
  destruct (adj tb !! u) as [l|] eqn:Hl; [|inversion Hv]. change (v ∈ l) in Hv.
  pose proof (lookup_lt_Some _ _ _ Hl) as Hlt.
  rewrite (tk_adj _ _ _ _ _ _ Htb) in Hlt.
  destruct (lookup_lt_is_Some_2 _ _ Hlt) as [p Hp].
  destruct (tk_facts _ _ _ _ _ _ Htb _ _ Hp) as (Ha & _ & _).
  assert (l = neighbours (idx_of ix) p.1 p.2 dirs) as -> by congruence.
  destruct (neighbours_idx _ _ _ _ _ Hv) as [kk Hkk].
  exact (index_inv_lt _ _ _ _ _ _ _ Hinv Hkk).
Qed.

Lemma env_ok_build g k ix tb :
  valid_grid g = true -> graph_of g = Returned (ix, tb) ->
  env_ok (build_env k (coords ix) tb).
Proof.
  intros Hv Hg.
  destruct (graph_of_spec g ix tb Hv Hg) as (h & Hfh & Hinv & _ & Htb).
  destruct (build_env_fields k (coords ix) tb) as (HN & _ & Htab & _ & Hnc & Hsrc & Hsnk).
  assert (forall u v, v ∈ adj tb !!! u -> (v < length (coords ix))%nat) as Hadj.
  { intros u v. eapply tables_adj_lt; eauto. }
  destruct (build_env_flow k (coords ix) tb Hadj) as [Hwf Hn].
  constructor.
  - rewrite HN. exact (lookup_lt_Some _ _ _ (ii_head _ _ _ _ _ Hinv)).
  - intros u v. rewrite Htab, HN. apply Hadj.
  - exact Hwf.
  - rewrite Hn, Hnc. reflexivity.
  - rewrite Hnc, HN. reflexivity.
  - rewrite Hsrc, HN. reflexivity.
  - rewrite Hsnk, HN. reflexivity.
Qed.

(** * Every loop of solve finishes within its budget *)

Lemma count_false_mark can u :
  can !! u = Some false ->
  S (count_false (<[u := true]> can)) = count_false can.
Proof.
  intros Hu. unfold count_false.
  pose proof (filter_insert_count (fun b => b = false) can u false true Hu) as H.
  destruct (decide (false = false)); [|congruence].
  destruct (decide (true = false)); [congruence|]. lia.
Qed.

Lemma count_false_start n u :
  (u < n)%nat -> count_false (<[u := true]> (replicate n false)) = (n - 1)%nat.
Proof.
  intros Hu.
  assert (replicate n false !! u = Some false) as H0 by (apply lookup_replicate_2; assumption).
  pose proof (count_false_mark _ _ H0) as H.
  assert (count_false (replicate n false) = n) as H1.
  { unfold count_false. rewrite filter_all; [apply length_replicate|].
    apply Forall_replicate. reflexivity. }
  lia.
Qed.

Section Totality.

Variable E : env.
Hypothesis HE : env_ok E.

Lemma scan_in_edges_measure cap es :
  forall can dq can' dq',
  scan_in_edges E cap es can dq = (can', dq') ->
  length can = node_count E ->
  (forall e, e ∈ es -> exists u, Flow.frm (flow E) !! e = Some u) ->
  length can' = node_count E
  /\ (count_false can' + length dq' <= count_false can + length dq)%nat.
Proof.
  induction es as [|e es IH]; intros can dq can' dq' Hs Hlen Hes;
    cbn [scan_in_edges] in Hs.
  - injection Hs as <- <-. auto.
  - assert (forall e', e' ∈ es -> exists u, Flow.frm (flow E) !! e' = Some u) as Hes'
      by (intros; apply Hes; right; assumption).
    destruct (Hes e ltac:(left)) as [u Hu].
    rewrite (list_lookup_total_correct _ _ _ Hu) in Hs.
    destruct ((0 <? getZ cap e) && negb (getB can u)) eqn:Hc; [|eapply IH; eauto].
    apply andb_true_iff in Hc as [_ Hcu]. apply negb_true_iff in Hcu.
    pose proof (fw_frm_node _ (eo_flow _ HE) _ _ Hu) as Hun.
    rewrite (eo_n _ HE), <- Hlen in Hun.
    destruct (lookup_lt_is_Some_2 _ _ Hun) as [b Hb].
    unfold getB in Hcu. rewrite Hb in Hcu. cbn in Hcu. subst b.
    destruct (IH _ _ _ _ Hs) as [Hl Hm]; [rewrite length_insert; assumption|assumption|].
    split; [assumption|].
    pose proof (count_false_mark _ _ Hb). rewrite length_app in Hm. cbn in Hm. lia.
Qed.

Lemma residual_loop_total cap fuel :
  forall can dq,
  length can = node_count E ->
  (count_false can + length dq <= fuel)%nat ->
  exists can', residual_loop E fuel cap can dq = Returned can'.
Proof.
  induction fuel as [|fuel IH]; intros can dq Hlen Hfuel.
  - destruct dq; [eexists; reflexivity|cbn in Hfuel; lia].
  - cbn [residual_loop]. destruct dq as [|v dq]; [eexists; reflexivity|].
    destruct (scan_in_edges E cap _ can dq) as [can1 dq1] eqn:Hs.
    destruct (scan_in_edges_measure _ _ _ _ _ _ Hs Hlen) as [Hl Hm].
    + intros e He. apply (fw_in_adj _ (eo_flow _ HE)) in He.
      apply lookup_lt_is_Some. apply lookup_lt_Some in He.
      rewrite (fw_frm _ (eo_flow _ HE)). assumption.
    + apply IH; [assumption|]. cbn in Hfuel. lia.
Qed.

Lemma residual_reachable_total cap :
  exists can, residual_reachable E cap = Returned can.
Proof.
  unfold residual_reachable. apply residual_loop_total.
  - rewrite length_insert. apply length_replicate.
  - pose proof (eo_nodes _ HE) as Hn. rewrite count_false_start.
    + cbn [length]. lia.
    + rewrite Hn, (eo_snk _ HE). lia.
Qed.

Lemma patch_deleted_length d cap :
  length (patch_deleted E d cap) = length cap.
Proof.
  unfold patch_deleted, Bitset.for_each_set_bit.
  apply (fold_left_keeps (fun c => length c = length cap)); [reflexivity|].
  intros c i _ Hc. rewrite length_insert. assumption.
Qed.

Lemma patch_forced_length d f cap :
  length (patch_forced E d f cap).1 = length cap.
Proof.
  unfold patch_forced, Bitset.for_each_set_bit.
  apply (fold_left_keeps (fun st : list Z * bool => length st.1 = length cap));
    [reflexivity|].
  intros [c ok] i _ Hc. cbn [fst] in *.
  destruct (Bitset.test d i); cbn [fst]; [assumption|].
  rewrite !length_insert. assumption.
Qed.

Lemma min_separator_total d f k :
  exists r, min_separator E d f k = Returned r.
Proof.
  unfold min_separator.
  pose proof (patch_forced_length d f (patch_deleted E d (Flow.base_cap (flow E)))) as Hlen.
  rewrite patch_deleted_length, (fw_cap _ (eo_flow _ HE)) in Hlen.
  destruct (patch_forced E d f _) as [cap ok]. cbn [fst] in Hlen.
  destruct ok; cbn [negb]; [|eexists; reflexivity].
  destruct (maxflow_limit_spec (flow E) (eo_flow _ HE) (SRC E) (SNK E)) with
    (cap := cap) (limit := int_wrap (k + 1)) as (fl & cap' & Hmf & _).
  - rewrite (eo_n _ HE), (eo_nodes _ HE), (eo_src _ HE). lia.
  - rewrite (eo_n _ HE), (eo_nodes _ HE), (eo_snk _ HE). lia.
  - assumption.
  - rewrite (bind_Returned_l _ _ _ Hmf).
    destruct (k <? fl); [eexists; reflexivity|].
    destruct (residual_reachable_total cap') as [can Hcan].
    rewrite (bind_Returned_l _ _ _ Hcan). eexists. reflexivity.
Qed.

Lemma filter_shrink {A} (P Q : A -> Prop) `{forall x, Decision (P x)}
    `{forall x, Decision (Q x)} (l : list A) x0 :
  (forall x, Q x -> P x) -> x0 ∈ l -> P x0 -> ~ Q x0 ->
  (length (filter Q l) < length (filter P l))%nat.
Proof.
  intros HQP Hin HP HQ.
  rewrite (list_filter_iff Q (fun x => Q x /\ P x)) by (intros x; split; [auto|tauto]).
  rewrite <- list_filter_filter.
  apply (length_filter_lt _ _ x0); [|assumption].
  apply list_elem_of_filter. auto.
Qed.

Lemma free_cells_force d f v :
  wf_bitset (N E) f -> (v < N E)%nat ->
  Bitset.test d v = false -> Bitset.test f v = false ->
  (free_cells E d (Bitset.set f v) < free_cells E d f)%nat.
Proof.
  intros Hf Hv Hdv Hfv. unfold free_cells.
  apply (filter_shrink _ _ _ v).
  - intros x [Hx1 Hx2]. rewrite (test_set (N E)) in Hx2 by assumption.
    apply orb_false_iff in Hx2 as [_ Hx2]. auto.
  - apply elem_of_seq. lia.
  - auto.
  - intros [_ H]. rewrite (test_set (N E)) in H by assumption.
    rewrite bool_decide_eq_true_2 in H by reflexivity. discriminate.
Qed.

Lemma free_cells_delete d f v :
  wf_bitset (N E) d -> (v < N E)%nat ->
  Bitset.test d v = false -> Bitset.test f v = false ->
  (free_cells E (Bitset.set d v) f < free_cells E d f)%nat.
Proof.
  intros Hd Hv Hdv Hfv. unfold free_cells.
  apply (filter_shrink _ _ _ v).
  - intros x [Hx1 Hx2]. rewrite (test_set (N E)) in Hx1 by assumption.
    apply orb_false_iff in Hx1 as [_ Hx1]. auto.
  - apply elem_of_seq. lia.
  - auto.
  - intros [H _]. rewrite (test_set (N E)) in H by assumption.
    rewrite bool_decide_eq_true_2 in H by reflexivity. discriminate.
Qed.

Lemma dfs_total depth :
  forall d f k s,
  state_ok E d f -> (free_cells E d f < depth)%nat ->
  exists s', dfs E depth d f k s = Returned s'.
Proof.
  induction depth as [|depth IH]; intros d f k s Hst Hfree; [lia|].
  cbn [dfs]. destruct (existsb _ _); [eexists; reflexivity|].
  cbn [visited_states cur_best_area best_walls].
  destruct (bfs_reachable_total E (eo_adj _ HE) (eo_cells _ HE) d) as [[[vis ub] esc] Hb1].
  rewrite (bind_Returned_l _ _ _ Hb1).
  destruct (ub <=? cur_best_area s)%nat; [eexists; reflexivity|].
  destruct (negb (Bitset.subset_of f vis)); [eexists; reflexivity|].
  destruct (min_separator_total d f k) as [[sep|] Hm];
    rewrite (bind_Returned_l _ _ _ Hm); [|eexists; reflexivity].
  destruct (bfs_reachable_total E (eo_adj _ HE) (eo_cells _ HE) (Bitset.union d sep))
    as [[[vis2 area2] esc2] Hb2].
  rewrite (bind_Returned_l _ _ _ Hb2).
  destruct ((k =? 0) || Bitset.empty sep); [eexists; reflexivity|].
  destruct (Bitset.first_set_bit sep) as [v|] eqn:Hv; [|eexists; reflexivity].
  destruct (separator_bit E _ _ _ _ _ Hm Hv) as (_ & Hlt & _ & Hdv & Hfv).
  pose proof (state_ok_force E _ _ _ _ _ Hst Hm Hv) as Hst1.
  pose proof (state_ok_delete E _ _ _ _ _ Hst Hm Hv) as Hst2.
  pose proof (free_cells_force d f v (so_forced _ _ _ Hst) Hlt Hdv Hfv).
  pose proof (free_cells_delete d f v (so_deleted _ _ _ Hst) Hlt Hdv Hfv).
  destruct (IH d (Bitset.set f v) k
              (if negb esc2 && (cur_best_area s <? area2)%nat
               then mkSearch (mkState d f k :: visited_states s) area2 (Bitset.union d sep)
               else mkSearch (mkState d f k :: visited_states s) (cur_best_area s)
                      (best_walls s)) Hst1) as [s1 Hs1]; [lia|].
  rewrite (bind_Returned_l _ _ _ Hs1).
  apply IH; [assumption|lia].
Qed.

Lemma search_from_root_total k :
  exists s, search_from_root E k = Returned s.
Proof.
  unfold search_from_root. apply dfs_total.
  - apply state_ok_root. apply (eo_cells _ HE).
  - unfold free_cells.
    pose proof (length_filter
      (fun i => Bitset.test (Bitset.init (N E)) i = false
                /\ Bitset.test (Bitset.set (Bitset.init (N E)) horse_idx) i = false)
      (seq 0 (N E))) as Hl.
    rewrite length_seq in Hl. lia.
Qed.

End Totality.

(** * The claims *)

Lemma walls_of_map cs bw :
  walls_of cs bw = map (fun i => cs !!! i) (Bitset.set_bits bw).
Proof.
  unfold walls_of, Bitset.for_each_set_bit.
  assert (forall l acc,
            fold_left (fun ws i => ws ++ [cs !!! i]) l acc
            = acc ++ map (fun i => cs !!! i) l) as Hgen.
  { induction l as [|i l IH]; intros acc; cbn.
    - rewrite app_nil_r. reflexivity.
    - rewrite IH, <- app_assoc. reflexivity. }
  apply (Hgen _ []).
Qed.

Lemma solve_search g k res :
  solve k g = Returned res ->
  exists ix tb,
    graph_of g = Returned (ix, tb)
    /\ ((Bitset.test (boundary tb) horse_idx = true /\ res = mkResult 0 [])
        \/ (Bitset.test (boundary tb) horse_idx = false
            /\ exists s,
                 search_from_root (build_env k (coords ix) tb) k = Returned s
                 /\ res = mkResult (cur_best_area s)
                            (merge_sort pair_le (walls_of (coords ix) (best_walls s))))).
Proof.
  unfold solve. intros H. obind H. destruct a as [ix tb]. exists ix, tb.
  split; [assumption|].
  destruct (Bitset.test (boundary tb) horse_idx).
  - left. injection H as <-. auto.
  - right. split; [reflexivity|]. obind H. injection H as <-. eauto.
Qed.

Lemma env_horse g k ix tb :
  valid_grid g = true -> graph_of g = Returned (ix, tb) ->
  let E := build_env k (coords ix) tb in
  (0 < N E)%nat /\ wallable_at E horse_idx = false.
Proof.
  intros Hv Hg E.
  destruct (graph_of_spec g ix tb Hv Hg) as (h & Hfh & Hinv & _ & Htb).
  destruct (build_env_fields k (coords ix) tb) as (HN & _ & Htab & _).
  fold E in HN, Htab. unfold wallable_at. rewrite HN, Htab.
  destruct h as [hr hc]. destruct (find_horse_Some _ _ _ _ _ Hfh) as [_ Hh].
  eapply horse_cell_facts; eauto.
Qed.

Lemma env_wallable_dot g k ix tb i :
  valid_grid g = true -> graph_of g = Returned (ix, tb) ->
  wallable_at (build_env k (coords ix) tb) i = true ->
  cell_is_dot g (coords ix) i.
Proof.
  intros Hv Hg Hw.
  destruct (graph_of_spec g ix tb Hv Hg) as (h & _ & _ & _ & Htb).
  destruct (build_env_fields k (coords ix) tb) as (_ & _ & Htab & _).
  unfold wallable_at in Hw. rewrite Htab in Hw.
  eapply wallable_is_dot; eauto.
Qed.

(** C7. Every state [(deleted, forced, k_rem)] that [dfs] is called with,
    from the root call [dfs(empty, {horse}, k)] of [solve] on through the
    two recursive calls, has the horse in [forced] and not in [deleted],
    only ['.'] cells in [deleted], and [deleted] disjoint from [forced].
    The states of the calls are read off the search itself: [dfs] enters
    the state of every call in [visited_states] (or finds it there, from
    an earlier call), so they are the states recorded when the root call
    returns. *)
Theorem search_state_invariant g k ix tb :
  valid_grid g = true ->
  graph_of g = Returned (ix, tb) ->
  exists s,
    search_from_root (build_env k (coords ix) tb) k = Returned s
    /\ forall st, st ∈ visited_states s ->
        Bitset.test (forced st) horse_idx = true
        /\ Bitset.test (deleted st) horse_idx = false
        /\ (forall i, Bitset.test (deleted st) i = true -> cell_is_dot g (coords ix) i)
        /\ (forall i, ~ (Bitset.test (deleted st) i = true
                         /\ Bitset.test (forced st) i = true)).
Proof.
  intros Hv Hg.
  destruct (env_horse g k ix tb Hv Hg) as [HN Hw0].
  destruct (search_from_root_total _ (env_ok_build g k ix tb Hv Hg) k) as [s Hsearch].
  exists s. split; [exact Hsearch|]. intros st Hst.
  assert (state_ok (build_env k (coords ix) tb) (deleted st) (forced st))
    as [Hd Hf Hhf Hhd Hw Hdis].
  { unfold search_from_root in Hsearch.
    eapply dfs_visited_ok; [exact Hsearch| | |exact Hst].
    - apply state_ok_root. exact HN.
    - cbn. intros st' Hin. inversion Hin. }
  split; [assumption|]. split; [assumption|]. split.
  - intros i Hi. eapply env_wallable_dot; eauto.
  - intros i [Hi1 Hi2]. rewrite (Hdis i Hi1) in Hi2. discriminate.
Qed.

Lemma search_state_invariant_witness :
  exists ix tb s st,
    graph_of open3 = Returned (ix, tb)
    /\ search_from_root (build_env 4 (coords ix) tb) 4 = Returned s
    /\ st ∈ visited_states s
    /\ Bitset.set_bits (deleted st) = [1; 2; 3; 4]%nat
    /\ Bitset.test (forced st) horse_idx = true
    /\ Bitset.test (deleted st) horse_idx = false
    /\ (forall i, Bitset.test (deleted st) i = true -> cell_is_dot open3 (coords ix) i)
    /\ (forall i, ~ (Bitset.test (deleted st) i = true
                     /\ Bitset.test (forced st) i = true)).
Proof.
  assert (exists ix tb s st rest,
            graph_of open3 = Returned (ix, tb)
            /\ search_from_root (build_env 4 (coords ix) tb) 4 = Returned s
            /\ visited_states s = st :: rest
            /\ Bitset.set_bits (deleted st) = [1; 2; 3; 4]%nat)
    as (ix & tb & s & st & rest & Hg & Hs & Hvs & Hd).
  { eexists _, _, _, _, _.
    split; [vm_compute; reflexivity|]. split; [vm_compute; reflexivity|].
    split; [vm_compute; reflexivity|]. vm_compute. reflexivity. }
  destruct (search_state_invariant open3 4 ix tb open3_valid Hg) as (s' & Hs' & Hinv).
  assert (s' = s) as -> by congruence.
  exists ix, tb, s, st. split; [exact Hg|]. split; [exact Hs|].
  assert (st ∈ visited_states s) as Hin by (rewrite Hvs; left).
  split; [exact Hin|]. split; [exact Hd|]. apply Hinv. exact Hin.
Defined.

(** C4. Every wall coordinate [solve] returns is a ['.'] cell of the input
    grid. *)
Theorem walls_on_dots g k res :
  valid_grid g = true ->
  solve k g = Returned res ->
  Forall (fun p => grid_at g p.1 p.2 = Returned "."%char) (walls res).
Proof.
  intros Hv Hs.
  destruct (solve_search _ _ _ Hs) as (ix & tb & Hg & [[_ ->]|(_ & s & Hsearch & ->)]);
    [constructor|].
  cbn [walls]. set (E := build_env k (coords ix) tb) in *.
  destruct (env_horse g k ix tb Hv Hg) as [HN Hw0]. fold E in HN, Hw0.
  assert (walls_ok E s) as [Hwf Hbits].
  { unfold search_from_root in Hsearch.
    eapply (dfs_walls_ok E); [exact Hsearch| |].
    - apply state_ok_root; assumption.
    - split; cbn; [apply wf_init|]. intros i. rewrite test_init. discriminate. }
  apply Forall_forall. intros p Hp.
  rewrite merge_sort_Permutation, walls_of_map in Hp.
  apply list_elem_of_fmap in Hp as (i & -> & Hi).
  apply (elem_of_set_bits (N E)) in Hi; [|assumption].
  destruct (env_wallable_dot g k ix tb i Hv Hg (Hbits i Hi)) as (p & Hp & Hdot).
  rewrite (list_lookup_total_correct _ _ _ Hp). exact Hdot.
Qed.

Lemma walls_on_dots_witness :
  Forall (fun p => grid_at open3 p.1 p.2 = Returned "."%char)
    [(0, 1); (1, 0); (1, 2); (2, 1)].
Proof.
  apply (walls_on_dots open3 4 (mkResult 1 [(0, 1); (1, 0); (1, 2); (2, 1)])).
  - reflexivity.
  - vm_compute. reflexivity.
Defined.

(** * Properties of solve *)

Lemma int_wrap_id x : int_range x -> int_wrap x = x.
Proof.
  unfold int_range, INT_MIN, INT_MAX, int_wrap. intros Hx.
  rewrite Z.mod_small by lia. lia.
Qed.

Lemma rectangular_readable g : rectangular g = true -> readable g (rows g) (cols g).
Proof.
  unfold rectangular. destruct g as [|row0 g'] eqn:Hg; [discriminate|].
  rewrite <- Hg. intros Hlen. rewrite forallb_forall in Hlen.
  intros [r c] [Hr Hc]. unfold rows, cols in *.
  assert (g !! 0%nat = Some row0) as H0 by (subst g; reflexivity).
  rewrite H0 in Hc. simpl in Hr, Hc. cbn [fst snd].
  destruct (lookup_lt_is_Some_2 g (Z.to_nat r)) as [row Hrow]; [lia|].
  assert (String.length row = String.length row0) as Hl.
  { apply Nat.eqb_eq, Hlen, list_elem_of_In. subst g.
    eapply list_elem_of_lookup_2; eauto. }
  destruct (lookup_lt_is_Some_2 (list_ascii_of_string row) (Z.to_nat c)) as [ch Hch].
  { rewrite length_list_ascii. lia. }
  exists ch. apply (grid_at_lookup g r c row ch); auto; lia.
Qed.

Lemma horse_counted g r c :
  in_bounds (rows g) (cols g) (r, c) -> rectangular g = true ->
  grid_at g r c = Returned "H"%char -> (0 < count_char "H"%char g)%nat.
Proof.
  intros [Hr Hc] Hrect Hat. unfold count_char.
  destruct (grid_at_inv _ _ _ _ Hat) as (_ & _ & row & Hrow & [Hl|[_ Hl]]);
    [|discriminate].
  assert ("H"%char ∈ filter (fun x => x = "H"%char)
                        (concat (map list_ascii_of_string g))) as Hin.
  { apply list_elem_of_filter. split; [reflexivity|].
    apply list_elem_of_In, in_concat. exists (list_ascii_of_string row). split.
    - apply in_map, list_elem_of_In. eapply list_elem_of_lookup_2; eauto.
    - apply list_elem_of_In. eapply list_elem_of_lookup_2; eauto. }
  destruct (filter _ _); [inversion Hin|cbn; lia].
Qed.

Lemma walls_of_init cs n : walls_of cs (Bitset.init n) = [].
Proof.
  rewrite walls_of_map. pose proof (card_init n) as Hc. unfold card in Hc.
  destruct (Bitset.set_bits (Bitset.init n)); [reflexivity|discriminate].
Qed.

Lemma flow_loop_no_budget rounds ft s t limit cap flow :
  limit <= flow -> Flow.flow_loop rounds ft s t limit cap flow = Returned (flow, cap).
Proof.
  intros Hl. destruct rounds; cbn; destruct (Z.ltb_spec flow limit); try lia; reflexivity.
Qed.

Lemma min_separator_negative E d f k :
  INT_MIN <= k < 0 -> min_separator E d f k = Returned None.
Proof.
  intros Hk. unfold min_separator.
  destruct (patch_forced E d f _) as [cap ok].
  destruct ok; cbn [negb]; [|reflexivity].
  unfold Flow.maxflow_limit.
  rewrite int_wrap_id by (unfold int_range, INT_MIN, INT_MAX in *; lia).
  rewrite flow_loop_no_budget by lia.
  unfold mbind, outcome_bind, obind at 1.
  destruct (Z.ltb_spec k 0); [reflexivity|lia].
Qed.

Lemma dfs_best E depth :
  forall d f k s s',
  dfs E depth d f k s = Returned s' ->
  best_ok E s ->
  best_ok E s'
  /\ (cur_best_area s <= cur_best_area s')%nat
  /\ (forall st, st ∈ visited_states s -> st ∈ visited_states s').
Proof.
  induction depth as [|depth IH]; intros d f k s s' Hd Hs; [discriminate|].
  cbn [dfs] in Hd.
  destruct (existsb _ _); [injection Hd as <-; auto|].
  cbn [visited_states cur_best_area best_walls] in Hd.
  set (s0 := mkSearch (mkState d f k :: visited_states s) (cur_best_area s)
               (best_walls s)) in *.
  assert (best_ok E s0 /\ (cur_best_area s <= cur_best_area s0)%nat
          /\ (forall st, st ∈ visited_states s -> st ∈ visited_states s0)) as H0.
  { split; [exact Hs|]. split; [reflexivity|]. intros st Hst. right. exact Hst. }
  obind Hd. destruct a as [[vis_now ub_area] esc].
  destruct (ub_area <=? cur_best_area s)%nat; [injection Hd as <-; exact H0|].
  destruct (negb (Bitset.subset_of f vis_now)); [injection Hd as <-; exact H0|].
  obind Hd. destruct a as [sep|]; [|injection Hd as <-; exact H0].
  obind Hd. destruct a as [[vis2 area2] escapes2].
  set (s1 := if negb escapes2 && (cur_best_area s <? area2)%nat
             then mkSearch (mkState d f k :: visited_states s) area2 (Bitset.union d sep)
             else s0) in Hd.
  assert (best_ok E s1 /\ (cur_best_area s <= cur_best_area s1)%nat
          /\ (forall st, st ∈ visited_states s -> st ∈ visited_states s1)) as H1.
  { unfold s1. destruct (negb escapes2 && (cur_best_area s <? area2)%nat) eqn:Hc;
      [|exact H0].
    apply andb_true_iff in Hc as [Hc1 Hc2]. apply negb_true_iff in Hc1. subst escapes2.
    apply Nat.ltb_lt in Hc2. split; [|split].
    - right. cbn. eauto.
    - cbn. lia.
    - intros st Hst. cbn. right. exact Hst. }
  destruct ((k =? 0) || Bitset.empty sep); [injection Hd as <-; exact H1|].
  destruct (Bitset.first_set_bit sep) as [v|]; [|injection Hd as <-; exact H1].
  obind Hd. destruct H1 as (Hb1 & Hm1 & Hv1).
  destruct (IH _ _ _ _ _ Ha2 Hb1) as (Hb2 & Hm2 & Hv2).
  destruct (IH _ _ _ _ _ Hd Hb2) as (Hb3 & Hm3 & Hv3).
  split; [exact Hb3|]. split; [lia|auto].
Qed.

(** A positive area comes from a recorded wall set: [best_walls] holds
    wallable cells only, and the flood fill from the horse around it counts
    [best_area] cells and stays off the boundary. *)
Lemma solve_best_state g k res :
  valid_grid g = true -> solve k g = Returned res -> (0 < best_area res)%nat ->
  exists ix tb s vis,
    graph_of g = Returned (ix, tb)
    /\ walls res = merge_sort pair_le (walls_of (coords ix) (best_walls s))
    /\ walls_ok (build_env k (coords ix) tb) s
    /\ bfs_reachable (build_env k (coords ix) tb) (best_walls s)
       = Returned (vis, best_area res, false).
Proof.
  intros Hv Hs Hpos.
  destruct (solve_search _ _ _ Hs) as (ix & tb & Hg & [[_ ->]|(_ & s & Hsearch & ->)]);
    [cbn in Hpos; lia|].
  cbn [best_area walls] in *. set (E := build_env k (coords ix) tb) in *.
  destruct (env_horse g k ix tb Hv Hg) as [HN Hw0]. fold E in HN, Hw0.
  unfold search_from_root in Hsearch.
  assert (walls_ok E s) as Hwalls.
  { eapply (dfs_walls_ok E); [exact Hsearch| |].
    - apply state_ok_root; assumption.
    - split; cbn; [apply wf_init|]. intros i. rewrite test_init. discriminate. }
  destruct (dfs_best E _ _ _ _ _ _ Hsearch) as ([H0|[vis Hbfs]] & _ & _);
    [left; reflexivity|lia|].
  exists ix, tb, s, vis. auto.
Qed.

(** As long as no area is recorded, [best_walls] is the wall set [solve]
    started with. *)
Lemma dfs_zero E bw0 depth :
  forall d f k s s',
  dfs E depth d f k s = Returned s' ->
  (cur_best_area s = 0%nat -> best_walls s = bw0) ->
  (cur_best_area s' = 0%nat -> best_walls s' = bw0).
Proof.
  induction depth as [|depth IH]; intros d f k s s' Hd Hs; [discriminate|].
  cbn [dfs] in Hd.
  destruct (existsb _ _); [injection Hd as <-; auto|].
  cbn [visited_states cur_best_area best_walls] in Hd.
  set (s0 := mkSearch (mkState d f k :: visited_states s) (cur_best_area s)
               (best_walls s)) in *.
  assert (cur_best_area s0 = 0%nat -> best_walls s0 = bw0) as H0 by exact Hs.
  obind Hd. destruct a as [[vis_now ub_area] esc].
  destruct (ub_area <=? cur_best_area s)%nat; [injection Hd as <-; exact H0|].
  destruct (negb (Bitset.subset_of f vis_now)); [injection Hd as <-; exact H0|].
  obind Hd. destruct a as [sep|]; [|injection Hd as <-; exact H0].
  obind Hd. destruct a as [[vis2 area2] escapes2].
  set (s1 := if negb escapes2 && (cur_best_area s <? area2)%nat
             then mkSearch (mkState d f k :: visited_states s) area2 (Bitset.union d sep)
             else s0) in Hd.
  assert (cur_best_area s1 = 0%nat -> best_walls s1 = bw0) as H1.
  { unfold s1. destruct (negb escapes2 && (cur_best_area s <? area2)%nat) eqn:Hc;
      [|exact H0].
    apply andb_true_iff in Hc as [_ Hc2]. apply Nat.ltb_lt in Hc2. cbn. lia. }
  destruct ((k =? 0) || Bitset.empty sep); [injection Hd as <-; exact H1|].
  destruct (Bitset.first_set_bit sep) as [v|]; [|injection Hd as <-; exact H1].
  obind Hd. eapply IH; [exact Hd|]. eapply IH; [exact Ha2|]. exact H1.
Qed.

Lemma open3_env_ok : env_ok open3_env.
Proof.
  unfold open3_env. destruct (graph_of_total open3 open3_valid) as (ix & tb & Hg).
  rewrite Hg. apply (env_ok_build open3 4 ix tb open3_valid Hg).
Qed.

Lemma solve_total g k :
  valid_grid g = true -> exists res, solve k g = Returned res.
Proof.
  intros Hv. destruct (graph_of_total g Hv) as (ix & tb & Hg).
  unfold solve. rewrite (bind_Returned_l _ _ _ Hg).
  destruct (Bitset.test (boundary tb) horse_idx); [eauto|].
  destruct (search_from_root_total _ (env_ok_build g k ix tb Hv Hg) k) as [s Hs].
  rewrite (bind_Returned_l _ _ _ Hs). eauto.
Qed.

Lemma solve_zero_walls g k res :
  solve k g = Returned res -> best_area res = 0%nat -> walls res = [].
Proof.
  intros Hs Hz.
  destruct (solve_search _ _ _ Hs) as (ix & tb & Hg & [[_ ->]|(_ & s & Hsearch & ->)]);
    [reflexivity|].
  cbn [best_area walls] in *. unfold search_from_root in Hsearch.
  rewrite (dfs_zero _ (Bitset.init (N (build_env k (coords ix) tb))) _ _ _ _ _ _ Hsearch);
    [|reflexivity|exact Hz].
  rewrite walls_of_init. reflexivity.
Qed.

(** * The overlay and the rendering flood fill *)

Lemma grid_at_cell g r c ch :
  0 <= r -> 0 <= c -> cell g (Z.to_nat r) (Z.to_nat c) = Some ch ->
  grid_at g r c = Returned ch.
Proof.
  unfold cell. intros Hr Hc Hcell.
  destruct (g !! Z.to_nat r) as [row|] eqn:Hrow; [|discriminate].
  eapply grid_at_lookup; eauto.
Qed.

Lemma cell_set_char row c ch c' :
  list_ascii_of_string (set_char row c ch) !! c'
  = if decide (c = c' /\ (c < String.length row)%nat) then Some ch
    else list_ascii_of_string row !! c'.
Proof.
  unfold set_char. rewrite list_ascii_of_string_of_list_ascii.
  destruct (decide (c = c')) as [<-|Hne].
  - destruct (Nat.lt_ge_cases c (String.length row)) as [Hlt|Hge].
    + rewrite list_lookup_insert_eq by (rewrite length_list_ascii; assumption).
      rewrite decide_True by auto. reflexivity.
    + rewrite list_insert_ge by (rewrite length_list_ascii; assumption).
      rewrite decide_False by lia. reflexivity.
  - rewrite list_lookup_insert_ne by assumption.
    rewrite decide_False by tauto. reflexivity.
Qed.

Lemma cell_mark g wr wc r c :
  cell (alter (fun row => set_char row wc "X"%char) wr g) r c
  = match cell g r c with
    | Some ch => Some (if decide (wr = r /\ wc = c) then "X"%char else ch)
    | None => None
    end.
Proof.
  unfold cell, grid in *. destruct (decide (wr = r)) as [<-|Hne].
  - rewrite list_lookup_alter_eq. destruct (g !! wr) as [row|]; [|reflexivity].
    cbn. rewrite cell_set_char.
    destruct (decide (wc = c)) as [<-|Hnc].
    + destruct (list_ascii_of_string row !! wc) as [ch|] eqn:Hch.
      * apply lookup_lt_Some in Hch. rewrite length_list_ascii in Hch.
        rewrite decide_True by auto. rewrite decide_True by auto. reflexivity.
      * apply lookup_ge_None in Hch. rewrite length_list_ascii in Hch.
        rewrite decide_False by lia. reflexivity.
    + rewrite decide_False by tauto.
      destruct (list_ascii_of_string row !! c); [|reflexivity].
      rewrite decide_False by tauto. reflexivity.
  - rewrite list_lookup_alter_ne by assumption.
    destruct (g !! r) as [row|]; [|reflexivity].
    destruct (list_ascii_of_string row !! c); [|reflexivity].
    rewrite decide_False by tauto. reflexivity.
Qed.

Lemma cell_overlay ws :
  forall g r c,
  Forall (fun p : Z * Z => 0 <= p.1 /\ 0 <= p.2) ws ->
  cell (overlay g ws) r c
  = match cell g r c with
    | Some ch => Some (if decide ((Z.of_nat r, Z.of_nat c) ∈ ws) then "X"%char else ch)
    | None => None
    end.
Proof.
  unfold overlay. induction ws as [|[wr wc] ws IH]; intros g r c Hnn; cbn [fold_left].
  - destruct (cell g r c); [|reflexivity].
    rewrite decide_False by (intros H; inversion H). reflexivity.
  - apply Forall_cons in Hnn as [[Hr Hc] Hnn]. cbn [fst snd] in Hr, Hc.
    rewrite IH by assumption. rewrite cell_mark.
    destruct (cell g r c) as [ch|]; [|reflexivity]. f_equal.
    destruct (decide ((Z.of_nat r, Z.of_nat c) ∈ ws)) as [Hin|Hnin].
    + rewrite decide_True by (right; assumption). reflexivity.
    + destruct (decide (Z.to_nat wr = r /\ Z.to_nat wc = c)) as [[<- <-]|Hne].
      * rewrite decide_True; [reflexivity|]. rewrite !Z2Nat.id by lia. left.
      * rewrite decide_False; [reflexivity|].
        intros [Heq|Hin]%elem_of_cons; [|contradiction].
        injection Heq as H1 H2. apply Hne. rewrite <- H1, <- H2, !Nat2Z.id. auto.
Qed.

Lemma overlay_length g ws : length (overlay g ws) = length g.
Proof.
  unfold overlay, grid. revert g.
  induction ws as [|[wr wc] ws IH]; intros g; cbn [fold_left].
  - reflexivity.
  - rewrite IH. apply length_alter.
Qed.

Lemma set_char_length row c ch : String.length (set_char row c ch) = String.length row.
Proof.
  rewrite <- !length_list_ascii. unfold set_char.
  rewrite list_ascii_of_string_of_list_ascii, length_insert. reflexivity.
Qed.

Lemma overlay_row_length ws :
  forall g r, String.length (default ""%string (overlay g ws !! r))
              = String.length (default ""%string (g !! r)).
Proof.
  unfold overlay, grid. induction ws as [|[wr wc] ws IH]; intros g r; cbn [fold_left].
  - reflexivity.
  - rewrite IH. destruct (decide (Z.to_nat wr = r)) as [<-|Hne].
    + rewrite list_lookup_alter_eq. destruct (g !! Z.to_nat wr); cbn; [|reflexivity].
      apply set_char_length.
    + rewrite list_lookup_alter_ne by assumption. reflexivity.
Qed.

Lemma cell_grid_at g r c ch :
  grid_at g r c = Returned ch -> 0 <= r -> 0 <= c ->
  (Z.to_nat c < String.length (default ""%string (g !! Z.to_nat r)))%nat ->
  cell g (Z.to_nat r) (Z.to_nat c) = Some ch.
Proof.
  intros Hat Hr Hc Hlt. unfold cell.
  destruct (grid_at_inv _ _ _ _ Hat) as (_ & _ & row & Hrow & [Hl|[Hl _]]).
  - rewrite Hrow. exact Hl.
  - rewrite Hrow in Hlt. cbn in Hlt. lia.
Qed.

(** ** The flood fill *)

Lemma count_false_app l1 l2 :
  count_false (l1 ++ l2) = (count_false l1 + count_false l2)%nat.
Proof. unfold count_false. rewrite filter_app, length_app. reflexivity. Qed.

Lemma count_false_replicate n : count_false (replicate n false) = n.
Proof.
  unfold count_false. rewrite filter_all; [apply length_replicate|].
  apply Forall_replicate. reflexivity.
Qed.

Lemma unvisited_fresh n m :
  unvisited (replicate n (replicate m false)) = (n * m)%nat.
Proof.
  unfold unvisited. induction n as [|n IH]; [reflexivity|].
  cbn [replicate concat]. rewrite count_false_app, count_false_replicate, IH. lia.
Qed.

Lemma unvisited_mark visited r c row :
  visited !! r = Some row -> row !! c = Some false ->
  S (unvisited (alter (fun row => <[c := true]> row) r visited)) = unvisited visited.
Proof.
  unfold unvisited. revert r. induction visited as [|x v IH]; intros r Hr Hc.
  - inversion Hr.
  - destruct r as [|r]; cbn in Hr.
    + injection Hr as ->. cbn [alter list_alter concat].
      rewrite !count_false_app. rewrite <- (count_false_mark row c Hc). lia.
    + cbn [alter list_alter concat]. rewrite !count_false_app.
      rewrite <- (IH r Hr Hc). cbn [alter]. lia.
Qed.

Section Flood.

Variable g : grid.
Variables R C : Z.
Hypothesis Hread : readable g R C.
Variable P : Z * Z -> Prop.
Hypothesis Hstep :
  forall p d ch, P p -> d ∈ dirs -> in_bounds R C (step_of p d) ->
    grid_at g (step_of p d).1 (step_of p d).2 = Returned ch ->
    ch <> "#"%char -> ch <> "X"%char -> P (step_of p d).

Lemma visited_at_mark visited r c r' c' :
  matrix_shape R C visited -> in_bounds R C (r, c) -> in_bounds R C (r', c') ->
  visited_at (mark_visited visited r c) r' c'
  = bool_decide ((r, c) = (r', c')) || visited_at visited r' c'.
Proof.
  intros [Hlen Hrows] [Hp1 Hp2] [Hq1 Hq2]. cbn [fst snd] in *.
  unfold visited_at, mark_visited.
  destruct (lookup_lt_is_Some_2 visited (Z.to_nat r)) as [row Hrow]; [lia|].
  pose proof (Forall_lookup_1 _ _ _ _ Hrows Hrow) as Hrl. cbn beta in Hrl.
  destruct (decide (Z.to_nat r = Z.to_nat r')) as [Heq|Hne].
  - rewrite <- Heq. rewrite list_lookup_total_alter_eq by lia.
    rewrite (list_lookup_total_correct _ _ _ Hrow).
    unfold getB. destruct (decide (Z.to_nat c = Z.to_nat c')) as [Heq2|Hne2].
    + rewrite <- Heq2. rewrite list_lookup_insert_eq by lia. cbn.
      rewrite bool_decide_eq_true_2; [reflexivity|]. f_equal; lia.
    + rewrite list_lookup_insert_ne by assumption.
      rewrite bool_decide_eq_false_2; [reflexivity|]. intros [= -> ->]. auto.
  - rewrite list_lookup_total_alter_ne by assumption.
    rewrite bool_decide_eq_false_2; [reflexivity|]. intros [= -> ->]. auto.
Qed.

Lemma mark_shape visited r c :
  matrix_shape R C visited -> matrix_shape R C (mark_visited visited r c).
Proof.
  intros [Hlen Hrows]. unfold mark_visited. split.
  - rewrite length_alter. assumption.
  - apply Forall_alter; [assumption|]. intros row _ Hrow.
    rewrite length_insert. assumption.
Qed.

Lemma unvisited_mark_cell visited r c :
  matrix_shape R C visited -> in_bounds R C (r, c) ->
  visited_at visited r c = false ->
  S (unvisited (mark_visited visited r c)) = unvisited visited.
Proof.
  intros [Hlen Hrows] [Hp1 Hp2] Hv. cbn [fst snd] in *. unfold visited_at in Hv.
  destruct (lookup_lt_is_Some_2 visited (Z.to_nat r)) as [row Hrow]; [lia|].
  pose proof (Forall_lookup_1 _ _ _ _ Hrows Hrow) as Hrl. cbn beta in Hrl.
  rewrite (list_lookup_total_correct _ _ _ Hrow) in Hv.
  destruct (lookup_lt_is_Some_2 row (Z.to_nat c)) as [b Hb]; [lia|].
  unfold getB in Hv. rewrite Hb in Hv. cbn in Hv. subst b.
  apply (unvisited_mark visited _ _ row); assumption.
Qed.

Lemma flood_dirs_spec r c ds :
  (forall d, d ∈ ds -> d ∈ dirs) ->
  forall visited q,
  P (r, c) -> flood_inv R C P visited q ->
  exists visited' q',
    flood_dirs g R C r c ds visited q = Returned (visited', q')
    /\ flood_inv R C P visited' q'
    /\ (unvisited visited' + length q' <= unvisited visited + length q)%nat.
Proof.
  induction ds as [|[dr dc] ds IH]; intros Hds visited q Hp Hinv.
  - exists visited, q. cbn. auto.
  - assert (forall d, d ∈ ds -> d ∈ dirs) as Hds' by (intros; apply Hds; right; assumption).
    specialize (IH Hds'). cbn [flood_dirs].
    destruct ((r + dr <? 0) || (R <=? r + dr) || (c + dc <? 0) || (C <=? c + dc)) eqn:Hout;
      [apply IH; assumption|].
    rewrite !orb_false_iff, !Z.ltb_ge, !Z.leb_gt in Hout.
    assert (in_bounds R C (r + dr, c + dc)) as Hb by (split; cbn; lia).
    destruct (visited_at visited (r + dr) (c + dc)) eqn:Hvis; [apply IH; assumption|].
    destruct (Hread _ Hb) as [ch Hch]. cbn [fst snd] in Hch.
    rewrite (bind_Returned_l _ _ _ Hch).
    destruct (Ascii.eqb ch "#"%char || Ascii.eqb ch "X"%char) eqn:Hblk;
      [apply IH; assumption|].
    apply orb_false_iff in Hblk as [H1 H2].
    apply Ascii.eqb_neq in H1, H2.
    destruct Hinv as (Hshape & Hvp & Hq).
    destruct (IH (mark_visited visited (r + dr) (c + dc)) (q ++ [(r + dr, c + dc)]) Hp)
      as (visited' & q' & Hfd & Hinv' & Hm).
    + split; [apply mark_shape; assumption|]. split.
      * intros [pr pc] Hpb. cbn [fst snd].
        rewrite (visited_at_mark visited (r + dr) (c + dc) pr pc) by assumption.
        intros [Heq|Hv]%orb_true_iff; [|apply (Hvp (pr, pc)); assumption].
        apply bool_decide_eq_true in Heq. rewrite <- Heq.
        apply (Hstep (r, c) (dr, dc) ch); try assumption.
        apply Hds. left.
      * intros [pr pc] Hpq. cbn [fst snd]. apply elem_of_app in Hpq as [Hpq|Hpq].
        -- destruct (Hq _ Hpq) as [Hpb Hpv]. split; [assumption|].
           rewrite (visited_at_mark visited (r + dr) (c + dc) pr pc) by assumption.
           cbn [fst snd] in Hpv. rewrite Hpv. apply orb_true_r.
        -- apply list_elem_of_singleton in Hpq. injection Hpq as -> ->.
           split; [assumption|].
           rewrite (visited_at_mark visited (r + dr) (c + dc) (r + dr) (c + dc))
             by assumption.
           rewrite bool_decide_eq_true_2 by reflexivity. reflexivity.
    + exists visited', q'. split; [exact Hfd|]. split; [exact Hinv'|].
      pose proof (unvisited_mark_cell visited (r + dr) (c + dc) Hshape Hb Hvis).
      rewrite length_app in Hm. cbn in Hm. lia.
Qed.

Lemma flood_loop_spec fuel :
  forall visited q,
  flood_inv R C P visited q ->
  (unvisited visited + length q <= fuel)%nat ->
  exists visited',
    flood_loop fuel g R C visited q = Returned visited'
    /\ flood_inv R C P visited' [].
Proof.
  induction fuel as [|fuel IH]; intros visited q Hinv Hfuel.
  - destruct q as [|p q]; [|cbn in Hfuel; lia].
    exists visited. split; [reflexivity|exact Hinv].
  - cbn [flood_loop]. destruct q as [|[r c] q].
    { exists visited. split; [reflexivity|exact Hinv]. }
    destruct Hinv as (Hshape & Hvp & Hq).
    destruct (Hq (r, c) ltac:(left)) as [Hb Hv].
    destruct (flood_dirs_spec r c dirs (fun d H => H) visited q) as (v1 & q1 & Hfd & Hinv1 & Hm).
    + apply Hvp; assumption.
    + split; [assumption|]. split; [assumption|].
      intros p Hp. apply Hq. right. assumption.
    + rewrite (bind_Returned_l _ _ _ Hfd). apply IH; [assumption|].
      cbn in Hfuel. lia.
Qed.

Lemma flood_dirs_closed r c ds :
  forall visited q visited' q',
  matrix_shape R C visited ->
  flood_dirs g R C r c ds visited q = Returned (visited', q') ->
  matrix_shape R C visited'
  /\ (forall p, in_bounds R C p -> visited_at visited p.1 p.2 = true ->
                visited_at visited' p.1 p.2 = true)
  /\ (forall p, p ∈ q -> p ∈ q')
  /\ (forall p, in_bounds R C p -> visited_at visited' p.1 p.2 = true ->
                visited_at visited p.1 p.2 = true \/ p ∈ q')
  /\ (forall p, p ∈ q' -> p ∈ q \/ in_bounds R C p)
  /\ (forall d, d ∈ ds -> flood_open g R C (r, c) d ->
                visited_at visited' (step_of (r, c) d).1 (step_of (r, c) d).2 = true).
Proof.
  induction ds as [|[dr dc] ds IH]; intros visited q visited' q' Hshape Hfd.
  - cbn in Hfd. injection Hfd as <- <-.
    split; [assumption|]. split; [auto|]. split; [auto|]. split; [auto|].
    split; [auto|]. intros d Hd. inversion Hd.
  - cbn [flood_dirs] in Hfd.
    destruct ((r + dr <? 0) || (R <=? r + dr) || (c + dc <? 0) || (C <=? c + dc)) eqn:Hout.
    { destruct (IH _ _ _ _ Hshape Hfd) as (H1 & H2 & H3 & H4 & H5 & H6).
      split; [exact H1|]. split; [exact H2|]. split; [exact H3|]. split; [exact H4|].
      split; [exact H5|]. intros d [->|Hd]%elem_of_cons; [|auto].
      intros [[Hb1 Hb2] _]. cbn [step_of fst snd] in Hb1, Hb2.
      rewrite !orb_true_iff, !Z.ltb_lt, !Z.leb_le in Hout. lia. }
    rewrite !orb_false_iff, !Z.ltb_ge, !Z.leb_gt in Hout.
    assert (in_bounds R C (r + dr, c + dc)) as Hb by (split; cbn; lia).
    destruct (visited_at visited (r + dr) (c + dc)) eqn:Hvis.
    { destruct (IH _ _ _ _ Hshape Hfd) as (H1 & H2 & H3 & H4 & H5 & H6).
      split; [exact H1|]. split; [exact H2|]. split; [exact H3|]. split; [exact H4|].
      split; [exact H5|]. intros d [->|Hd]%elem_of_cons; [|auto].
      intros _. apply (H2 (r + dr, c + dc)); assumption. }
    obind Hfd. rename a into ch.
    destruct (Ascii.eqb ch "#"%char || Ascii.eqb ch "X"%char) eqn:Hblk.
    { destruct (IH _ _ _ _ Hshape Hfd) as (H1 & H2 & H3 & H4 & H5 & H6).
      split; [exact H1|]. split; [exact H2|]. split; [exact H3|]. split; [exact H4|].
      split; [exact H5|]. intros d [->|Hd]%elem_of_cons; [|auto].
      intros [_ (ch' & Hch' & Hn1 & Hn2)]. cbn [step_of fst snd] in Hch'.
      assert (ch' = ch) as -> by congruence.
      apply orb_true_iff in Hblk as [Hx|Hx]; apply Ascii.eqb_eq in Hx; contradiction. }
    destruct (IH _ _ _ _ (mark_shape _ _ _ Hshape) Hfd) as (H1 & H2 & H3 & H4 & H5 & H6).
    assert (forall pr pc, in_bounds R C (pr, pc) ->
              visited_at (mark_visited visited (r + dr) (c + dc)) pr pc
              = bool_decide ((r + dr, c + dc) = (pr, pc)) || visited_at visited pr pc)
      as Hmark by (intros; apply visited_at_mark; assumption).
    split; [exact H1|]. split; [|split; [|split; [|split]]].
    + intros [pr pc] Hpb Hpv. apply (H2 (pr, pc) Hpb). cbn [fst snd] in *.
      rewrite Hmark, Hpv by assumption. apply orb_true_r.
    + intros p Hp. apply H3. apply elem_of_app. left. exact Hp.
    + intros [pr pc] Hpb Hpv. destruct (H4 (pr, pc) Hpb Hpv) as [Hm|Hq]; [|right; exact Hq].
      cbn [fst snd] in *. rewrite Hmark in Hm by assumption.
      apply orb_true_iff in Hm as [Heq|Hm]; [|left; exact Hm].
      apply bool_decide_eq_true in Heq. right. apply H3. apply elem_of_app. right.
      rewrite Heq. left.
    + intros p Hp. destruct (H5 p Hp) as [Hq|Hpb]; [|right; exact Hpb].
      apply elem_of_app in Hq as [Hq|Hq]; [left; exact Hq|].
      apply list_elem_of_singleton in Hq. subst p. right. exact Hb.
    + intros d [->|Hd]%elem_of_cons; [|auto]. intros _.
      apply (H2 (r + dr, c + dc) Hb). cbn [fst snd].
      rewrite Hmark by assumption.
      rewrite bool_decide_eq_true_2 by reflexivity. reflexivity.
Qed.

Lemma flood_loop_closed fuel :
  forall visited q visited',
  matrix_shape R C visited -> (forall p, p ∈ q -> in_bounds R C p) ->
  flood_closed g R C visited q ->
  flood_loop fuel g R C visited q = Returned visited' ->
  flood_closed g R C visited' []
  /\ (forall p, in_bounds R C p -> visited_at visited p.1 p.2 = true ->
                visited_at visited' p.1 p.2 = true).
Proof.
  induction fuel as [|fuel IH]; intros visited q visited' Hshape Hq Hcl Hfl.
  - destruct q as [|[r c] q]; [|discriminate]. cbn in Hfl. injection Hfl as <-. auto.
  - cbn [flood_loop] in Hfl. destruct q as [|[r c] q]; [injection Hfl as <-; auto|].
    obind Hfl. destruct a as [v1 q1].
    destruct (flood_dirs_closed r c dirs _ _ _ _ Hshape Ha)
      as (H1 & H2 & H3 & H4 & H5 & H6).
    destruct (IH v1 q1 visited' H1) as [Hcl' Hmono]; [| |exact Hfl|].
    + intros p Hp. destruct (H5 p Hp) as [Hp'|]; [|assumption].
      apply Hq. right. exact Hp'.
    + intros p Hpb Hpv. destruct (H4 p Hpb Hpv) as [Hv|Hin]; [|left; exact Hin].
      destruct (Hcl p Hpb Hv) as [[->|Hin]%elem_of_cons|Hn].
      * right. exact H6.
      * left. apply H3. exact Hin.
      * right. intros d Hd Ho. apply H2; [apply Ho|]. apply Hn; assumption.
    + split; [exact Hcl'|]. intros p Hpb Hpv. apply Hmono; [assumption|].
      apply H2; assumption.
Qed.

Lemma flood_path_bounds h p :
  in_bounds R C h -> flood_path g R C h p -> in_bounds R C p.
Proof. intros Hh Hp. destruct Hp; assumption. Qed.

Lemma flood_fill_spec row0 h :
  g !! 0%nat = Some row0 ->
  R = Z.of_nat (length g) -> C = Z.of_nat (String.length row0) ->
  find_horse g R C = Returned (Some h) -> P h ->
  exists visited,
    flood_fill g = Returned visited
    /\ matrix_shape R C visited
    /\ forall p, in_bounds R C p -> visited_at visited p.1 p.2 = true -> P p.
Proof.
  intros H0 HR HC Hfh Hh. unfold flood_fill. rewrite H0. rewrite <- HR, <- HC.
  rewrite (bind_Returned_l _ _ _ Hfh). destruct h as [hr hc].
  destruct (find_horse_Some _ _ _ _ _ Hfh) as [Hb _].
  set (v0 := replicate (length g) (replicate (String.length row0) false)).
  assert (matrix_shape R C v0) as Hshape0.
  { split; [unfold v0; rewrite length_replicate; lia|].
    apply Forall_replicate. rewrite length_replicate. lia. }
  assert (forall r c, in_bounds R C (r, c) -> visited_at v0 r c = false) as Hv0.
  { intros r c [Hr Hc]. cbn [fst snd] in *. unfold visited_at, v0.
    rewrite list_lookup_total_alt, lookup_replicate_2 by lia. cbn.
    unfold getB. rewrite lookup_replicate_2 by lia. reflexivity. }
  destruct (flood_loop_spec (Z.to_nat (R * C)) (mark_visited v0 hr hc) [(hr, hc)])
    as (visited & Hfl & Hshape & Hvp & _).
  - split; [apply mark_shape; assumption|]. split.
    + intros [pr pc] Hpb. cbn [fst snd].
      rewrite (visited_at_mark v0 hr hc pr pc) by assumption.
      rewrite (Hv0 pr pc Hpb), orb_false_r.
      intros Heq. apply bool_decide_eq_true in Heq. rewrite <- Heq. exact Hh.
    + intros p Hp. apply list_elem_of_singleton in Hp. subst p.
      split; [assumption|]. cbn [fst snd].
      rewrite (visited_at_mark v0 hr hc hr hc) by assumption.
      rewrite bool_decide_eq_true_2 by reflexivity. reflexivity.
  - pose proof (unvisited_mark_cell v0 hr hc Hshape0 Hb (Hv0 hr hc Hb)) as Hm.
    unfold v0 in Hm at 2. rewrite unvisited_fresh in Hm.
    cbn [length]. rewrite HR, HC. lia.
  - exists visited. auto.
Qed.

End Flood.

Lemma flood_escapes_false (g : grid) row0 visited :
  g !! 0%nat = Some row0 ->
  (forall p, in_bounds (Z.of_nat (length g)) (Z.of_nat (String.length row0)) p ->
     visited_at visited p.1 p.2 = true ->
     on_boundary (Z.of_nat (length g)) (Z.of_nat (String.length row0)) p.1 p.2 = false) ->
  flood_escapes g visited = false.
Proof.
  intros H0 Hv. unfold flood_escapes. rewrite H0.
  apply not_true_is_false. intros He.
  apply existsb_exists in He as (r & Hr & He).
  apply existsb_exists in He as (c & Hc & He).
  apply list_elem_of_In, elem_of_seqZ in Hr, Hc.
  apply andb_true_iff in He as [He1 He2].
  assert (in_bounds (Z.of_nat (length g)) (Z.of_nat (String.length row0)) (r, c)) as Hb
    by (split; cbn; lia).
  pose proof (Hv (r, c) Hb He1) as Hn. cbn [fst snd] in Hn. congruence.
Qed.

Lemma fresh_shape n m :
  matrix_shape (Z.of_nat n) (Z.of_nat m) (replicate n (replicate m false)).
Proof.
  split; [rewrite length_replicate; lia|].
  apply Forall_replicate. rewrite length_replicate. lia.
Qed.

Lemma fresh_unmarked n m r c :
  visited_at (replicate n (replicate m false)) r c = false.
Proof.
  unfold visited_at, getB. rewrite list_lookup_total_alt.
  destruct (replicate n (replicate m false) !! Z.to_nat r) as [row|] eqn:Hrow;
    [|reflexivity].
  apply lookup_replicate in Hrow as [-> _]. cbn.
  destruct (replicate m false !! Z.to_nat c) as [b|] eqn:Hb; [|reflexivity].
  apply lookup_replicate in Hb as [-> _]. reflexivity.
Qed.

(** The flood fill marks the cells linked to the horse by a path over
    cells that are neither ['#'] nor ['X'], and no others. *)
Lemma flood_fill_exact (g : grid) row0 h :
  g !! 0%nat = Some row0 ->
  readable g (Z.of_nat (length g)) (Z.of_nat (String.length row0)) ->
  find_horse g (Z.of_nat (length g)) (Z.of_nat (String.length row0))
  = Returned (Some h) ->
  exists visited,
    flood_fill g = Returned visited
    /\ matrix_shape (Z.of_nat (length g)) (Z.of_nat (String.length row0)) visited
    /\ forall p, in_bounds (Z.of_nat (length g)) (Z.of_nat (String.length row0)) p ->
         (visited_at visited p.1 p.2 = true
          <-> flood_path g (Z.of_nat (length g)) (Z.of_nat (String.length row0)) h p).
Proof.
  intros H0 Hread Hfh.
  set (R := Z.of_nat (length g)) in *. set (C := Z.of_nat (String.length row0)) in *.
  destruct (flood_fill_spec g R C Hread (flood_path g R C h)) with (row0 := row0) (h := h)
    as (visited & Hff & Hshape & Hsound); try assumption; try reflexivity.
  { intros p d ch Hp Hd Hb Hat Hn1 Hn2. eapply flood_next; eauto. }
  { constructor. }
  exists visited. split; [exact Hff|]. split; [exact Hshape|].
  intros p Hpb. split; [apply Hsound; exact Hpb|]. clear Hpb.
  unfold flood_fill in Hff. rewrite H0 in Hff. fold R C in Hff.
  rewrite (bind_Returned_l _ _ _ Hfh) in Hff. destruct h as [hr hc].
  destruct (find_horse_Some _ _ _ _ _ Hfh) as [Hhb _].
  pose proof (fresh_shape (length g) (String.length row0)) as Hshape0. fold R C in Hshape0.
  assert (forall q, q ∈ [(hr, hc)] -> in_bounds R C q) as Hq0.
  { intros q Hq. apply list_elem_of_singleton in Hq. subst q. exact Hhb. }
  assert (flood_closed g R C
            (mark_visited (replicate (length g) (replicate (String.length row0) false))
               hr hc) [(hr, hc)]) as Hcl0.
  { intros [pr pc] Hqb Hqv. left. cbn [fst snd] in Hqv.
    rewrite (visited_at_mark R C _ hr hc pr pc Hshape0 Hhb Hqb) in Hqv.
    rewrite fresh_unmarked, orb_false_r in Hqv.
    apply bool_decide_eq_true in Hqv. rewrite Hqv. left. }
  destruct (flood_loop_closed g R C _ _ _ _ (mark_shape R C _ hr hc Hshape0) Hq0 Hcl0 Hff)
    as [Hcl Hmono].
  revert p.
  induction 1 as [|p d ch Hp IH Hd Hb Hat Hn1 Hn2].
  - apply (Hmono (hr, hc) Hhb). cbn [fst snd].
    rewrite (visited_at_mark R C _ hr hc hr hc Hshape0 Hhb Hhb).
    rewrite bool_decide_eq_true_2 by reflexivity. reflexivity.
  - destruct (Hcl p (flood_path_bounds g R C _ _ Hhb Hp) IH) as [Hin|Hn];
      [inversion Hin|].
    apply Hn; [exact Hd|]. split; [exact Hb|]. eauto.
Qed.

(** * Counting the marked cells *)

Lemma length_marked_row r c row :
  length (marked_row r c row) = length (filter (fun b => b = true) row).
Proof.
  revert c. induction row as [|b row IH]; intros c; [reflexivity|].
  cbn [marked_row]. rewrite length_app, IH. destruct b.
  - rewrite filter_cons_True by reflexivity. reflexivity.
  - rewrite filter_cons_False by discriminate. reflexivity.
Qed.

Lemma length_marked_from r visited :
  length (marked_from r visited) = flooded_cells visited.
Proof.
  unfold flooded_cells. revert r.
  induction visited as [|row rest IH]; intros r; [reflexivity|].
  cbn [marked_from concat]. rewrite filter_app, !length_app, length_marked_row, IH.
  reflexivity.
Qed.

Lemma elem_of_marked_row r c row a b :
  (a, b) ∈ marked_row r c row
  <-> a = r /\ (c <= b)%nat /\ row !! (b - c)%nat = Some true.
Proof.
  revert c. induction row as [|x row IH]; intros c; cbn [marked_row].
  - split; [intros H; inversion H|intros (_ & _ & H); discriminate].
  - rewrite elem_of_app, IH. split.
    + intros [H|(-> & Hle & Hl)].
      * destruct x; [|inversion H].
        apply list_elem_of_singleton in H. injection H as -> ->.
        rewrite Nat.sub_diag. auto.
      * split; [reflexivity|]. split; [lia|].
        replace (b - c)%nat with (S (b - S c)) by lia. exact Hl.
    + intros (-> & Hle & Hl). destruct (decide (b = c)) as [->|Hne].
      * rewrite Nat.sub_diag in Hl. cbn in Hl. injection Hl as ->. left. left.
      * right. split; [reflexivity|]. split; [lia|].
        replace (b - c)%nat with (S (b - S c)) in Hl by lia. exact Hl.
Qed.

Lemma elem_of_marked_from r visited a b :
  (a, b) ∈ marked_from r visited
  <-> (r <= a)%nat
      /\ exists row, visited !! (a - r)%nat = Some row /\ row !! b = Some true.
Proof.
  revert r. induction visited as [|x rest IH]; intros r; cbn [marked_from].
  - split; [intros H; inversion H|intros (_ & row & H & _); discriminate].
  - rewrite elem_of_app, IH, elem_of_marked_row, Nat.sub_0_r. split.
    + intros [(-> & _ & Hb)|(Hle & row & Hr & Hb)].
      * split; [lia|]. exists x. rewrite Nat.sub_diag. auto.
      * split; [lia|]. exists row.
        replace (a - r)%nat with (S (a - S r)) by lia. auto.
    + intros (Hle & row & Hr & Hb). destruct (decide (a = r)) as [->|Hne].
      * rewrite Nat.sub_diag in Hr. cbn in Hr. injection Hr as ->.
        left. split; [reflexivity|]. split; [lia|exact Hb].
      * right. split; [lia|]. exists row.
        replace (a - r)%nat with (S (a - S r)) in Hr by lia. auto.
Qed.

Lemma NoDup_marked_row r c row : NoDup (marked_row r c row).
Proof.
  revert c. induction row as [|x row IH]; intros c; cbn [marked_row]; [constructor|].
  apply NoDup_app. split; [destruct x; [apply NoDup_singleton|constructor]|].
  split; [|apply IH].
  intros [a b] Hin Hin'. apply elem_of_marked_row in Hin' as (_ & Hle & _).
  destruct x; [|inversion Hin].
  apply list_elem_of_singleton in Hin. injection Hin as -> ->. lia.
Qed.

Lemma NoDup_marked_from r visited : NoDup (marked_from r visited).
Proof.
  revert r. induction visited as [|x rest IH]; intros r; cbn [marked_from]; [constructor|].
  apply NoDup_app. split; [apply NoDup_marked_row|]. split; [|apply IH].
  intros [a b] Hin Hin'. apply elem_of_marked_row in Hin as (-> & _).
  apply elem_of_marked_from in Hin' as (Hle & _). lia.
Qed.

Lemma marked_visited_at visited a b :
  (a, b) ∈ marked_from 0 visited
  <-> visited_at visited (Z.of_nat a) (Z.of_nat b) = true.
Proof.
  unfold visited_at, getB. rewrite !Nat2Z.id, elem_of_marked_from, Nat.sub_0_r.
  rewrite list_lookup_total_alt. split.
  - intros (_ & row & -> & Hb). cbn. rewrite Hb. reflexivity.
  - intros H. split; [lia|].
    destruct (visited !! a) as [row|]; [|discriminate]. exists row.
    split; [reflexivity|]. cbn in H.
    destruct (row !! b) as [[|]|]; try discriminate. reflexivity.
Qed.

Lemma visited_at_bounds R C visited r c :
  matrix_shape R C visited -> 0 <= r -> 0 <= c ->
  visited_at visited r c = true -> in_bounds R C (r, c).
Proof.
  intros [Hlen Hrows] Hr Hc. unfold visited_at, getB.
  rewrite list_lookup_total_alt.
  destruct (visited !! Z.to_nat r) as [row|] eqn:Hrow; [|discriminate].
  cbn. destruct (row !! Z.to_nat c) as [b|] eqn:Hb; [|discriminate].
  intros _. apply lookup_lt_Some in Hb.
  rewrite (Forall_lookup_1 _ _ _ _ Hrows Hrow) in Hb.
  apply lookup_lt_Some in Hrow. split; cbn; lia.
Qed.

(** A visited matrix that marks the cells of the indices in [vis], and no
    others, holds as many marks as [vis] has indices. *)
Lemma flooded_cells_card R C (cs : list (Z * Z)) vis visited :
  NoDup cs -> wf_bitset (length cs) vis -> matrix_shape R C visited ->
  (forall i p, cs !! i = Some p -> in_bounds R C p) ->
  (forall p, in_bounds R C p ->
     (visited_at visited p.1 p.2 = true
      <-> exists i, cs !! i = Some p /\ Bitset.test vis i = true)) ->
  flooded_cells visited = card vis.
Proof.
  intros Hnd Hwf Hshape Hcs Hiff.
  rewrite <- (length_marked_from 0). unfold card.
  rewrite <- (length_fmap (fun ab : nat * nat => (Z.of_nat ab.1, Z.of_nat ab.2))).
  rewrite <- (length_fmap (fun i => cs !!! i) (Bitset.set_bits vis)).
  apply Permutation_length. apply NoDup_Permutation.
  - apply NoDup_fmap_2_strong; [|apply NoDup_marked_from].
    intros [a b] [a' b'] _ _ [= H1 H2]. f_equal; lia.
  - apply NoDup_fmap_2_strong; [|apply (NoDup_set_bits _ _ Hwf)].
    intros i j Hi Hj Heq.
    apply (set_bits_lt _ _ _ Hwf) in Hi, Hj.
    destruct (lookup_lt_is_Some_2 cs i Hi) as [p Hp].
    destruct (lookup_lt_is_Some_2 cs j Hj) as [p' Hp'].
    rewrite (list_lookup_total_correct _ _ _ Hp),
      (list_lookup_total_correct _ _ _ Hp') in Heq. subst p'.
    eapply NoDup_lookup; eauto.
  - intros p. rewrite !list_elem_of_fmap. split.
    + intros ([a b] & -> & Hab). cbn [fst snd].
      apply marked_visited_at in Hab.
      assert (in_bounds R C (Z.of_nat a, Z.of_nat b)) as Hb
        by (apply (visited_at_bounds R C visited); [assumption|lia|lia|assumption]).
      destruct (proj1 (Hiff _ Hb) Hab) as (i & Hi & Hv).
      exists i. split; [symmetry; apply list_lookup_total_correct; exact Hi|].
      apply (elem_of_set_bits _ _ _ Hwf). exact Hv.
    + intros (i & -> & Hi).
      pose proof (set_bits_lt _ _ _ Hwf Hi) as Hlt.
      apply (elem_of_set_bits _ _ _ Hwf) in Hi.
      destruct (lookup_lt_is_Some_2 cs i Hlt) as [p Hp].
      rewrite (list_lookup_total_correct _ _ _ Hp).
      pose proof (Hcs i p Hp) as Hb. destruct Hb as [Hb1 Hb2].
      exists (Z.to_nat p.1, Z.to_nat p.2). cbn [fst snd].
      rewrite !Z2Nat.id by lia. split; [destruct p; reflexivity|].
      apply marked_visited_at. rewrite !Z2Nat.id by lia.
      apply Hiff; [split; assumption|]. eauto.
Qed.

(** * The walls of solve under the rendering flood fill *)

Lemma find_in_row_ext g g' r cs :
  (forall c, c ∈ cs -> exists ch ch',
     grid_at g r c = Returned ch /\ grid_at g' r c = Returned ch'
     /\ Ascii.eqb ch "H"%char = Ascii.eqb ch' "H"%char) ->
  find_in_row g r cs = find_in_row g' r cs.
Proof.
  induction cs as [|c cs IH]; intros H; [reflexivity|]. cbn [find_in_row].
  destruct (H c) as (ch & ch' & Hch & Hch' & Heq); [left|].
  rewrite (bind_Returned_l _ _ _ Hch), (bind_Returned_l _ _ _ Hch'), Heq.
  rewrite IH; [reflexivity|]. intros c' Hc'. apply H. right. exact Hc'.
Qed.

Lemma find_horse_ext g g' R C :
  (forall r c, in_bounds R C (r, c) -> exists ch ch',
     grid_at g r c = Returned ch /\ grid_at g' r c = Returned ch'
     /\ Ascii.eqb ch "H"%char = Ascii.eqb ch' "H"%char) ->
  find_horse g R C = find_horse g' R C.
Proof.
  intros H. unfold find_horse.
  assert (forall rs, (forall r, r ∈ rs -> 0 <= r < R) ->
            find_in_rows g C rs = find_in_rows g' C rs) as Hgen.
  { induction rs as [|r rs IH]; intros Hrs; [reflexivity|]. cbn [find_in_rows].
    rewrite (find_in_row_ext g g' r (seqZ 0 C)).
    - rewrite IH; [reflexivity|]. intros r' Hr'. apply Hrs. right. exact Hr'.
    - intros c Hc. apply elem_of_seqZ in Hc. apply H. split; cbn; [|lia].
      apply Hrs. left. }
  apply Hgen. intros r Hr. apply elem_of_seqZ in Hr. lia.
Qed.

Lemma grid_at_overlay g ws r c ch :
  valid_grid g = true -> Forall (fun p : Z * Z => 0 <= p.1 /\ 0 <= p.2) ws ->
  in_bounds (rows g) (cols g) (r, c) -> grid_at g r c = Returned ch ->
  grid_at (overlay g ws) r c
  = Returned (if decide ((r, c) ∈ ws) then "X"%char else ch).
Proof.
  intros Hv Hws [Hr Hc] Hat. cbn [fst snd] in *.
  destruct (valid_grid_inv g Hv) as (row0 & H0 & _ & _ & Hlen & _).
  apply grid_at_cell; [lia|lia|].
  rewrite cell_overlay by assumption.
  rewrite (cell_grid_at g r c ch Hat); [|lia|lia|].
  - rewrite !Z2Nat.id by lia. reflexivity.
  - unfold rows, cols in *. unfold grid in *. rewrite H0 in Hc. cbn in Hc.
    destruct (lookup_lt_is_Some_2 g (Z.to_nat r)) as [row Hrow]; [lia|].
    rewrite Hrow. cbn. rewrite (Forall_lookup_1 _ _ _ _ Hlen Hrow). lia.
Qed.

Lemma neighbours_complete idx r c ds d j :
  d ∈ ds -> idx !! key (r + d.1) (c + d.2) = Some j -> j ∈ neighbours idx r c ds.
Proof.
  induction ds as [|[dr dc] ds IH]; intros Hd Hj; [inversion Hd|].
  cbn [neighbours]. apply elem_of_cons in Hd as [->|Hd].
  - cbn [fst snd] in Hj. rewrite Hj. left.
  - destruct (idx !! key (r + dr) (c + dc)); [right|]; auto.
Qed.

Lemma valid_open ch : valid_char ch = true -> ch <> "#"%char -> is_open_cell ch = true.
Proof.
  unfold valid_char, is_open_cell. intros Hv Hn.
  destruct (Ascii.eqb_spec ch "."%char); [reflexivity|].
  destruct (Ascii.eqb_spec ch "#"%char); [contradiction|].
  exact Hv.
Qed.

Lemma bit63_low x : 0 <= x < 2 ^ 63 -> Z.testbit x 63 = false.
Proof.
  intros Hx. destruct (Z.eq_dec x 0) as [->|Hne]; [reflexivity|].
  apply Z.bits_above_log2; [lia|].
  apply Z.log2_lt_pow2; lia.
Qed.

Lemma bit63_high x : 0 <= x < 2 ^ 64 -> Z.testbit x 63 = true -> 2 ^ 63 <= x.
Proof.
  intros Hx Hb. destruct (Z_lt_le_dec x (2 ^ 63)) as [Hlt|]; [|assumption].
  rewrite bit63_low in Hb by lia. discriminate.
Qed.

Lemma lxor_word x y : 0 <= x < 2 ^ 64 -> 0 <= y < 2 ^ 64 -> 0 <= Z.lxor x y < 2 ^ 64.
Proof.
  intros Hx Hy.
  assert (0 <= Z.lxor x y) as H0 by (apply Z.lxor_nonneg; lia).
  split; [assumption|].
  destruct (Z.eq_dec (Z.lxor x y) 0) as [->|Hne]; [lia|].
  apply Z.log2_lt_pow2; [lia|].
  destruct (Z_lt_le_dec (Z.log2 (Z.lxor x y)) 64) as [|Hge]; [assumption|].
  exfalso.
  assert (Z.testbit (Z.lxor x y) (Z.log2 (Z.lxor x y)) = true) as Hb
    by (apply Z.bit_log2; lia).
  rewrite Z.lxor_spec in Hb.
  assert (forall z, 0 <= z < 2 ^ 64 -> Z.testbit z (Z.log2 (Z.lxor x y)) = false) as Hz.
  { intros z Hz. destruct (Z.eq_dec z 0) as [->|]; [apply Z.bits_0|].
    apply Z.bits_above_log2; [lia|].
    assert (Z.log2 z < 64) by (apply Z.log2_lt_pow2; lia). lia. }
  rewrite !Hz in Hb by assumption. discriminate.
Qed.

(** The key of a position one step outside the grid on the low side is
    negative, so it is the key of no cell. *)
Lemma key_negative r c :
  (r = -1 /\ 0 <= c <= INT_MAX) \/ (0 <= r <= INT_MAX /\ c = -1) -> key r c < 0.
Proof.
  unfold INT_MAX. intros H.
  assert (0 <= wrap64 (Z.shiftl r 32) < 2 ^ 64) as H1 by (apply Z.mod_pos_bound; lia).
  assert (0 <= wrap64 c < 2 ^ 64) as H2 by (apply Z.mod_pos_bound; lia).
  pose proof (lxor_word _ _ H1 H2) as Hw.
  assert (Z.testbit (Z.lxor (wrap64 (Z.shiftl r 32)) (wrap64 c)) 63 = true) as Hb.
  { rewrite Z.lxor_spec. destruct H as [[-> Hc]|[Hr ->]].
    - change (wrap64 (Z.shiftl (-1) 32)) with (2 ^ 64 - 2 ^ 32).
      unfold wrap64. rewrite (Z.mod_small c) by lia.
      rewrite (bit63_low c) by lia. reflexivity.
    - change (wrap64 (-1)) with (2 ^ 64 - 1).
      unfold wrap64. rewrite Z.shiftl_mul_pow2 by lia.
      rewrite (Z.mod_small (r * 2 ^ 32)) by lia.
      rewrite (bit63_low (r * 2 ^ 32)) by lia. reflexivity. }
  pose proof (bit63_high _ Hw Hb) as Hge.
  unfold key, to_int64.
  set (y := Z.lxor _ _) in *.
  replace (y + 2 ^ 63) with ((y - 2 ^ 63) + 1 * 2 ^ 64) by lia.
  rewrite Z.mod_add by lia. rewrite Z.mod_small by lia. lia.
Qed.

Lemma neighbours_elem idx r c ds v :
  v ∈ neighbours idx r c ds ->
  exists d, d ∈ ds /\ idx !! key (r + d.1) (c + d.2) = Some v.
Proof.
  induction ds as [|[dr dc] ds IH]; cbn [neighbours]; [intros H; inversion H|].
  destruct (idx !! key (r + dr) (c + dc)) as [j|] eqn:Hj.
  - intros [->|Hin]%elem_of_cons.
    + exists (dr, dc). split; [left|exact Hj].
    + destruct (IH Hin) as (d & Hd & Hk). exists d. split; [right|]; assumption.
  - intros Hin. destruct (IH Hin) as (d & Hd & Hk). exists d. split; [right|]; assumption.
Qed.

(** The adjacency list of a cell holds the indices of its neighbouring
    cells only: a key looked up for a position outside the grid is found
    for no cell. *)
Lemma neighbours_sound g R C h ix p v :
  R <= INT_MAX -> C <= INT_MAX -> index_inv g R C h ix -> in_bounds R C p ->
  v ∈ neighbours (idx_of ix) p.1 p.2 dirs ->
  exists d, d ∈ dirs /\ coords ix !! v = Some (step_of p d).
Proof.
  intros HR HC Hinv [Hp1 Hp2] Hv.
  destruct (neighbours_elem _ _ _ _ _ Hv) as (d & Hd & Hk).
  exists d. split; [exact Hd|].
  destruct (ii_key _ _ _ _ _ Hinv _ _ Hk) as (q & Hq & Hkey).
  destruct (ii_bounds _ _ _ _ _ Hinv _ _ Hq) as [Hq1 Hq2].
  assert (0 <= key q.1 q.2) as Hpos.
  { rewrite key_in_range by (unfold INT_MAX in *; lia). unfold INT_MAX in *. nia. }
  assert (step_of p d = q) as ->; [|exact Hq].
  unfold step_of. destruct q as [q1 q2]. cbn [fst snd] in *.
  assert (-1 <= p.1 + d.1 /\ -1 <= p.2 + d.2
          /\ (p.1 + d.1 = -1 -> 0 <= p.2 + d.2) /\ (p.2 + d.2 = -1 -> 0 <= p.1 + d.1)
          /\ p.1 + d.1 <= INT_MAX /\ p.2 + d.2 <= INT_MAX) as Hrange.
  { unfold dirs in Hd. repeat (apply elem_of_cons in Hd as [->|Hd]); cbn [fst snd];
      [lia..|inversion Hd]. }
  destruct (Z.eq_dec (p.1 + d.1) (-1)) as [H1|H1].
  { pose proof (key_negative (p.1 + d.1) (p.2 + d.2)). lia. }
  destruct (Z.eq_dec (p.2 + d.2) (-1)) as [H2|H2].
  { pose proof (key_negative (p.1 + d.1) (p.2 + d.2)). lia. }
  rewrite !key_in_range in Hkey by (unfold INT_MAX in *; lia).
  unfold INT_MAX in *. assert (q1 = p.1 + d.1) by lia. subst q1. f_equal. lia.
Qed.

(** The overlay of the walls of a positive result: the flood fill of
    [buildSolvedGrid] marks the cells the solver's own search from the
    horse reached around [best_walls], and no others. *)
Lemma overlay_flood g k res :
  valid_grid g = true -> solve k g = Returned res -> (0 < best_area res)%nat ->
  exists ix tb vis bw visited,
    graph_of g = Returned (ix, tb)
    /\ bfs_reachable (build_env k (coords ix) tb) bw = Returned (vis, best_area res, false)
    /\ (forall p, p ∈ walls res <->
                  exists i, Bitset.test bw i = true /\ coords ix !! i = Some p)
    /\ flood_fill (overlay g (walls res)) = Returned visited
    /\ matrix_shape (rows g) (cols g) visited
    /\ (forall p, in_bounds (rows g) (cols g) p ->
          (visited_at visited p.1 p.2 = true
           <-> exists i, coords ix !! i = Some p /\ Bitset.test vis i = true))
    /\ flood_escapes (overlay g (walls res)) visited = false
    /\ flooded_cells visited = best_area res.
Proof.
  intros Hv Hs Hpos.
  destruct (solve_best_state g k res Hv Hs Hpos)
    as (ix & tb & s & vis & Hg & Hwalls & [Hwf Hbits] & Hbfs).
  set (E := build_env k (coords ix) tb) in *.
  destruct (graph_of_spec g ix tb Hv Hg) as (h & Hfh & Hinv & Hexp & Htb).
  destruct (build_env_fields k (coords ix) tb) as (HN & _ & Htab & _).
  fold E in HN, Htab.
  pose proof (env_ok_build g k ix tb Hv Hg) as Hok. fold E in Hok.
  destruct (bfs_reachable_spec E (eo_adj E Hok) (eo_cells E Hok) _ _ _ _ Hbfs)
    as (Hwfv & Harea & Hcase).
  destruct (Bitset.test (best_walls s) horse_idx) eqn:Hbh;
    [destruct Hcase; discriminate|].
  destruct Hcase as [Hreach Hesc]. symmetry in Hesc.
  pose proof (index_inv_NoDup _ _ _ _ _ Hinv) as Hnd.
  set (ws := walls res) in *.
  assert (forall p, p ∈ ws <->
            exists i, Bitset.test (best_walls s) i = true /\ coords ix !! i = Some p)
    as Hws_in.
  { intros p. rewrite Hwalls, merge_sort_Permutation, walls_of_map, list_elem_of_fmap.
    split.
    - intros (i & -> & Hi). exists i.
      pose proof (set_bits_lt _ _ _ Hwf Hi) as Hlt. rewrite HN in Hlt.
      apply (elem_of_set_bits (N E)) in Hi; [|assumption]. split; [assumption|].
      destruct (lookup_lt_is_Some_2 (coords ix) i Hlt) as [q Hq].
      rewrite (list_lookup_total_correct _ _ _ Hq). exact Hq.
    - intros (i & Hi & Hp). exists i. split.
      + symmetry. apply list_lookup_total_correct. exact Hp.
      + apply (elem_of_set_bits (N E)); assumption. }
  assert (Forall (fun p : Z * Z => 0 <= p.1 /\ 0 <= p.2) ws) as Hnn.
  { apply Forall_forall. intros p Hp. apply Hws_in in Hp as (i & _ & Hp).
    destruct (ii_bounds _ _ _ _ _ Hinv i p Hp). lia. }
  assert (forall p, p ∈ ws -> grid_at g p.1 p.2 = Returned "."%char) as Hdot.
  { intros p Hp. apply Hws_in in Hp as (i & Hi & Hp).
    destruct (env_wallable_dot g k ix tb i Hv Hg (Hbits i Hi)) as (p' & Hp' & Hd).
    unfold grid in *. congruence. }
  pose proof (valid_grid_readable g Hv) as Hread.
  destruct (valid_grid_inv g Hv) as (row0 & H0 & HRmax & HCmax & _).
  set (g' := overlay g ws).
  destruct (lookup_lt_is_Some_2 g' 0) as [row0' H0'].
  { unfold g'. rewrite overlay_length. apply lookup_lt_Some in H0. exact H0. }
  assert (Z.of_nat (length g') = rows g) as HR.
  { unfold g', rows. rewrite overlay_length. reflexivity. }
  assert (Z.of_nat (String.length row0') = cols g) as HC.
  { unfold cols. pose proof (overlay_row_length ws g 0) as Hl. fold g' in Hl.
    unfold grid in *. rewrite H0' in Hl. cbn [default from_option id] in Hl.
    rewrite Hl. reflexivity. }
  assert (forall r c, in_bounds (rows g) (cols g) (r, c) -> exists ch,
            grid_at g r c = Returned ch
            /\ grid_at g' r c
               = Returned (if decide ((r, c) ∈ ws) then "X"%char else ch)) as Hcell.
  { intros r c Hb. destruct (Hread (r, c) Hb) as [ch Hch]. exists ch.
    split; [exact Hch|]. apply grid_at_overlay; assumption. }
  assert (readable g' (rows g) (cols g)) as Hread'.
  { intros [r c] Hb. destruct (Hcell r c Hb) as (ch & _ & Hch). eauto. }
  assert (find_horse g' (rows g) (cols g) = Returned (Some h)) as Hfh'.
  { rewrite <- (find_horse_ext g g'); [exact Hfh|].
    intros r c Hb. destruct (Hcell r c Hb) as (ch & Hch & Hch').
    eexists _, _. split; [exact Hch|]. split; [exact Hch'|].
    destruct (decide ((r, c) ∈ ws)) as [Hin|]; [|reflexivity].
    pose proof (Hdot _ Hin) as Hd. cbn [fst snd] in Hd.
    assert (ch = "."%char) as -> by congruence. reflexivity. }
  set (P := fun p : Z * Z => exists i, coords ix !! i = Some p /\ Bitset.test vis i = true).
  assert (P h) as Hh.
  { exists 0%nat. split; [apply (ii_head _ _ _ _ _ Hinv)|].
    apply Hreach. constructor. }
  assert (forall p d ch, P p -> d ∈ dirs -> in_bounds (rows g) (cols g) (step_of p d) ->
            grid_at g' (step_of p d).1 (step_of p d).2 = Returned ch ->
            ch <> "#"%char -> ch <> "X"%char -> P (step_of p d)) as Hstep.
  { intros p d ch (i & Hi & Hvi) Hd Hb Hat Hn1 Hn2.
    destruct (Hcell _ _ Hb) as (ch0 & Hch0 & Hch').
    cbn [step_of fst snd] in Hat, Hch0, Hch'.
    rewrite Hch' in Hat. injection Hat as Hat.
    destruct (decide (_ ∈ ws)) as [|Hnin]; [congruence|]. subst ch0.
    assert (open_at g (step_of p d)) as Hopen.
    { exists ch. split; [exact Hch0|]. apply valid_open; [|assumption].
      eapply (valid_grid_chars g _ _ ch Hv Hb). exact Hch0. }
    assert (p ∈ coords ix) as Hp by (eapply list_elem_of_lookup_2; eauto).
    pose proof (Hexp p Hp d Hd Hb Hopen) as Hin.
    apply list_elem_of_lookup_1 in Hin as [j Hj].
    exists j. split; [exact Hj|]. apply Hreach.
    apply (reaches_step E _ i j); [apply Hreach; exact Hvi| |].
    - destruct (tk_facts _ _ _ _ _ _ Htb i p Hi) as (Hadj & _).
      rewrite Htab, (list_lookup_total_correct _ _ _ Hadj).
      apply (neighbours_complete _ _ _ _ d); [exact Hd|].
      apply (ii_idx _ _ _ _ _ Hinv j _ Hj).
    - destruct (Bitset.test (best_walls s) j) eqn:Hbj; [|reflexivity].
      exfalso. apply Hnin. apply Hws_in. eauto. }
  assert (forall x, reaches E (best_walls s) x -> forall p, coords ix !! x = Some p ->
            flood_path g' (rows g) (cols g) h p) as Hcomplete.
  { induction 1 as [|u v Hu IH Hadj Hbv]; intros p Hp.
    - pose proof (ii_head _ _ _ _ _ Hinv) as Hh0. unfold horse_idx in Hp.
      assert (p = h) as -> by congruence. constructor.
    - rewrite Htab in Hadj.
      destruct (adj tb !! u) as [l|] eqn:Hl;
        [|rewrite list_lookup_total_alt, Hl in Hadj; inversion Hadj].
      destruct (lookup_lt_is_Some_2 (coords ix) u) as [pu Hpu].
      { rewrite <- (tk_adj _ _ _ _ _ _ Htb). apply lookup_lt_Some in Hl. exact Hl. }
      destruct (tk_facts _ _ _ _ _ _ Htb u pu Hpu) as (Hadju & _).
      rewrite (list_lookup_total_correct _ _ _ Hadju) in Hadj.
      destruct (neighbours_sound g (rows g) (cols g) h ix pu v HRmax HCmax Hinv
                  (ii_bounds _ _ _ _ _ Hinv _ _ Hpu) Hadj) as (d & Hd & Hv').
      unfold grid in *. rewrite Hp in Hv'. injection Hv' as ->.
      pose proof (ii_bounds _ _ _ _ _ Hinv _ _ Hp) as Hb.
      destruct (ii_open _ _ _ _ _ Hinv _ _ Hp) as (ch & Hch & Hopen).
      destruct (Hcell _ _ Hb) as (ch0 & Hch0 & Hch').
      cbn [step_of fst snd] in Hch, Hch0, Hch'.
      assert (ch0 = ch) as -> by congruence.
      destruct (decide (_ ∈ ws)) as [Hin|Hnin].
      { apply Hws_in in Hin as (i & Hi & Hpi).
        assert (i = v) as -> by (eapply NoDup_lookup; eauto). congruence. }
      apply (flood_next g' _ _ h pu d ch); [apply IH; exact Hpu|exact Hd|exact Hb|exact Hch'| |].
      + intros ->. discriminate.
      + intros ->. discriminate. }
  destruct (flood_fill_exact g' row0' h H0') as (visited & Hff & Hshape & Hvis).
  { rewrite HR, HC. exact Hread'. }
  { rewrite HR, HC. exact Hfh'. }
  rewrite HR, HC in Hshape, Hvis.
  assert (forall p, in_bounds (rows g) (cols g) p ->
            (visited_at visited p.1 p.2 = true <-> P p)) as Hiff.
  { intros p Hb. rewrite (Hvis p Hb). split.
    - clear Hb. induction 1 as [|q d ch Hq IH Hd Hb Hat Hn1 Hn2]; [exact Hh|].
      eapply Hstep; eauto.
    - intros (i & Hi & Hvi). apply (Hcomplete i); [apply Hreach; exact Hvi|exact Hi]. }
  exists ix, tb, vis, (best_walls s), visited.
  split; [exact Hg|]. split; [exact Hbfs|].
  split; [exact Hws_in|]. split; [exact Hff|]. split; [exact Hshape|].
  split; [exact Hiff|]. split.
  - apply (flood_escapes_false g' row0' visited H0'). rewrite HR, HC.
    intros p Hb Hm. destruct (proj1 (Hiff p Hb) Hm) as (i & Hi & Hvi).
    destruct (tk_facts _ _ _ _ _ _ Htb i p Hi) as (_ & _ & Hbd).
    rewrite <- Hbd. destruct (Bitset.test (boundary tb) i) eqn:Hbi; [|reflexivity].
    assert (Bitset.intersects vis (boundary (tables E)) = true) as Hint.
    { apply (intersects_spec (N E)); [assumption|]. exists i. rewrite Htab. auto. }
    congruence.
  - rewrite Harea, (popcount_card _ _ Hwfv).
    apply (flooded_cells_card (rows g) (cols g) (coords ix)); try assumption.
    + rewrite <- HN. exact Hwfv.
    + apply (ii_bounds _ _ _ _ _ Hinv).
Qed.

(** * The index space is the component of the horse *)

Lemma visit_dirs_pred g R C r c (Q : Z * Z -> Prop) ds :
  (forall d, d ∈ ds -> in_bounds R C (step_of (r, c) d) ->
     open_at g (step_of (r, c) d) -> Q (step_of (r, c) d)) ->
  forall st st',
  visit_dirs g R C r c ds st = Returned st' ->
  Forall Q (coords st) -> (forall p, p ∈ queue st -> p ∈ coords st) ->
  Forall Q (coords st') /\ (forall p, p ∈ queue st' -> p ∈ coords st').
Proof.
  induction ds as [|[dr dc] ds IH]; intros HQ st st' Hv Hall Hq.
  - cbn in Hv. injection Hv as <-. auto.
  - assert (forall d, d ∈ ds -> in_bounds R C (step_of (r, c) d) ->
              open_at g (step_of (r, c) d) -> Q (step_of (r, c) d)) as HQ'
      by (intros d Hd; apply HQ; right; exact Hd).
    specialize (IH HQ'). cbn [visit_dirs] in Hv.
    destruct ((r + dr <? 0) || (R <=? r + dr) || (c + dc <? 0) || (C <=? c + dc)) eqn:Hout;
      [eapply IH; eauto|].
    rewrite !orb_false_iff, !Z.ltb_ge, !Z.leb_gt in Hout.
    obind Hv. destruct (is_open_cell a) eqn:Hopen; cbn [negb] in Hv;
      [|eapply IH; eauto].
    destruct (idx_of st !! key (r + dr) (c + dc)); [eapply IH; eauto|].
    apply (IH _ _ Hv); cbn [coords queue].
    + apply Forall_app. split; [exact Hall|]. apply Forall_singleton.
      apply (HQ (dr, dc)); [left|split; cbn; lia|]. exists a. auto.
    + intros p [Hp|Hp]%elem_of_app; apply elem_of_app; [left; auto|right; exact Hp].
Qed.

Lemma index_loop_pred g R C (Q : Z * Z -> Prop) fuel :
  (forall p d, Q p -> d ∈ dirs -> in_bounds R C (step_of p d) ->
     open_at g (step_of p d) -> Q (step_of p d)) ->
  forall st st',
  index_loop fuel g R C st = Returned st' ->
  Forall Q (coords st) -> (forall p, p ∈ queue st -> p ∈ coords st) ->
  Forall Q (coords st').
Proof.
  intros HQ. induction fuel as [|fuel IH]; intros st st' Hl Hall Hq.
  - cbn in Hl. destruct (queue st) as [|[r c] q']; [|discriminate].
    injection Hl as <-. exact Hall.
  - cbn [index_loop] in Hl. destruct (queue st) as [|[r c] q'] eqn:Hqe.
    { injection Hl as <-. exact Hall. }
    obind Hl. rename a into st1.
    assert (Q (r, c)) as Hrc.
    { rewrite Forall_forall in Hall. apply Hall, Hq. left. }
    destruct (visit_dirs_pred g R C r c Q dirs) with (2 := Ha) as [Hall1 Hq1].
    + intros d Hd Hb Ho. apply HQ; assumption.
    + exact Hall.
    + cbn [queue coords]. intros p Hp. apply Hq. right. exact Hp.
    + apply (IH _ _ Hl Hall1 Hq1).
Qed.

(** The cells [solve] indexes are the open cells linked to the horse by
    steps over open cells. *)
Lemma coords_connected g ix tb h :
  valid_grid g = true -> graph_of g = Returned (ix, tb) ->
  find_horse g (rows g) (cols g) = Returned (Some h) ->
  forall p, p ∈ coords ix <-> connected g (rows g) (cols g) h p.
Proof.
  intros Hv Hg Hfh p.
  destruct (graph_of_spec g ix tb Hv Hg) as (h' & Hfh' & Hinv & Hexp & _).
  assert (h' = h) as -> by congruence. split.
  - revert p. apply Forall_forall.
    destruct (valid_grid_inv g Hv) as (row0 & H0 & _).
    unfold graph_of in Hg. unfold rows, cols in *. rewrite H0 in *.
    cbn [from_option id] in *.
    rewrite (bind_Returned_l _ _ _ Hfh) in Hg. destruct h as [hr hc].
    obind Hg. rename a into ix'. obind Hg. injection Hg as <- _.
    unfold index_cells in Ha.
    apply (index_loop_pred g _ _ (connected g _ _ (hr, hc)) _
             (fun q d Hq Hd Hb Ho => connected_step g _ _ _ q d Hq Hd Hb Ho) _ _ Ha).
    + cbn [coords]. apply Forall_singleton. constructor.
    + cbn [coords queue]. auto.
  - induction 1 as [|q d Hq IH Hd Hb Ho].
    + eapply list_elem_of_lookup_2. apply (ii_head _ _ _ _ _ Hinv).
    + apply (Hexp q IH d Hd Hb Ho).
Qed.

(** * parseGrid *)

Lemma In_removelast {A} (x : A) l : In x (removelast l) -> In x l.
Proof.
  induction l as [|y l IH]; [auto|]. cbn [removelast].
  destruct l as [|z l]; [intros []|]. intros [->|H]; [left; reflexivity|].
  right. apply IH. exact H.
Qed.

Lemma strip_cr_In c line : In c (strip_cr line) -> In c line.
Proof.
  unfold strip_cr. destruct (last line) as [x|]; [|auto].
  destruct (Ascii.eqb x carriage_return); [apply In_removelast|auto].
Qed.

Lemma string_nonempty l : l <> [] -> String.eqb (string_of_list_ascii l) ""%string = false.
Proof. destruct l; [contradiction|reflexivity]. Qed.

Lemma push_line_rows grid line :
  forallb line_row grid = true ->
  forallb (fun c => negb (Ascii.eqb c newline)) line = true ->
  forallb line_row (push_line grid line) = true.
Proof.
  intros Hg Hl. unfold push_line.
  destruct (strip_cr line) as [|c l'] eqn:Hs; [exact Hg|].
  rewrite forallb_app, Hg. cbn [forallb andb]. rewrite andb_true_r.
  unfold line_row. rewrite list_ascii_of_string_of_list_ascii.
  rewrite string_nonempty by discriminate. cbn [negb andb].
  rewrite forallb_forall in Hl |- *. intros x Hx. apply Hl.
  apply strip_cr_In. rewrite Hs. exact Hx.
Qed.

Lemma getlines_rows s :
  forall line grid,
  forallb line_row grid = true ->
  forallb (fun c => negb (Ascii.eqb c newline)) line = true ->
  forallb line_row (getlines s line grid) = true.
Proof.
  induction s as [|c s IH]; intros line grid Hg Hl; cbn [getlines].
  - destruct line; [exact Hg|apply push_line_rows; assumption].
  - destruct (Ascii.eqb c newline) eqn:Hc.
    + apply IH; [apply push_line_rows; assumption|reflexivity].
    + apply IH; [exact Hg|]. rewrite forallb_app, Hl. cbn. rewrite Hc. reflexivity.
Qed.

Lemma getlines_segment l :
  forall rest line grid,
  forallb (fun c => negb (Ascii.eqb c newline)) l = true ->
  getlines (l ++ rest) line grid = getlines rest (line ++ l) grid.
Proof.
  induction l as [|c l IH]; intros rest line grid Hl.
  - rewrite app_nil_r. reflexivity.
  - cbn [forallb] in Hl. apply andb_true_iff in Hl as [Hc Hl].
    apply negb_true_iff in Hc. cbn [app getlines]. rewrite Hc.
    rewrite IH by assumption. rewrite <- app_assoc. reflexivity.
Qed.

Lemma push_plain_row grid row :
  plain_row row = true -> push_line grid (list_ascii_of_string row) = grid ++ [row].
Proof.
  unfold plain_row, line_row, push_line, strip_cr.
  rewrite !andb_true_iff. intros [[Hne _] Hlast].
  destruct (last (list_ascii_of_string row)) as [c|].
  - apply negb_true_iff in Hlast. rewrite Hlast.
    destruct (list_ascii_of_string row) eqn:Hrow.
    + destruct row; [discriminate|discriminate].
    + rewrite <- Hrow, string_of_list_ascii_of_string. reflexivity.
  - destruct (list_ascii_of_string row) eqn:Hrow.
    + destruct row; [discriminate|discriminate].
    + rewrite <- Hrow, string_of_list_ascii_of_string. reflexivity.
Qed.

Lemma getlines_unlines rows :
  forall grid,
  forallb plain_row rows = true ->
  getlines (concat (map (fun row => list_ascii_of_string row ++ [newline]) rows)) [] grid
  = grid ++ rows.
Proof.
  induction rows as [|row rows IH]; intros grid Hrows.
  - cbn. rewrite app_nil_r. reflexivity.
  - cbn [forallb] in Hrows. apply andb_true_iff in Hrows as [Hrow Hrows].
    cbn [map concat]. rewrite <- app_assoc.
    rewrite getlines_segment.
    2:{ unfold plain_row, line_row in Hrow. rewrite !andb_true_iff in Hrow. tauto. }
    cbn [app getlines]. unfold newline at 1. cbn [Ascii.eqb Bool.eqb].
    rewrite (push_plain_row grid row Hrow), IH by assumption.
    rewrite <- app_assoc. reflexivity.
Qed.

(** * A horse that the rocks already enclose *)

Lemma add_edge_to_avoids (t : nat) ft u v c :
  Forall (fun x => x <> t) (Flow.to ft) -> u <> t -> v <> t ->
  Forall (fun x => x <> t) (Flow.to (Flow.add_edge ft u v c).1).
Proof.
  intros H Hu Hv. cbn. apply Forall_app. split; [exact H|].
  repeat constructor; assumption.
Qed.

(** Without a boundary cell no edge of the network enters the sink. *)
Lemma build_env_sink_isolated k cs tb :
  (forall i, (i < length cs)%nat -> Bitset.test (boundary tb) i = false) ->
  Forall (fun x => x <> (2 * length cs + 1)%nat) (Flow.to (flow (build_env k cs tb))).
Proof.
  intros Hbd. unfold build_env.
  set (snk := (2 * length cs + 1)%nat).
  set (P := fun ft => Forall (fun x => x <> snk) (Flow.to ft)).
  assert (P (Flow.create (2 * length cs + 2))) as H0 by constructor.
  assert (P (add_cell_edges (length cs) (wallable tb) (int_wrap (k + 1))
               (Flow.create (2 * length cs + 2))).1) as H1.
  { unfold add_cell_edges.
    apply (fold_left_keeps (fun st : Flow.FlowTemplate * list nat => P st.1)); [exact H0|].
    intros [ft ids] i Hi Hft. apply elem_of_seq in Hi. cbn [fst] in *.
    apply add_edge_to_avoids; [assumption| |]; unfold snk; lia. }
  destruct (add_cell_edges _ _ _ _) as [ft1 cell_ids]. cbn [fst] in H1.
  assert (P (add_adj_edges (length cs) (adj tb) (int_wrap (k + 1)) ft1)) as H2.
  { unfold add_adj_edges. apply (fold_left_keeps P); [exact H1|].
    intros ft i Hi Hft. apply elem_of_seq in Hi.
    apply (fold_left_keeps P); [exact Hft|].
    intros ft' j Hj Hft'.
    apply add_edge_to_avoids; [assumption| |]; unfold snk; lia. }
  assert (P (add_sink_edges (length cs) (boundary tb) (int_wrap (k + 1))
               (2 * length cs + 1) (add_adj_edges (length cs) (adj tb)
                                      (int_wrap (k + 1)) ft1))) as H3.
  { unfold add_sink_edges. apply (fold_left_keeps P); [exact H2|].
    intros ft i Hi Hft. apply elem_of_seq in Hi.
    rewrite Hbd by lia. assumption. }
  assert (P (add_src_edges (length cs) (int_wrap (k + 1)) (2 * length cs)
               (add_sink_edges (length cs) (boundary tb) (int_wrap (k + 1))
                  (2 * length cs + 1)
                  (add_adj_edges (length cs) (adj tb) (int_wrap (k + 1)) ft1))).1) as H4.
  { unfold add_src_edges.
    apply (fold_left_keeps (fun st : Flow.FlowTemplate * list nat => P st.1)); [exact H3|].
    intros [ft ids] i Hi Hft. apply elem_of_seq in Hi. cbn [fst] in *.
    apply add_edge_to_avoids; [assumption| |]; unfold snk; lia. }
  destruct (add_src_edges _ _ _ _) as [ft4 src_ids]. cbn [fst] in H4.
  cbn. exact H4.
Qed.

(** No flow is pushed towards a node that no edge enters. *)
Lemma maxflow_isolated_sink ft s t cap limit :
  flow_wf ft -> (s < Flow.n ft)%nat -> (t < Flow.n ft)%nat -> s <> t ->
  Forall (fun x => x <> t) (Flow.to ft) ->
  Flow.maxflow_limit ft s t cap limit = Returned (0, cap).
Proof.
  intros Hwf Hs Ht Hst Hto. unfold Flow.maxflow_limit.
  destruct (Z.to_nat limit) as [|rounds] eqn:Hr; cbn [Flow.flow_loop];
    destruct (Z.ltb_spec 0 limit) as [Hlt|Hge]; try reflexivity; [lia|].
  destruct (bfs_inv_start ft cap s Hs) as [Hinv0 Hun0].
  assert (forall x, x ∈ [s] ->
            exists p, <[s := Root]> (replicate (Flow.n ft) Unseen) !! x = Some p
                      /\ p <> Unseen) as Hq.
  { intros x Hx. apply list_elem_of_singleton in Hx. subst.
    exists Root. split; [apply (bi_root _ _ _ _ Hinv0)|discriminate]. }
  destruct (bfs_loop_total ft Hwf cap s t (Flow.n ft) _ [s] Hinv0 Hq) as [parent Hbfs].
  { rewrite Hun0. cbn. lia. }
  rewrite (bind_Returned_l _ _ _ Hbfs).
  assert (bfs_inv ft cap s parent) as Hinv by (eapply bfs_loop_spec; eauto).
  destruct (lookup_lt_is_Some_2 parent t) as [pt Hpt];
    [rewrite (bi_len _ _ _ _ Hinv); assumption|].
  rewrite (list_lookup_total_correct _ _ _ Hpt).
  destruct (is_unseen pt) eqn:Hun; [reflexivity|]. exfalso.
  assert (pt <> Unseen) as Hptn by (intros ->; discriminate).
  destruct (bi_rooted _ _ _ _ Hinv t pt Hpt Hptn) as (d & Hrt & _).
  inversion Hrt as [|v e u d' Hne Hvia Hfrm Hrest]; subst; [congruence|].
  destruct (bi_via _ _ _ _ Hinv t e Hvia) as [Hte _].
  rewrite Forall_forall in Hto. apply (Hto t); [|reflexivity].
  eapply list_elem_of_lookup_2; eauto.
Qed.

Lemma residual_isolated E cap :
  env_ok E -> Forall (fun x => x <> SNK E) (Flow.to (flow E)) ->
  residual_reachable E cap
  = Returned (<[SNK E := true]> (replicate (node_count E) false)).
Proof.
  intros HE Hto. unfold residual_reachable.
  assert (Flow.in_adj (flow E) !!! SNK E = []) as Hin.
  { destruct (Flow.in_adj (flow E) !!! SNK E) as [|e l] eqn:Hl; [reflexivity|].
    exfalso. assert (e ∈ Flow.in_adj (flow E) !!! SNK E) as He by (rewrite Hl; left).
    apply (fw_in_adj _ (eo_flow _ HE)) in He.
    rewrite Forall_forall in Hto. apply (Hto (SNK E)); [|reflexivity].
    eapply list_elem_of_lookup_2; eauto. }
  destruct (node_count E) as [|fuel] eqn:Hn; [rewrite (eo_nodes _ HE) in Hn; lia|].
  cbn [residual_loop]. rewrite Hin. cbn [scan_in_edges]. destruct fuel; reflexivity.
Qed.

Lemma extract_sep_isolated E d f :
  env_ok E ->
  extract_sep E d f (<[SNK E := true]> (replicate (node_count E) false))
  = Bitset.init (N E).
Proof.
  intros HE. unfold extract_sep.
  apply (fold_left_keeps (fun sep => sep = Bitset.init (N E))); [reflexivity|].
  intros sep i Hi ->. apply elem_of_seq in Hi.
  destruct (negb (getB (wallable (tables E)) i)); [reflexivity|].
  destruct (Bitset.test d i || Bitset.test f i); [reflexivity|].
  assert (getB (<[SNK E := true]> (replicate (node_count E) false)) (2 * i + 1) = false)
    as ->; [|rewrite andb_false_r; reflexivity].
  unfold getB. rewrite list_lookup_insert_ne by (rewrite (eo_snk _ HE); lia).
  destruct (replicate (node_count E) false !! (2 * i + 1)%nat) as [b|] eqn:Hl;
    [|reflexivity].
  apply lookup_replicate in Hl as [-> _]. reflexivity.
Qed.

Lemma patch_forced_ok E d f cap :
  (forall i, Bitset.test d i = false) -> (patch_forced E d f cap).2 = true.
Proof.
  intros Hd. unfold patch_forced, Bitset.for_each_set_bit.
  apply (fold_left_keeps (fun st : list Z * bool => st.2 = true)); [reflexivity|].
  intros [c ok] i _ Hok. rewrite Hd. exact Hok.
Qed.

Lemma min_separator_isolated E d f k :
  env_ok E -> Forall (fun x => x <> SNK E) (Flow.to (flow E)) ->
  (forall i, Bitset.test d i = false) -> 0 <= k ->
  min_separator E d f k = Returned (Some (Bitset.init (N E))).
Proof.
  intros HE Hto Hd Hk. unfold min_separator.
  pose proof (patch_forced_ok E d f (patch_deleted E d (Flow.base_cap (flow E))) Hd) as Hok.
  destruct (patch_forced E d f _) as [cap ok]. cbn [snd] in Hok. subst ok. cbn [negb].
  assert (Flow.maxflow_limit (flow E) (SRC E) (SNK E) cap (int_wrap (k + 1))
          = Returned (0, cap)) as Hmf.
  { apply maxflow_isolated_sink; [apply (eo_flow _ HE)| | | |exact Hto].
    - rewrite (eo_n _ HE), (eo_nodes _ HE), (eo_src _ HE). lia.
    - rewrite (eo_n _ HE), (eo_nodes _ HE), (eo_snk _ HE). lia.
    - rewrite (eo_src _ HE), (eo_snk _ HE). lia. }
  rewrite (bind_Returned_l _ _ _ Hmf).
  destruct (Z.ltb_spec k 0); [lia|].
  rewrite (bind_Returned_l _ _ _ (residual_isolated E cap HE Hto)).
  rewrite extract_sep_isolated by assumption. reflexivity.
Qed.

Lemma set_bits_empty n b :
  wf_bitset n b -> (forall i, Bitset.test b i = false) -> Bitset.set_bits b = [].
Proof.
  intros Hwf Hb. destruct (Bitset.set_bits b) as [|i l] eqn:Hl; [reflexivity|].
  exfalso. assert (i ∈ Bitset.set_bits b) as Hi by (rewrite Hl; left).
  apply (elem_of_set_bits n b i Hwf) in Hi. rewrite Hb in Hi. discriminate.
Qed.

(** Around a wall set without cells every indexed cell is reached. *)
Lemma component_reaches g k ix tb b :
  valid_grid g = true -> graph_of g = Returned (ix, tb) ->
  (forall i, (i < length (coords ix))%nat -> Bitset.test b i = false) ->
  forall x, (x < length (coords ix))%nat -> reaches (build_env k (coords ix) tb) b x.
Proof.
  intros Hv Hg Hb.
  destruct (graph_of_spec g ix tb Hv Hg) as (h & Hfh & Hinv & _ & Htb).
  destruct (build_env_fields k (coords ix) tb) as (_ & _ & Htab & _).
  pose proof (index_inv_NoDup _ _ _ _ _ Hinv) as Hnd.
  assert (forall p, connected g (rows g) (cols g) h p ->
            forall x, coords ix !! x = Some p ->
            reaches (build_env k (coords ix) tb) b x) as Hall.
  { induction 1 as [|p d Hp IH Hd Hbd Ho]; intros x Hx.
    - assert (x = 0%nat) as -> by (eapply NoDup_lookup; eauto; apply (ii_head _ _ _ _ _ Hinv)).
      apply reaches_horse.
    - apply (coords_connected g ix tb h Hv Hg Hfh) in Hp.
      apply list_elem_of_lookup_1 in Hp as [u Hu].
      apply (reaches_step _ b u x);
        [apply IH; exact Hu| |apply Hb; eapply lookup_lt_Some; eauto].
      destruct (tk_facts _ _ _ _ _ _ Htb u p Hu) as (Hadj & _).
      rewrite Htab, (list_lookup_total_correct _ _ _ Hadj).
      apply (neighbours_complete _ _ _ _ d); [exact Hd|].
      apply (ii_idx _ _ _ _ _ Hinv x _ Hx). }
  intros x Hx. destruct (lookup_lt_is_Some_2 _ _ Hx) as [p Hp].
  apply (Hall p); [|exact Hp].
  apply (coords_connected g ix tb h Hv Hg Hfh). eapply list_elem_of_lookup_2; eauto.
Qed.

Lemma bfs_reachable_all E b :
  env_ok E -> (forall i, Bitset.test b i = false) ->
  (forall x, (x < N E)%nat -> reaches E b x) ->
  (forall i, Bitset.test (boundary (tables E)) i = false) ->
  exists vis,
    bfs_reachable E b = Returned (vis, N E, false)
    /\ wf_bitset (N E) vis
    /\ forall x, (x < N E)%nat -> Bitset.test vis x = true.
Proof.
  intros HE Hb Hall Hbd.
  destruct (bfs_reachable_total E (eo_adj _ HE) (eo_cells _ HE) b) as [[[vis area] esc] Hr].
  destruct (bfs_reachable_spec E (eo_adj _ HE) (eo_cells _ HE) _ _ _ _ Hr)
    as (Hwf & Ha & Hcase).
  rewrite Hb in Hcase. destruct Hcase as [Hreach Hesc].
  assert (forall x, (x < N E)%nat -> Bitset.test vis x = true) as Hvis
    by (intros x Hx; apply Hreach, Hall, Hx).
  exists vis. split; [|auto]. rewrite Hr. f_equal. f_equal; [f_equal|].
  - rewrite Ha, (popcount_card _ _ Hwf), (card_filter _ _ Hwf).
    rewrite filter_all; [apply length_seq|].
    apply Forall_forall. intros i Hi. apply elem_of_seq in Hi. apply Hvis. lia.
  - rewrite Hesc. destruct (Bitset.intersects vis (boundary (tables E))) eqn:Hi;
      [|reflexivity].
    apply (intersects_spec (N E) _ _ Hwf) in Hi as (i & _ & Hi).
    rewrite Hbd in Hi. discriminate.
Qed.

Lemma dfs_isolated E depth k :
  env_ok E -> Forall (fun x => x <> SNK E) (Flow.to (flow E)) ->
  (forall b, (forall i, Bitset.test b i = false) ->
             forall x, (x < N E)%nat -> reaches E b x) ->
  (forall i, Bitset.test (boundary (tables E)) i = false) -> 0 <= k ->
  exists vs bw,
    dfs E (S depth) (Bitset.init (N E)) (Bitset.set (Bitset.init (N E)) horse_idx) k
      (mkSearch [] 0 (Bitset.init (N E)))
    = Returned (mkSearch vs (N E) bw)
    /\ wf_bitset (N E) bw /\ forall i, Bitset.test bw i = false.
Proof.
  intros HE Hto Hall Hbd Hk. pose proof (eo_cells _ HE) as HN.
  cbn [dfs]. cbn [existsb visited_states cur_best_area best_walls].
  destruct (bfs_reachable_all E (Bitset.init (N E)) HE (test_init (N E))
              (Hall _ (test_init (N E))) Hbd) as (vis & Hb1 & Hwf1 & Hv1).
  rewrite (bind_Returned_l _ _ _ Hb1).
  destruct (Nat.leb_spec (N E) 0); [lia|].
  assert (Bitset.subset_of (Bitset.set (Bitset.init (N E)) horse_idx) vis = true) as ->.
  { apply (subset_of_spec (N E)); [apply wf_set; [apply wf_init|exact HN]|exact Hwf1|].
    intros i. rewrite (test_set (N E) _ _ _ (wf_init (N E)) HN), test_init.
    case_bool_decide as Hi; [|discriminate]. intros _. subst i. apply Hv1. exact HN. }
  cbn [negb].
  rewrite (bind_Returned_l _ _ _
             (min_separator_isolated E _ _ k HE Hto (test_init (N E)) Hk)).
  assert (forall i, Bitset.test (Bitset.union (Bitset.init (N E)) (Bitset.init (N E))) i
                    = false) as Hu.
  { intros i. rewrite (test_union (N E)), test_init by apply wf_init. reflexivity. }
  destruct (bfs_reachable_all E _ HE Hu (Hall _ Hu) Hbd) as (vis2 & Hb2 & _ & _).
  rewrite (bind_Returned_l _ _ _ Hb2). cbn [negb andb].
  rewrite (proj2 (Nat.ltb_lt 0 (N E)) HN).
  assert (Bitset.empty (Bitset.init (N E)) = true) as ->
    by (apply (empty_spec (N E)); [apply wf_init|apply test_init]).
  rewrite orb_true_r. eexists _, _. split; [reflexivity|].
  split; [apply wf_union; apply wf_init|exact Hu].
Qed.

(** When the open cells linked to the horse touch no outermost row or
    column, [solve] answers with their number and no walls. *)
Lemma solve_isolated g k h :
  valid_grid g = true -> 0 <= k ->
  find_horse g (rows g) (cols g) = Returned (Some h) ->
  (forall p, connected g (rows g) (cols g) h p ->
             on_boundary (rows g) (cols g) p.1 p.2 = false) ->
  exists cs,
    NoDup cs /\ (forall p, p ∈ cs <-> connected g (rows g) (cols g) h p)
    /\ solve k g = Returned (mkResult (length cs) []).
Proof.
  intros Hv Hk Hfh Hin. destruct (graph_of_total g Hv) as (ix & tb & Hg).
  destruct (graph_of_spec g ix tb Hv Hg) as (h' & Hfh' & Hinv & _ & Htb).
  assert (h' = h) as -> by congruence.
  exists (coords ix). split; [apply (index_inv_NoDup _ _ _ _ _ Hinv)|].
  split; [apply (coords_connected g ix tb h Hv Hg Hfh)|].
  set (E := build_env k (coords ix) tb).
  destruct (build_env_fields k (coords ix) tb) as (HN & _ & Htab & _ & _ & _ & Hsnk).
  fold E in HN, Htab, Hsnk.
  pose proof (env_ok_build g k ix tb Hv Hg) as HE. fold E in HE.
  assert (forall i, Bitset.test (boundary tb) i = false) as Hbd.
  { intros i. destruct (Bitset.test (boundary tb) i) eqn:Hi; [|reflexivity].
    destruct (tk_boundary _ _ _ _ _ _ Htb) as (_ & _ & _ & Hlt).
    destruct (lookup_lt_is_Some_2 (coords ix) i (Hlt i Hi)) as [p Hp].
    destruct (tk_facts _ _ _ _ _ _ Htb i p Hp) as (_ & _ & Hb).
    rewrite Hi in Hb. rewrite Hin in Hb; [discriminate|].
    apply (coords_connected g ix tb h Hv Hg Hfh). eapply list_elem_of_lookup_2; eauto. }
  unfold solve. rewrite (bind_Returned_l _ _ _ Hg). rewrite Hbd.
  fold E. unfold search_from_root.
  destruct (dfs_isolated E (N E) k HE) as (vs & bw & Hd & Hwf & Hbw); [| | |exact Hk|].
  - rewrite Hsnk. apply build_env_sink_isolated. intros i _. apply Hbd.
  - intros b Hb x Hx. rewrite HN in Hx.
    apply (component_reaches g k ix tb b Hv Hg (fun i _ => Hb i) x Hx).
  - rewrite Htab. exact Hbd.
  - rewrite (bind_Returned_l _ _ _ Hd). cbn [cur_best_area best_walls].
    rewrite walls_of_map, (set_bits_empty _ _ Hwf Hbw), HN. reflexivity.
Qed.

(** * The flow pushed by maxflow_limit *)

Lemma sum_over_nil {A} (g : A -> Z) : sum_over g [] = 0.
Proof. reflexivity. Qed.

Lemma sum_over_cons {A} (g : A -> Z) x l : sum_over g (x :: l) = g x + sum_over g l.
Proof. reflexivity. Qed.

Lemma sum_over_app {A} (g : A -> Z) l1 l2 :
  sum_over g (l1 ++ l2) = sum_over g l1 + sum_over g l2.
Proof.
  induction l1 as [|x l1 IH]; [reflexivity|].
  rewrite <- app_comm_cons, !sum_over_cons, IH. lia.
Qed.

Lemma sum_over_perm {A} (g : A -> Z) l1 l2 :
  l1 ≡ₚ l2 -> sum_over g l1 = sum_over g l2.
Proof. induction 1; rewrite ?sum_over_cons; lia. Qed.

Lemma sum_over_ext {A} (g h : A -> Z) l :
  (forall x, x ∈ l -> g x = h x) -> sum_over g l = sum_over h l.
Proof.
  induction l as [|x l IH]; intros H; [reflexivity|].
  rewrite !sum_over_cons, (H x) by left. rewrite IH; [reflexivity|].
  intros y Hy. apply H. right. exact Hy.
Qed.

Lemma sum_over_nonneg {A} (g : A -> Z) l :
  (forall x, x ∈ l -> 0 <= g x) -> 0 <= sum_over g l.
Proof.
  induction l as [|x l IH]; intros H; [reflexivity|]. rewrite sum_over_cons.
  pose proof (H x ltac:(left)). assert (0 <= sum_over g l); [|lia].
  apply IH. intros y Hy. apply H. right. exact Hy.
Qed.

Lemma sum_over_fmap {A B} (g : B -> Z) (h : A -> B) l :
  sum_over g (h <$> l) = sum_over (fun x => g (h x)) l.
Proof.
  induction l as [|x l IH]; [reflexivity|].
  rewrite fmap_cons, !sum_over_cons, IH. reflexivity.
Qed.

Lemma sum_over_const {A} (g : A -> Z) c l :
  (forall x, x ∈ l -> g x = c) -> sum_over g l = c * Z.of_nat (length l).
Proof.
  induction l as [|x l IH]; intros H; [rewrite sum_over_nil; cbn; lia|].
  rewrite sum_over_cons, (H x) by left. rewrite IH; [cbn [length]; lia|].
  intros y Hy. apply H. right. exact Hy.
Qed.

Lemma sum_over_opp {A} (g : A -> Z) l :
  sum_over (fun x => - g x) l = - sum_over g l.
Proof.
  induction l as [|x l IH]; [reflexivity|]. rewrite !sum_over_cons, IH. lia.
Qed.

Lemma sum_over_concat {A B} (g : B -> Z) (h : A -> list B) l :
  sum_over g (concat (h <$> l)) = sum_over (fun x => sum_over g (h x)) l.
Proof.
  induction l as [|x l IH]; [reflexivity|].
  rewrite fmap_cons. cbn [concat]. rewrite sum_over_app, sum_over_cons, IH. reflexivity.
Qed.

(** Splitting a sum by a decidable property. *)
Lemma sum_over_split {A} (g : A -> Z) (P : A -> Prop) `{forall x, Decision (P x)} l :
  sum_over g l
  = sum_over g (filter P l) + sum_over g (filter (fun x => ~ P x) l).
Proof.
  induction l as [|x l IH]; [reflexivity|]. rewrite !filter_cons.
  destruct (decide (P x)) as [Hp|Hp].
  - rewrite decide_False by tauto. rewrite !sum_over_cons. lia.
  - rewrite decide_True by assumption. rewrite !sum_over_cons. lia.
Qed.

(** A sum of non-negative terms is at least the sum over some of them. *)
Lemma sum_over_sub {A} (g : A -> Z) l1 l2 :
  NoDup l1 -> l1 ⊆ l2 -> (forall x, x ∈ l2 -> 0 <= g x) ->
  sum_over g l1 <= sum_over g l2.
Proof.
  intros Hnd Hsub Hpos.
  destruct (submseteq_Permutation l1 l2 (NoDup_submseteq _ _ Hnd Hsub)) as [k Hk].
  rewrite (sum_over_perm g _ _ Hk), sum_over_app.
  assert (0 <= sum_over g k); [|lia].
  apply sum_over_nonneg. intros x Hx. apply Hpos. rewrite Hk.
  apply elem_of_app. right. exact Hx.
Qed.

(** A sum that changes sign under a pairing of its terms is 0. *)
Lemma sum_over_paired (g : nat -> Z) (r : nat -> nat) l :
  NoDup l -> (forall x, x ∈ l -> r x ∈ l /\ r (r x) = x /\ g (r x) = - g x) ->
  sum_over g l = 0.
Proof.
  intros Hnd Hr.
  assert (r <$> l ≡ₚ l) as Hperm.
  { apply NoDup_Permutation; [|exact Hnd|].
    - apply NoDup_fmap_2_strong; [|exact Hnd].
      intros x y Hx Hy Heq. destruct (Hr x Hx) as (_ & <- & _).
      destruct (Hr y Hy) as (_ & <- & _). congruence.
    - intros x. rewrite list_elem_of_fmap. split.
      + intros (y & -> & Hy). apply (Hr y Hy).
      + intros Hx. exists (r x). destruct (Hr x Hx) as (H1 & H2 & _). auto. }
  pose proof (sum_over_perm g _ _ Hperm) as H1. rewrite sum_over_fmap in H1.
  rewrite (sum_over_ext _ (fun x => - g x)) in H1 by (intros x Hx; apply (Hr x Hx)).
  rewrite sum_over_opp in H1. lia.
Qed.

(** Changing one entry of the capacities changes the flow on that edge
    only. *)
Lemma sum_flow_insert c0 c e x l :
  NoDup l -> (e < length c)%nat ->
  sum_over (flow_on c0 (<[e := x]> c)) l
  = sum_over (flow_on c0 c) l + (if decide (e ∈ l) then getZ c e - x else 0).
Proof.
  intros Hnd He. induction Hnd as [|y l Hy Hnd IH].
  - rewrite decide_False by (intros H; inversion H). rewrite !sum_over_nil. lia.
  - rewrite !sum_over_cons, IH. unfold flow_on at 1 3. rewrite getZ_insert.
    destruct (decide (e = y /\ (e < length c)%nat)) as [[-> _]|Hn];
      destruct (decide (_ ∈ l)) as [Hin|Hnin];
      destruct (decide (_ ∈ y :: l)) as [Hin'|Hnin']; try lia.
    + contradiction.
    + exfalso. apply Hnin'. left.
    + exfalso. apply Hnin'. left.
    + exfalso. apply Hnin'. right. exact Hin.
    + exfalso. apply elem_of_cons in Hin' as [->|?]; [apply Hn; auto|contradiction].
Qed.

Section FlowValue.

Variable ft : Flow.FlowTemplate.
Hypothesis Hwf : flow_wf ft.
Variable c0 : list Z.

(** Pushing one unit along edge [e] moves one unit of excess from the
    head of [e] to its tail. *)
Lemma push_excess cap e r a b u :
  Flow.rev ft !! e = Some r -> Flow.frm ft !! e = Some a -> Flow.to ft !! e = Some b ->
  length cap = length (Flow.to ft) ->
  excess ft c0
    (<[r := getZ (<[e := getZ cap e - 1]> cap) r + 1]> (<[e := getZ cap e - 1]> cap)) u
  = excess ft c0 cap u + indicator (a = u) - indicator (b = u).
Proof.
  intros Hrev Hfrm Hto Hlen. unfold excess.
  destruct (fw_twin _ Hwf _ _ Hrev) as (Hre & Hrr & Htr & Hfr).
  assert (e < length cap)%nat as He by (rewrite Hlen; eapply lookup_lt_Some; eauto).
  assert (r < length cap)%nat as Hr.
  { apply lookup_lt_Some in Hrr. rewrite (fw_rev _ Hwf) in Hrr. lia. }
  rewrite sum_flow_insert by (try apply (fw_adj_nodup _ Hwf); rewrite length_insert; exact Hr).
  rewrite sum_flow_insert by (try apply (fw_adj_nodup _ Hwf); exact He).
  unfold indicator.
  destruct (decide (e ∈ Flow.adj ft !!! u)) as [H1|H1];
    destruct (decide (a = u)) as [H2|H2];
    destruct (decide (r ∈ Flow.adj ft !!! u)) as [H3|H3];
    destruct (decide (b = u)) as [H4|H4]; try lia; exfalso.
  all: rewrite (fw_adj _ Hwf) in *; rewrite Hfr, Hto, ?Hfrm in *; try congruence.
  all: try (apply H1; congruence); try (apply H3; congruence).
Qed.

Variables s t : nat.
Hypothesis Hs : (s < Flow.n ft)%nat.

Lemma augment_length parent fuel :
  forall cap v cap',
  Flow.augment fuel ft s parent cap v = Returned cap' -> length cap' = length cap.
Proof.
  induction fuel as [|fuel IH]; intros cap v cap' Ha; cbn [Flow.augment] in Ha.
  - destruct (v =? s)%nat; [injection Ha as <-; reflexivity|discriminate].
  - destruct (v =? s)%nat; [injection Ha as <-; reflexivity|].
    destruct (parent !!! v) as [| |e]; try discriminate.
    rewrite (IH _ _ _ Ha), !length_insert. reflexivity.
Qed.

(** One augmentation moves one unit of excess from [v] to the source. *)
Lemma augment_excess parent fuel :
  length parent = Flow.n ft ->
  (forall x e, parent !! x = Some (Via e) -> Flow.to ft !! e = Some x) ->
  forall cap v cap',
  length cap = length (Flow.to ft) -> (v < Flow.n ft)%nat ->
  Flow.augment fuel ft s parent cap v = Returned cap' ->
  forall u, excess ft c0 cap' u
            = excess ft c0 cap u + indicator (u = s) - indicator (u = v).
Proof.
  intros Hplen Hvia. induction fuel as [|fuel IH]; intros cap v cap' Hlen Hv Ha u;
    cbn [Flow.augment] in Ha.
  - destruct (Nat.eqb_spec v s) as [->|]; [injection Ha as <-; lia|discriminate].
  - destruct (Nat.eqb_spec v s) as [->|Hne]; [injection Ha as <-; lia|].
    destruct (parent !!! v) as [| |e] eqn:Hp; try discriminate.
    assert (parent !! v = Some (Via e)) as Hpv.
    { rewrite <- Hp. apply list_lookup_lookup_total_lt. lia. }
    pose proof (Hvia _ _ Hpv) as Hto.
    assert (e < length (Flow.to ft))%nat as Helt by (eapply lookup_lt_Some; eauto).
    destruct (lookup_lt_is_Some_2 (Flow.rev ft) e) as [r Hrev];
      [rewrite (fw_rev _ Hwf); assumption|].
    destruct (lookup_lt_is_Some_2 (Flow.frm ft) e) as [a Hfrm];
      [rewrite (fw_frm _ Hwf); assumption|].
    rewrite (list_lookup_total_correct _ _ _ Hrev),
      (list_lookup_total_correct _ _ _ Hfrm) in Ha.
    set (cap2 := <[r := getZ (<[e := getZ cap e - 1]> cap) r + 1]>
                   (<[e := getZ cap e - 1]> cap)) in *.
    assert (length cap2 = length (Flow.to ft)) as Hlen2
      by (unfold cap2; rewrite !length_insert; exact Hlen).
    pose proof (IH cap2 a cap' Hlen2 (fw_frm_node _ Hwf _ _ Hfrm) Ha u) as Hstep.
    rewrite Hstep. unfold cap2.
    rewrite (push_excess cap e r a v u Hrev Hfrm Hto Hlen).
    unfold indicator.
    destruct (decide (a = u)), (decide (u = a)), (decide (v = u)), (decide (u = v));
      try congruence; lia.
Qed.

(** The flow [maxflow_limit] reports leaves the source and enters the
    sink; every other node passes on what it receives. *)
Lemma flow_loop_excess limit rounds :
  (t < Flow.n ft)%nat ->
  forall cap flow f cap',
  length cap = length (Flow.to ft) ->
  Flow.flow_loop rounds ft s t limit cap flow = Returned (f, cap') ->
  forall u, excess ft c0 cap' u
            = excess ft c0 cap u + (f - flow) * (indicator (u = s) - indicator (u = t)).
Proof.
  intros Ht. induction rounds as [|rounds IH]; intros cap flow f cap' Hlen Hl u;
    cbn [Flow.flow_loop] in Hl.
  - destruct (flow <? limit); [discriminate|]. injection Hl as <- <-. lia.
  - destruct (flow <? limit); [|injection Hl as <- <-; lia].
    obind Hl. rename a into parent.
    destruct (bfs_inv_start ft cap s Hs) as [Hinv0 _].
    assert (bfs_inv ft cap s parent) as Hinv.
    { eapply bfs_loop_spec; eauto.
      intros x Hx. apply list_elem_of_singleton in Hx. subst.
      exists Root. split; [apply (bi_root _ _ _ _ Hinv0)|discriminate]. }
    destruct (is_unseen (parent !!! t)); [injection Hl as <- <-; lia|].
    obind Hl. rename a into cap1.
    assert (length cap1 = length (Flow.to ft)) as Hlen1
      by (rewrite (augment_length _ _ _ _ _ Ha0); exact Hlen).
    pose proof (IH cap1 (flow + 1) f cap' Hlen1 Hl u) as Hstep.
    pose proof (augment_excess parent (Flow.n ft) (bi_len _ _ _ _ Hinv)
                  (fun x e Hx => proj1 (bi_via _ _ _ _ Hinv x e Hx))
                  cap t cap1 Hlen Ht Ha0 u) as Haug.
    lia.
Qed.

End FlowValue.

Lemma excess_start ft c0 u : excess ft c0 c0 u = 0.
Proof.
  unfold excess. rewrite (sum_over_const _ 0); [lia|].
  intros e _. unfold flow_on. lia.
Qed.

(** * The residual scan of min_separator *)

Lemma getB_insert l i j :
  getB (<[i := true]> l) j = if decide (i = j /\ (i < length l)%nat) then true else getB l j.
Proof.
  unfold getB. destruct (decide (i = j)) as [<-|Hne].
  - destruct (Nat.lt_ge_cases i (length l)) as [Hlt|Hge].
    + rewrite list_lookup_insert_eq by assumption.
      rewrite decide_True by auto. reflexivity.
    + rewrite list_insert_ge by assumption.
      rewrite decide_False by lia. reflexivity.
  - rewrite list_lookup_insert_ne by assumption.
    rewrite decide_False by tauto. reflexivity.
Qed.

Lemma getB_insert_mono l i j : getB l j = true -> getB (<[i := true]> l) j = true.
Proof. intros H. rewrite getB_insert. destruct (decide _); [reflexivity|exact H]. Qed.

Section Residual.

Variable E : env.
Hypothesis HE : env_ok E.
Variable cap : list Z.

Lemma scan_in_edges_closed es :
  forall can dq can' dq',
  scan_in_edges E cap es can dq = (can', dq') ->
  (forall e, e ∈ es -> (Flow.frm (flow E) !!! e < length can)%nat) ->
  length can' = length can
  /\ (forall v, getB can v = true -> getB can' v = true)
  /\ (forall x, x ∈ dq -> x ∈ dq')
  /\ (forall v, getB can' v = true -> getB can v = true \/ v ∈ dq')
  /\ (forall e, e ∈ es -> 0 < getZ cap e ->
                getB can' (Flow.frm (flow E) !!! e) = true).
Proof.
  induction es as [|e es IH]; intros can dq can' dq' Hs Hlt; cbn [scan_in_edges] in Hs.
  - injection Hs as <- <-. split; [reflexivity|]. split; [auto|]. split; [auto|].
    split; [auto|]. intros e He. inversion He.
  - assert (forall e', e' ∈ es -> (Flow.frm (flow E) !!! e' < length can)%nat) as Hlt'
      by (intros; apply Hlt; right; assumption).
    pose proof (Hlt e ltac:(left)) as Hu.
    destruct ((0 <? getZ cap e) && negb (getB can (Flow.frm (flow E) !!! e))) eqn:Hc.
    + destruct (IH _ _ _ _ Hs) as (H1 & H2 & H3 & H4 & H5).
      { intros e' He'. rewrite length_insert. apply Hlt'. exact He'. }
      rewrite length_insert in H1.
      split; [exact H1|]. split; [|split; [|split]].
      * intros v Hv. apply H2, getB_insert_mono, Hv.
      * intros x Hx. apply H3, elem_of_app. left. exact Hx.
      * intros v Hv. destruct (H4 v Hv) as [Hi|Hq]; [|right; exact Hq].
        rewrite getB_insert in Hi. destruct (decide _) as [[<- _]|_]; [|left; exact Hi].
        right. apply H3, elem_of_app. right. left.
      * intros e' [->|He']%elem_of_cons Hpos; [|apply H5; assumption].
        apply H2. rewrite getB_insert, decide_True by auto. reflexivity.
    + destruct (IH _ _ _ _ Hs Hlt') as (H1 & H2 & H3 & H4 & H5).
      split; [exact H1|]. split; [exact H2|]. split; [exact H3|]. split; [exact H4|].
      intros e' [->|He']%elem_of_cons Hpos; [|apply H5; assumption].
      apply H2. apply andb_false_iff in Hc as [Hc|Hc].
      * apply Z.ltb_ge in Hc. lia.
      * apply negb_false_iff in Hc. exact Hc.
Qed.

Lemma residual_loop_closed fuel :
  forall can dq can',
  residual_loop E fuel cap can dq = Returned can' ->
  length can = node_count E ->
  residual_closed E cap can dq ->
  residual_closed E cap can' []
  /\ (forall v, getB can v = true -> getB can' v = true).
Proof.
  induction fuel as [|fuel IH]; intros can dq can' Hl Hlen Hcl.
  - destruct dq; [|discriminate]. cbn in Hl. injection Hl as <-. auto.
  - cbn [residual_loop] in Hl. destruct dq as [|v dq]; [injection Hl as <-; auto|].
    destruct (scan_in_edges E cap (Flow.in_adj (flow E) !!! v) can dq) as [can1 dq1] eqn:Hs.
    destruct (scan_in_edges_closed _ _ _ _ _ Hs) as (H1 & H2 & H3 & H4 & H5).
    { intros e He. apply (fw_in_adj _ (eo_flow _ HE)) in He.
      assert (e < length (Flow.frm (flow E)))%nat as Helt.
      { rewrite (fw_frm _ (eo_flow _ HE)). eapply lookup_lt_Some; eauto. }
      destruct (lookup_lt_is_Some_2 _ _ Helt) as [a Ha].
      rewrite (list_lookup_total_correct _ _ _ Ha).
      pose proof (fw_frm_node _ (eo_flow _ HE) _ _ Ha) as Hn.
      rewrite (eo_n _ HE) in Hn. lia. }
    destruct (IH can1 dq1 can' Hl) as [Hcl' Hmono]; [lia| |].
    + intros x Hx. destruct (H4 x Hx) as [Hv|Hq]; [|left; exact Hq].
      destruct (Hcl x Hv) as [[->|Hq]%elem_of_cons|Hdone].
      * right. exact H5.
      * left. apply H3. exact Hq.
      * right. intros e He Hpos. apply H2. apply Hdone; assumption.
    + split; [exact Hcl'|]. intros x Hx. apply Hmono, H2, Hx.
Qed.

(** The nodes [residual_reachable] marks hold the sink and are closed
    under going back along an edge that has capacity left. *)
Lemma residual_reachable_closed can :
  residual_reachable E cap = Returned can ->
  getB can (SNK E) = true
  /\ forall e v, Flow.to (flow E) !! e = Some v -> 0 < getZ cap e ->
       getB can v = true -> getB can (Flow.frm (flow E) !!! e) = true.
Proof.
  unfold residual_reachable. intros Hr.
  assert (SNK E < node_count E)%nat as Hsnk
    by (rewrite (eo_snk _ HE), (eo_nodes _ HE); lia).
  destruct (residual_loop_closed _ _ _ _ Hr) as [Hcl Hmono].
  - rewrite length_insert, length_replicate. reflexivity.
  - intros v Hv. left. rewrite getB_insert in Hv.
    destruct (decide _) as [[<- _]|_]; [left|].
    unfold getB in Hv. destruct (replicate _ _ !! v) as [b|] eqn:Hb; [|discriminate].
    apply lookup_replicate in Hb as [-> _]. discriminate.
  - split.
    + apply Hmono. rewrite getB_insert, decide_True; [reflexivity|].
      rewrite length_replicate. auto.
    + intros e v He Hpos Hv. destruct (Hcl v Hv) as [Hin|Hdone]; [inversion Hin|].
      apply Hdone; [|exact Hpos]. apply (fw_in_adj _ (eo_flow _ HE)). exact He.
Qed.

End Residual.

(** * The flow across a cut *)

Lemma elem_of_concat {A} (x : A) ls : x ∈ concat ls <-> exists l, x ∈ l /\ l ∈ ls.
Proof.
  rewrite list_elem_of_In, in_concat. split.
  - intros (l & H1 & H2). exists l. rewrite !list_elem_of_In. auto.
  - intros (l & H1 & H2). exists l. rewrite <- !list_elem_of_In. auto.
Qed.

Lemma NoDup_concat_fmap {A B} (h : A -> list B) l :
  NoDup l -> (forall x, x ∈ l -> NoDup (h x)) ->
  (forall x y e, x ∈ l -> y ∈ l -> e ∈ h x -> e ∈ h y -> x = y) ->
  NoDup (concat (h <$> l)).
Proof.
  induction 1 as [|x l Hx Hnd IH]; intros Hh Hdis; [constructor|].
  rewrite fmap_cons. cbn [concat]. apply NoDup_app. split; [apply Hh; left|]. split.
  - intros e He Hin. apply elem_of_concat in Hin as (le & Hle & Hin).
    apply list_elem_of_fmap in Hin as (y & -> & Hy).
    assert (x = y) by (apply (Hdis x y e); [left|right| |]; assumption).
    subst y. contradiction.
  - apply IH.
    + intros y Hy. apply Hh. right. exact Hy.
    + intros y z e Hy Hz. apply Hdis; right; assumption.
Qed.

Lemma sum_indicator (a : nat) l :
  NoDup l -> sum_over (fun u => indicator (u = a)) l = indicator (a ∈ l).
Proof.
  unfold indicator. induction 1 as [|x l Hx Hnd IH].
  - rewrite decide_False by (intros H; inversion H). reflexivity.
  - rewrite sum_over_cons, IH.
    destruct (decide (x = a)) as [->|Hne].
    + rewrite decide_False by assumption. rewrite decide_True by left. lia.
    + destruct (decide (a ∈ l)) as [Hin|Hnin].
      * rewrite decide_True by (right; assumption). lia.
      * rewrite decide_False by (intros [?|?]%elem_of_cons; congruence). lia.
Qed.

Section Cut.

Variable ft : Flow.FlowTemplate.
Hypothesis Hwf : flow_wf ft.
Variables c0 c1 : list Z.
Hypothesis Hpairs : same_pairs ft c0 c1.
Variable mark : nat -> bool.

(** The adjacency lists of the marked nodes hold each edge that leaves a
    marked node once. *)
Lemma adj_partition :
  concat ((fun u => Flow.adj ft !!! u)
            <$> filter (fun u => mark u = true) (seq 0 (Flow.n ft)))
  ≡ₚ filter (fun e => mark (Flow.frm ft !!! e) = true) (seq 0 (length (Flow.to ft))).
Proof.
  apply NoDup_Permutation.
  - apply NoDup_concat_fmap.
    + apply NoDup_filter, NoDup_seq.
    + intros u _. apply (fw_adj_nodup _ Hwf).
    + intros u v e _ _ Hu Hv. apply (fw_adj _ Hwf) in Hu, Hv. congruence.
  - apply NoDup_filter, NoDup_seq.
  - intros e. rewrite elem_of_concat. split.
    + intros (le & He & Hin). apply list_elem_of_fmap in Hin as (u & -> & Hu).
      apply list_elem_of_filter in Hu as [Hm _].
      apply (fw_adj _ Hwf) in He. apply list_elem_of_filter.
      rewrite (list_lookup_total_correct _ _ _ He). split; [exact Hm|].
      apply elem_of_seq. apply lookup_lt_Some in He. rewrite (fw_frm _ Hwf) in He. lia.
    + intros He. apply list_elem_of_filter in He as [Hm He].
      apply elem_of_seq in He.
      destruct (lookup_lt_is_Some_2 (Flow.frm ft) e) as [u Hu];
        [rewrite (fw_frm _ Hwf); lia|].
      rewrite (list_lookup_total_correct _ _ _ Hu) in Hm.
      exists (Flow.adj ft !!! u). split; [apply (fw_adj _ Hwf); exact Hu|].
      apply list_elem_of_fmap. exists u. split; [reflexivity|].
      apply list_elem_of_filter. split; [exact Hm|].
      apply elem_of_seq. pose proof (fw_frm_node _ Hwf _ _ Hu). lia.
Qed.

(** The edges inside the marked side carry no net flow. *)
Lemma internal_flow :
  sum_over (flow_on c0 c1)
    (filter (fun e => mark (Flow.to ft !!! e) = true)
       (filter (fun e => mark (Flow.frm ft !!! e) = true)
          (seq 0 (length (Flow.to ft))))) = 0.
Proof.
  apply (sum_over_paired _ (fun e => Flow.rev ft !!! e)).
  - apply NoDup_filter, NoDup_filter, NoDup_seq.
  - intros e He. apply list_elem_of_filter in He as [Ht He].
    apply list_elem_of_filter in He as [Hf He]. apply elem_of_seq in He.
    destruct (lookup_lt_is_Some_2 (Flow.rev ft) e) as [r Hr];
      [rewrite (fw_rev _ Hwf); lia|].
    destruct (fw_twin _ Hwf _ _ Hr) as (Hre & Hrr & Htr & Hfr).
    rewrite (list_lookup_total_correct _ _ _ Hr).
    rewrite (list_lookup_total_correct _ _ _ Hrr).
    split; [|split; [reflexivity|]].
    + apply list_elem_of_filter. split; [|apply list_elem_of_filter; split].
      * rewrite list_lookup_total_alt, Htr, <- list_lookup_total_alt. exact Hf.
      * rewrite list_lookup_total_alt, Hfr, <- list_lookup_total_alt. exact Ht.
      * apply elem_of_seq. apply lookup_lt_Some in Hrr.
        rewrite (fw_rev _ Hwf) in Hrr. lia.
    + destruct Hpairs as [_ Hp]. pose proof (Hp e r Hr). unfold flow_on. lia.
Qed.

(** The excess of the marked side is the flow on the edges that leave it. *)
Lemma cut_flow :
  sum_over (excess ft c0 c1) (filter (fun u => mark u = true) (seq 0 (Flow.n ft)))
  = sum_over (flow_on c0 c1)
      (filter (fun e => ~ mark (Flow.to ft !!! e) = true)
         (filter (fun e => mark (Flow.frm ft !!! e) = true)
            (seq 0 (length (Flow.to ft))))).
Proof.
  unfold excess.
  rewrite <- (sum_over_concat (flow_on c0 c1) (fun u => Flow.adj ft !!! u)).
  rewrite (sum_over_perm _ _ _ adj_partition).
  rewrite (sum_over_split _ (fun e => mark (Flow.to ft !!! e) = true)).
  rewrite internal_flow. lia.
Qed.

End Cut.

(** * The edges of the flow network *)

(** The edge vectors of [ft'] start with those of [ft]. *)
Lemma add_edge_extends ft0 ft u v c :
  Flow.to ft0 `prefix_of` Flow.to ft /\ Flow.frm ft0 `prefix_of` Flow.frm ft
  /\ Flow.base_cap ft0 `prefix_of` Flow.base_cap ft ->
  Flow.to ft0 `prefix_of` Flow.to (Flow.add_edge ft u v c).1
  /\ Flow.frm ft0 `prefix_of` Flow.frm (Flow.add_edge ft u v c).1
  /\ Flow.base_cap ft0 `prefix_of` Flow.base_cap (Flow.add_edge ft u v c).1.
Proof.
  intros (H1 & H2 & H3). cbn.
  split; [|split]; (etransitivity; [eassumption|apply prefix_app_r; reflexivity]).
Qed.

Lemma add_edge_caps_nonneg ft u v c :
  Forall (fun x => 0 <= x) (Flow.base_cap ft) -> 0 <= c ->
  Forall (fun x => 0 <= x) (Flow.base_cap (Flow.add_edge ft u v c).1).
Proof.
  intros H Hc. cbn. apply Forall_app. split; [exact H|].
  repeat constructor; [exact Hc|lia].
Qed.

(** The first loop gives cell [i] the edge [2 i], from node [2 i] to node
    [2 i + 1]. *)
Lemma add_cell_edges_spec n wl inf ft0 :
  Flow.to ft0 = [] -> Flow.frm ft0 = [] -> Flow.base_cap ft0 = [] ->
  let R := add_cell_edges n wl inf ft0 in
  length (Flow.to R.1) = (2 * n)%nat
  /\ forall i, (i < n)%nat ->
       R.2 !! i = Some (2 * i)%nat
       /\ Flow.frm R.1 !! (2 * i)%nat = Some (2 * i)%nat
       /\ Flow.to R.1 !! (2 * i)%nat = Some (2 * i + 1)%nat
       /\ Flow.base_cap R.1 !! (2 * i)%nat
          = Some (if (i =? horse_idx)%nat || negb (getB wl i) then inf else 1).
Proof.
  intros Ht Hf Hc. unfold add_cell_edges.
  match goal with |- context [fold_left ?f _ _] => set (step := f) end.
  assert (forall j, (j <= n)%nat ->
            let R := fold_left step (seq 0 j) (ft0, replicate n 0%nat) in
            length (Flow.to R.1) = (2 * j)%nat
            /\ length (Flow.frm R.1) = (2 * j)%nat
            /\ length (Flow.base_cap R.1) = (2 * j)%nat
            /\ length R.2 = n
            /\ forall i, (i < j)%nat ->
                 R.2 !! i = Some (2 * i)%nat
                 /\ Flow.frm R.1 !! (2 * i)%nat = Some (2 * i)%nat
                 /\ Flow.to R.1 !! (2 * i)%nat = Some (2 * i + 1)%nat
                 /\ Flow.base_cap R.1 !! (2 * i)%nat
                    = Some (if (i =? horse_idx)%nat || negb (getB wl i) then inf else 1))
    as Hgen.
  { induction j as [|j IH]; intros Hj.
    - cbn. rewrite Ht, Hf, Hc, length_replicate. repeat split; try reflexivity; lia.
    - rewrite seq_S, fold_left_app. cbn [fold_left].
      specialize (IH ltac:(lia)). cbn zeta in IH.
      destruct (fold_left step (seq 0 j) (ft0, replicate n 0%nat)) as [ft ids].
      cbn [fst snd] in IH. destruct IH as (L1 & L2 & L3 & L4 & IH).
      unfold step. cbn [Nat.add Flow.add_edge fst snd Flow.to Flow.frm Flow.base_cap].
      rewrite !length_app, length_insert. cbn [length].
      split; [lia|]. split; [lia|]. split; [lia|]. split; [exact L4|].
      intros i Hi. destruct (decide (i = j)) as [->|Hne].
      + rewrite L1. split; [apply list_lookup_insert_eq; lia|].
        rewrite !lookup_app_r by lia. rewrite L2, L1, L3, Nat.sub_diag. auto.
      + destruct (IH i ltac:(lia)) as (I1 & I2 & I3 & I4).
        rewrite list_lookup_insert_ne by lia.
        split; [exact I1|]. rewrite !lookup_app_l by lia. auto. }
  destruct (Hgen n ltac:(lia)) as (L1 & _ & _ & _ & H). split; [exact L1|exact H].
Qed.

(** The last loop gives every cell a source edge that comes after the
    edges the template had. *)
Lemma add_src_edges_spec n inf src ft0 :
  let R := add_src_edges n inf src ft0 in
  forall i, (i < n)%nat ->
    exists e, R.2 !! i = Some e /\ (length (Flow.to ft0) <= e)%nat.
Proof.
  unfold add_src_edges.
  match goal with |- context [fold_left ?f _ _] => set (step := f) end.
  assert (forall j, (j <= n)%nat ->
            let R := fold_left step (seq 0 j) (ft0, replicate n 0%nat) in
            (length (Flow.to ft0) <= length (Flow.to R.1))%nat
            /\ length R.2 = n
            /\ forall i, (i < j)%nat ->
                 exists e, R.2 !! i = Some e /\ (length (Flow.to ft0) <= e)%nat) as Hgen.
  { induction j as [|j IH]; intros Hj.
    - cbn. rewrite length_replicate. split; [lia|]. split; [reflexivity|].
      intros i Hi. lia.
    - rewrite seq_S, fold_left_app. cbn [fold_left].
      specialize (IH ltac:(lia)). cbn zeta in IH.
      destruct (fold_left step (seq 0 j) (ft0, replicate n 0%nat)) as [ft ids].
      cbn [fst snd] in IH. destruct IH as (L1 & L2 & IH).
      unfold step. cbn [Nat.add Flow.add_edge fst snd Flow.to].
      rewrite !length_app, length_insert. cbn [length].
      split; [lia|]. split; [exact L2|].
      intros i Hi. destruct (decide (i = j)) as [->|Hne].
      + exists (length (Flow.to ft)). split; [apply list_lookup_insert_eq; lia|lia].
      + rewrite list_lookup_insert_ne by lia. apply IH. lia. }
  intros i Hi. destruct (Hgen n ltac:(lia)) as (_ & _ & H). apply H. exact Hi.
Qed.

(** The network of [solve]: the cell edges, the source edges and the sign
    of the capacities. *)
Lemma build_env_cells k cs tb :
  let E := build_env k cs tb in
  (0 <= INF E -> Forall (fun x => 0 <= x) (Flow.base_cap (flow E)))
  /\ forall i, (i < length cs)%nat ->
       cell_edge_idx E !! i = Some (2 * i)%nat
       /\ Flow.frm (flow E) !! (2 * i)%nat = Some (2 * i)%nat
       /\ Flow.to (flow E) !! (2 * i)%nat = Some (2 * i + 1)%nat
       /\ Flow.base_cap (flow E) !! (2 * i)%nat
          = Some (if (i =? horse_idx)%nat || negb (getB (wallable tb) i)
                  then INF E else 1)
       /\ exists e, src_edge_idx E !! i = Some e /\ (2 * length cs <= e)%nat.
Proof.
  unfold build_env.
  set (nodes := (2 * length cs + 2)%nat). set (inf := int_wrap (k + 1)).
  pose proof (add_cell_edges_spec (length cs) (wallable tb) inf (Flow.create nodes)
                eq_refl eq_refl eq_refl) as Hcells.
  set (Q := fun ft => 0 <= inf -> Forall (fun x => 0 <= x) (Flow.base_cap ft)).
  assert (Q (add_cell_edges (length cs) (wallable tb) inf (Flow.create nodes)).1) as Q1.
  { unfold add_cell_edges.
    apply (fold_left_keeps (fun st : Flow.FlowTemplate * list nat => Q st.1));
      [intros _; constructor|].
    intros [ft ids] i _ Hft Hinf. cbn [fst] in *.
    apply add_edge_caps_nonneg; [apply Hft; exact Hinf|].
    destruct ((i =? horse_idx)%nat || negb (getB (wallable tb) i)); lia. }
  destruct (add_cell_edges _ _ _ _) as [ft1 cell_ids]. cbn [fst snd] in Hcells, Q1.
  cbn zeta in Hcells. destruct Hcells as [Hlen1 Hcells].
  set (P := fun ft => Flow.to ft1 `prefix_of` Flow.to ft
                      /\ Flow.frm ft1 `prefix_of` Flow.frm ft
                      /\ Flow.base_cap ft1 `prefix_of` Flow.base_cap ft).
  assert (P ft1) as P1 by (repeat split; reflexivity).
  set (ft2 := add_adj_edges (length cs) (adj tb) inf ft1).
  assert (P ft2 /\ Q ft2) as [P2 Q2].
  { unfold ft2, add_adj_edges.
    apply (fold_left_keeps (fun ft => P ft /\ Q ft)); [auto|].
    intros ft i _ Hft.
    apply (fold_left_keeps (fun ft => P ft /\ Q ft)); [exact Hft|].
    intros ft' j _ [Hp Hq]. split; [apply add_edge_extends; exact Hp|].
    intros Hinf. apply add_edge_caps_nonneg; [apply Hq; exact Hinf|exact Hinf]. }
  set (ft3 := add_sink_edges (length cs) (boundary tb) inf (2 * length cs + 1) ft2).
  assert (P ft3 /\ Q ft3) as [P3 Q3].
  { unfold ft3, add_sink_edges.
    apply (fold_left_keeps (fun ft => P ft /\ Q ft)); [auto|].
    intros ft i _ [Hp Hq]. destruct (Bitset.test (boundary tb) i); [|auto].
    split; [apply add_edge_extends; exact Hp|].
    intros Hinf. apply add_edge_caps_nonneg; [apply Hq; exact Hinf|exact Hinf]. }
  pose proof (add_src_edges_spec (length cs) inf (2 * length cs) ft3) as Hsrc.
  assert (P (add_src_edges (length cs) inf (2 * length cs) ft3).1
          /\ Q (add_src_edges (length cs) inf (2 * length cs) ft3).1) as [P4 Q4].
  { unfold add_src_edges.
    apply (fold_left_keeps (fun st : Flow.FlowTemplate * list nat => P st.1 /\ Q st.1));
      [auto|].
    intros [ft ids] i _ [Hp Hq]. cbn [fst] in *.
    split; [apply add_edge_extends; exact Hp|].
    intros Hinf. apply add_edge_caps_nonneg; [apply Hq; exact Hinf|].
    destruct (i =? horse_idx)%nat; lia. }
  destruct (add_src_edges _ _ _ _) as [ft4 src_ids]. cbn [fst snd] in Hsrc, P4, Q4.
  cbn zeta in Hsrc. cbn.
  split; [exact Q4|]. intros i Hi.
  destruct (Hcells i Hi) as (I1 & I2 & I3 & I4).
  destruct P4 as (Pt & Pf & Pc).
  split; [exact I1|].
  split; [exact (prefix_lookup_Some _ _ _ _ I2 Pf)|].
  split; [exact (prefix_lookup_Some _ _ _ _ I3 Pt)|].
  split; [exact (prefix_lookup_Some _ _ _ _ I4 Pc)|].
  destruct (Hsrc i Hi) as (e & He & Hle). exists e. split; [exact He|].
  destruct P3 as (Pt3 & _). apply prefix_length in Pt3. lia.
Qed.

(** * The separator is no larger than the flow *)

Lemma sum_over_scale {A} (g h : A -> Z) c l :
  sum_over (fun x => c * (g x - h x)) l = c * (sum_over g l - sum_over h l).
Proof.
  induction l as [|x l IH]; [rewrite !sum_over_nil; ring|].
  rewrite !sum_over_cons, IH. ring.
Qed.

Section Patched.

Variables (k : Z) (cs : list (Z * Z)) (tb : cell_tables).
Local Abbreviation E := (build_env k cs tb).
Hypothesis HE : env_ok E.
Hypothesis Hinf : 0 <= INF E.
Variables d f : DynamicBitset.
Hypothesis Hd : wf_bitset (N E) d.
Hypothesis Hf : wf_bitset (N E) f.

Lemma N_cells : N E = length cs.
Proof. apply (build_env_fields k cs tb). Qed.

Lemma patched_nonneg :
  nonneg_caps (patch_forced E d f (patch_deleted E d (Flow.base_cap (flow E)))).1.
Proof.
  destruct (build_env_cells k cs tb) as [Hbase _].
  specialize (Hbase Hinf). rewrite Forall_forall in Hbase.
  assert (nonneg_caps (Flow.base_cap (flow E))) as H0.
  { intros e. unfold getZ. destruct (Flow.base_cap (flow E) !! e) as [x|] eqn:Hx; [|cbn; lia].
    cbn. apply Hbase. eapply list_elem_of_lookup_2; eauto. }
  assert (nonneg_caps (patch_deleted E d (Flow.base_cap (flow E)))) as H1.
  { unfold patch_deleted, Bitset.for_each_set_bit.
    apply (fold_left_keeps nonneg_caps); [exact H0|].
    intros c i _ Hc e. rewrite getZ_insert. destruct (decide _); [lia|apply Hc]. }
  unfold patch_forced, Bitset.for_each_set_bit.
  apply (fold_left_keeps (fun st : list Z * bool => nonneg_caps st.1)); [exact H1|].
  intros [c ok] i _ Hc. cbn [fst] in *. destruct (Bitset.test d i); [exact Hc|].
  cbn [fst]. intros e. rewrite !getZ_insert.
  destruct (decide _); [lia|]. destruct (decide _); [lia|apply Hc].
Qed.

(** The capacity of the cell edge of a wallable cell that is neither
    deleted nor forced is 1 when [maxflow_limit] starts. *)
Lemma patched_cell i :
  (i < N E)%nat -> i <> horse_idx -> wallable_at E i = true ->
  Bitset.test d i = false -> Bitset.test f i = false ->
  getZ (patch_forced E d f (patch_deleted E d (Flow.base_cap (flow E)))).1 (2 * i) = 1.
Proof.
  intros Hi Hh Hw Hdi Hfi. rewrite N_cells in Hi.
  destruct (build_env_cells k cs tb) as [_ Hcells].
  destruct (Hcells i Hi) as (_ & _ & _ & Hcap & _).
  assert (tables E = tb) as Htab by apply (build_env_fields k cs tb).
  unfold wallable_at in Hw. rewrite Htab in Hw. rewrite Hw in Hcap.
  destruct (Nat.eqb_spec i horse_idx) as [|_]; [contradiction|]. cbn [orb negb] in Hcap.
  assert (getZ (Flow.base_cap (flow E)) (2 * i) = 1) as H0
    by (unfold getZ; rewrite Hcap; reflexivity).
  assert (getZ (patch_deleted E d (Flow.base_cap (flow E))) (2 * i) = 1) as H1.
  { unfold patch_deleted, Bitset.for_each_set_bit.
    apply (fold_left_keeps (fun c => getZ c (2 * i) = 1)); [exact H0|].
    intros c j Hj Hc. pose proof (set_bits_lt _ _ _ Hd Hj) as Hjn.
    apply (elem_of_set_bits _ _ _ Hd) in Hj. rewrite N_cells in Hjn.
    destruct (Hcells j Hjn) as (Hid & _).
    rewrite (list_lookup_total_correct _ _ _ Hid), getZ_insert.
    rewrite decide_False; [exact Hc|]. intros [Heq _].
    assert (j = i) by lia. congruence. }
  unfold patch_forced, Bitset.for_each_set_bit.
  apply (fold_left_keeps (fun st : list Z * bool => getZ st.1 (2 * i) = 1)); [exact H1|].
  intros [c ok] j Hj Hc. cbn [fst] in *. destruct (Bitset.test d j); [exact Hc|].
  cbn [fst]. pose proof (set_bits_lt _ _ _ Hf Hj) as Hjn.
  apply (elem_of_set_bits _ _ _ Hf) in Hj. rewrite N_cells in Hjn.
  destruct (Hcells j Hjn) as (Hid & _ & _ & _ & e & He & Hle).
  rewrite (list_lookup_total_correct _ _ _ Hid), (list_lookup_total_correct _ _ _ He).
  rewrite !getZ_insert.
  rewrite decide_False by (intros [Heq _]; lia).
  rewrite decide_False; [exact Hc|]. intros [Heq _].
  assert (j = i) by lia. congruence.
Qed.

(** A separator [min_separator] returns has at most [k_rem] cells: each of
    its cell edges is saturated and leaves the side of the network that
    cannot reach the sink, and the flow across that cut is the flow
    [maxflow_limit] reported. *)
Lemma min_separator_bound k_rem sep :
  wallable_at E horse_idx = false ->
  min_separator E d f k_rem = Returned (Some sep) ->
  Z.of_nat (card sep) <= k_rem.
Proof.
  intros Hhorse Hm. unfold min_separator in Hm.
  pose proof patched_nonneg as Hnn0.
  pose proof patched_cell as Hcell.
  pose proof (patch_forced_length E d f (patch_deleted E d (Flow.base_cap (flow E)))) as Hlen.
  rewrite patch_deleted_length, (fw_cap _ (eo_flow _ HE)) in Hlen.
  destruct (patch_forced E d f (patch_deleted E d (Flow.base_cap (flow E)))) as [c0 ok].
  cbn [fst] in Hnn0, Hcell, Hlen. destruct ok; cbn [negb] in Hm; [|discriminate].
  obind Hm. destruct a as [fl c1]. destruct (Z.ltb_spec k_rem fl) as [|Hfl]; [discriminate|].
  obind Hm. rename a into can. injection Hm as <-.
  pose proof (eo_flow _ HE) as Hwf.
  assert (SRC E < Flow.n (flow E))%nat as Hs
    by (rewrite (eo_n _ HE), (eo_nodes _ HE), (eo_src _ HE); lia).
  assert (SNK E < Flow.n (flow E))%nat as Ht
    by (rewrite (eo_n _ HE), (eo_nodes _ HE), (eo_snk _ HE); lia).
  destruct (maxflow_limit_spec (flow E) Hwf (SRC E) (SNK E) Hs Ht c0 (int_wrap (k_rem + 1)) Hlen)
    as (fl' & c1' & Hmf & Hfl0 & _ & Hpairs & Hnn1).
  rewrite Ha in Hmf. injection Hmf as <- <-. specialize (Hnn1 Hnn0).
  assert (forall u, excess (flow E) c0 c1 u
                    = fl * (indicator (u = SRC E) - indicator (u = SNK E))) as Hex.
  { intros u. unfold Flow.maxflow_limit in Ha.
    rewrite (flow_loop_excess (flow E) Hwf c0 (SRC E) (SNK E) Hs _ _ Ht c0 0 fl c1 Hlen Ha u).
    rewrite excess_start. ring. }
  destruct (residual_reachable_closed E HE c1 can Ha0) as [Hsnk Hclosed].
  set (mark := fun u => negb (getB can u)).
  pose proof (cut_flow (flow E) Hwf c0 c1 Hpairs mark) as Hcut.
  set (X := filter (fun e => ~ mark (Flow.to (flow E) !!! e) = true)
              (filter (fun e => mark (Flow.frm (flow E) !!! e) = true)
                 (seq 0 (length (Flow.to (flow E)))))) in *.
  set (L := filter (fun u => mark u = true) (seq 0 (Flow.n (flow E)))) in *.
  assert (sum_over (excess (flow E) c0 c1) L <= fl) as Hleft.
  { rewrite (sum_over_ext _ (fun u => fl * (indicator (u = SRC E) - indicator (u = SNK E))))
      by (intros u _; apply Hex).
    rewrite sum_over_scale, !sum_indicator by (apply NoDup_filter, NoDup_seq).
    assert (indicator (SNK E ∈ L) = 0) as ->.
    { unfold indicator. rewrite decide_False; [reflexivity|].
      intros Hin. apply list_elem_of_filter in Hin as [Hin _].
      unfold mark in Hin. rewrite Hsnk in Hin. discriminate. }
    unfold indicator. destruct (decide (SRC E ∈ L)); lia. }
  assert (forall e, e ∈ X -> getZ c1 e = 0
                             /\ getB can (Flow.frm (flow E) !!! e) = false
                             /\ getB can (Flow.to (flow E) !!! e) = true) as HX.
  { intros e He. apply list_elem_of_filter in He as [H2 He].
    apply list_elem_of_filter in He as [H1 He]. apply elem_of_seq in He.
    unfold mark in H1, H2. apply negb_true_iff in H1.
    assert (getB can (Flow.to (flow E) !!! e) = true) as H2'
      by (destruct (getB can (Flow.to (flow E) !!! e)); [reflexivity|exfalso; auto]).
    split; [|auto].
    destruct (lookup_lt_is_Some_2 (Flow.to (flow E)) e) as [v Hv]; [lia|].
    rewrite (list_lookup_total_correct _ _ _ Hv) in H2'.
    pose proof (Hnn1 e) as Hge.
    destruct (Z_lt_le_dec 0 (getZ c1 e)) as [Hpos|]; [|lia].
    rewrite (Hclosed e v Hv Hpos H2') in H1. discriminate. }
  destruct (extract_sep_spec E d f can) as [Hwfs Hbits].
  destruct (build_env_cells k cs tb) as [_ Hcells].
  assert (forall i, i ∈ Bitset.set_bits (extract_sep E d f can) ->
            (2 * i)%nat ∈ X /\ flow_on c0 c1 (2 * i) = 1) as Hsep.
  { intros i Hi. apply (elem_of_set_bits _ _ _ Hwfs) in Hi.
    destruct (Hbits i Hi) as (Hlt & Hw & Hdi & Hfi & Hc1 & Hc2).
    assert (i <> horse_idx) as Hne by (intros ->; congruence).
    pose proof Hlt as Hlt'. rewrite N_cells in Hlt'.
    destruct (Hcells i Hlt') as (_ & Hfrm & Hto & _).
    assert ((2 * i)%nat ∈ X) as HinX.
    { apply list_elem_of_filter.
      rewrite (list_lookup_total_correct _ _ _ Hto). unfold mark.
      split; [rewrite Hc2; discriminate|].
      apply list_elem_of_filter. rewrite (list_lookup_total_correct _ _ _ Hfrm).
      split; [rewrite Hc1; reflexivity|].
      apply elem_of_seq. apply lookup_lt_Some in Hto. lia. }
    split; [exact HinX|]. unfold flow_on.
    rewrite (Hcell i Hlt Hne Hw Hdi Hfi). destruct (HX _ HinX) as [-> _]. lia. }
  assert (Z.of_nat (card (extract_sep E d f can)) <= sum_over (flow_on c0 c1) X) as Hright.
  { unfold card.
    rewrite <- (length_fmap (fun i => (2 * i)%nat) (Bitset.set_bits (extract_sep E d f can))).
    rewrite <- (Z.mul_1_l (Z.of_nat _)).
    rewrite <- (sum_over_const (flow_on c0 c1) 1).
    - apply sum_over_sub.
      + apply NoDup_fmap_2_strong; [|apply (NoDup_set_bits _ _ Hwfs)].
        intros x y _ _ Hxy. lia.
      + intros e He. apply list_elem_of_fmap in He as (i & -> & Hi). apply Hsep, Hi.
      + intros e He. destruct (HX e He) as [Hz _]. unfold flow_on. rewrite Hz.
        pose proof (Hnn0 e). lia.
    - intros e He. apply list_elem_of_fmap in He as (i & -> & Hi). apply Hsep, Hi. }
  lia.
Qed.

End Patched.

Lemma filter_or_length {A} (P Q : A -> Prop) `{forall x, Decision (P x)}
    `{forall x, Decision (Q x)} (l : list A) :
  (length (filter (fun x => P x \/ Q x) l)
   <= length (filter P l) + length (filter Q l))%nat.
Proof.
  induction l as [|x l IH]; [reflexivity|]. rewrite !filter_cons.
  destruct (decide (P x)), (decide (Q x)), (decide (P x \/ Q x)); cbn [length];
    try lia; tauto.
Qed.

Lemma card_union_le n a b :
  wf_bitset n a -> wf_bitset n b ->
  (card (Bitset.union a b) <= card a + card b)%nat.
Proof.
  intros Ha Hb.
  rewrite (card_filter n _ (wf_union n a b Ha Hb)), (card_filter n a Ha),
    (card_filter n b Hb).
  etransitivity; [|apply filter_or_length].
  apply Nat.eq_le_incl. f_equal. apply list_filter_iff. intros i.
  rewrite (test_union n a b i Ha Hb), orb_true_iff. reflexivity.
Qed.

(** [dfs] never records more walls than the budget of the root call. *)
Lemma dfs_budget k cs tb K depth :
  env_ok (build_env k cs tb) -> 0 <= INF (build_env k cs tb) ->
  wallable_at (build_env k cs tb) horse_idx = false ->
  forall d f k_rem s s',
  dfs (build_env k cs tb) depth d f k_rem s = Returned s' ->
  state_ok (build_env k cs tb) d f ->
  Z.of_nat (card d) + k_rem <= K ->
  Z.of_nat (card (best_walls s)) <= K ->
  Z.of_nat (card (best_walls s')) <= K.
Proof.
  intros HE Hinf Hhorse. set (E := build_env k cs tb) in *.
  induction depth as [|depth IH]; intros d f k_rem s s' Hd Hst Hk Hs; [discriminate|].
  cbn [dfs] in Hd.
  destruct (existsb _ _); [injection Hd as <-; assumption|].
  cbn [visited_states cur_best_area best_walls] in Hd.
  obind Hd. destruct a as [[vis_now ub_area] esc].
  destruct (ub_area <=? cur_best_area s)%nat; [injection Hd as <-; exact Hs|].
  destruct (negb (Bitset.subset_of f vis_now)); [injection Hd as <-; exact Hs|].
  obind Hd. destruct a as [sep|]; [|injection Hd as <-; exact Hs].
  rename Ha0 into Hm.
  pose proof (min_separator_bound k cs tb HE Hinf d f (so_deleted _ _ _ Hst)
                (so_forced _ _ _ Hst) k_rem sep Hhorse Hm) as Hbound.
  obind Hd. destruct a as [[vis2 area2] escapes2].
  set (s1 := if negb escapes2 && (cur_best_area s <? area2)%nat
             then mkSearch _ area2 (Bitset.union d sep)
             else mkSearch _ (cur_best_area s) (best_walls s)) in Hd.
  assert (Z.of_nat (card (best_walls s1)) <= K) as Hs1.
  { unfold s1. destruct (negb escapes2 && (cur_best_area s <? area2)%nat); [|exact Hs].
    cbn [best_walls].
    destruct (min_separator_Some _ _ _ _ _ Hm) as [can ->].
    destruct (extract_sep_spec E d f can) as [Hwf _].
    pose proof (card_union_le _ _ _ (so_deleted _ _ _ Hst) Hwf). lia. }
  destruct ((k_rem =? 0) || Bitset.empty sep); [injection Hd as <-; exact Hs1|].
  destruct (Bitset.first_set_bit sep) as [v|] eqn:Hv; [|injection Hd as <-; exact Hs1].
  obind Hd.
  destruct (separator_bit E d f k_rem sep v Hm Hv) as (_ & Hvn & _ & Hdv & _).
  eapply IH; [exact Hd| | |].
  - eapply state_ok_delete; eauto.
  - rewrite (card_set _ _ _ (so_deleted _ _ _ Hst) Hvn Hdv). lia.
  - eapply IH; [exact Ha1| |exact Hk|exact Hs1].
    eapply state_ok_force; eauto.
Qed.

(** [solve] returns at most [k] walls. *)
Lemma solve_budget g k res :
  valid_grid g = true -> 0 <= k < INT_MAX -> solve k g = Returned res ->
  Z.of_nat (length (walls res)) <= k.
Proof.
  intros Hv Hk Hs.
  destruct (solve_search _ _ _ Hs) as (ix & tb & Hg & [[_ ->]|(_ & s & Hsearch & ->)]);
    [cbn; lia|].
  cbn [walls]. set (E := build_env k (coords ix) tb) in *.
  destruct (env_horse g k ix tb Hv Hg) as [HN Hw0]. fold E in HN, Hw0.
  pose proof (env_ok_build g k ix tb Hv Hg) as HE. fold E in HE.
  assert (0 <= INF E) as Hinf.
  { destruct (build_env_fields k (coords ix) tb) as (_ & _ & _ & Hi & _).
    fold E in Hi. rewrite Hi.
    rewrite int_wrap_id; unfold int_range, INT_MIN, INT_MAX in *; lia. }
  unfold search_from_root in Hsearch.
  pose proof (dfs_budget k (coords ix) tb k _ HE Hinf Hw0 _ _ _ _ _ Hsearch
                (state_ok_root E HN)) as Hb.
  cbn [best_walls] in Hb. rewrite card_init in Hb.
  rewrite merge_sort_Permutation, walls_of_map, length_fmap.
  apply Hb; lia.
Qed.

(** With no budget, [solve] reports the component of the horse when the
    rocks already enclose it, and nothing otherwise. *)
Lemma solve_unaided g h :
  valid_grid g = true ->
  find_horse g (rows g) (cols g) = Returned (Some h) ->
  exists cs,
    NoDup cs /\ (forall p, p ∈ cs <-> connected g (rows g) (cols g) h p)
    /\ solve 0 g
       = Returned (if forallb (fun p : Z * Z =>
                                 negb (on_boundary (rows g) (cols g) p.1 p.2)) cs
                   then mkResult (length cs) [] else mkResult 0 []).
Proof.
  intros Hv Hfh. destruct (graph_of_total g Hv) as (ix & tb & Hg).
  destruct (graph_of_spec g ix tb Hv Hg) as (h' & Hfh' & Hinv & _ & Htb).
  assert (h' = h) as -> by congruence.
  pose proof (index_inv_NoDup _ _ _ _ _ Hinv) as Hnd.
  pose proof (coords_connected g ix tb h Hv Hg Hfh) as Hconn.
  exists (coords ix). split; [exact Hnd|]. split; [exact Hconn|].
  destruct (forallb _ (coords ix)) eqn:Hall.
  - rewrite forallb_forall in Hall.
    destruct (solve_isolated g 0 h Hv ltac:(lia) Hfh) as (cs' & Hnd' & Hconn' & Hs).
    { intros p Hp. apply Hconn, list_elem_of_In, Hall, negb_true_iff in Hp. exact Hp. }
    rewrite Hs. do 2 f_equal. apply Permutation_length.
    apply NoDup_Permutation; [assumption|assumption|].
    intros p. rewrite Hconn, Hconn'. reflexivity.
  - destruct (solve_total g 0 Hv) as [res Hs]. rewrite Hs. f_equal.
    destruct (Nat.eq_dec (best_area res) 0%nat) as [Hz|Hpos].
    { pose proof (solve_zero_walls g 0 res Hs Hz). destruct res; cbn in *. congruence. }
    exfalso.
    pose proof (solve_budget g 0 res Hv ltac:(unfold INT_MAX; lia) Hs) as Hb.
    assert (walls res = []) as Hw by (destruct (walls res); [reflexivity|cbn in Hb; lia]).
    destruct (overlay_flood g 0 res Hv Hs ltac:(lia))
      as (ix' & tb' & vis & bw & visited & Hg' & Hbfs & Hws & _).
    assert (ix' = ix /\ tb' = tb) as [-> ->] by (split; congruence).
    set (E := build_env 0 (coords ix) tb) in *.
    pose proof (env_ok_build g 0 ix tb Hv Hg) as HE. fold E in HE.
    destruct (build_env_fields 0 (coords ix) tb) as (HN & _ & Htab & _).
    fold E in HN, Htab.
    assert (forall i, (i < length (coords ix))%nat -> Bitset.test bw i = false) as Hbw.
    { intros i Hi. destruct (Bitset.test bw i) eqn:Hbi; [|reflexivity].
      destruct (lookup_lt_is_Some_2 _ _ Hi) as [p Hp].
      assert (p ∈ walls res) as Hin by (apply Hws; eauto).
      rewrite Hw in Hin. inversion Hin. }
    destruct (bfs_reachable_spec E (eo_adj _ HE) (eo_cells _ HE) _ _ _ _ Hbfs)
      as (Hwfv & _ & Hcase).
    rewrite (Hbw horse_idx) in Hcase by (rewrite <- HN; apply (eo_cells _ HE)).
    destruct Hcase as [Hreach Hesc].
    apply not_true_iff_false in Hall. apply Hall. apply forallb_forall.
    intros p Hp. apply list_elem_of_In, list_elem_of_lookup_1 in Hp as [i Hi].
    destruct (tk_facts _ _ _ _ _ _ Htb i p Hi) as (_ & _ & Hbd).
    rewrite <- Hbd. apply negb_true_iff.
    destruct (Bitset.test (boundary tb) i) eqn:Hbi; [|reflexivity].
    assert (Bitset.intersects vis (boundary (tables E)) = true) as Hint; [|congruence].
    apply (intersects_spec (N E)); [exact Hwfv|]. exists i. rewrite Htab.
    split; [|exact Hbi]. apply Hreach.
    apply (component_reaches g 0 ix tb bw Hv Hg Hbw). eapply lookup_lt_Some; eauto.
Qed.

(** * maxflow_limit stops at a maximum flow *)

Lemma seen_insert parent v p x :
  p <> Unseen ->
  seen (<[v := p]> parent) x
  = if decide (v = x /\ (v < length parent)%nat) then true else seen parent x.
Proof.
  intros Hp. unfold seen. destruct (decide (v = x)) as [<-|Hne].
  - destruct (Nat.lt_ge_cases v (length parent)) as [Hlt|Hge].
    + rewrite list_lookup_total_insert_eq by assumption.
      rewrite decide_True by auto. destruct p; [contradiction|reflexivity..].
    + rewrite list_insert_ge by assumption.
      rewrite decide_False by lia. reflexivity.
  - rewrite list_lookup_total_insert_ne by assumption.
    rewrite decide_False by tauto. reflexivity.
Qed.

Section FlowMaximal.

Variable ft : Flow.FlowTemplate.
Hypothesis Hwf : flow_wf ft.
Variable cap : list Z.
Variable t : nat.

Lemma scan_edges_closed es :
  forall parent q parent' q',
  Flow.scan_edges ft cap t es parent q = (parent', q') ->
  (forall e, e ∈ es -> (Flow.to ft !!! e < length parent)%nat) ->
  length parent' = length parent
  /\ (forall x, seen parent x = true -> seen parent' x = true)
  /\ (seen parent' t = true
      \/ ((forall x, x ∈ q -> x ∈ q')
          /\ (forall x, seen parent' x = true -> seen parent x = true \/ x ∈ q')
          /\ (forall e, e ∈ es -> 0 < getZ cap e ->
                        seen parent' (Flow.to ft !!! e) = true))).
Proof.
  induction es as [|e es IH]; intros parent q parent' q' Hs Hlt;
    cbn [Flow.scan_edges] in Hs.
  - injection Hs as <- <-. split; [reflexivity|]. split; [auto|]. right.
    split; [auto|]. split; [auto|]. intros e He. inversion He.
  - assert (forall e', e' ∈ es -> (Flow.to ft !!! e' < length parent)%nat) as Hlt'
      by (intros; apply Hlt; right; assumption).
    pose proof (Hlt e ltac:(left)) as Hv.
    destruct (Z.leb_spec (getZ cap e) 0) as [Hc|Hc].
    { destruct (IH _ _ _ _ Hs Hlt') as (H1 & H2 & H3).
      split; [exact H1|]. split; [exact H2|].
      destruct H3 as [H3|(H3 & H4 & H5)]; [left; exact H3|right].
      split; [exact H3|]. split; [exact H4|].
      intros e' [->|He']%elem_of_cons Hpos; [lia|apply H5; assumption]. }
    destruct (is_unseen (parent !!! (Flow.to ft !!! e))) eqn:Hun.
    2:{ destruct (IH _ _ _ _ Hs Hlt') as (H1 & H2 & H3).
        split; [exact H1|]. split; [exact H2|].
        destruct H3 as [H3|(H3 & H4 & H5)]; [left; exact H3|right].
        split; [exact H3|]. split; [exact H4|].
        intros e' [->|He']%elem_of_cons Hpos; [|apply H5; assumption].
        apply H2. unfold seen. rewrite Hun. reflexivity. }
    assert (forall x, seen parent x = true ->
                      seen (<[Flow.to ft !!! e := Via e]> parent) x = true) as Hmono.
    { intros x Hx. rewrite seen_insert by discriminate.
      destruct (decide _); [reflexivity|exact Hx]. }
    assert (seen (<[Flow.to ft !!! e := Via e]> parent) (Flow.to ft !!! e) = true) as Hnew.
    { rewrite seen_insert by discriminate. rewrite decide_True by auto. reflexivity. }
    destruct (Nat.eqb_spec (Flow.to ft !!! e) t) as [Heq|Hne].
    + injection Hs as <- <-. rewrite length_insert.
      split; [reflexivity|]. split; [exact Hmono|]. left. rewrite <- Heq. exact Hnew.
    + destruct (IH _ _ _ _ Hs) as (H1 & H2 & H3).
      { intros e' He'. rewrite length_insert. apply Hlt'. exact He'. }
      rewrite length_insert in H1.
      split; [exact H1|]. split; [intros x Hx; apply H2, Hmono, Hx|].
      destruct H3 as [H3|(H3 & H4 & H5)]; [left; exact H3|right].
      split; [intros x Hx; apply H3, elem_of_app; left; exact Hx|]. split.
      * intros x Hx. destruct (H4 x Hx) as [Hi|Hq]; [|right; exact Hq].
        rewrite seen_insert in Hi by discriminate.
        destruct (decide _) as [[<- _]|_]; [|left; exact Hi].
        right. apply H3, elem_of_app. right. left.
      * intros e' [->|He']%elem_of_cons Hpos; [|apply H5; assumption].
        apply H2. exact Hnew.
Qed.

Lemma bfs_loop_closed fuel :
  forall parent q parent',
  Flow.bfs_loop fuel ft cap t parent q = Returned parent' ->
  length parent = Flow.n ft ->
  seen parent t = true \/ bfs_closed ft cap parent q ->
  (seen parent' t = true \/ bfs_closed ft cap parent' [])
  /\ (forall x, seen parent x = true -> seen parent' x = true).
Proof.
  induction fuel as [|fuel IH]; intros parent q parent' Hl Hlen Hinv.
  - destruct q as [|u q]; cbn in Hl.
    + injection Hl as <-. auto.
    + destruct (is_unseen (parent !!! t)) eqn:Hun; [discriminate|].
      injection Hl as <-. split; [|auto]. left. unfold seen. rewrite Hun. reflexivity.
  - cbn [Flow.bfs_loop] in Hl. destruct q as [|u q]; [injection Hl as <-; auto|].
    destruct (is_unseen (parent !!! t)) eqn:Hun.
    2:{ injection Hl as <-. split; [|auto]. left. unfold seen. rewrite Hun. reflexivity. }
    destruct Hinv as [Hst|Hcl]; [unfold seen in Hst; rewrite Hun in Hst; discriminate|].
    destruct (Flow.scan_edges ft cap t (Flow.adj ft !!! u) parent q) as [p1 q1] eqn:Hs.
    destruct (scan_edges_closed _ _ _ _ _ Hs) as (H1 & H2 & H3).
    { intros e He. apply (fw_adj _ Hwf) in He.
      assert (e < length (Flow.to ft))%nat as Helt.
      { apply lookup_lt_Some in He. rewrite (fw_frm _ Hwf) in He. exact He. }
      destruct (lookup_lt_is_Some_2 _ _ Helt) as [v Hv].
      rewrite (list_lookup_total_correct _ _ _ Hv), Hlen.
      apply (fw_to_node _ Hwf _ _ Hv). }
    destruct (IH p1 q1 parent' Hl) as [Hfin Hmono]; [lia| |].
    + destruct H3 as [H3|(H3 & H4 & H5)]; [left; exact H3|right].
      intros x Hx. destruct (H4 x Hx) as [Hv|Hq]; [|left; exact Hq].
      destruct (Hcl x Hv) as [[->|Hq]%elem_of_cons|Hdone].
      * right. exact H5.
      * left. apply H3. exact Hq.
      * right. intros e He Hpos. apply H2. apply Hdone; assumption.
    + split; [exact Hfin|]. intros x Hx. apply Hmono, H2, Hx.
Qed.

(** What a discovered set that is closed holds of the paths. *)
Lemma closed_path parent u w :
  bfs_closed ft cap parent [] -> residual_path ft cap u w ->
  seen parent u = true -> seen parent w = true.
Proof.
  intros Hcl Hp. induction Hp as [|u e v w Hfrm Hto Hpos _ IH]; [auto|].
  intros Hu. apply IH. destruct (Hcl u Hu) as [Hin|Hdone]; [inversion Hin|].
  rewrite <- (list_lookup_total_correct _ _ _ Hto).
  apply Hdone; [|exact Hpos]. apply (fw_adj _ Hwf). exact Hfrm.
Qed.

End FlowMaximal.

(** When [maxflow_limit] stops below the limit, no path with capacity left
    leads from the source to the sink. *)
Lemma flow_loop_maximal ft s t limit rounds :
  flow_wf ft -> (s < Flow.n ft)%nat ->
  forall cap flow f cap',
  Flow.flow_loop rounds ft s t limit cap flow = Returned (f, cap') ->
  f < limit -> ~ residual_path ft cap' s t.
Proof.
  intros Hwf Hs. induction rounds as [|rounds IH]; intros cap flow f cap' Hl Hf;
    cbn [Flow.flow_loop] in Hl.
  - destruct (Z.ltb_spec flow limit); [discriminate|]. injection Hl as <- <-. lia.
  - destruct (Z.ltb_spec flow limit); [|injection Hl as <- <-; lia].
    obind Hl. rename a into parent.
    set (p0 := <[s := Root]> (replicate (Flow.n ft) Unseen)) in *.
    assert (length p0 = Flow.n ft) as Hlen0
      by (unfold p0; rewrite length_insert, length_replicate; reflexivity).
    assert (seen p0 s = true) as Hs0.
    { unfold p0. rewrite seen_insert by discriminate.
      rewrite decide_True; [reflexivity|]. rewrite length_replicate. auto. }
    destruct (bfs_loop_closed ft Hwf cap t _ _ _ _ Ha Hlen0) as [Hfin Hmono].
    { right. intros u Hu. left. unfold p0 in Hu. rewrite seen_insert in Hu by discriminate.
      destruct (decide _) as [[<- _]|_]; [left|].
      unfold seen in Hu. rewrite list_lookup_total_alt in Hu.
      destruct (replicate (Flow.n ft) Unseen !! u) as [p|] eqn:Hp; [|discriminate].
      apply lookup_replicate in Hp as [-> _]. discriminate. }
    destruct (is_unseen (parent !!! t)) eqn:Hun.
    + injection Hl as <- <-. intros Hpath.
      destruct Hfin as [Hst|Hcl]; [unfold seen in Hst; rewrite Hun in Hst; discriminate|].
      pose proof (closed_path ft Hwf cap parent s t Hcl Hpath (Hmono s Hs0)) as Hst.
      unfold seen in Hst. rewrite Hun in Hst. discriminate.
    + obind Hl. apply (IH _ _ _ _ Hl Hf).
Qed.

(** * Inputs that leave nothing to search *)

Lemma dfs_negative E depth d f k vs a bw :
  env_ok E -> INT_MIN <= k < 0 ->
  exists vs', dfs E (S depth) d f k (mkSearch vs a bw) = Returned (mkSearch vs' a bw).
Proof.
  intros HE Hk. cbn [dfs]. cbn [visited_states cur_best_area best_walls].
  destruct (existsb _ _); [eauto|].
  destruct (bfs_reachable_total E (eo_adj _ HE) (eo_cells _ HE) d) as [[[vis ub] esc] Hb].
  rewrite (bind_Returned_l _ _ _ Hb).
  destruct (ub <=? a)%nat; [eauto|].
  destruct (negb (Bitset.subset_of f vis)); [eauto|].
  rewrite (min_separator_negative E d f k Hk).
  unfold mbind, outcome_bind, obind. eauto.
Qed.

(** With the horse on the outermost row or column [solve] returns before
    it builds the network. *)
Lemma solve_on_boundary g k hr hc :
  valid_grid g = true ->
  find_horse g (rows g) (cols g) = Returned (Some (hr, hc)) ->
  on_boundary (rows g) (cols g) hr hc = true ->
  solve k g = Returned (mkResult 0 []).
Proof.
  intros Hv Hfh Hbd. destruct (graph_of_total g Hv) as (ix & tb & Hg).
  destruct (graph_of_spec g ix tb Hv Hg) as (h & Hfh' & Hinv & _ & Htb).
  assert (h = (hr, hc)) as -> by congruence.
  unfold solve. rewrite (bind_Returned_l _ _ _ Hg).
  destruct (tk_facts _ _ _ _ _ _ Htb _ _ (ii_head _ _ _ _ _ Hinv)) as (_ & _ & Hb).
  cbn [fst snd] in Hb. unfold horse_idx. rewrite Hb, Hbd. reflexivity.
Qed.

(** With a negative budget the root call of [dfs] is pruned. *)
Lemma solve_below_zero g k :
  valid_grid g = true -> INT_MIN <= k < 0 ->
  solve k g = Returned (mkResult 0 []).
Proof.
  intros Hv Hk. destruct (graph_of_total g Hv) as (ix & tb & Hg).
  unfold solve. rewrite (bind_Returned_l _ _ _ Hg).
  destruct (Bitset.test (boundary tb) horse_idx); [reflexivity|].
  pose proof (env_ok_build g k ix tb Hv Hg) as HE.
  unfold search_from_root.
  destruct (dfs_negative (build_env k (coords ix) tb) (N (build_env k (coords ix) tb))
              (Bitset.init (N (build_env k (coords ix) tb)))
              (Bitset.set (Bitset.init (N (build_env k (coords ix) tb))) horse_idx)
              k [] 0%nat (Bitset.init (N (build_env k (coords ix) tb))) HE Hk)
    as [vs Hd].
  rewrite (bind_Returned_l _ _ _ Hd). cbn [cur_best_area best_walls].
  rewrite walls_of_init. reflexivity.
Qed.

(** * A result without walls *)





(** * The budget INT_MAX

    With [k = INT_MAX] the capacity [INF = k + 1] wraps to [INT_MIN]: no
    edge into the sink has capacity left, no flow is pushed and every
    separator is empty. *)

Lemma add_edge_sink_caps (snk : nat) (inf : Z) ft u v c :
  length (Flow.to ft) = length (Flow.base_cap ft) ->
  (forall e, Flow.to ft !! e = Some snk -> Flow.base_cap ft !! e = Some inf) ->
  u <> snk -> (v = snk -> c = inf) ->
  length (Flow.to (Flow.add_edge ft u v c).1)
  = length (Flow.base_cap (Flow.add_edge ft u v c).1)
  /\ forall e, Flow.to (Flow.add_edge ft u v c).1 !! e = Some snk ->
               Flow.base_cap (Flow.add_edge ft u v c).1 !! e = Some inf.
Proof.
  intros Hlen Hft Hu Hv. cbn. split; [rewrite !length_app; cbn; lia|].
  intros e He. apply lookup_app_two in He as [He|[[-> He]|[-> He]]].
  - apply lookup_app_two. left. apply Hft. exact He.
  - apply lookup_app_two. right. left. split; [exact Hlen|].
    symmetry. apply Hv. congruence.
  - congruence.
Qed.

(** Every edge into the sink is created with capacity [INF]. *)
Lemma build_env_sink_caps k cs tb :
  forall e, Flow.to (flow (build_env k cs tb)) !! e = Some (2 * length cs + 1)%nat ->
            Flow.base_cap (flow (build_env k cs tb)) !! e = Some (int_wrap (k + 1)).
Proof.
  unfold build_env.
  set (snk := (2 * length cs + 1)%nat). set (inf := int_wrap (k + 1)).
  set (P := fun ft =>
              length (Flow.to ft) = length (Flow.base_cap ft)
              /\ forall e, Flow.to ft !! e = Some snk -> Flow.base_cap ft !! e = Some inf).
  assert (P (Flow.create (2 * length cs + 2))) as H0.
  { split; [reflexivity|]. intros e He. cbn in He. discriminate. }
  assert (P (add_cell_edges (length cs) (wallable tb) inf
               (Flow.create (2 * length cs + 2))).1) as H1.
  { unfold add_cell_edges.
    apply (fold_left_keeps (fun st : Flow.FlowTemplate * list nat => P st.1)); [exact H0|].
    intros [ft ids] i Hi [Hl Hft]. apply elem_of_seq in Hi. cbn [fst] in *.
    apply add_edge_sink_caps; [assumption|assumption| |]; unfold snk; lia. }
  destruct (add_cell_edges _ _ _ _) as [ft1 cell_ids]. cbn [fst] in H1.
  assert (P (add_adj_edges (length cs) (adj tb) inf ft1)) as H2.
  { unfold add_adj_edges. apply (fold_left_keeps P); [exact H1|].
    intros ft i Hi Hft. apply elem_of_seq in Hi.
    apply (fold_left_keeps P); [exact Hft|].
    intros ft' j Hj [Hl Hft'].
    apply add_edge_sink_caps; [assumption|assumption| |]; unfold snk; lia. }
  assert (P (add_sink_edges (length cs) (boundary tb) inf snk
               (add_adj_edges (length cs) (adj tb) inf ft1))) as H3.
  { unfold add_sink_edges. apply (fold_left_keeps P); [exact H2|].
    intros ft i Hi [Hl Hft]. apply elem_of_seq in Hi.
    destruct (Bitset.test (boundary tb) i); [|split; assumption].
    apply add_edge_sink_caps; [assumption|assumption|unfold snk; lia|reflexivity]. }
  assert (P (add_src_edges (length cs) inf (2 * length cs)
               (add_sink_edges (length cs) (boundary tb) inf snk
                  (add_adj_edges (length cs) (adj tb) inf ft1))).1) as H4.
  { unfold add_src_edges.
    apply (fold_left_keeps (fun st : Flow.FlowTemplate * list nat => P st.1)); [exact H3|].
    intros [ft ids] i Hi [Hl Hft]. apply elem_of_seq in Hi. cbn [fst] in *.
    apply add_edge_sink_caps; [assumption|assumption| |]; unfold snk; lia. }
  destruct (add_src_edges _ _ _ _) as [ft4 src_ids]. cbn [fst] in H4.
  cbn. apply H4.
Qed.

Section Overflow.

Variable E : env.
Hypothesis HE : env_ok E.
Hypothesis Hinf : INF E <= 0.
Hypothesis Hsink : forall e, Flow.to (flow E) !! e = Some (SNK E) ->
                             getZ (Flow.base_cap (flow E)) e <= 0.

(** The patches of [min_separator] write 0 and [INF]. *)
Lemma patched_sink_caps d f e :
  Flow.to (flow E) !! e = Some (SNK E) ->
  getZ (patch_forced E d f (patch_deleted E d (Flow.base_cap (flow E)))).1 e <= 0.
Proof.
  intros He.
  assert (getZ (patch_deleted E d (Flow.base_cap (flow E))) e <= 0) as H1.
  { unfold patch_deleted, Bitset.for_each_set_bit.
    apply (fold_left_keeps (fun cap => getZ cap e <= 0)); [apply Hsink, He|].
    intros cap i _ Hcap. rewrite getZ_insert. destruct (decide _); lia. }
  unfold patch_forced, Bitset.for_each_set_bit.
  apply (fold_left_keeps (fun st : list Z * bool => getZ st.1 e <= 0)); [exact H1|].
  intros [cap ok] i _ Hcap. cbn [fst] in *.
  destruct (Bitset.test d i); [exact Hcap|]. cbn [fst].
  rewrite !getZ_insert. repeat destruct (decide _); lia.
Qed.

Lemma scan_in_edges_idle cap es can dq :
  (forall e, e ∈ es -> getZ cap e <= 0) ->
  scan_in_edges E cap es can dq = (can, dq).
Proof.
  induction es as [|e es IH]; intros Hes; [reflexivity|].
  cbn [scan_in_edges].
  destruct (Z.ltb_spec 0 (getZ cap e)) as [Hlt|_].
  - pose proof (Hes e ltac:(left)). lia.
  - cbn [andb]. apply IH. intros e' He'. apply Hes. right. exact He'.
Qed.

Lemma residual_sink_closed cap :
  (forall e, Flow.to (flow E) !! e = Some (SNK E) -> getZ cap e <= 0) ->
  residual_reachable E cap
  = Returned (<[SNK E := true]> (replicate (node_count E) false)).
Proof.
  intros Hcap. unfold residual_reachable.
  destruct (node_count E) as [|fuel] eqn:Hn; [rewrite (eo_nodes _ HE) in Hn; lia|].
  cbn [residual_loop]. rewrite scan_in_edges_idle; [destruct fuel; reflexivity|].
  intros e He. apply Hcap. apply (fw_in_adj _ (eo_flow _ HE)). exact He.
Qed.

Lemma min_separator_overflow d f :
  min_separator E d f INT_MAX = Returned None
  \/ min_separator E d f INT_MAX = Returned (Some (Bitset.init (N E))).
Proof.
  unfold min_separator.
  pose proof (patched_sink_caps d f) as Hcap.
  destruct (patch_forced E d f _) as [cap ok]. cbn [fst] in Hcap.
  destruct ok; cbn [negb]; [right|left; reflexivity].
  unfold Flow.maxflow_limit.
  rewrite flow_loop_no_budget by (vm_compute; discriminate).
  unfold mbind, outcome_bind, obind at 1.
  assert ((INT_MAX <? 0) = false) as -> by reflexivity.
  rewrite (residual_sink_closed cap Hcap).
  unfold mbind, outcome_bind, obind.
  rewrite extract_sep_isolated by exact HE. reflexivity.
Qed.

(** The call [dfs(deleted, forced, INT_MAX)] stores no wall and does not
    recurse. *)
Lemma dfs_overflow depth d f s s' :
  dfs E depth d f INT_MAX s = Returned s' ->
  wf_bitset (N E) d -> (forall i, Bitset.test d i = false) ->
  wf_bitset (N E) (best_walls s) -> (forall i, Bitset.test (best_walls s) i = false) ->
  wf_bitset (N E) (best_walls s') /\ forall i, Bitset.test (best_walls s') i = false.
Proof.
  intros Hd Hwd Hnd Hwb Hnb. destruct depth as [|depth]; [discriminate|].
  cbn [dfs] in Hd.
  destruct (existsb _ _); [injection Hd as <-; auto|].
  cbn [visited_states cur_best_area best_walls] in Hd.
  obind Hd. destruct a as [[vis_now ub_area] esc].
  destruct (ub_area <=? cur_best_area s)%nat; [injection Hd as <-; auto|].
  destruct (negb (Bitset.subset_of f vis_now)); [injection Hd as <-; auto|].
  destruct (min_separator_overflow d f) as [Hm|Hm];
    rewrite (bind_Returned_l _ _ _ Hm) in Hd; [injection Hd as <-; auto|].
  obind Hd. destruct a as [[vis2 area2] escapes2].
  assert (Bitset.empty (Bitset.init (N E)) = true) as Hempty
    by (apply (empty_spec (N E)); [apply wf_init|apply test_init]).
  rewrite Hempty, orb_true_r in Hd. injection Hd as <-.
  destruct (negb escapes2 && (cur_best_area s <? area2)%nat);
    cbn [best_walls]; [|auto].
  split; [apply wf_union; [exact Hwd|apply wf_init]|].
  intros i. rewrite (test_union (N E)) by (try exact Hwd; apply wf_init).
  rewrite Hnd, test_init. reflexivity.
Qed.

End Overflow.

Lemma solve_int_max g res :
  valid_grid g = true -> solve INT_MAX g = Returned res -> walls res = [].
Proof.
  intros Hv Hs.
  destruct (solve_search _ _ _ Hs) as (ix & tb & Hg & [[_ ->]|(_ & s & Hsearch & ->)]);
    [reflexivity|].
  cbn [walls]. set (E := build_env INT_MAX (coords ix) tb) in *.
  pose proof (env_ok_build g INT_MAX ix tb Hv Hg) as HE. fold E in HE.
  destruct (build_env_fields INT_MAX (coords ix) tb) as (HN & _ & _ & Hi & _ & _ & Hsnk).
  fold E in HN, Hi, Hsnk.
  assert (INF E = INT_MIN) as Hinf by (rewrite Hi; reflexivity).
  unfold search_from_root in Hsearch.
  assert (INF E <= 0) as Hneg by (rewrite Hinf; unfold INT_MIN; lia).
  assert (forall e, Flow.to (flow E) !! e = Some (SNK E) ->
                    getZ (Flow.base_cap (flow E)) e <= 0) as Hsink.
  { intros e He. rewrite Hsnk in He. unfold E in He |- *.
    rewrite (getZ_lookup _ _ _ (build_env_sink_caps _ _ _ e He)).
    fold E. rewrite <- Hi. exact Hneg. }
  destruct (dfs_overflow E HE Hneg Hsink _ _ _ _ _ Hsearch) as [Hwf Hnone].
  - apply wf_init.
  - apply test_init.
  - apply wf_init.
  - apply test_init.
  - apply Permutation_nil. rewrite merge_sort_Permutation, walls_of_map.
    rewrite (set_bits_empty _ _ Hwf Hnone). reflexivity.
Qed.

(** * The measure of the recursion of dfs *)

Lemma filter_disjoint_length {A} (P Q : A -> Prop) `{forall x, Decision (P x)}
    `{forall x, Decision (Q x)} (l : list A) :
  (forall x, P x -> ~ Q x) ->
  (length (filter P l) + length (filter Q l) <= length l)%nat.
Proof.
  intros Hdis. induction l as [|x l IH]; [reflexivity|]. rewrite !filter_cons.
  destruct (decide (P x)) as [HP|], (decide (Q x)); cbn [length]; try lia.
  destruct (Hdis x HP). assumption.
Qed.

Lemma card_disjoint n a b :
  wf_bitset n a -> wf_bitset n b ->
  (forall i, Bitset.test a i = true -> Bitset.test b i = false) ->
  (card a + card b <= n)%nat.
Proof.
  intros Ha Hb Hdis. rewrite (card_filter n a Ha), (card_filter n b Hb).
  etransitivity; [apply filter_disjoint_length|rewrite length_seq; reflexivity].
  intros i Hi. rewrite (Hdis i Hi). discriminate.
Qed.

Lemma free_cells_le E d f : (free_cells E d f <= N E)%nat.
Proof.
  unfold free_cells. etransitivity; [apply length_filter|]. rewrite length_seq. lia.
Qed.

Lemma deeper_below E d f k d' f' k' st :
  (card d <= card d')%nat -> (card f <= card f')%nat ->
  k' = k - (Z.of_nat (card d') - Z.of_nat (card d)) ->
  deeper E d' f' k' st -> deeper E d f k st.
Proof. unfold deeper. intros H1 H2 -> (H3 & H4 & H5 & -> & H6). lia. Qed.

Section Measure.

Variable E : env.
Hypothesis HE : env_ok E.

(** [min_separator] answers [true] only when the flow fits the budget
    left, so that no budget below 0 gets past it. *)
Lemma min_separator_budget d f k sep :
  min_separator E d f k = Returned (Some sep) -> 0 <= k.
Proof.
  unfold min_separator. intros H.
  pose proof (patch_forced_length E d f (patch_deleted E d (Flow.base_cap (flow E)))) as Hlen.
  rewrite patch_deleted_length, (fw_cap _ (eo_flow _ HE)) in Hlen.
  destruct (patch_forced E d f _) as [cap ok]. cbn [fst] in Hlen.
  destruct ok; cbn [negb] in H; [|discriminate].
  destruct (maxflow_limit_spec (flow E) (eo_flow _ HE) (SRC E) (SNK E)) with
    (cap := cap) (limit := int_wrap (k + 1)) as (fl & cap' & Hmf & Hfl & _).
  - rewrite (eo_n _ HE), (eo_nodes _ HE), (eo_src _ HE). lia.
  - rewrite (eo_n _ HE), (eo_nodes _ HE), (eo_snk _ HE). lia.
  - assumption.
  - rewrite (bind_Returned_l _ _ _ Hmf) in H.
    destruct (Z.ltb_spec k fl); [discriminate|lia].
Qed.

(** A call of [dfs] returns, and the states it enters in [visited_states]
    are its own and states below it. *)
Lemma dfs_measure depth :
  forall d f k s,
  state_ok E d f -> (free_cells E d f < depth)%nat ->
  exists s' new,
    dfs E depth d f k s = Returned s'
    /\ visited_states s' = new ++ visited_states s
    /\ Forall (fun st => st = mkState d f k \/ deeper E d f k st) new.
Proof.
  induction depth as [|depth IH]; intros d f k s Hst Hfree; [lia|].
  cbn [dfs]. destruct (existsb _ _); [exists s, []; auto|].
  cbn [visited_states cur_best_area best_walls].
  assert (forall s0, visited_states s0 = mkState d f k :: visited_states s ->
            exists s' new,
              Returned s0 = Returned s'
              /\ visited_states s' = new ++ visited_states s
              /\ Forall (fun st => st = mkState d f k \/ deeper E d f k st) new) as Hret.
  { intros s0 Hs0. exists s0, [mkState d f k]. split; [reflexivity|].
    split; [exact Hs0|]. constructor; [left; reflexivity|constructor]. }
  destruct (bfs_reachable_total E (eo_adj _ HE) (eo_cells _ HE) d) as [[[vis ub] esc] Hb1].
  rewrite (bind_Returned_l _ _ _ Hb1).
  destruct (ub <=? cur_best_area s)%nat; [apply Hret; reflexivity|].
  destruct (negb (Bitset.subset_of f vis)); [apply Hret; reflexivity|].
  destruct (min_separator_total E HE d f k) as [[sep|] Hm];
    rewrite (bind_Returned_l _ _ _ Hm); [|apply Hret; reflexivity].
  destruct (bfs_reachable_total E (eo_adj _ HE) (eo_cells _ HE) (Bitset.union d sep))
    as [[[vis2 area2] esc2] Hb2].
  rewrite (bind_Returned_l _ _ _ Hb2).
  set (s1 := if negb esc2 && (cur_best_area s <? area2)%nat
             then mkSearch (mkState d f k :: visited_states s) area2 (Bitset.union d sep)
             else mkSearch (mkState d f k :: visited_states s) (cur_best_area s)
                    (best_walls s)).
  assert (visited_states s1 = mkState d f k :: visited_states s) as Hs1
    by (unfold s1; destruct (negb esc2 && (cur_best_area s <? area2)%nat); reflexivity).
  destruct ((k =? 0) || Bitset.empty sep) eqn:Hstop; [apply Hret; exact Hs1|].
  destruct (Bitset.first_set_bit sep) as [v|] eqn:Hv; [|apply Hret; exact Hs1].
  apply orb_false_iff in Hstop as [Hk0%Z.eqb_neq _].
  pose proof (min_separator_budget _ _ _ _ Hm) as Hk.
  destruct (separator_bit E _ _ _ _ _ Hm Hv) as (_ & Hlt & _ & Hdv & Hfv).
  pose proof (state_ok_force E _ _ _ _ _ Hst Hm Hv) as Hst1.
  pose proof (state_ok_delete E _ _ _ _ _ Hst Hm Hv) as Hst2.
  pose proof (free_cells_force E d f v (so_forced _ _ _ Hst) Hlt Hdv Hfv).
  pose proof (free_cells_delete E d f v (so_deleted _ _ _ Hst) Hlt Hdv Hfv).
  pose proof (card_set _ _ _ (so_forced _ _ _ Hst) Hlt Hfv) as Hcf.
  pose proof (card_set _ _ _ (so_deleted _ _ _ Hst) Hlt Hdv) as Hcd.
  pose proof (card_disjoint _ _ _ (so_deleted _ _ _ Hst1) (so_forced _ _ _ Hst1)
                (so_disjoint _ _ _ Hst1)) as Hn1.
  pose proof (card_disjoint _ _ _ (so_deleted _ _ _ Hst2) (so_forced _ _ _ Hst2)
                (so_disjoint _ _ _ Hst2)) as Hn2.
  destruct (IH d (Bitset.set f v) k s1 Hst1) as (s2 & new1 & Hd1 & Hv1 & Hnew1); [lia|].
  rewrite (bind_Returned_l _ _ _ Hd1).
  destruct (IH (Bitset.set d v) f (k - 1) s2 Hst2) as (s3 & new2 & Hd2 & Hv2 & Hnew2);
    [lia|].
  exists s3, (new2 ++ new1 ++ [mkState d f k]). split; [exact Hd2|]. split.
  { rewrite Hv2, Hv1, Hs1, <- !app_assoc. reflexivity. }
  apply Forall_app. split; [|apply Forall_app; split].
  - eapply Forall_impl; [exact Hnew2|]. intros st [->|Hdeep]; right.
    + unfold deeper. cbn [deleted forced k_rem]. lia.
    + apply (deeper_below E d f k _ _ _ st) in Hdeep; [exact Hdeep|lia|lia|lia].
  - eapply Forall_impl; [exact Hnew1|]. intros st [->|Hdeep]; right.
    + unfold deeper. cbn [deleted forced k_rem]. lia.
    + apply (deeper_below E d f k _ _ _ st) in Hdeep; [exact Hdeep|lia|lia|lia].
  - constructor; [left; reflexivity|constructor].
Qed.

End Measure.

(** * Rows of unequal length

    [solve] takes the number of columns from the first row and reads every
    row up to there: what a longer row holds beyond is never looked at. *)

Lemma substring_whole s : String.substring 0 (String.length s) s = s.
Proof. induction s as [|a s IH]; [reflexivity|]. cbn. rewrite IH. reflexivity. Qed.

Lemma crop_shape (g : grid) : rows (crop g) = rows g /\ cols (crop g) = cols g.
Proof.
  unfold rows, cols, crop. split; [rewrite length_map; reflexivity|].
  destruct g as [|row0 g']; [reflexivity|]. cbn. rewrite substring_whole. reflexivity.
Qed.

Lemma grid_at_crop (g : grid) r c :
  Forall (fun row => (String.length (default ""%string (g !! 0%nat))
                      <= String.length row)%nat) g ->
  in_bounds (rows g) (cols g) (r, c) ->
  grid_at (crop g) r c = grid_at g r c.
Proof.
  intros Hlen [Hr Hc]. unfold rows, cols in Hr, Hc. cbn [fst snd] in Hr, Hc.
  unfold grid_at. destruct ((r <? 0) || (c <? 0)); [reflexivity|].
  change (crop g)
    with (String.substring 0 (String.length (default ""%string (g !! 0%nat))) <$> g).
  unfold grid in *. rewrite list_lookup_fmap.
  destruct (lookup_lt_is_Some_2 g (Z.to_nat r)) as [row Hrow]; [lia|].
  rewrite Hrow. cbn [fmap option_fmap option_map].
  pose proof (Forall_lookup_1 _ _ _ _ Hlen Hrow) as Hw. cbn beta in Hw.
  rewrite substring_correct1 by lia. rewrite Nat.add_0_r.
  destruct (lookup_lt_is_Some_2 (list_ascii_of_string row) (Z.to_nat c)) as [ch Hch];
    [rewrite length_list_ascii; lia|].
  rewrite string_get_lookup, Hch. reflexivity.
Qed.

Section SameCells.

Variables (g g' : grid) (R C : Z).
Hypothesis Hsame : forall p, in_bounds R C p -> grid_at g p.1 p.2 = grid_at g' p.1 p.2.

Lemma same_at r c : 0 <= r < R -> 0 <= c < C -> grid_at g r c = grid_at g' r c.
Proof. intros Hr Hc. apply (Hsame (r, c)). split; assumption. Qed.

Lemma find_in_row_same r cs :
  0 <= r < R -> (forall c, c ∈ cs -> 0 <= c < C) ->
  find_in_row g r cs = find_in_row g' r cs.
Proof.
  intros Hr. induction cs as [|c cs IH]; intros Hcs; [reflexivity|].
  cbn [find_in_row]. rewrite (same_at r c) by (try lia; apply Hcs; left).
  rewrite IH; [reflexivity|]. intros c' Hc'. apply Hcs. right. exact Hc'.
Qed.

Lemma find_horse_same : find_horse g R C = find_horse g' R C.
Proof.
  unfold find_horse.
  assert (forall rs, (forall r, r ∈ rs -> 0 <= r < R) ->
            find_in_rows g C rs = find_in_rows g' C rs) as Hgen.
  { induction rs as [|r rs IH]; intros Hrs; [reflexivity|]. cbn [find_in_rows].
    rewrite (find_in_row_same r (seqZ 0 C)).
    - rewrite IH; [reflexivity|]. intros r' Hr'. apply Hrs. right. exact Hr'.
    - apply Hrs. left.
    - intros c Hc. apply elem_of_seqZ in Hc. lia. }
  apply Hgen. intros r Hr. apply elem_of_seqZ in Hr. lia.
Qed.

Lemma visit_dirs_same r c ds :
  forall st, visit_dirs g R C r c ds st = visit_dirs g' R C r c ds st.
Proof.
  induction ds as [|[dr dc] ds IH]; intros st; [reflexivity|]. cbn [visit_dirs].
  destruct ((r + dr <? 0) || (R <=? r + dr) || (c + dc <? 0) || (C <=? c + dc)) eqn:Hout;
    [apply IH|].
  rewrite !orb_false_iff, !Z.ltb_ge, !Z.leb_gt in Hout.
  rewrite (same_at (r + dr) (c + dc)) by lia.
  destruct (grid_at g' (r + dr) (c + dc)) as [ch| | |]; try reflexivity.
  unfold mbind, outcome_bind, obind.
  destruct (negb (is_open_cell ch)); [apply IH|].
  destruct (idx_of st !! key (r + dr) (c + dc)); apply IH.
Qed.

Lemma index_loop_same fuel :
  forall st, index_loop fuel g R C st = index_loop fuel g' R C st.
Proof.
  induction fuel as [|fuel IH]; intros st; [reflexivity|]. cbn [index_loop].
  destruct (queue st) as [|[r c] q']; [reflexivity|].
  rewrite visit_dirs_same.
  destruct (visit_dirs g' R C r c dirs _) as [st1| | |]; try reflexivity.
  unfold mbind, outcome_bind, obind. apply IH.
Qed.

Lemma scan_cells_same idx cs :
  Forall (in_bounds R C) cs ->
  forall i tb, scan_cells g R C idx i cs tb = scan_cells g' R C idx i cs tb.
Proof.
  induction cs as [|[r c] cs IH]; intros Hcs i tb; [reflexivity|].
  apply Forall_cons in Hcs as [Hrc Hcs]. cbn [scan_cells].
  rewrite (same_at r c) by apply Hrc.
  destruct (grid_at g' r c) as [ch| | |]; try reflexivity.
  unfold mbind, outcome_bind, obind. apply IH. exact Hcs.
Qed.

End SameCells.

(** Two grids with as many rows, first rows of equal length and the same
    characters within that many columns are the same grid to [solve]. *)
Lemma graph_of_same (g g' : grid) :
  rows g = rows g' -> cols g = cols g' ->
  (forall p, in_bounds (rows g) (cols g) p -> grid_at g p.1 p.2 = grid_at g' p.1 p.2) ->
  graph_of g = graph_of g'.
Proof.
  intros HR HC Hsame. unfold graph_of. unfold rows, cols in *.
  unfold grid in *.
  destruct (g !! 0%nat) as [row0|] eqn:H0, (g' !! 0%nat) as [row0'|] eqn:H0';
    cbn [default from_option id] in *.
  - rewrite <- HR, <- HC.
    set (R := Z.of_nat (length g)) in *. set (C := Z.of_nat (String.length row0)) in *.
    rewrite (find_horse_same g g' R C Hsame).
    unfold mbind, outcome_bind, obind.
    destruct (find_horse g' R C) as [[[hr hc]|]| | |] eqn:Hfh; try reflexivity.
    unfold index_cells. rewrite (index_loop_same g g' R C Hsame).
    destruct (index_loop _ g' R C _) as [ix| | |] eqn:Hix; try reflexivity.
    cbv beta iota.
    unfold build_tables. rewrite (scan_cells_same g g' R C Hsame); [reflexivity|].
    apply (index_loop_pred g' R C (in_bounds R C) _) with (2 := Hix).
    + intros p d _ _ Hb _. exact Hb.
    + cbn [coords]. apply Forall_singleton. apply (find_horse_Some _ _ _ _ _ Hfh).
    + cbn [coords queue]. auto.
  - apply lookup_ge_None in H0'. destruct g as [|r0 g0]; [discriminate|].
    cbn in HR. lia.
  - apply lookup_ge_None in H0. destruct g' as [|r0 g0]; [discriminate|].
    cbn in HR. lia.
  - reflexivity.
Qed.

(** [solve] on a grid whose rows are at least as long as the first is
    [solve] on the grid cut to the length of the first row. *)
Lemma solve_crop k (g : grid) :
  Forall (fun row => (String.length (default ""%string (g !! 0%nat))
                      <= String.length row)%nat) g ->
  solve k g = solve k (crop g).
Proof.
  intros Hlen. unfold solve. destruct (crop_shape g) as [HR HC].
  rewrite (graph_of_same g (crop g)); [reflexivity|congruence|congruence|].
  intros [r c] Hb. symmetry. apply grid_at_crop; assumption.
Qed.

(** * The largest budget without overflow *)

(** More rounds than [maxflow_limit] needs change nothing. *)
Lemma flow_loop_more_rounds ft s t limit n :
  forall m cap flow r,
  Flow.flow_loop n ft s t limit cap flow = Returned r ->
  Flow.flow_loop (n + m) ft s t limit cap flow = Returned r.
Proof.
  induction n as [|n IH]; intros m cap flow r H.
  - cbn [Flow.flow_loop] in H. destruct (flow <? limit) eqn:Hlt; [discriminate|].
    destruct m; cbn [Nat.add Flow.flow_loop]; rewrite Hlt; exact H.
  - cbn [Nat.add Flow.flow_loop] in *. destruct (flow <? limit); [|exact H].
    destruct (Flow.bfs_loop _ _ _ _ _ _) as [parent| | |]; try discriminate.
    unfold mbind, outcome_bind, obind in *.
    destruct (is_unseen (parent !!! t)); [exact H|].
    destruct (Flow.augment _ _ _ _ _ _) as [cap1| | |]; try discriminate.
    apply IH. exact H.
Qed.

Lemma dfs_area_mono E depth :
  forall d f k s s',
  dfs E depth d f k s = Returned s' -> (cur_best_area s <= cur_best_area s')%nat.
Proof.
  induction depth as [|depth IH]; intros d f k s s' Hd; [discriminate|].
  cbn [dfs] in Hd.
  destruct (existsb _ _); [injection Hd as <-; reflexivity|].
  cbn [visited_states cur_best_area best_walls] in Hd.
  obind Hd. destruct a as [[vis_now ub_area] esc].
  destruct (ub_area <=? cur_best_area s)%nat; [injection Hd as <-; reflexivity|].
  destruct (negb (Bitset.subset_of f vis_now)); [injection Hd as <-; reflexivity|].
  obind Hd. destruct a as [sep|]; [|injection Hd as <-; reflexivity].
  obind Hd. destruct a as [[vis2 area2] escapes2].
  set (s1 := if negb escapes2 && (cur_best_area s <? area2)%nat
             then mkSearch _ area2 (Bitset.union d sep)
             else mkSearch _ (cur_best_area s) (best_walls s)) in Hd.
  assert (cur_best_area s <= cur_best_area s1)%nat as Hs1.
  { unfold s1. destruct (negb escapes2); cbn [andb]; [|reflexivity].
    destruct (Nat.ltb_spec (cur_best_area s) area2); cbn; lia. }
  destruct ((k =? 0) || Bitset.empty sep); [injection Hd as <-; exact Hs1|].
  destruct (Bitset.first_set_bit sep) as [v|]; [|injection Hd as <-; exact Hs1].
  obind Hd. apply IH in Hd. apply IH in Ha2. lia.
Qed.

Section RootCall.

Variable E : env.

(** [min_separator], given the rounds its flow takes. *)
Lemma min_separator_rounds d f k n cap fl cap' can :
  patch_forced E d f (patch_deleted E d (Flow.base_cap (flow E))) = (cap, true) ->
  Flow.flow_loop n (flow E) (SRC E) (SNK E) (int_wrap (k + 1)) cap 0 = Returned (fl, cap') ->
  (n <= Z.to_nat (int_wrap (k + 1)))%nat -> fl <= k ->
  residual_reachable E cap' = Returned can ->
  min_separator E d f k = Returned (Some (extract_sep E d f can)).
Proof.
  intros Hp Hfl Hn Hk Hcan. unfold min_separator. rewrite Hp. cbn [negb].
  unfold Flow.maxflow_limit.
  replace (Z.to_nat (int_wrap (k + 1)))
    with (n + (Z.to_nat (int_wrap (k + 1)) - n))%nat by lia.
  rewrite (flow_loop_more_rounds _ _ _ _ _ _ _ _ _ Hfl).
  unfold mbind, outcome_bind, obind.
  destruct (Z.ltb_spec k fl); [lia|].
  rewrite Hcan. reflexivity.
Qed.

(** A call that gets past the pruning tests and whose separator encloses
    the horse leaves at least the enclosed area recorded. *)
Lemma dfs_records_enclosure depth d f k s s' vis ub esc sep vis2 area2 :
  dfs E (S depth) d f k s = Returned s' ->
  existsb (State_eqb (mkState d f k)) (visited_states s) = false ->
  bfs_reachable E d = Returned (vis, ub, esc) ->
  (cur_best_area s < ub)%nat -> Bitset.subset_of f vis = true ->
  min_separator E d f k = Returned (Some sep) ->
  bfs_reachable E (Bitset.union d sep) = Returned (vis2, area2, false) ->
  (area2 <= cur_best_area s')%nat.
Proof.
  intros Hd Hnew Hb1 Hub Hsub Hm Hb2. cbn [dfs] in Hd. rewrite Hnew in Hd.
  cbn [visited_states cur_best_area best_walls] in Hd.
  rewrite (bind_Returned_l _ _ _ Hb1) in Hd.
  destruct (Nat.leb_spec ub (cur_best_area s)); [lia|].
  rewrite Hsub in Hd. cbn [negb] in Hd.
  rewrite (bind_Returned_l _ _ _ Hm), (bind_Returned_l _ _ _ Hb2) in Hd.
  cbn [negb andb] in Hd.
  set (s1 := if (cur_best_area s <? area2)%nat
             then mkSearch _ area2 (Bitset.union d sep)
             else mkSearch _ (cur_best_area s) (best_walls s)) in Hd.
  assert (area2 <= cur_best_area s1)%nat as Hs1.
  { unfold s1. destruct (Nat.ltb_spec (cur_best_area s) area2); cbn; lia. }
  destruct ((k =? 0) || Bitset.empty sep); [injection Hd as <-; exact Hs1|].
  destruct (Bitset.first_set_bit sep) as [v|]; [|injection Hd as <-; exact Hs1].
  obind Hd. apply dfs_area_mono in Hd. apply dfs_area_mono in Ha. lia.
Qed.

End RootCall.

(** * Further properties of the code *)

#[global] Instance pair_le_total : Total pair_le.
Proof. intros [a1 a2] [b1 b2]. unfold pair_le. cbn. lia. Qed.

#[global] Instance pair_le_trans : Transitive pair_le.
Proof. intros [a1 a2] [b1 b2] [c1 c2]. unfold pair_le. cbn. lia. Qed.

(** X1. [solve] returns a result on every valid grid, whatever the budget: the
    indexing loop, the flood fills, the augmenting-path search, the residual
    scan and the recursion of [dfs] all finish within their iteration
    budgets. *)
Theorem solve_returns g k :
  valid_grid g = true -> exists res, solve k g = Returned res.
Proof. apply solve_total. Qed.

Lemma solve_returns_witness : exists res, solve 4 open3 = Returned res.
Proof. apply (solve_returns open3 4). reflexivity. Defined.

(** X2. On a grid with rows of equal length and no ['H'], [solve] throws the
    [runtime_error] with the message of the source, for every budget. *)
Theorem solve_horse_missing g k :
  rectangular g = true -> count_char "H"%char g = 0%nat ->
  solve k g = Thrown horse_missing.
Proof.
  intros Hrect Hcount. pose proof (rectangular_readable g Hrect) as Hread.
  unfold solve, graph_of. unfold rows, cols in Hread.
  destruct (g !! 0%nat) as [row0|] eqn:H0.
  2:{ destruct g; [discriminate|discriminate]. }
  cbn [from_option id] in Hread.
  destruct (find_horse_total _ _ _ Hread) as [[[hr hc]|] Hfh];
    rewrite (bind_Returned_l _ _ _ Hfh); [|reflexivity].
  exfalso. destruct (find_horse_Some _ _ _ _ _ Hfh) as [Hb Hh].
  assert (0 < count_char "H"%char g)%nat; [|lia].
  apply (horse_counted g hr hc); try assumption.
  unfold rows, cols. rewrite H0. exact Hb.
Qed.

Lemma solve_horse_missing_witness :
  solve 6 ["...."; ".#.."; "...."]%string = Thrown horse_missing.
Proof. apply solve_horse_missing; reflexivity. Defined.

(** X3. When the horse stands on the outermost row or column, [solve] returns
    area 0 and no walls, for every budget. *)
Theorem solve_boundary_horse g k hr hc :
  valid_grid g = true ->
  find_horse g (rows g) (cols g) = Returned (Some (hr, hc)) ->
  on_boundary (rows g) (cols g) hr hc = true ->
  solve k g = Returned (mkResult 0 []).
Proof. apply solve_on_boundary. Qed.

Lemma solve_boundary_horse_witness :
  solve 6 ["...."; "H..."; "...."]%string = Returned (mkResult 0 []).
Proof. apply (solve_boundary_horse _ 6 1 0); reflexivity. Defined.

(** X4. With a negative budget [solve] returns area 0 and no walls on every
    valid grid: the root call of [dfs] is pruned by [min_separator]. *)
Theorem solve_negative_budget g k :
  valid_grid g = true -> INT_MIN <= k < 0 ->
  solve k g = Returned (mkResult 0 []).
Proof. apply solve_below_zero. Qed.

Lemma solve_negative_budget_witness :
  solve (-3) open3 = Returned (mkResult 0 []).
Proof.
  apply solve_negative_budget; [reflexivity|]. unfold INT_MIN. lia.
Defined.

(** X5. The wall list [solve] returns is sorted in ascending lexicographic
    order and names no cell twice. *)
Theorem solve_walls_sorted g k res :
  valid_grid g = true -> solve k g = Returned res ->
  Sorted pair_le (walls res) /\ NoDup (walls res).
Proof.
  intros Hv Hs.
  destruct (solve_search _ _ _ Hs) as (ix & tb & Hg & [[_ ->]|(_ & s & Hsearch & ->)]).
  { cbn. split; constructor. }
  cbn [walls]. split; [apply Sorted_merge_sort; apply _|].
  rewrite merge_sort_Permutation, walls_of_map.
  set (E := build_env k (coords ix) tb) in *.
  pose proof (env_ok_build g k ix tb Hv Hg) as HE. fold E in HE.
  destruct (graph_of_spec g ix tb Hv Hg) as (h & _ & Hinv & _ & _).
  destruct (build_env_fields k (coords ix) tb) as (HN & _).
  fold E in HN.
  assert (walls_ok E s) as [Hwf _].
  { unfold search_from_root in Hsearch.
    eapply (dfs_walls_ok E); [exact Hsearch| |].
    - apply state_ok_root. apply (eo_cells _ HE).
    - split; cbn; [apply wf_init|]. intros i. rewrite test_init. discriminate. }
  apply NoDup_fmap_2_strong; [|eapply NoDup_set_bits; eauto].
  intros i j Hi Hj Heq.
  apply (set_bits_lt (N E)) in Hi, Hj; try assumption.
  rewrite HN in Hi, Hj.
  destruct (lookup_lt_is_Some_2 _ _ Hi) as [p Hp].
  destruct (lookup_lt_is_Some_2 _ _ Hj) as [q Hq].
  rewrite (list_lookup_total_correct _ _ _ Hp), (list_lookup_total_correct _ _ _ Hq) in Heq.
  subst q. pose proof (index_inv_NoDup _ _ _ _ _ Hinv) as Hnd.
  eapply NoDup_lookup; eauto.
Qed.

Lemma solve_walls_sorted_witness :
  Sorted pair_le [(0, 1); (1, 0); (1, 2); (2, 1)]
  /\ NoDup [(0, 1); (1, 0); (1, 2); (2, 1)].
Proof.
  apply (solve_walls_sorted open3 4 (mkResult 1 [(0, 1); (1, 0); (1, 2); (2, 1)])).
  - reflexivity.
  - vm_compute. reflexivity.
Defined.

(** X6. When [solve] reports a positive area, its walls enclose the horse as
    the drivers render it: on the grid with the walls overlaid as ['X'],
    the flood fill of [buildSolvedGrid] from the horse returns, marks no
    cell of the outermost rows and columns, and marks exactly [best_area]
    cells. *)
Theorem solve_positive_enclosed g k res :
  valid_grid g = true -> solve k g = Returned res -> (0 < best_area res)%nat ->
  encloses_area g (walls res) (best_area res).
Proof.
  intros Hv Hs Hpos.
  destruct (overlay_flood g k res Hv Hs Hpos)
    as (ix & tb & vis & bw & visited & _ & _ & _ & Hff & _ & _ & Hesc & Hcount).
  exists visited. auto.
Qed.

Lemma solve_positive_enclosed_witness :
  encloses_area open3 [(0, 1); (1, 0); (1, 2); (2, 1)] 1.
Proof.
  apply (solve_positive_enclosed open3 4 (mkResult 1 [(0, 1); (1, 0); (1, 2); (2, 1)])).
  - reflexivity.
  - vm_compute. reflexivity.
  - cbn. lia.
Defined.

(** X7. An area of 0 comes with an empty wall list: [best_walls] is only
    written together with a positive area. *)
Theorem solve_zero_no_walls g k res :
  solve k g = Returned res -> best_area res = 0%nat -> walls res = [].
Proof. apply solve_zero_walls. Qed.

Lemma solve_zero_no_walls_witness : walls (mkResult 0 []) = [].
Proof.
  apply (solve_zero_no_walls open3 0 (mkResult 0 [])).
  - vm_compute. reflexivity.
  - reflexivity.
Defined.

(** X8. When the open cells linked to the horse touch no outermost row or
    column, [solve] returns their number as the area and no walls, for
    every budget [k >= 0]. *)
Theorem solve_pre_enclosed g k h :
  valid_grid g = true -> 0 <= k ->
  find_horse g (rows g) (cols g) = Returned (Some h) ->
  (forall p, connected g (rows g) (cols g) h p ->
             on_boundary (rows g) (cols g) p.1 p.2 = false) ->
  exists cs,
    NoDup cs /\ (forall p, p ∈ cs <-> connected g (rows g) (cols g) h p)
    /\ solve k g = Returned (mkResult (length cs) []).
Proof. apply solve_isolated. Qed.

Lemma solve_pre_enclosed_witness :
  exists cs,
    NoDup cs
    /\ (forall p, p ∈ cs <-> connected walled3 (rows walled3) (cols walled3) (1, 2) p)
    /\ solve 0 walled3 = Returned (mkResult (length cs) []).
Proof.
  assert (valid_grid walled3 = true) as Hv by reflexivity.
  assert (find_horse walled3 (rows walled3) (cols walled3) = Returned (Some (1, 2)))
    as Hfh by reflexivity.
  assert (exists ix tb, graph_of walled3 = Returned (ix, tb)
                        /\ coords ix = [(1, 2); (1, 3); (1, 1)]) as (ix & tb & Hg & Hcs)
    by (eexists _, _; split; vm_compute; reflexivity).
  apply (solve_pre_enclosed walled3 0 (1, 2) Hv); [lia|exact Hfh|].
  intros p Hp. apply (coords_connected walled3 ix tb (1, 2) Hv Hg Hfh) in Hp.
  rewrite Hcs in Hp.
  repeat (apply elem_of_cons in Hp as [->|Hp]); try reflexivity. inversion Hp.
Defined.

(** X9. With budget 0, [solve] answers with the number of open cells linked
    to the horse and no walls when none of those cells lies on the
    outermost rows and columns, and with area 0 and no walls otherwise. *)
Theorem solve_no_budget g h :
  valid_grid g = true ->
  find_horse g (rows g) (cols g) = Returned (Some h) ->
  exists cs,
    NoDup cs /\ (forall p, p ∈ cs <-> connected g (rows g) (cols g) h p)
    /\ solve 0 g
       = Returned (if forallb (fun p : Z * Z =>
                                 negb (on_boundary (rows g) (cols g) p.1 p.2)) cs
                   then mkResult (length cs) [] else mkResult 0 []).
Proof. apply solve_unaided. Qed.

Lemma solve_no_budget_witness :
  exists cs,
    NoDup cs /\ (forall p, p ∈ cs <-> connected open3 (rows open3) (cols open3) (1, 1) p)
    /\ solve 0 open3
       = Returned (if forallb (fun p : Z * Z =>
                                 negb (on_boundary (rows open3) (cols open3) p.1 p.2)) cs
                   then mkResult (length cs) [] else mkResult 0 []).
Proof. apply (solve_no_budget open3 (1, 1)); reflexivity. Defined.

(** X10. [solve] never returns more walls than the budget allows, as long as
    [k + 1] is an [int]. *)
Theorem solve_within_budget g k res :
  valid_grid g = true -> 0 <= k < INT_MAX -> solve k g = Returned res ->
  Z.of_nat (length (walls res)) <= k.
Proof. apply solve_budget. Qed.

Lemma solve_within_budget_witness :
  Z.of_nat (length [(0, 1); (1, 0); (1, 2); (2, 1)]) <= 4.
Proof.
  apply (solve_within_budget open3 4 (mkResult 1 [(0, 1); (1, 0); (1, 2); (2, 1)])).
  - reflexivity.
  - unfold INT_MAX. lia.
  - vm_compute. reflexivity.
Defined.

(** ** DynamicBitset *)

(** X11. [set] turns the bit of its index on and [reset] turns it off; no other
    index changes. *)
Theorem bitset_set_reset_test n b i j :
  wf_bitset n b -> (i < n)%nat ->
  Bitset.test (Bitset.set b i) j = bool_decide (i = j) || Bitset.test b j
  /\ Bitset.test (Bitset.reset b i) j
     = negb (bool_decide (i = j)) && Bitset.test b j.
Proof.
  intros Hb Hi. split; [apply (test_set n)|apply (test_reset n)]; assumption.
Qed.

Lemma bitset_set_reset_test_witness :
  Bitset.test (Bitset.set (Bitset.init 70) 65) 65
  = bool_decide (65 = 65)%nat || Bitset.test (Bitset.init 70) 65
  /\ Bitset.test (Bitset.reset (Bitset.init 70) 65) 65
     = negb (bool_decide (65 = 65)%nat) && Bitset.test (Bitset.init 70) 65.
Proof. apply (bitset_set_reset_test 70); [apply wf_init|lia]. Defined.

(** X12. [operator|] (and [or_with]) and [operator&] are the union and the
    intersection of the two index sets. *)
Theorem bitset_union_inter_test n a b i :
  wf_bitset n a -> wf_bitset n b ->
  Bitset.test (Bitset.union a b) i = Bitset.test a i || Bitset.test b i
  /\ Bitset.test (Bitset.inter a b) i = Bitset.test a i && Bitset.test b i.
Proof.
  intros Ha Hb. split; [apply (test_union n)|apply (test_inter n)]; assumption.
Qed.

Lemma bitset_union_inter_test_witness :
  Bitset.test (Bitset.union (Bitset.set (Bitset.init 70) 3) (Bitset.init 70)) 3
  = Bitset.test (Bitset.set (Bitset.init 70) 3) 3 || Bitset.test (Bitset.init 70) 3
  /\ Bitset.test (Bitset.inter (Bitset.set (Bitset.init 70) 3) (Bitset.init 70)) 3
     = Bitset.test (Bitset.set (Bitset.init 70) 3) 3 && Bitset.test (Bitset.init 70) 3.
Proof.
  apply (bitset_union_inter_test 70); [apply wf_set; [apply wf_init|lia]|apply wf_init].
Defined.

(** X13. [subset_of] answers whether every index of the bitset is an index of
    [sup], and [intersects] whether the two bitsets share an index. *)
Theorem bitset_subset_intersects n a b :
  wf_bitset n a -> wf_bitset n b ->
  (Bitset.subset_of a b = true
   <-> forall i, Bitset.test a i = true -> Bitset.test b i = true)
  /\ (Bitset.intersects a b = true
      <-> exists i, Bitset.test a i = true /\ Bitset.test b i = true).
Proof.
  intros Ha Hb. split; [apply (subset_of_spec n); assumption|].
  apply (intersects_spec n). exact Ha.
Qed.

Lemma bitset_subset_intersects_witness :
  (Bitset.subset_of (Bitset.init 70) (Bitset.set (Bitset.init 70) 65) = true
   <-> forall i, Bitset.test (Bitset.init 70) i = true ->
                 Bitset.test (Bitset.set (Bitset.init 70) 65) i = true)
  /\ (Bitset.intersects (Bitset.init 70) (Bitset.set (Bitset.init 70) 65) = true
      <-> exists i, Bitset.test (Bitset.init 70) i = true
                    /\ Bitset.test (Bitset.set (Bitset.init 70) 65) i = true).
Proof.
  apply (bitset_subset_intersects 70); [apply wf_init|apply wf_set; [apply wf_init|lia]].
Defined.

(** X14. [popcount] is the number of indices below [nbits] that are set. *)
Theorem bitset_popcount_count n b :
  wf_bitset n b ->
  Bitset.popcount b
  = length (filter (fun i => Bitset.test b i = true) (seq 0 n)).
Proof.
  intros Hb. rewrite (popcount_card n), (card_filter n) by assumption. reflexivity.
Qed.

Lemma bitset_popcount_count_witness :
  Bitset.popcount (Bitset.set (Bitset.init 70) 65)
  = length (filter (fun i => Bitset.test (Bitset.set (Bitset.init 70) 65) i = true)
              (seq 0 70)).
Proof.
  apply (bitset_popcount_count 70). apply wf_set; [apply wf_init|lia].
Defined.

(** X15. [for_each_set_bit] calls [f] once for every set index, in ascending
    order of the indices. *)
Theorem for_each_set_bit_ascending {S : Type} n b (f : S -> nat -> S) (s : S) :
  wf_bitset n b ->
  Bitset.for_each_set_bit b f s
  = fold_left f (filter (fun i => Bitset.test b i = true) (seq 0 n)) s.
Proof.
  intros Hb. unfold Bitset.for_each_set_bit. rewrite (set_bits_filter n) by assumption.
  reflexivity.
Qed.

Lemma for_each_set_bit_ascending_witness :
  Bitset.for_each_set_bit (Bitset.set (Bitset.set (Bitset.init 70) 65) 3)
    (fun l i => l ++ [i]) []
  = fold_left (fun l i => l ++ [i])
      (filter (fun i => Bitset.test (Bitset.set (Bitset.set (Bitset.init 70) 65) 3) i
                        = true) (seq 0 70)) [].
Proof.
  apply (for_each_set_bit_ascending 70).
  apply wf_set; [apply wf_set; [apply wf_init|lia]|lia].
Defined.

(** X16. [first_set_bit] returns the least set index, and [-1] exactly when no
    index is set, which is exactly when [empty] holds: after [empty] has
    answered false, [first_set_bit] finds an index. *)
Theorem first_set_bit_least_index n b :
  wf_bitset n b ->
  match Bitset.first_set_bit b with
  | Some v =>
      (v < n)%nat /\ Bitset.test b v = true
      /\ forall i, Bitset.test b i = true -> (v <= i)%nat
  | None => forall i, Bitset.test b i = false
  end
  /\ (Bitset.empty b = true <-> Bitset.first_set_bit b = None).
Proof.
  intros Hb. rewrite (empty_spec n b Hb).
  destruct (Bitset.first_set_bit b) as [v|] eqn:Hf.
  - destruct (first_set_bit_spec n b v Hb Hf) as [Hlt Ht].
    split; [|split; [intros He; rewrite He in Ht|]; discriminate].
    split; [exact Hlt|]. split; [exact Ht|].
    intros i Hi. apply (first_set_bit_least n b v i Hb Hf Hi).
  - pose proof (first_set_bit_None n b Hb Hf) as Hn. split; [exact Hn|]. split; auto.
Qed.

Lemma first_set_bit_least_index_witness :
  match Bitset.first_set_bit (Bitset.set (Bitset.set (Bitset.init 70) 65) 3) with
  | Some v =>
      (v < 70)%nat
      /\ Bitset.test (Bitset.set (Bitset.set (Bitset.init 70) 65) 3) v = true
      /\ forall i, Bitset.test (Bitset.set (Bitset.set (Bitset.init 70) 65) 3) i = true ->
                   (v <= i)%nat
  | None => forall i, Bitset.test (Bitset.set (Bitset.set (Bitset.init 70) 65) 3) i = false
  end
  /\ (Bitset.empty (Bitset.set (Bitset.set (Bitset.init 70) 65) 3) = true
      <-> Bitset.first_set_bit (Bitset.set (Bitset.set (Bitset.init 70) 65) 3) = None).
Proof.
  apply (first_set_bit_least_index 70).
  apply wf_set; [apply wf_set; [apply wf_init|lia]|lia].
Defined.

(** X17. [operator==] holds exactly when two bitsets over the same index space
    have the same set indices. *)
Theorem bitset_equality_test n a b :
  wf_bitset n a -> wf_bitset n b ->
  Bitset.eqb a b = true <-> forall i, Bitset.test a i = Bitset.test b i.
Proof. apply bitset_eqb_spec. Qed.

Lemma bitset_equality_test_witness :
  Bitset.eqb (Bitset.reset (Bitset.set (Bitset.init 70) 65) 65) (Bitset.init 70) = true
  <-> forall i, Bitset.test (Bitset.reset (Bitset.set (Bitset.init 70) 65) 65) i
                = Bitset.test (Bitset.init 70) i.
Proof.
  apply (bitset_equality_test 70); [|apply wf_init].
  apply wf_reset; [apply wf_set; [apply wf_init|lia]|lia].
Defined.

(** ** FlowTemplate *)

(** X18. [add_edge] keeps the template well formed and returns the id of the
    new edge from [u] to [v] with capacity [c]; the edge after it is its
    reverse, from [v] to [u] with capacity 0. *)
Theorem add_edge_well_formed ft u v c :
  flow_wf ft -> (u < Flow.n ft)%nat -> (v < Flow.n ft)%nat ->
  let r := Flow.add_edge ft u v c in
  flow_wf r.1
  /\ r.2 = length (Flow.to ft)
  /\ Flow.frm r.1 !! r.2 = Some u /\ Flow.to r.1 !! r.2 = Some v
  /\ Flow.base_cap r.1 !! r.2 = Some c
  /\ Flow.rev r.1 !! r.2 = Some (S r.2)
  /\ Flow.frm r.1 !! S r.2 = Some v /\ Flow.to r.1 !! S r.2 = Some u
  /\ Flow.base_cap r.1 !! S r.2 = Some 0
  /\ Flow.rev r.1 !! S r.2 = Some r.2.
Proof.
  intros Hwf Hu Hv r.
  destruct (add_edge_fields ft u v c) as (Hidx & _ & Hto & Hfrm & Hrev & Hcap).
  fold r in Hidx, Hto, Hfrm, Hrev, Hcap.
  split; [apply add_edge_wf; assumption|]. split; [exact Hidx|].
  rewrite Hidx, Hto, Hfrm, Hrev, Hcap.
  pose proof (fw_frm ft Hwf) as H1. pose proof (fw_rev ft Hwf) as H2.
  pose proof (fw_cap ft Hwf) as H3.
  repeat split.
  - rewrite lookup_app_r by lia. rewrite H1, Nat.sub_diag. reflexivity.
  - rewrite lookup_app_r by lia. rewrite Nat.sub_diag. reflexivity.
  - rewrite lookup_app_r by lia. rewrite H3, Nat.sub_diag. reflexivity.
  - rewrite lookup_app_r by lia. rewrite H2, Nat.sub_diag. reflexivity.
  - rewrite lookup_app_r by lia. rewrite H1.
    replace (S (length (Flow.to ft)) - length (Flow.to ft))%nat with 1%nat by lia.
    reflexivity.
  - rewrite lookup_app_r by lia.
    replace (S (length (Flow.to ft)) - length (Flow.to ft))%nat with 1%nat by lia.
    reflexivity.
  - rewrite lookup_app_r by lia. rewrite H3.
    replace (S (length (Flow.to ft)) - length (Flow.to ft))%nat with 1%nat by lia.
    reflexivity.
  - rewrite lookup_app_r by lia. rewrite H2.
    replace (S (length (Flow.to ft)) - length (Flow.to ft))%nat with 1%nat by lia.
    reflexivity.
Qed.

Lemma add_edge_well_formed_witness :
  let r := Flow.add_edge (Flow.create 3) 0 2 5 in
  flow_wf r.1
  /\ r.2 = length (Flow.to (Flow.create 3))
  /\ Flow.frm r.1 !! r.2 = Some 0%nat /\ Flow.to r.1 !! r.2 = Some 2%nat
  /\ Flow.base_cap r.1 !! r.2 = Some 5
  /\ Flow.rev r.1 !! r.2 = Some (S r.2)
  /\ Flow.frm r.1 !! S r.2 = Some 2%nat /\ Flow.to r.1 !! S r.2 = Some 0%nat
  /\ Flow.base_cap r.1 !! S r.2 = Some 0
  /\ Flow.rev r.1 !! S r.2 = Some r.2.
Proof.
  apply (add_edge_well_formed (Flow.create 3) 0 2 5);
    [apply flow_create_wf|cbn; lia|cbn; lia].
Defined.

(** X19. [maxflow_limit] returns on every well-formed template whose
    capacities are non-negative [int]s that add up to an [int] on every
    edge and its reverse, so that no [+= 1] of an augmentation leaves the
    [int] range.  The flow it reports lies between 0 and the limit, every
    edge and its reverse keep the sum of their capacities, every capacity
    stays between 0 and [INT_MAX], and the flow is conserved: the reported
    amount leaves the source and enters the sink, and every other node
    passes on what it receives.  A flow below the limit is maximum: no
    path of edges with capacity left leads from the source to the sink. *)
Theorem maxflow_limit_flow ft s t cap limit :
  flow_wf ft -> (s < Flow.n ft)%nat -> (t < Flow.n ft)%nat ->
  length cap = length (Flow.to ft) ->
  nonneg_caps cap -> caps_fit ft cap -> int_range limit ->
  exists f cap',
    Flow.maxflow_limit ft s t cap limit = Returned (f, cap')
    /\ 0 <= f <= Z.max 0 limit
    /\ same_pairs ft cap cap'
    /\ (forall e, 0 <= getZ cap' e <= INT_MAX)
    /\ (forall u, excess ft cap cap' u = f * (indicator (u = s) - indicator (u = t)))
    /\ (f < limit -> ~ residual_path ft cap' s t).
Proof.
  intros Hwf Hs Ht Hlen Hnn Hfit _.
  destruct (maxflow_limit_spec ft Hwf s t Hs Ht cap limit Hlen)
    as (f & cap' & Hm & H0 & Hl & Hp & Hn).
  exists f, cap'. split; [exact Hm|]. split; [lia|]. split; [exact Hp|].
  unfold Flow.maxflow_limit in Hm. split; [|split].
  - intros e. pose proof (Hn Hnn) as Hnn'. split; [apply Hnn'|].
    destruct (Nat.lt_ge_cases e (length cap')) as [Hlt|Hge].
    + destruct Hp as [Hlen' Hsum]. rewrite Hlen', Hlen, <- (fw_rev _ Hwf) in Hlt.
      destruct (lookup_lt_is_Some_2 _ _ Hlt) as [r Hr].
      pose proof (Hsum e r Hr). pose proof (Hfit e r Hr). pose proof (Hnn' r). lia.
    + rewrite getZ_ge by exact Hge. unfold INT_MAX. lia.
  - intros u.
    rewrite (flow_loop_excess ft Hwf cap s t Hs _ _ Ht cap 0 f cap' Hlen Hm u).
    rewrite excess_start. ring.
  - apply (flow_loop_maximal ft s t limit _ Hwf Hs _ _ _ _ Hm).
Qed.

Lemma maxflow_limit_flow_witness :
  exists f cap',
    Flow.maxflow_limit (Flow.add_edge (Flow.create 2) 0 1 3).1 0 1 [3; 0] 2
    = Returned (f, cap')
    /\ 0 <= f <= Z.max 0 2
    /\ same_pairs (Flow.add_edge (Flow.create 2) 0 1 3).1 [3; 0] cap'
    /\ (forall e, 0 <= getZ cap' e <= INT_MAX)
    /\ (forall u, excess (Flow.add_edge (Flow.create 2) 0 1 3).1 [3; 0] cap' u
                  = f * (indicator (u = 0%nat) - indicator (u = 1%nat)))
    /\ (f < 2 -> ~ residual_path (Flow.add_edge (Flow.create 2) 0 1 3).1 cap' 0 1).
Proof.
  apply (maxflow_limit_flow (Flow.add_edge (Flow.create 2) 0 1 3).1 0 1 [3; 0] 2).
  - apply add_edge_wf; [apply flow_create_wf|cbn; lia|cbn; lia].
  - cbn. lia.
  - cbn. lia.
  - reflexivity.
  - intros [|[|e]]; unfold getZ; simpl; lia.
  - intros [|[|e]] r He; simpl in He; try discriminate;
      injection He as <-; unfold getZ, INT_MAX; simpl; lia.
  - unfold int_range, INT_MIN, INT_MAX. lia.
Defined.

(** ** The cell graph of solve *)

(** X20. The [key] closure tells the positions the loops look up apart: a
    position in the [int] range, or one step off the low side in one
    coordinate, never shares its key with a different position of the
    grid. *)
Theorem key_separates p q :
  0 <= q.1 <= INT_MAX -> 0 <= q.2 <= INT_MAX ->
  (-1 <= p.1 <= INT_MAX /\ 0 <= p.2 <= INT_MAX)
  \/ (0 <= p.1 <= INT_MAX /\ -1 <= p.2 <= INT_MAX) ->
  p <> q -> key p.1 p.2 <> key q.1 q.2.
Proof.
  intros Hq1 Hq2 Hp Hne Hkey. apply Hne.
  assert (0 <= key q.1 q.2) as Hpos.
  { rewrite key_in_range by assumption. unfold INT_MAX in *. nia. }
  destruct (Z.eq_dec p.1 (-1)) as [H1|H1].
  { pose proof (key_negative p.1 p.2). lia. }
  destruct (Z.eq_dec p.2 (-1)) as [H2|H2].
  { pose proof (key_negative p.1 p.2). lia. }
  rewrite !key_in_range in Hkey by lia.
  destruct p as [p1 p2], q as [q1 q2]. cbn [fst snd] in *.
  unfold INT_MAX in *. assert (p1 = q1) by lia. subst. f_equal. lia.
Qed.

Lemma key_separates_witness : key (2, -1).1 (2, -1).2 <> key (1, 3).1 (1, 3).2.
Proof.
  apply (key_separates (2, -1) (1, 3)); unfold INT_MAX; cbn [fst snd]; try lia.
  discriminate.
Defined.

(** X21. The horse search returns the first ['H'] in row-major order. *)
Theorem find_horse_row_major g R C hr hc :
  find_horse g R C = Returned (Some (hr, hc)) ->
  in_bounds R C (hr, hc) /\ grid_at g hr hc = Returned "H"%char
  /\ forall r c, in_bounds R C (r, c) -> r < hr \/ (r = hr /\ c < hc) ->
                 not_horse g r c.
Proof.
  intros Hf. destruct (find_horse_Some _ _ _ _ _ Hf) as [Hb Hh].
  split; [exact Hb|]. split; [exact Hh|]. apply find_horse_first. exact Hf.
Qed.

Lemma find_horse_row_major_witness :
  in_bounds 3 3 (1, 1) /\ grid_at ["..."; ".HH"; "H.."]%string 1 1 = Returned "H"%char
  /\ forall r c, in_bounds 3 3 (r, c) -> r < 1 \/ (r = 1 /\ c < 1) ->
                 not_horse ["..."; ".HH"; "H.."]%string r c.
Proof.
  apply (find_horse_row_major ["..."; ".HH"; "H.."]%string 3 3 1 1). reflexivity.
Defined.

(** X22. The cells [solve] gives an index are, without repetition, the horse
    (index 0) and the open cells linked to it by steps over open cells. *)
Theorem index_space_component g ix tb :
  valid_grid g = true -> graph_of g = Returned (ix, tb) ->
  exists h,
    find_horse g (rows g) (cols g) = Returned (Some h)
    /\ coords ix !! 0%nat = Some h
    /\ NoDup (coords ix)
    /\ forall p, p ∈ coords ix <-> connected g (rows g) (cols g) h p.
Proof.
  intros Hv Hg. destruct (graph_of_spec g ix tb Hv Hg) as (h & Hfh & Hinv & _).
  exists h. split; [exact Hfh|]. split; [apply (ii_head _ _ _ _ _ Hinv)|].
  split; [apply (index_inv_NoDup _ _ _ _ _ Hinv)|].
  apply (coords_connected g ix tb h Hv Hg Hfh).
Qed.

Lemma index_space_component_witness :
  exists ix tb,
    graph_of open3 = Returned (ix, tb)
    /\ exists h,
         find_horse open3 (rows open3) (cols open3) = Returned (Some h)
         /\ coords ix !! 0%nat = Some h
         /\ NoDup (coords ix)
         /\ forall p, p ∈ coords ix <-> connected open3 (rows open3) (cols open3) h p.
Proof.
  assert (exists ix tb, graph_of open3 = Returned (ix, tb)) as (ix & tb & Hg)
    by (eexists _, _; vm_compute; reflexivity).
  exists ix, tb. split; [exact Hg|].
  apply (index_space_component open3 ix tb open3_valid Hg).
Defined.

(** X23. The adjacency list of a cell holds the indices of the cells one step
    away from it, and nothing else. *)
Theorem adjacency_exact g ix tb i j p q :
  valid_grid g = true -> graph_of g = Returned (ix, tb) ->
  coords ix !! i = Some p -> coords ix !! j = Some q ->
  j ∈ adj tb !!! i <-> exists d, d ∈ dirs /\ q = step_of p d.
Proof.
  intros Hv Hg Hi Hj.
  destruct (graph_of_spec g ix tb Hv Hg) as (h & _ & Hinv & _ & Htb).
  destruct (valid_grid_inv g Hv) as (_ & _ & HR & HC & _).
  destruct (tk_facts _ _ _ _ _ _ Htb i p Hi) as (Hadj & _).
  rewrite (list_lookup_total_correct _ _ _ Hadj). split.
  - intros Hin.
    destruct (neighbours_sound g _ _ h ix p j HR HC Hinv
                (ii_bounds _ _ _ _ _ Hinv _ _ Hi) Hin) as (d & Hd & Hq).
    exists d. split; [exact Hd|]. unfold grid in *. congruence.
  - intros (d & Hd & ->). apply (neighbours_complete _ _ _ _ d); [exact Hd|].
    apply (ii_idx _ _ _ _ _ Hinv j _ Hj).
Qed.

Lemma adjacency_exact_witness :
  exists ix tb,
    graph_of open3 = Returned (ix, tb)
    /\ (1%nat ∈ adj tb !!! 0%nat <-> exists d, d ∈ dirs /\ (2, 1) = step_of (1, 1) d).
Proof.
  eexists _, _. split; [vm_compute; reflexivity|].
  eapply (adjacency_exact open3 _ _ 0 1 (1, 1) (2, 1) open3_valid);
    [vm_compute; reflexivity|reflexivity|reflexivity].
Defined.

(** X24. The flags of a cell: it is wallable exactly when its character is
    ['.'], and it is in the boundary set exactly when it lies on the
    outermost row or column. *)
Theorem cell_flags g ix tb i p :
  valid_grid g = true -> graph_of g = Returned (ix, tb) ->
  coords ix !! i = Some p ->
  (exists ch, grid_at g p.1 p.2 = Returned ch
              /\ wallable tb !! i = Some (Ascii.eqb ch "."%char))
  /\ Bitset.test (boundary tb) i = on_boundary (rows g) (cols g) p.1 p.2.
Proof.
  intros Hv Hg Hi.
  destruct (graph_of_spec g ix tb Hv Hg) as (h & _ & _ & _ & Htb).
  destruct (tk_facts _ _ _ _ _ _ Htb i p Hi) as (_ & Hw & Hb). auto.
Qed.

Lemma cell_flags_witness :
  exists ix tb,
    graph_of open3 = Returned (ix, tb)
    /\ (exists ch, grid_at open3 (1, 1).1 (1, 1).2 = Returned ch
                   /\ wallable tb !! 0%nat = Some (Ascii.eqb ch "."%char))
    /\ Bitset.test (boundary tb) 0
       = on_boundary (rows open3) (cols open3) (1, 1).1 (1, 1).2.
Proof.
  eexists _, _. split; [vm_compute; reflexivity|].
  eapply (cell_flags open3 _ _ 0 (1, 1) open3_valid);
    [vm_compute; reflexivity|reflexivity].
Defined.

(** ** The closures of solve *)

(** X25. [bfs_reachable] returns.  With the horse blocked it reports nothing
    visited and an escape; otherwise it visits exactly the cells reached
    from the horse along unblocked cells, counts them, and reports an
    escape exactly when one of them is a boundary cell. *)
Theorem bfs_reachable_exact E blocked :
  env_ok E ->
  exists vis area esc,
    bfs_reachable E blocked = Returned (vis, area, esc)
    /\ wf_bitset (N E) vis
    /\ area = length (filter (fun i => Bitset.test vis i = true) (seq 0 (N E)))
    /\ if Bitset.test blocked horse_idx
       then (forall x, Bitset.test vis x = false) /\ esc = true
       else (forall x, Bitset.test vis x = true <-> reaches E blocked x)
            /\ (esc = true <-> exists x, Bitset.test vis x = true
                                         /\ Bitset.test (boundary (tables E)) x = true).
Proof.
  intros HE.
  destruct (bfs_reachable_total E (eo_adj _ HE) (eo_cells _ HE) blocked)
    as [[[vis area] esc] Hb].
  exists vis, area, esc. split; [exact Hb|].
  destruct (bfs_reachable_spec E (eo_adj _ HE) (eo_cells _ HE) _ _ _ _ Hb)
    as (Hwf & Ha & Hcase).
  split; [exact Hwf|]. split.
  - rewrite Ha, (popcount_card _ _ Hwf), (card_filter _ _ Hwf). reflexivity.
  - destruct (Bitset.test blocked horse_idx).
    + destruct Hcase as [-> ->]. split; [apply test_init|reflexivity].
    + destruct Hcase as [Hr ->]. split; [exact Hr|].
      apply (intersects_spec (N E)). exact Hwf.
Qed.

Lemma bfs_reachable_exact_witness :
  exists vis area esc,
    bfs_reachable open3_env (Bitset.init (N open3_env)) = Returned (vis, area, esc)
    /\ wf_bitset (N open3_env) vis
    /\ area = length (filter (fun i => Bitset.test vis i = true) (seq 0 (N open3_env)))
    /\ if Bitset.test (Bitset.init (N open3_env)) horse_idx
       then (forall x, Bitset.test vis x = false) /\ esc = true
       else (forall x, Bitset.test vis x = true
                       <-> reaches open3_env (Bitset.init (N open3_env)) x)
            /\ (esc = true <-> exists x, Bitset.test vis x = true
                                 /\ Bitset.test (boundary (tables open3_env)) x = true).
Proof. apply (bfs_reachable_exact open3_env). apply open3_env_ok. Defined.

(** X26. A separator [min_separator] returns holds wallable cells only, none of
    them deleted or forced, and no more than [k_rem] of them: their cell
    edges are saturated edges of a cut that the reported flow crosses. *)
Theorem min_separator_sound g k ix tb d f k_rem sep :
  valid_grid g = true -> graph_of g = Returned (ix, tb) -> 0 <= k < INT_MAX ->
  wf_bitset (length (coords ix)) d -> wf_bitset (length (coords ix)) f ->
  min_separator (build_env k (coords ix) tb) d f k_rem = Returned (Some sep) ->
  Z.of_nat (card sep) <= k_rem
  /\ forall i, Bitset.test sep i = true ->
       (i < length (coords ix))%nat
       /\ wallable_at (build_env k (coords ix) tb) i = true
       /\ Bitset.test d i = false /\ Bitset.test f i = false.
Proof.
  intros Hv Hg Hk Hd Hf Hm.
  destruct (env_horse g k ix tb Hv Hg) as [_ Hw0].
  pose proof (env_ok_build g k ix tb Hv Hg) as HE.
  destruct (build_env_fields k (coords ix) tb) as (HN & _ & _ & Hi & _).
  assert (0 <= INF (build_env k (coords ix) tb)) as Hinf.
  { rewrite Hi, int_wrap_id; unfold int_range, INT_MIN, INT_MAX in *; lia. }
  rewrite <- HN in Hd, Hf. split.
  - apply (min_separator_bound k (coords ix) tb HE Hinf d f Hd Hf k_rem sep Hw0 Hm).
  - intros i Hbit. destruct (min_separator_Some _ d f k_rem sep Hm) as [can ->].
    destruct (extract_sep_spec (build_env k (coords ix) tb) d f can) as [_ Hbits].
    destruct (Hbits i Hbit) as (H1 & H2 & H3 & H4 & _). rewrite <- HN. auto.
Qed.

Lemma min_separator_sound_witness :
  exists ix tb sep,
    graph_of open3 = Returned (ix, tb)
    /\ min_separator (build_env 4 (coords ix) tb) (Bitset.init 9)
         (Bitset.set (Bitset.init 9) 0) 4 = Returned (Some sep)
    /\ Z.of_nat (card sep) <= 4
    /\ forall i, Bitset.test sep i = true ->
         (i < length (coords ix))%nat
         /\ wallable_at (build_env 4 (coords ix) tb) i = true
         /\ Bitset.test (Bitset.init 9) i = false
         /\ Bitset.test (Bitset.set (Bitset.init 9) 0) i = false.
Proof.
  assert (exists ix tb, graph_of open3 = Returned (ix, tb) /\ length (coords ix) = 9%nat
            /\ exists sep, min_separator (build_env 4 (coords ix) tb) (Bitset.init 9)
                             (Bitset.set (Bitset.init 9) 0) 4 = Returned (Some sep))
    as (ix & tb & Hg & Hlen & sep & Hm)
    by (eexists _, _; split; [vm_compute; reflexivity|];
        split; [vm_compute; reflexivity|]; eexists; vm_compute; reflexivity).
  exists ix, tb, sep. split; [exact Hg|]. split; [exact Hm|].
  apply (min_separator_sound open3 4 ix tb _ _ 4 sep open3_valid Hg);
    [unfold INT_MAX; lia| | |exact Hm].
  - rewrite Hlen. apply wf_init.
  - rewrite Hlen. apply wf_set; [apply wf_init|lia].
Defined.

(** ** The drivers *)

(** X27. Overlaying walls that all lie inside the grid, as [print_ans] and
    [buildSolvedGrid] write them, puts ['X'] at the wall positions and
    leaves every other character, and the shape of the grid, as they
    are. *)
Theorem overlay_cells g ws r c :
  Forall (fun p : Z * Z =>
            0 <= p.1 /\ 0 <= p.2
            /\ is_Some (cell g (Z.to_nat p.1) (Z.to_nat p.2))) ws ->
  cell (overlay g ws) r c
  = match cell g r c with
    | Some ch => Some (if decide ((Z.of_nat r, Z.of_nat c) ∈ ws) then "X"%char else ch)
    | None => None
    end.
Proof.
  intros Hws. apply cell_overlay.
  eapply Forall_impl; [exact Hws|]. intros p (H1 & H2 & _). auto.
Qed.

Lemma overlay_cells_witness :
  cell (overlay open3 [(0, 1); (1, 0); (2, 1)]) 0 1
  = match cell open3 0 1 with
    | Some ch =>
        Some (if decide ((Z.of_nat 0, Z.of_nat 1) ∈ [(0, 1); (1, 0); (2, 1)])
              then "X"%char else ch)
    | None => None
    end.
Proof.
  apply (overlay_cells open3 [(0, 1); (1, 0); (2, 1)] 0 1).
  repeat constructor; cbn; try lia; eexists; reflexivity.
Defined.

(** X28. The flood fill of [buildSolvedGrid] returns, and the cells it marks are
    the cells linked to the horse by steps over cells that are neither
    ['#'] nor ['X']. *)
Theorem flood_fill_marks (g : grid) row0 h :
  g !! 0%nat = Some row0 ->
  readable g (Z.of_nat (length g)) (Z.of_nat (String.length row0)) ->
  find_horse g (Z.of_nat (length g)) (Z.of_nat (String.length row0))
  = Returned (Some h) ->
  exists visited,
    flood_fill g = Returned visited
    /\ matrix_shape (Z.of_nat (length g)) (Z.of_nat (String.length row0)) visited
    /\ forall p, in_bounds (Z.of_nat (length g)) (Z.of_nat (String.length row0)) p ->
         (visited_at visited p.1 p.2 = true
          <-> flood_path g (Z.of_nat (length g)) (Z.of_nat (String.length row0)) h p).
Proof. apply flood_fill_exact. Qed.

Lemma flood_fill_marks_witness :
  exists visited,
    flood_fill [".X."; "XHX"; ".X."]%string = Returned visited
    /\ matrix_shape (Z.of_nat 3) (Z.of_nat 3) visited
    /\ forall p, in_bounds (Z.of_nat 3) (Z.of_nat 3) p ->
         (visited_at visited p.1 p.2 = true
          <-> flood_path [".X."; "XHX"; ".X."]%string (Z.of_nat 3) (Z.of_nat 3) (1, 1) p).
Proof.
  apply (flood_fill_marks [".X."; "XHX"; ".X."]%string ".X."%string (1, 1)).
  - reflexivity.
  - apply (rectangular_readable [".X."; "XHX"; ".X."]%string). reflexivity.
  - reflexivity.
Defined.

(** X29. Every row [parseGrid] returns is non-empty and holds no newline. *)
Theorem parseGrid_rows s : forallb line_row (parseGrid s) = true.
Proof. unfold parseGrid. apply getlines_rows; reflexivity. Qed.

(** X30. [parseGrid] reads back a grid written out row by row, each row
    followed by a newline, as long as no row is empty, holds a newline or
    ends in a carriage return. *)
Theorem parseGrid_unlines g :
  forallb plain_row g = true -> parseGrid (unlines g) = g.
Proof.
  intros Hg. unfold parseGrid, unlines.
  rewrite list_ascii_of_string_of_list_ascii.
  apply (getlines_unlines g [] Hg).
Qed.

Lemma parseGrid_unlines_witness : parseGrid (unlines open3) = open3.
Proof. apply (parseGrid_unlines open3). reflexivity. Defined.

(** * Properties of the result of solve *)



(** C3. For every valid grid and every budget [k >= 0] that an [int]
    holds, [solve] returns, and it returns at most [k] walls.  Below
    [INT_MAX] the walls are the deleted cells of a search state, of which
    there are [k - k_rem], and a separator of at most [k_rem] cells; at
    [INT_MAX], where [INF = k + 1] wraps, it returns no walls. *)
Theorem walls_within_budget g k :
  valid_grid g = true -> 0 <= k <= INT_MAX ->
  exists res, solve k g = Returned res /\ Z.of_nat (length (walls res)) <= k.
Proof.
  intros Hv Hk. destruct (solve_total g k Hv) as [res Hs].
  exists res. split; [exact Hs|].
  destruct (Z.eq_dec k INT_MAX) as [->|Hne].
  - rewrite (solve_int_max g res Hv Hs). cbn. lia.
  - apply (solve_budget g k res Hv); [lia|exact Hs].
Qed.

Lemma walls_within_budget_witness :
  exists res, solve 5 open3 = Returned res /\ Z.of_nat (length (walls res)) <= 5.
Proof.
  apply (walls_within_budget open3 5); [reflexivity|unfold INT_MAX; lia].
Defined.

(** C5. [solve] fails on the empty grid: it reads [grid[0]] before anything
    else, and both drivers return before they call it with no rows.  On a
    valid grid it returns area 0 and no walls when the budget is negative,
    and when the horse stands on the outermost row or column, as in a grid
    that holds only the horse. *)
Theorem degenerate_inputs k :
  int_range k ->
  solve k [] = OutOfRange
  /\ (forall g, valid_grid g = true -> k < 0 -> solve k g = Returned (mkResult 0 []))
  /\ (forall g hr hc,
        valid_grid g = true ->
        find_horse g (rows g) (cols g) = Returned (Some (hr, hc)) ->
        on_boundary (rows g) (cols g) hr hc = true ->
        solve k g = Returned (mkResult 0 [])).
Proof.
  intros [Hlo Hhi]. split; [reflexivity|]. split.
  - intros g Hv Hk. apply solve_below_zero; [exact Hv|lia].
  - intros g hr hc. apply solve_on_boundary.
Qed.

Lemma degenerate_inputs_witness :
  solve 6 [] = OutOfRange
  /\ solve (-1) open3 = Returned (mkResult 0 [])
  /\ solve 6 ["H"]%string = Returned (mkResult 0 []).
Proof.
  assert (int_range 6) as H6 by (unfold int_range, INT_MIN, INT_MAX; lia).
  assert (int_range (-1)) as H1 by (unfold int_range, INT_MIN, INT_MAX; lia).
  destruct (degenerate_inputs 6 H6) as (He & _ & Hb).
  destruct (degenerate_inputs (-1) H1) as (_ & Hn & _).
  split; [exact He|]. split.
  - apply Hn; [reflexivity|lia].
  - apply (Hb _ 0 0); reflexivity.
Defined.

(** C10. When the open cells linked to the horse touch no outermost row
    or column, the rocks already enclose the horse: for every budget
    [k >= 0], also [k = 0], [solve] returns the number of those cells as
    the area, and no walls. *)
Theorem pre_enclosed_horse g k h :
  valid_grid g = true -> 0 <= k ->
  find_horse g (rows g) (cols g) = Returned (Some h) ->
  (forall p, connected g (rows g) (cols g) h p ->
             on_boundary (rows g) (cols g) p.1 p.2 = false) ->
  exists cs,
    NoDup cs /\ (forall p, p ∈ cs <-> connected g (rows g) (cols g) h p)
    /\ solve k g = Returned (mkResult (length cs) []).
Proof. apply solve_isolated. Qed.

Lemma pre_enclosed_horse_witness :
  exists cs,
    NoDup cs
    /\ (forall p, p ∈ cs <-> connected walled3 (rows walled3) (cols walled3) (1, 2) p)
    /\ solve 5 walled3 = Returned (mkResult (length cs) []).
Proof.
  assert (valid_grid walled3 = true) as Hv by reflexivity.
  assert (find_horse walled3 (rows walled3) (cols walled3) = Returned (Some (1, 2)))
    as Hfh by reflexivity.
  assert (exists ix tb, graph_of walled3 = Returned (ix, tb)
                        /\ coords ix = [(1, 2); (1, 3); (1, 1)]) as (ix & tb & Hg & Hcs)
    by (eexists _, _; split; vm_compute; reflexivity).
  apply (pre_enclosed_horse walled3 5 (1, 2) Hv); [lia|exact Hfh|].
  intros p Hp. apply (coords_connected walled3 ix tb (1, 2) Hv Hg Hfh) in Hp.
  rewrite Hcs in Hp.
  repeat (apply elem_of_cons in Hp as [->|Hp]); try reflexivity. inversion Hp.
Defined.

(** C8. The recursion of [dfs] terminates on every valid grid: a call
    returns within the depth [solve] has cells for.  Every state the
    recursion below a call reaches (the states the call adds to
    [visited_states], its own apart) has more cells deleted or forced than
    the call, at most [N] in all, and a budget [k_rem] that is not
    negative and went down by the number of cells deleted since: a
    recursive call forces one more cell and leaves [k_rem] as it is, or
    deletes one more cell and lowers [k_rem] by one. *)
Theorem dfs_recursion_terminates g k ix tb d f kr s :
  valid_grid g = true -> graph_of g = Returned (ix, tb) ->
  state_ok (build_env k (coords ix) tb) d f ->
  exists s' new,
    dfs (build_env k (coords ix) tb) (S (N (build_env k (coords ix) tb))) d f kr s
    = Returned s'
    /\ visited_states s' = new ++ visited_states s
    /\ Forall (fun st => st = mkState d f kr
                         \/ deeper (build_env k (coords ix) tb) d f kr st) new.
Proof.
  intros Hv Hg Hst.
  apply (dfs_measure _ (env_ok_build g k ix tb Hv Hg)); [exact Hst|].
  pose proof (free_cells_le (build_env k (coords ix) tb) d f). lia.
Qed.

Lemma dfs_recursion_terminates_witness :
  exists ix tb s' new,
    graph_of open3 = Returned (ix, tb)
    /\ search_from_root (build_env 4 (coords ix) tb) 4 = Returned s'
    /\ visited_states s' = new ++ []
    /\ Forall (fun st =>
                 st = mkState (Bitset.init (N (build_env 4 (coords ix) tb)))
                        (Bitset.set (Bitset.init (N (build_env 4 (coords ix) tb)))
                           horse_idx) 4
                 \/ deeper (build_env 4 (coords ix) tb)
                      (Bitset.init (N (build_env 4 (coords ix) tb)))
                      (Bitset.set (Bitset.init (N (build_env 4 (coords ix) tb)))
                         horse_idx) 4 st) new.
Proof.
  assert (exists ix tb, graph_of open3 = Returned (ix, tb)) as (ix & tb & Hg)
    by (eexists _, _; vm_compute; reflexivity).
  destruct (env_horse open3 4 ix tb open3_valid Hg) as [HN _].
  destruct (dfs_recursion_terminates open3 4 ix tb _ _ 4
              (mkSearch [] 0%nat (Bitset.init (N (build_env 4 (coords ix) tb))))
              open3_valid Hg (state_ok_root _ HN)) as (s' & new & Hd & Hvs & Hnew).
  exists ix, tb, s', new. split; [exact Hg|]. split; [exact Hd|]. split; assumption.
Defined.

(** C6. [solve] does not look for rows of unequal length and has no error
    for them: it takes the number of columns from the first row and reads
    every row up to there.  On a grid whose rows are all at least as long
    as the first it returns what it returns on the grid cut to the length
    of the first row, a result whenever that grid is valid. *)
Theorem ragged_rows_unchecked k (g : grid) :
  Forall (fun row => (String.length (default ""%string (g !! 0%nat))
                      <= String.length row)%nat) g ->
  solve k g = solve k (crop g)
  /\ (valid_grid (crop g) = true -> exists res, solve k g = Returned res).
Proof.
  intros Hlen. pose proof (solve_crop k g Hlen) as Heq.
  split; [exact Heq|]. intros Hv. rewrite Heq. apply solve_total. exact Hv.
Qed.

Lemma ragged_rows_unchecked_witness :
  solve 4 ragged3 = solve 4 (crop ragged3)
  /\ (valid_grid (crop ragged3) = true -> exists res, solve 4 ragged3 = Returned res).
Proof.
  apply (ragged_rows_unchecked 4 ragged3).
  repeat constructor; cbn; lia.
Defined.

(** C1. At the budget [INT_MAX] the optimum is missed: [INF = k + 1]
    wraps to [INT_MIN], no separator is found, and [solve] reports area 0
    on the open 3x3 grid, although four walls around the horse are a
    placement within the budget that encloses one cell. *)
Theorem optimum_missed_at_int_max :
  valid_grid open3 = true
  /\ solve INT_MAX open3 = Returned (mkResult 0 [])
  /\ placement INT_MAX open3 [(0, 1); (1, 0); (1, 2); (2, 1)]
  /\ encloses_area open3 [(0, 1); (1, 0); (1, 2); (2, 1)] 1.
Proof.
  split; [reflexivity|]. split; [vm_compute; reflexivity|]. split.
  - split; [|split].
    + repeat constructor; intros Hin;
        repeat (apply elem_of_cons in Hin as [Hin|Hin]; [discriminate|]);
        inversion Hin.
    + unfold INT_MAX. cbn. lia.
    + repeat constructor.
  - eexists. split; [vm_compute; reflexivity|].
    split; vm_compute; reflexivity.
Qed.

(** C9. Monotonicity fails between the budgets [INT_MAX - 1] and
    [INT_MAX]: with [INT_MAX - 1] the root call of [dfs] finds the four
    walls around the horse of the open 3x3 grid and [solve] reports an area
    of at least 1; with [INT_MAX], where [INF = k + 1] wraps, it reports
    area 0. *)
Theorem monotonicity_fails_at_int_max :
  exists r1 r2,
    solve (INT_MAX - 1) open3 = Returned r1
    /\ solve (INT_MAX - 1 + 1) open3 = Returned r2
    /\ (best_area r2 < best_area r1)%nat.
Proof.
  destruct (solve_total open3 (INT_MAX - 1) open3_valid) as [r1 Hs1].
  exists r1, (mkResult 0 []). split; [exact Hs1|]. split; [vm_compute; reflexivity|].
  cbn [best_area].
  assert (exists ix tb vis ub esc cap fl cap' can vis2,
            graph_of open3 = Returned (ix, tb)
            /\ Bitset.test (boundary tb) horse_idx = false
            /\ bfs_reachable (build_env (INT_MAX - 1) (coords ix) tb)
                 (Bitset.init (N (build_env (INT_MAX - 1) (coords ix) tb)))
               = Returned (vis, ub, esc)
            /\ (0 <? ub)%nat = true
            /\ Bitset.subset_of
                 (Bitset.set (Bitset.init (N (build_env (INT_MAX - 1) (coords ix) tb)))
                    horse_idx) vis = true
            /\ patch_forced (build_env (INT_MAX - 1) (coords ix) tb)
                 (Bitset.init (N (build_env (INT_MAX - 1) (coords ix) tb)))
                 (Bitset.set (Bitset.init (N (build_env (INT_MAX - 1) (coords ix) tb)))
                    horse_idx)
                 (patch_deleted (build_env (INT_MAX - 1) (coords ix) tb)
                    (Bitset.init (N (build_env (INT_MAX - 1) (coords ix) tb)))
                    (Flow.base_cap (flow (build_env (INT_MAX - 1) (coords ix) tb))))
               = (cap, true)
            /\ Flow.flow_loop 10 (flow (build_env (INT_MAX - 1) (coords ix) tb))
                 (SRC (build_env (INT_MAX - 1) (coords ix) tb))
                 (SNK (build_env (INT_MAX - 1) (coords ix) tb))
                 (int_wrap (INT_MAX - 1 + 1)) cap 0
               = Returned (fl, cap')
            /\ (fl <=? INT_MAX - 1) = true
            /\ residual_reachable (build_env (INT_MAX - 1) (coords ix) tb) cap'
               = Returned can
            /\ bfs_reachable (build_env (INT_MAX - 1) (coords ix) tb)
                 (Bitset.union
                    (Bitset.init (N (build_env (INT_MAX - 1) (coords ix) tb)))
                    (extract_sep (build_env (INT_MAX - 1) (coords ix) tb)
                       (Bitset.init (N (build_env (INT_MAX - 1) (coords ix) tb)))
                       (Bitset.set
                          (Bitset.init (N (build_env (INT_MAX - 1) (coords ix) tb)))
                          horse_idx) can))
               = Returned (vis2, 1%nat, false))
    as (ix & tb & vis & ub & esc & cap & fl & cap' & can & vis2
        & Hg & Hbd & Hb1 & Hub & Hsub & Hp & Hfl & Hk & Hcan & Hb2).
  { eexists _, _, _, _, _, _, _, _, _, _.
    split; [vm_compute; reflexivity|]. split; [vm_compute; reflexivity|].
    split; [vm_compute; reflexivity|]. split; [vm_compute; reflexivity|].
    split; [vm_compute; reflexivity|]. split; [vm_compute; reflexivity|].
    split; [vm_compute; reflexivity|]. split; [vm_compute; reflexivity|].
    split; [vm_compute; reflexivity|]. vm_compute. reflexivity. }
  destruct (solve_search _ _ _ Hs1) as (ix' & tb' & Hg' & Hcase).
  assert (ix' = ix /\ tb' = tb) as [-> ->] by (split; congruence).
  destruct Hcase as [[Hbd' _]|(_ & s & Hsearch & ->)]; [congruence|].
  cbn [best_area]. unfold search_from_root in Hsearch.
  apply Nat.ltb_lt in Hub. apply Z.leb_le in Hk.
  apply (Nat.lt_le_trans _ 1); [lia|].
  eapply (dfs_records_enclosure _ _ _ _ _ _ _ _ _ _ _ _ _ Hsearch);
    [reflexivity|exact Hb1|exact Hub|exact Hsub| |exact Hb2].
  apply (min_separator_rounds _ _ _ _ 10 cap fl cap' can Hp Hfl); [|exact Hk|exact Hcan].
  assert (int_wrap (INT_MAX - 1 + 1) = INT_MAX) as -> by reflexivity.
  unfold INT_MAX. lia.
Qed.

(** * Concrete runs *)



(** C5, as stated, fails on the empty grid: [grid[0]] is read before
    anything else. *)
Lemma solve_empty_grid_out_of_range :
  solve 6 [] = OutOfRange /\ solve 6 [] <> Returned (mkResult 0 []).
Proof. split; [reflexivity | discriminate]. Qed.

(** C6, as stated, fails: rows of unequal length are not detected. *)
Lemma ragged_grid_is_solved :
  rectangular ragged3 = false
  /\ solve 4 ragged3 = Returned (mkResult 1 [(0, 1); (1, 0); (1, 2); (2, 1)]).
Proof. split; [reflexivity|]. vm_compute. reflexivity. Qed.
